(** * Range parsing of the semver package: a shallow embedding and its properties

    The development follows the Go sources: [getRegex] (parser.go), the
    normaliser [parseRange] with its helpers and the predicate builder
    [ParseRange] (range.go).  Go strings are byte strings, modelled by
    [string]; Go's [int] is a 64-bit integer, modelled by [Z] with the
    wrap-around written out. *)

From Stdlib Require Import Bool List Arith ZArith NArith Lia Ascii String.
Import ListNotations.
Open Scope string_scope.

(** ** Byte strings *)

Definition byte (c : ascii) : N := N_of_ascii c.

Fixpoint srev_append (s acc : string) : string :=
  match s with
  | EmptyString => acc
  | String c t => srev_append t (String c acc)
  end.

Definition srev (s : string) : string := srev_append s "".

Fixpoint take (n : nat) (s : string) : string :=
  match n, s with
  | S n', String c t => String c (take n' t)
  | _, _ => ""
  end.

Fixpoint drop (n : nat) (s : string) : string :=
  match n, s with
  | S n', String _ t => drop n' t
  | _, _ => s
  end.

(** [s[b:e]] *)
Definition slice (s : string) (b e : nat) : string := take (e - b) (drop b s).

Fixpoint has_prefix (p s : string) : bool :=
  match p, s with
  | EmptyString, _ => true
  | String a p', String b s' => Ascii.eqb a b && has_prefix p' s'
  | _, _ => false
  end.

Fixpoint contains_byte (c : ascii) (s : string) : bool :=
  match s with
  | EmptyString => false
  | String a t => Ascii.eqb a c || contains_byte c t
  end.

Fixpoint sall (p : ascii -> bool) (s : string) : bool :=
  match s with
  | EmptyString => true
  | String a t => p a && sall p t
  end.

(** ** package unicode/utf8 *)

Module utf8.

Definition RuneError : N := 65533.
Definition RuneSelf : N := 128.

(** [RuneStart]: the byte is not a continuation byte. *)
Definition RuneStart (b : N) : bool := negb (N.land b 192 =? 128)%N.

(** For a leading byte at least [0xC2] and at most [0xF4]: the size of the
    sequence and the range accepted for its second byte (the tables [first]
    and [acceptRanges]). *)
Definition first (s0 : N) : nat * N * N :=
  (if s0 <? 224 then (2%nat, 128, 191)
   else if s0 =? 224 then (3%nat, 160, 191)
   else if s0 =? 237 then (3%nat, 128, 159)
   else if s0 <? 240 then (3%nat, 128, 191)
   else if s0 =? 240 then (4%nat, 144, 191)
   else if s0 =? 244 then (4%nat, 128, 143)
   else (4%nat, 128, 191))%N.

Definition cont (b : N) : bool := ((128 <=? b) && (b <=? 191))%N.

Definition DecodeRuneInString (s : string) : N * nat :=
  match s with
  | EmptyString => (RuneError, 0%nat)
  | String c0 t0 =>
    let s0 := byte c0 in
    if (s0 <? RuneSelf)%N then (s0, 1%nat)
    else if ((s0 <? 194) || (244 <? s0))%N then (RuneError, 1%nat)
    else
      let '(sz, lo, hi) := first s0 in
      match t0 with
      | EmptyString => (RuneError, 1%nat)
      | String c1 t1 =>
        let s1 := byte c1 in
        if ((s1 <? lo) || (hi <? s1))%N then (RuneError, 1%nat)
        else if (sz <=? 2)%nat
        then (N.lor (N.shiftl (N.land s0 31) 6) (N.land s1 63), 2%nat)
        else
          match t1 with
          | EmptyString => (RuneError, 1%nat)
          | String c2 t2 =>
            let s2 := byte c2 in
            if negb (cont s2) then (RuneError, 1%nat)
            else if (sz <=? 3)%nat
            then (N.lor (N.shiftl (N.land s0 15) 12)
                    (N.lor (N.shiftl (N.land s1 63) 6) (N.land s2 63)), 3%nat)
            else
              match t2 with
              | EmptyString => (RuneError, 1%nat)
              | String c3 _ =>
                let s3 := byte c3 in
                if negb (cont s3) then (RuneError, 1%nat)
                else (N.lor (N.shiftl (N.land s0 7) 18)
                        (N.lor (N.shiftl (N.land s1 63) 12)
                           (N.lor (N.shiftl (N.land s2 63) 6) (N.land s3 63))),
                      4%nat)
              end
          end
      end
  end.

(** [DecodeLastRuneInString], on the reversed string [r]: the last byte is
    the head of [r].  The loop steps back over at most three bytes to the
    nearest [RuneStart] byte and decodes forward from there; the result is
    kept when it ends exactly at the end of the string. *)
Definition back_to_start (r : string) : option nat :=
  match r with
  | String _ (String b1 t1) =>
    if RuneStart (byte b1) then Some 2%nat
    else match t1 with
         | String b2 t2 =>
           if RuneStart (byte b2) then Some 3%nat
           else match t2 with
                | String b3 _ => if RuneStart (byte b3) then Some 4%nat else None
                | EmptyString => None
                end
         | EmptyString => None
         end
  | _ => None
  end.

Definition DecodeLastRune_rev (r : string) : N * nat :=
  match r with
  | EmptyString => (RuneError, 0%nat)
  | String c _ =>
    if (byte c <? RuneSelf)%N then (byte c, 1%nat)
    else match back_to_start r with
         | Some n =>
           let '(ru, size) := DecodeRuneInString (srev (take n r)) in
           if (size =? n)%nat then (ru, size) else (RuneError, 1%nat)
         | None => (RuneError, 1%nat)
         end
  end.

End utf8.

(** ** package unicode *)

Module unicode.

Definition MaxLatin1 : N := 255.

(** [IsSpace]: Latin-1 by the switch, the rest by the table [White_Space]. *)
Definition IsSpace (r : N) : bool :=
  (if r <=? MaxLatin1
   then (r =? 9) || (r =? 10) || (r =? 11) || (r =? 12) || (r =? 13)
        || (r =? 32) || (r =? 133) || (r =? 160)
   else (r =? 5760) || ((8192 <=? r) && (r <=? 8202)) || (r =? 8232)
        || (r =? 8233) || (r =? 8239) || (r =? 8287) || (r =? 12288))%N.

(** [IsDigit]: Latin-1 by the range ['0'..'9']; beyond Latin-1 by the range
    table [Digit] of the Unicode version the package is built with, which is
    the parameter [digitTable]. *)
Definition IsDigit (digitTable : N -> bool) (r : N) : bool :=
  (if r <=? MaxLatin1 then (48 <=? r) && (r <=? 57) else digitTable r)%N.

End unicode.

(** ** package strings *)

Module strings.

Definition asciiSpace (c : ascii) : bool :=
  let b := byte c in
  ((b =? 9) || (b =? 10) || (b =? 11) || (b =? 12) || (b =? 13) || (b =? 32))%N.

(** [TrimLeftFunc(s, unicode.IsSpace)]: the loop of [indexFunc]. *)
Fixpoint trimLeft (fuel : nat) (s : string) : string :=
  match fuel with
  | O => s
  | S fuel' =>
    match s with
    | EmptyString => ""
    | _ =>
      let '(r, size) := utf8.DecodeRuneInString s in
      if unicode.IsSpace r then trimLeft fuel' (drop size s) else s
    end
  end.

Definition TrimLeftSpace (s : string) : string := trimLeft (length s) s.

(** [TrimRightFunc(s, unicode.IsSpace)] on the reversed string: the loop of
    [lastIndexFunc]. *)
Fixpoint trimRight_rev (fuel : nat) (r : string) : string :=
  match fuel with
  | O => r
  | S fuel' =>
    match r with
    | EmptyString => ""
    | _ =>
      let '(ru, size) := utf8.DecodeLastRune_rev r in
      if unicode.IsSpace ru then trimRight_rev fuel' (drop size r) else r
    end
  end.

Definition TrimRightSpace (s : string) : string :=
  srev (trimRight_rev (length s) (srev s)).

(** The second loop of [TrimSpace], from the end, on the reversed string. *)
Fixpoint trimSpace_stop (r : string) : string :=
  match r with
  | EmptyString => ""
  | String c t =>
    if (utf8.RuneSelf <=? byte c)%N then srev (TrimRightSpace (srev r))
    else if asciiSpace c then trimSpace_stop t
    else r
  end.

(** [TrimSpace]: the ASCII fast path, leaving to the Unicode-aware functions
    at the first byte that is not ASCII. *)
Fixpoint TrimSpace (s : string) : string :=
  match s with
  | EmptyString => ""
  | String c t =>
    if (utf8.RuneSelf <=? byte c)%N then TrimRightSpace (TrimLeftSpace s)
    else if asciiSpace c then TrimSpace t
    else srev (trimSpace_stop (srev s))
  end.

(** [Join(elems, sep)] *)
Fixpoint Join (elems : list string) (sep : string) : string :=
  match elems with
  | [] => ""
  | [a] => a
  | a :: rest => a ++ sep ++ Join rest sep
  end.

(** [Split(s, sep)] for a separator of one byte: the pieces between the
    occurrences of the separator, [cur] being the piece read so far. *)
Fixpoint splitByte (sep : ascii) (s cur : string) : list string :=
  match s with
  | EmptyString => [srev cur]
  | String c t =>
    if Ascii.eqb c sep then srev cur :: splitByte sep t ""
    else splitByte sep t (String c cur)
  end.

(** [IndexFunc(s, f)]: the byte offset of the first rune satisfying [f];
    [skip] counts the bytes left of the rune being stepped over. *)
Fixpoint indexFunc (f : N -> bool) (s : string) (skip i : nat) : option nat :=
  match s with
  | EmptyString => None
  | String _ t =>
    match skip with
    | S k => indexFunc f t k (S i)
    | O =>
      let '(r, size) := utf8.DecodeRuneInString s in
      if f r then Some i else indexFunc f t (size - 1) (S i)
    end
  end.

Definition IndexFunc (s : string) (f : N -> bool) : option nat :=
  indexFunc f s 0 0.

(** [Index(s, substr)]: the byte offset of the first occurrence of [substr];
    [None] is -1. *)
Fixpoint Index (s substr : string) : option nat :=
  if has_prefix substr s then Some 0%nat
  else
    match s with
    | EmptyString => None
    | String _ t => option_map S (Index t substr)
    end.

Fixpoint runeCount (fuel : nat) (s : string) : nat :=
  match fuel, s with
  | S fuel', String _ _ =>
    S (runeCount fuel' (drop (snd (utf8.DecodeRuneInString s)) s))
  | _, _ => 0%nat
  end.

(** The loop of [Count] for a separator that is not empty. *)
Fixpoint count (fuel : nat) (s substr : string) : nat :=
  match fuel with
  | O => 0%nat
  | S fuel' =>
    match Index s substr with
    | None => 0%nat
    | Some i => S (count fuel' (drop (i + length substr) s) substr)
    end
  end.

(** [Count(s, substr)]: the occurrences that do not overlap. *)
Definition Count (s substr : string) : nat :=
  match substr with
  | EmptyString => (runeCount (length s) s + 1)%nat
  | _ => count (S (length s)) s substr
  end.

(** The loop of [Replace]: [n] replacements, each at the next occurrence of
    [old] (for an empty [old]: before the first rune, then after each rune).
    The loop runs [Count(s, old)] times at most, so an occurrence is found at
    every round. *)
Fixpoint replaceLoop (n : nat) (first : bool) (s old new : string) : string :=
  match n with
  | O => s
  | S n' =>
    match old with
    | EmptyString =>
      let j := if first then 0%nat else snd (utf8.DecodeRuneInString s) in
      take j s ++ new ++ replaceLoop n' false (drop j s) old new
    | _ =>
      match Index s old with
      | Some j => take j s ++ new ++ replaceLoop n' false (drop (j + length old) s) old new
      | None => s
      end
    end
  end.

(** [Replace(s, old, new, n)]: the first [n] occurrences, all of them for a
    negative [n]. *)
Definition Replace (s old new : string) (n : Z) : string :=
  if String.eqb old new || (n =? 0)%Z then s
  else
    let m := Count s old in
    if (m =? 0)%nat then s
    else
      let n := if (n <? 0)%Z || (Z.of_nat m <? n)%Z then m else Z.to_nat n in
      replaceLoop n true s old new.

(** [ContainsAny(s, chars)] for [chars] of ASCII bytes: an ASCII byte of [s]
    is always a rune of its own. *)
Definition ContainsAny (s chars : string) : bool :=
  negb (sall (fun c => negb (contains_byte c chars)) s).

End strings.

(** ** package strconv *)

Module strconv.

Definition isDigit (c : ascii) : bool := ((48 <=? byte c) && (byte c <=? 57))%N.

Definition digitVal (c : ascii) : Z := Z.of_N (byte c) - 48.

Fixpoint decimal (s : string) (acc : Z) : Z :=
  match s with
  | EmptyString => acc
  | String c t => decimal t (10 * acc + digitVal c)
  end.

Definition maxInt : Z := 2 ^ 63 - 1.
Definition minInt : Z := - 2 ^ 63.

(** A Go [int]: the value of an integer expression reduced to 64 bits. *)
Definition wrap (z : Z) : Z := (z + 2 ^ 63) mod 2 ^ 64 - 2 ^ 63.

(** [Atoi] with its error dropped, as every caller here writes
    [n, _ := strconv.Atoi(s)]: the value is [0] on a syntax error, and the
    nearest bound of [int] on a range error. *)
Definition Atoi (s : string) : Z :=
  let '(neg, ds) :=
    match s with
    | String c t =>
      if Ascii.eqb c "-" then (true, t)
      else if Ascii.eqb c "+" then (false, t)
      else (false, s)
    | EmptyString => (false, s)
    end in
  match ds with
  | EmptyString => 0
  | _ =>
    if sall isDigit ds then
      let n := decimal ds 0 in
      if neg then (if 2 ^ 63 <? n then minInt else - n)
      else (if 2 ^ 63 <=? n then maxInt else n)
    else 0
  end%Z.

Fixpoint digits (fuel : nat) (n : Z) (acc : string) : string :=
  match fuel with
  | O => acc
  | S fuel' =>
    let acc' := String (ascii_of_N (Z.to_N (48 + n mod 10))) acc in
    if (n <? 10)%Z then acc' else digits fuel' (n / 10) acc'
  end.

(** [Itoa] *)
Definition Itoa (i : Z) : string :=
  if (i <? 0)%Z then String "-" (digits 20 (- i) "") else digits 20 i "".

(** [NumError]: the function that failed, its argument, and [ErrSyntax] or
    [ErrRange]. *)
Inductive ErrKind : Type := ErrSyntax | ErrRange.

Record NumError : Type := { Func : string; Num : string; Err : ErrKind }.

Definition maxUint64 : Z := 2 ^ 64 - 1.

(** The loop of [ParseUint(s, 10, 64)] over the bytes of [s]: it returns at
    the first byte that is not a digit, and at the first digit that takes the
    value out of the range of [uint64]. *)
Fixpoint parseUintLoop (s : string) (n : Z) : Z * option ErrKind :=
  match s with
  | EmptyString => (n, None)
  | String c t =>
    if isDigit c then
      if (maxUint64 / 10 + 1 <=? n)%Z then (maxUint64, Some ErrRange)
      else
        let n10 := (n * 10)%Z in
        let n1 := ((n10 + digitVal c) mod 2 ^ 64)%Z in
        if (n1 <? n10)%Z || (maxUint64 <? n1)%Z then (maxUint64, Some ErrRange)
        else parseUintLoop t n1
    else (0%Z, Some ErrSyntax)
  end.

Definition ParseUint (s : string) : Z * option NumError :=
  match s with
  | EmptyString => (0%Z, Some {| Func := "ParseUint"; Num := s; Err := ErrSyntax |})
  | _ =>
    let '(n, e) := parseUintLoop s 0 in
    (n, option_map (fun k => {| Func := "ParseUint"; Num := s; Err := k |}) e)
  end.

(** [ParseInt(s, 10, 64)] *)
Definition ParseInt (s : string) : Z * option NumError :=
  match s with
  | EmptyString => (0%Z, Some {| Func := "ParseInt"; Num := s; Err := ErrSyntax |})
  | String c t =>
    let '(neg, ds) :=
      if Ascii.eqb c "+" then (false, t)
      else if Ascii.eqb c "-" then (true, t)
      else (false, s) in
    let '(un, err) := ParseUint ds in
    let syntax :=
      match err with
      | Some e => match Err e with ErrRange => false | ErrSyntax => true end
      | None => false
      end in
    if syntax then (0%Z, Some {| Func := "ParseInt"; Num := s; Err := ErrSyntax |})
    else
      let cutoff := (2 ^ 63)%Z in
      if negb neg && (cutoff <=? un)%Z
      then ((cutoff - 1)%Z, Some {| Func := "ParseInt"; Num := s; Err := ErrRange |})
      else if neg && (cutoff <? un)%Z
      then ((- cutoff)%Z, Some {| Func := "ParseInt"; Num := s; Err := ErrRange |})
      else
        let n := wrap un in
        ((if neg then wrap (- n) else n), None)
  end.

(** [Atoi] with its error: the fast path for the strings of fewer than 19
    bytes, [ParseInt] for the others. *)
Definition AtoiErr (s : string) : Z * option NumError :=
  let sLen := length s in
  if (0 <? sLen)%nat && (sLen <? 19)%nat then
    let neg := match s with String c _ => Ascii.eqb c "-" | EmptyString => false end in
    let ds :=
      match s with
      | String c t => if Ascii.eqb c "-" || Ascii.eqb c "+" then t else s
      | EmptyString => s
      end in
    if (length ds <? 1)%nat
    then (0%Z, Some {| Func := "Atoi"; Num := s; Err := ErrSyntax |})
    else if sall isDigit ds
    then ((if neg then - decimal ds 0 else decimal ds 0)%Z, None)
    else (0%Z, Some {| Func := "Atoi"; Num := s; Err := ErrSyntax |})
  else
    let '(i64, err) := ParseInt s in
    (i64, option_map (fun e => {| Func := "Atoi"; Num := Num e; Err := Err e |}) err).

End strconv.


(** ** package regexp

    The patterns of this package are matched on bytes with the leftmost-first
    discipline of Go's [regexp]: among the matches that start leftmost, the
    one a backtracking search finds first.  Every atom of the patterns of
    [getRegex] is an ASCII byte or a class of ASCII bytes, so matching bytes
    and matching runes agree on them. *)

Module regexp.

Inductive re : Type :=
| Eps
| Chr (c : ascii)
| Cls (ranges : list (ascii * ascii))
| Seq (a b : re)
| Alt (a b : re)
| Star (a : re)
| Cap (i : nat) (a : re)
| Bol
| Eol.

(** [x+] and [x?] (greedy). *)
Definition Plus (a : re) : re := Seq a (Star a).
Definition Opt (a : re) : re := Alt a Eps.

(** A capturing group as it is written, before [MustCompile] numbers it. *)
Definition Group (a : re) : re := Cap 0 a.

Fixpoint Lit (s : string) : re :=
  match s with
  | EmptyString => Eps
  | String c EmptyString => Chr c
  | String c t => Seq (Chr c) (Lit t)
  end.

Definition in_class (ranges : list (ascii * ascii)) (c : ascii) : bool :=
  existsb (fun r => (byte (fst r) <=? byte c) && (byte c <=? byte (snd r)))%N ranges.

(** Groups are numbered by their opening parenthesis, left to right. *)
Fixpoint number (r : re) (n : nat) : re * nat :=
  match r with
  | Seq a b => let '(a', n1) := number a n in
               let '(b', n2) := number b n1 in (Seq a' b', n2)
  | Alt a b => let '(a', n1) := number a n in
               let '(b', n2) := number b n1 in (Alt a' b', n2)
  | Star a => let '(a', n1) := number a n in (Star a', n1)
  | Cap _ a => let '(a', n1) := number a (S n) in (Cap n a', n1)
  | _ => (r, n)
  end.

(** A compiled pattern: the whole match is group 0, and [numSubexp] is the
    number of the groups written in the pattern. *)
Record Regexp : Type := { prog : re; numSubexp : nat }.

Definition MustCompile (r : re) : Regexp :=
  let '(r', n) := number r 1 in {| prog := Cap 0 r'; numSubexp := Nat.pred n |}.

(** The submatches found so far, by group number. *)
Definition caps : Type := list (option string).

Fixpoint upd (i : nat) (v : option string) (c : caps) : caps :=
  match c, i with
  | [], _ => []
  | _ :: t, O => v :: t
  | x :: t, S j => x :: upd j v t
  end.

Definition result : Type := option (string * caps).
Definition cont : Type := string -> caps -> result.

(** Greedy iteration: one more round of the body, which must consume
    something, before the continuation. *)
Definition star_loop (body : cont -> cont) (k : cont) : nat -> cont :=
  fix loop (n : nat) (s : string) (c : caps) : result :=
    match n with
    | O => k s c
    | S n' =>
      match body (fun s' c' =>
                    if (length s' <? length s)%nat then loop n' s' c' else None)
                 s c with
      | Some x => Some x
      | None => k s c
      end
    end.

(** [m n0 r k s c]: match [r] at the head of [s], then continue with [k] on
    what is left; alternatives are tried in order and the first success is
    the result.  [n0] is the length of the whole text, for [^]. *)
Fixpoint m (n0 : nat) (r : re) (k : cont) (s : string) (c : caps) {struct r}
  : result :=
  match r with
  | Eps => k s c
  | Chr a =>
    match s with
    | String b t => if Ascii.eqb a b then k t c else None
    | EmptyString => None
    end
  | Cls rs =>
    match s with
    | String b t => if in_class rs b then k t c else None
    | EmptyString => None
    end
  | Seq a b => m n0 a (m n0 b k) s c
  | Alt a b =>
    match m n0 a k s c with
    | Some x => Some x
    | None => m n0 b k s c
    end
  | Star a => star_loop (m n0 a) k (S (length s)) s c
  | Cap i a =>
    m n0 a (fun s' c' => k s' (upd i (Some (take (length s - length s') s)) c')) s c
  | Bol => if (length s =? n0)%nat then k s c else None
  | Eol => match s with EmptyString => k s c | _ => None end
  end.

Definition accept : cont := fun s c => Some (s, c).

(** A match of the pattern starting exactly at the head of [s]: what is left
    after it, and the submatches. *)
Definition matchHere (re : Regexp) (n0 : nat) (s : string) : result :=
  m n0 (prog re) accept s (repeat None (S (numSubexp re))).

(** The leftmost match at or after the head of [s]: the text before it, what
    is left after it, and the submatches. *)
Fixpoint search (re : Regexp) (n0 : nat) (s : string) : option (string * string * caps) :=
  match matchHere re n0 s with
  | Some (rest, c) => Some ("", rest, c)
  | None =>
    match s with
    | EmptyString => None
    | String ch t =>
      match search re n0 t with
      | Some (pre, rest, c) => Some (String ch pre, rest, c)
      | None => None
      end
    end
  end.

Definition group (c : caps) (i : nat) : string :=
  match nth i c None with Some w => w | None => "" end.

Definition MatchString (re : Regexp) (s : string) : bool :=
  match search re (length s) s with Some _ => true | None => false end.

(** [FindStringSubmatch]: [None] is the nil slice. *)
Definition FindStringSubmatch (re : Regexp) (s : string) : option (list string) :=
  match search re (length s) s with
  | Some (_, _, c) => Some (map (fun o => match o with Some w => w | None => "" end) c)
  | None => None
  end.

(** [match[i]] of a submatch slice. *)
Definition sub (mt : list string) (i : nat) : string := nth i mt "".

(** All successive matches, as in [allMatches] and in the loop of
    [replaceAll]: each with the unmatched text before it, and the text after
    the last one.  An empty match is dropped when the previous match ends
    where it stands; the search then moves on by one byte. *)
Definition push (ch : ascii) (r : list (string * caps) * string)
  : list (string * caps) * string :=
  match r with
  | ([], tl) => ([], String ch tl)
  | ((g, c) :: ms, tl) => ((String ch g, c) :: ms, tl)
  end.

Fixpoint matches (fuel : nat) (re : Regexp) (n0 : nat) (s : string) (prevEnd : bool)
  : list (string * caps) * string :=
  match fuel with
  | O => ([], s)
  | S fuel' =>
    let step :=
      match s with
      | EmptyString => ([], "")
      | String ch t => push ch (matches fuel' re n0 t false)
      end in
    match matchHere re n0 s with
    | Some (rest, c) =>
      if (length rest <? length s)%nat
      then let '(ms, tl) := matches fuel' re n0 rest true in (("", c) :: ms, tl)
      else if prevEnd then step
      else let '(ms, tl) := step in (("", c) :: ms, tl)
    | None => step
    end
  end.

Definition allMatches (re : Regexp) (s : string) : list (string * caps) * string :=
  matches (S (length s)) re (length s) s false.

Definition isNameByte (c : ascii) : bool :=
  let b := byte c in
  ((b =? 95) || ((48 <=? b) && (b <=? 57)) || ((65 <=? b) && (b <=? 90))
   || ((97 <=? b) && (b <=? 122)))%N.

(** The value of [$name], [name] read in reverse: a number is a group
    number, any other name is the name of a group, and these patterns have
    no named group; without a name the [$] stands for itself. *)
Definition refValue (name_rev : string) (c : caps) : string :=
  match name_rev with
  | EmptyString => "$"
  | _ =>
    let name := srev name_rev in
    if sall strconv.isDigit name && (length name <? 9)%nat
    then group c (Z.to_nat (strconv.decimal name 0))
    else ""
  end.

(** [expand] for the templates [$name] and [$$] (the form with braces is
    not used by this package). *)
Fixpoint expand (template : string) (c : caps) (name_rev : option string) : string :=
  match template with
  | EmptyString =>
    match name_rev with Some nm => refValue nm c | None => "" end
  | String ch t =>
    let plain :=
      if Ascii.eqb ch "$" then
        match t with
        | String "$" t' => String "$" (expand t' c None)
        | _ => expand t c (Some "")
        end
      else String ch (expand t c None) in
    match name_rev with
    | Some nm =>
      if isNameByte ch then expand t c (Some (String ch nm))
      else refValue nm c ++ plain
    | None => plain
    end
  end.

Fixpoint concat_pieces (repl : string) (ms : list (string * caps)) (tl : string) : string :=
  match ms with
  | [] => tl
  | (g, c) :: ms' => g ++ expand repl c None ++ concat_pieces repl ms' tl
  end.

(** [ReplaceAllString]: every match is replaced by the expanded template,
    the text between the matches is kept. *)
Definition ReplaceAllString (re : Regexp) (src repl : string) : string :=
  let '(ms, tl) := allMatches re src in concat_pieces repl ms tl.

(** The loop of [Split(s, -1)]: [beg] is the end of the previous match;
    the piece before a match is kept unless the match ends at offset 0;
    the result carries the start of the last match. *)
Fixpoint splitLoop (ms : list (string * caps)) (beg end_ : nat) : list string * nat :=
  match ms with
  | [] => ([], end_)
  | (g, c) :: ms' =>
    let e := (beg + length g)%nat in
    let e1 := (e + length (group c 0))%nat in
    let '(out, last) := splitLoop ms' e1 e in
    (if (e1 =? 0)%nat then out else g :: out, last)
  end.

(** [Split(s, -1)] *)
Definition Split (re : Regexp) (s : string) : list string :=
  match s with
  | EmptyString => [""]
  | _ =>
    let '(ms, tl) := allMatches re s in
    let '(out, last) := splitLoop ms 0 0 in
    if (last =? length s)%nat then out else out ++ [tl]
  end.

End regexp.

Import regexp.

(** ** parser.go: the grammar *)

Module Grammar.

Definition digit : re := Cls [("0", "9")]%char.                      (* \d *)
Definition space : re := Cls [("009", "010"); ("012", "013"); (" ", " ")]%char. (* \s *)
Definition dot : re := Chr ".".                                       (* \. *)

(** 0|[1-9]\d* : a single 0, or a digit that is not 0 and then digits *)
Definition NUMERICIDENTIFIER : re :=
  Alt (Chr "0") (Seq (Cls [("1", "9")]%char) (Star digit)).

(** [0-9]+ *)
Definition NUMERICIDENTIFIERLOOSE : re := Plus (Cls [("0", "9")]%char).

(** \d*[a-zA-Z-][a-zA-Z0-9-]* *)
Definition NONNUMERICIDENTIFIER : re :=
  Seq (Star digit)
    (Seq (Cls [("a", "z"); ("A", "Z"); ("-", "-")]%char)
       (Star (Cls [("a", "z"); ("A", "Z"); ("0", "9"); ("-", "-")]%char))).

Definition MAINVERSION : re :=
  Seq (Group NUMERICIDENTIFIER)
    (Seq dot (Seq (Group NUMERICIDENTIFIER) (Seq dot (Group NUMERICIDENTIFIER)))).

Definition MAINVERSIONLOOSE : re :=
  Seq (Group NUMERICIDENTIFIERLOOSE)
    (Seq dot (Seq (Group NUMERICIDENTIFIERLOOSE)
                (Seq dot (Group NUMERICIDENTIFIERLOOSE)))).

(** (?: NUMERICIDENTIFIER | NONNUMERICIDENTIFIER ) *)
Definition PRERELEASEIDENTIFIER : re := Alt NUMERICIDENTIFIER NONNUMERICIDENTIFIER.

Definition PRERELEASEIDENTIFIERLOOSE : re :=
  Alt NUMERICIDENTIFIERLOOSE NONNUMERICIDENTIFIER.

(** a hyphen, then the group: PRERELEASEIDENTIFIER, and any number of
    times a dot and PRERELEASEIDENTIFIER *)
Definition PRERELEASE : re :=
  Seq (Chr "-")
    (Group (Seq PRERELEASEIDENTIFIER (Star (Seq dot PRERELEASEIDENTIFIER)))).

(** the same with the loose identifier, the hyphen being optional *)
Definition PRERELEASELOOSE : re :=
  Seq (Opt (Chr "-"))
    (Group (Seq PRERELEASEIDENTIFIERLOOSE (Star (Seq dot PRERELEASEIDENTIFIERLOOSE)))).

(** [0-9A-Za-z-]+ *)
Definition BUILDIDENTIFIER : re :=
  Plus (Cls [("0", "9"); ("A", "Z"); ("a", "z"); ("-", "-")]%char).

(** a plus sign, then the group: BUILDIDENTIFIER, and any number of times a
    dot and BUILDIDENTIFIER *)
Definition BUILD : re :=
  Seq (Chr "+") (Group (Seq BUILDIDENTIFIER (Star (Seq dot BUILDIDENTIFIER)))).

(** v? MAINVERSION PRERELEASE? BUILD? *)
Definition FULLPLAIN : re :=
  Seq (Opt (Chr "v")) (Seq MAINVERSION (Seq (Opt PRERELEASE) (Opt BUILD))).

Definition FULL : re := Seq Bol (Seq FULLPLAIN Eol).

(** [v=\s]* *)
Definition vEqSpace : re :=
  Star (Cls [("v", "v"); ("=", "="); ("009", "010"); ("012", "013"); (" ", " ")]%char).

(** [v=\s]* MAINVERSIONLOOSE PRERELEASELOOSE? BUILD? *)
Definition LOOSEPLAIN : re :=
  Seq vEqSpace (Seq MAINVERSIONLOOSE (Seq (Opt PRERELEASELOOSE) (Opt BUILD))).

Definition LOOSE : re := Seq Bol (Seq LOOSEPLAIN Eol).

(** the group of an optional < or > and an optional = *)
Definition GTLT : re := Group (Seq (Opt (Alt (Chr "<") (Chr ">"))) (Opt (Chr "="))).

(** The numeric identifier, or one of x, X and the star; every use stands
    between parentheses. *)
Definition XRANGEIDENTIFIERLOOSE : re :=
  Alt NUMERICIDENTIFIERLOOSE (Alt (Chr "x") (Alt (Chr "X") (Chr "*"))).

Definition XRANGEIDENTIFIER : re :=
  Alt NUMERICIDENTIFIER (Alt (Chr "x") (Alt (Chr "X") (Chr "*"))).

(** [v=\s]* and the group of the major; then optionally a dot, the group of
    the minor and, optionally again, a dot, the group of the patch,
    PRERELEASE? and BUILD? *)
Definition XRANGEPLAIN : re :=
  Seq vEqSpace
    (Seq (Group XRANGEIDENTIFIER)
       (Opt (Seq dot
               (Seq (Group XRANGEIDENTIFIER)
                  (Opt (Seq dot
                          (Seq (Group XRANGEIDENTIFIER)
                             (Seq (Opt PRERELEASE) (Opt BUILD))))))))).

Definition XRANGEPLAINLOOSE : re :=
  Seq vEqSpace
    (Seq (Group XRANGEIDENTIFIERLOOSE)
       (Opt (Seq dot
               (Seq (Group XRANGEIDENTIFIERLOOSE)
                  (Opt (Seq dot
                          (Seq (Group XRANGEIDENTIFIERLOOSE)
                             (Seq (Opt PRERELEASELOOSE) (Opt BUILD))))))))).

(** ^ GTLT \s* XRANGEPLAIN $ *)
Definition XRANGE : re := Seq Bol (Seq GTLT (Seq (Star space) (Seq XRANGEPLAIN Eol))).

Definition XRANGELOOSE : re :=
  Seq Bol (Seq GTLT (Seq (Star space) (Seq XRANGEPLAINLOOSE Eol))).

(** ~>? *)
Definition LONETILDE : re := Seq (Chr "~") (Opt (Chr ">")).

(** the group of \s*, then LONETILDE \s+ *)
Definition TILDETRIM : re := Seq (Group (Star space)) (Seq LONETILDE (Plus space)).

(** ^ LONETILDE XRANGEPLAIN $ *)
Definition TILDE : re := Seq Bol (Seq LONETILDE (Seq XRANGEPLAIN Eol)).

Definition TILDELOOSE : re := Seq Bol (Seq LONETILDE (Seq XRANGEPLAINLOOSE Eol)).

(** the caret *)
Definition LONECARET : re := Chr "^".

Definition CARETTRIM : re := Seq (Group (Star space)) (Seq LONECARET (Plus space)).

Definition CARET : re := Seq Bol (Seq LONECARET (Seq XRANGEPLAIN Eol)).

Definition CARETLOOSE : re := Seq Bol (Seq LONECARET (Seq XRANGEPLAINLOOSE Eol)).

(** ^ GTLT \s* and the group of LOOSEPLAIN, then $; or else ^$.  And the
    strict form. *)
Definition COMPARATORLOOSE : re :=
  Alt (Seq Bol (Seq GTLT (Seq (Star space) (Seq (Group LOOSEPLAIN) Eol))))
      (Seq Bol Eol).

Definition COMPARATOR : re :=
  Alt (Seq Bol (Seq GTLT (Seq (Star space) (Seq (Group FULLPLAIN) Eol))))
      (Seq Bol Eol).

(** the group of \s*, then GTLT \s* and the group of
    LOOSEPLAIN | XRANGEPLAIN *)
Definition COMPARATORTRIM : re :=
  Seq (Group (Star space))
    (Seq GTLT (Seq (Star space) (Group (Alt LOOSEPLAIN XRANGEPLAIN)))).

(** ^ \s* and the group of XRANGEPLAIN, then \s+ - \s+, the group of
    XRANGEPLAIN and \s* $ *)
Definition HYPHENRANGE : re :=
  Seq Bol
    (Seq (Star space)
       (Seq (Group XRANGEPLAIN)
          (Seq (Plus space)
             (Seq (Chr "-")
                (Seq (Plus space)
                   (Seq (Group XRANGEPLAIN) (Seq (Star space) Eol))))))).

Definition HYPHENRANGELOOSE : re :=
  Seq Bol
    (Seq (Star space)
       (Seq (Group XRANGEPLAINLOOSE)
          (Seq (Plus space)
             (Seq (Chr "-")
                (Seq (Plus space)
                   (Seq (Group XRANGEPLAINLOOSE) (Seq (Star space) Eol))))))).

(** optionally the group of < or >, then =? \s* and the star *)
Definition STAR : re :=
  Seq (Opt (Group (Alt (Chr "<") (Chr ">"))))
    (Seq (Opt (Chr "=")) (Seq (Star space) (Chr "*"))).

(** A pattern that matches nothing, for a key the map does not hold. *)
Definition absent : re := Cls [].

End Grammar.

(** [getRegex]: the map from the names of the patterns to the compiled
    patterns.  ([COERCE] is built there too and is used by none of the
    functions below.) *)
Definition getRegex (key : string) : Regexp :=
  MustCompile
    match key with
    | "NUMERICIDENTIFIER" => Grammar.NUMERICIDENTIFIER
    | "NUMERICIDENTIFIERLOOSE" => Grammar.NUMERICIDENTIFIERLOOSE
    | "NONNUMERICIDENTIFIER" => Grammar.NONNUMERICIDENTIFIER
    | "MAINVERSION" => Grammar.MAINVERSION
    | "MAINVERSIONLOOSE" => Grammar.MAINVERSIONLOOSE
    | "PRERELEASEIDENTIFIER" => Grammar.PRERELEASEIDENTIFIER
    | "PRERELEASEIDENTIFIERLOOSE" => Grammar.PRERELEASEIDENTIFIERLOOSE
    | "PRERELEASE" => Grammar.PRERELEASE
    | "PRERELEASELOOSE" => Grammar.PRERELEASELOOSE
    | "BUILDIDENTIFIER" => Grammar.BUILDIDENTIFIER
    | "BUILD" => Grammar.BUILD
    | "FULL" => Grammar.FULL
    | "LOOSE" => Grammar.LOOSE
    | "GTLT" => Grammar.GTLT
    | "XRANGEIDENTIFIERLOOSE" => Grammar.XRANGEIDENTIFIERLOOSE
    | "XRANGEIDENTIFIER" => Grammar.XRANGEIDENTIFIER
    | "XRANGEPLAIN" => Grammar.XRANGEPLAIN
    | "XRANGEPLAINLOOSE" => Grammar.XRANGEPLAINLOOSE
    | "XRANGE" => Grammar.XRANGE
    | "XRANGELOOSE" => Grammar.XRANGELOOSE
    | "LONETILDE" => Grammar.LONETILDE
    | "TILDETRIM" => Grammar.TILDETRIM
    | "TILDE" => Grammar.TILDE
    | "TILDELOOSE" => Grammar.TILDELOOSE
    | "LONECARET" => Grammar.LONECARET
    | "CARETTRIM" => Grammar.CARETTRIM
    | "CARET" => Grammar.CARET
    | "CARETLOOSE" => Grammar.CARETLOOSE
    | "COMPARATORLOOSE" => Grammar.COMPARATORLOOSE
    | "COMPARATOR" => Grammar.COMPARATOR
    | "COMPARATORTRIM" => Grammar.COMPARATORTRIM
    | "HYPHENRANGE" => Grammar.HYPHENRANGE
    | "HYPHENRANGELOOSE" => Grammar.HYPHENRANGELOOSE
    | "STAR" => Grammar.STAR
    | _ => Grammar.absent
    end.

(** The patterns compiled in place by [ParseRange] and its helpers. *)
Definition reSpaces : Regexp := MustCompile (Plus Grammar.space).   (* \s+ *)

Definition reOr : Regexp :=                                          (* \s*\|\|\s* *)
  MustCompile (Seq (Star Grammar.space)
                 (Seq (Chr "|") (Seq (Chr "|") (Star Grammar.space)))).

(** ** range.go: the normaliser *)

Definition isX (s : string) : bool :=
  (length s =? 0)%nat || String.eqb s "x" || String.eqb s "X" || String.eqb s "*".

(** [strconv.Itoa(n + 1)] on a Go [int] *)
Definition incr (n : Z) : string := strconv.Itoa (strconv.wrap (n + 1)).

Definition hyphenReplace (re : string -> Regexp) (s : string) : string :=
  if negb (MatchString (re "HYPHENRANGE") s) then s
  else
    match FindStringSubmatch (re "HYPHENRANGE") s with
    | None => s
    | Some mt =>
      let from := sub mt 1 in
      let fM := sub mt 2 in
      let fm := sub mt 3 in
      let fp := sub mt 4 in
      let to := sub mt 7 in
      let tM := sub mt 8 in
      let tm := sub mt 9 in
      let tp := sub mt 10 in
      let tpr := sub mt 11 in
      let from :=
        if isX fM then ""
        else if isX fm then ">=" ++ fM ++ ".0.0"
        else if isX fp then ">=" ++ fM ++ "." ++ fm ++ ".0"
        else ">=" ++ from in
      let to :=
        if isX tM then ""
        else if isX tm then "<" ++ incr (strconv.Atoi tM) ++ ".0.0"
        else if isX tp then "<" ++ tM ++ "." ++ incr (strconv.Atoi tm) ++ ".0"
        else if (0 <? length tpr)%nat then "<=" ++ tM ++ "." ++ tm ++ "." ++ tp ++ "-" ++ tpr
        else "<=" ++ to in
      strings.TrimSpace (from ++ " " ++ to)
    end.

Definition replaceTilde (re : string -> Regexp) (s : string) : string :=
  if negb (MatchString (re "TILDE") s) then s
  else
    match FindStringSubmatch (re "TILDE") s with
    | None => s
    | Some mt =>
      let M := sub mt 1 in
      let m := sub mt 2 in
      let p := sub mt 3 in
      let pr := sub mt 4 in
      let major := strconv.Atoi M in
      let minor := strconv.Atoi m in
      if isX M then ""
      else if isX m then ">=" ++ M ++ ".0.0 <" ++ incr major ++ ".0.0"
      else if isX p then
        ">=" ++ M ++ "." ++ m ++ ".0 <" ++ M ++ "." ++ incr minor ++ ".0"
      else if (0 <? length pr)%nat then
        ">=" ++ M ++ "." ++ m ++ "." ++ p ++ "-" ++ pr ++
        " <" ++ M ++ "." ++ incr minor ++ ".0"
      else
        ">=" ++ M ++ "." ++ m ++ "." ++ p ++
        " <" ++ M ++ "." ++ incr minor ++ ".0"
    end.

Definition replaceTildes (re : string -> Regexp) (s : string) : string :=
  let s := strings.TrimSpace s in
  let parts := Split reSpaces s in
  strings.Join (map (replaceTilde re) parts) " ".

Definition replaceCaret (re : string -> Regexp) (s : string) : string :=
  if negb (MatchString (re "CARET") s) then s
  else
    match FindStringSubmatch (re "CARET") s with
    | None => s
    | Some mt =>
      let M := sub mt 1 in
      let m := sub mt 2 in
      let p := sub mt 3 in
      let pr := sub mt 4 in
      let major := strconv.Atoi M in
      let minor := strconv.Atoi m in
      let patch := strconv.Atoi p in
      if isX M then ""
      else if isX m then ">=" ++ M ++ ".0.0 <" ++ incr major ++ ".0.0"
      else if isX p then
        if String.eqb M "0"
        then ">=" ++ M ++ "." ++ m ++ ".0 <" ++ M ++ "." ++ incr minor ++ ".0"
        else ">=" ++ M ++ "." ++ m ++ ".0 <" ++ incr major ++ ".0.0"
      else if (0 <? length pr)%nat then
        if String.eqb M "0" then
          if String.eqb m "0"
          then ">=" ++ M ++ "." ++ m ++ "." ++ p ++ "-" ++ pr ++
               " <" ++ M ++ "." ++ m ++ "." ++ incr patch
          else ">=" ++ M ++ "." ++ m ++ "." ++ p ++ "-" ++ pr ++
               " <" ++ M ++ "." ++ incr minor ++ ".0"
        else ">=" ++ M ++ "." ++ m ++ "." ++ p ++ "-" ++ pr ++
             " <" ++ incr major ++ ".0.0"
      else
        if String.eqb M "0" then
          if String.eqb m "0"
          then ">=" ++ M ++ "." ++ m ++ "." ++ p ++
               " <" ++ M ++ "." ++ m ++ "." ++ incr patch
          else ">=" ++ M ++ "." ++ m ++ "." ++ p ++
               " <" ++ M ++ "." ++ incr minor ++ ".0"
        else ">=" ++ M ++ "." ++ m ++ "." ++ p ++
             " <" ++ incr major ++ ".0.0"
    end.

Definition replaceCarets (re : string -> Regexp) (s : string) : string :=
  let s := strings.TrimSpace s in
  let parts := Split reSpaces s in
  strings.Join (map (replaceCaret re) parts) " ".

Definition replaceXRange (re : string -> Regexp) (s : string) : string :=
  if negb (MatchString (re "XRANGE") s) then s
  else
    match FindStringSubmatch (re "XRANGE") s with
    | None => s
    | Some mt =>
      let ret := sub mt 0 in
      let gtlt := sub mt 1 in
      let M := sub mt 2 in
      let m := sub mt 3 in
      let p := sub mt 4 in
      let xM := isX M in
      let xm := xM || isX m in
      let xp := xm || isX p in
      let anyX := xp in
      let gtlt := if String.eqb gtlt "=" && anyX then "" else gtlt in
      let major := strconv.Atoi M in
      let minor := strconv.Atoi m in
      if xM then
        if String.eqb gtlt ">" || String.eqb gtlt "<" then "<0.0.0" else "*"
      else if (0 <? length gtlt)%nat && anyX then
        let m := if xm then "0" else m in
        let p := "0" in
        let '(gtlt, M, m, p) :=
          if String.eqb gtlt ">" then
            if xm then (">=", incr major, "0", "0")
            else (">=", M, incr minor, "0")
          else if String.eqb gtlt "<=" then
            if xm then ("<", incr major, m, p)
            else ("<", M, incr minor, p)
          else (gtlt, M, m, p) in
        gtlt ++ M ++ "." ++ m ++ "." ++ p
      else if xm then ">=" ++ M ++ ".0.0 <" ++ incr major ++ ".0.0"
      else if xp then
        ">=" ++ M ++ "." ++ m ++ ".0 <" ++ M ++ "." ++ incr minor ++ ".0"
      else ret
    end.

Definition replaceXRanges (re : string -> Regexp) (s : string) : string :=
  let s := strings.TrimSpace s in
  let parts := Split reSpaces s in
  strings.Join (map (replaceXRange re) parts) " ".

Definition replaceStars (re : string -> Regexp) (s : string) : string :=
  ReplaceAllString (re "STAR") (strings.TrimSpace s) ">=0.0.0".

(** [replaceV] of range_parser.go, the last step there, changes nothing. *)
Definition replaceV (re : string -> Regexp) (s : string) : string := s.

Definition parseComparatorString (re : string -> Regexp) (s : string) : string :=
  let s := replaceCarets re s in
  let s := replaceTildes re s in
  let s := replaceXRanges re s in
  let s := replaceStars re s in
  s.

Definition parseRange (s : string) : list string :=
  let s := strings.TrimSpace s in
  let re := getRegex in
  let s := hyphenReplace re s in
  let s := ReplaceAllString (re "COMPARATORTRIM") s "$1$2$3" in
  let s := ReplaceAllString (re "TILDETRIM") s "$1~" in
  let s := ReplaceAllString (re "CARETTRIM") s "$1^" in
  let s := strings.Join (Split reSpaces s) " " in
  let out := map (parseComparatorString re) (strings.splitByte " " s "") in
  Split reSpaces (strings.Join out " ").

(** ** range.go: the predicate builder *)

Section Range.

(** The collaborator: the type [Version] with [Parse] and [Compare]
    (semver.go), and the table [unicode.Digit] beyond Latin-1. *)
Variable Version : Type.
Variable VersionError : Type.
Variable Parse : string -> Version + VersionError.
Variable Compare : Version -> Version -> Z.
Variable digitTable : N -> bool.

Definition comparator : Type := Version -> Version -> bool.

Definition compEQ : comparator := fun v1 v2 => (Compare v1 v2 =? 0)%Z.
Definition compNE : comparator := fun v1 v2 => negb (Compare v1 v2 =? 0)%Z.
Definition compGT : comparator := fun v1 v2 => (Compare v1 v2 =? 1)%Z.
Definition compGE : comparator := fun v1 v2 => (Compare v1 v2 >=? 0)%Z.
Definition compLT : comparator := fun v1 v2 => (Compare v1 v2 =? -1)%Z.
Definition compLE : comparator := fun v1 v2 => (Compare v1 v2 <=? 0)%Z.

Record versionRange : Type := { v : Version; c : comparator }.

(** A [Range] is a function value: [None] is the nil function, and the
    result [None] of a call is the run-time panic of calling nil. *)
Definition RangeFunc : Type := Version -> option bool.
Definition Range : Type := option RangeFunc.

Definition call (rf : Range) (x : Version) : option bool :=
  match rf with
  | Some f => f x
  | None => None
  end.

Definition rangeFunc (vr : versionRange) : Range :=
  Some (fun x => Some (c vr x (v vr))).

Definition OR (rf f : Range) : Range :=
  Some (fun x =>
          match call rf x with
          | Some true => Some true
          | Some false => call f x
          | None => None
          end).

Definition AND (rf f : Range) : Range :=
  Some (fun x =>
          match call rf x with
          | Some true => call f x
          | Some false => Some false
          | None => None
          end).

(** The errors, by the values their messages are formatted from. *)
Inductive error : Type :=
| ErrNoVersion (s : string)
| ErrComparator (opStr full : string)
| ErrVersion (vStr full : string) (err : VersionError)
| ErrRange (ap : string) (err : error).

Definition parseComparator (s : string) : option comparator :=
  if String.eqb s "==" || String.eqb s "" || String.eqb s "=" then Some compEQ
  else if String.eqb s ">" then Some compGT
  else if String.eqb s ">=" then Some compGE
  else if String.eqb s "<" then Some compLT
  else if String.eqb s "<=" then Some compLE
  else if String.eqb s "!" || String.eqb s "!=" then Some compNE
  else None.

Definition buildVersionRange (opStr vStr : string) : versionRange + error :=
  match parseComparator opStr with
  | None => inr (ErrComparator opStr (strings.Join [opStr; vStr] ""))
  | Some cmp =>
    match Parse vStr with
    | inr err => inr (ErrVersion vStr (strings.Join [opStr; vStr] "") err)
    | inl ver => inl {| v := ver; c := cmp |}
    end
  end.

Definition splitComparatorVersion (s : string) : string * string + error :=
  if String.eqb s "x" then inl ("", "x")
  else
    match strings.IndexFunc s (unicode.IsDigit digitTable) with
    | None => inr (ErrNoVersion s)
    | Some i => inl (strings.TrimSpace (take i s), drop i s)
    end.

(** The loop of [ParseRange] over the OR parts. *)
Definition expandedParts (s : string) : list (list string) :=
  flat_map
    (fun part =>
       let parsed := parseRange part in
       if (0 <? List.length parsed)%nat
       then [parseRange (strings.TrimSpace part)]
       else [])
    (Split reOr s).

(** The inner loop: the comparators of one part, combined by AND. *)
Fixpoint andLoop (p : list string) (andFn : Range) : Range + error :=
  match p with
  | [] => inl andFn
  | ap :: p' =>
    match splitComparatorVersion ap with
    | inr err => inr err
    | inl (opStr, vStr) =>
      match buildVersionRange opStr vStr with
      | inr err => inr (ErrRange ap err)
      | inl vr =>
        let rf := rangeFunc vr in
        andLoop p' (match andFn with
                    | None => rf
                    | Some _ => AND andFn rf
                    end)
      end
    end
  end.

(** The outer loop: the parts, combined by OR. *)
Fixpoint orLoop (parts : list (list string)) (orFn : Range) : Range + error :=
  match parts with
  | [] => inl orFn
  | p :: parts' =>
    match andLoop p None with
    | inr err => inr err
    | inl andFn =>
      orLoop parts' (match orFn with
                     | None => andFn
                     | Some _ => OR orFn andFn
                     end)
    end
  end.

(** [ParseRange]: the pair of the results, [None] being nil. *)
Definition ParseRange (s : string) : Range * option error :=
  match orLoop (expandedParts s) None with
  | inl orFn => (orFn, None)
  | inr err => (None, Some err)
  end.

End Range.

Arguments ErrNoVersion {VersionError}.
Arguments ErrComparator {VersionError}.
Arguments ErrVersion {VersionError}.
Arguments ErrRange {VersionError}.
Arguments call {Version}.

(** ** The Version collaborator *)

Module Collaborator.

(** Modelled from the spec: an identifier of a prerelease, a non-negative
    integer or an alphanumeric token. *)
Inductive PRVersion : Type :=
| PRNum (n : N)
| PRStr (s : string).

(** Modelled from the spec: the entity Version (section 3): major, minor and
    patch, the prerelease identifiers and the build metadata. *)
Record Version : Type := {
  Major : N;
  Minor : N;
  Patch : N;
  Pre : list PRVersion;
  Build : list string
}.

Inductive ParseError : Type :=
| InvalidVersion (s : string).

Definition number (s : string) : N := Z.to_N (strconv.decimal s 0).

Definition identifier (s : string) : PRVersion :=
  if sall strconv.isDigit s then PRNum (number s) else PRStr s.

Definition identifiers (s : string) : list string :=
  match s with
  | EmptyString => []
  | _ => strings.splitByte "." s ""
  end.

(** Modelled from the spec: parseVersion (section 6), which parses
    v?MAJOR.MINOR.PATCH[-PRERELEASE][+BUILD]; the strict form, recognised by
    the pattern FULL of the grammar. *)
Definition Parse (s : string) : Version + ParseError :=
  match FindStringSubmatch (getRegex "FULL") s with
  | None => inr (InvalidVersion s)
  | Some mt =>
    inl {| Major := number (sub mt 1);
           Minor := number (sub mt 2);
           Patch := number (sub mt 3);
           Pre := map identifier (identifiers (sub mt 4));
           Build := identifiers (sub mt 5) |}
  end.

Definition compareN (a b : N) : Z :=
  match (a ?= b)%N with
  | Lt => -1
  | Eq => 0
  | Gt => 1
  end%Z.

(** The order of byte strings. *)
Fixpoint compareString (a b : string) : Z :=
  match a, b with
  | EmptyString, EmptyString => 0
  | EmptyString, String _ _ => -1
  | String _ _, EmptyString => 1
  | String x a', String y b' =>
    match (byte x ?= byte y)%N with
    | Lt => -1
    | Gt => 1
    | Eq => compareString a' b'
    end
  end%Z.

(** Modelled from the spec: identifiers compare as integers when both are
    numeric and lexically when both are alphanumeric; a numeric one is lower
    than an alphanumeric one. *)
Definition compareIdentifier (a b : PRVersion) : Z :=
  match a, b with
  | PRNum x, PRNum y => compareN x y
  | PRNum _, PRStr _ => -1
  | PRStr _, PRNum _ => 1
  | PRStr x, PRStr y => compareString x y
  end%Z.

(** Modelled from the spec: prerelease sequences compare element-wise, and
    a sequence that is a prefix of a longer one is lower. *)
Fixpoint comparePre (a b : list PRVersion) : Z :=
  match a, b with
  | [], [] => 0
  | [], _ :: _ => -1
  | _ :: _, [] => 1
  | x :: a', y :: b' =>
    let r := compareIdentifier x y in
    if (r =? 0)%Z then comparePre a' b' else r
  end%Z.

(** Modelled from the spec: compareVersions (section 6), the total order
    that ignores the build metadata: the numeric triple first; on equal
    triples a version with a prerelease is lower than one without. *)
Definition Compare (a b : Version) : Z :=
  if negb (compareN (Major a) (Major b) =? 0)%Z then compareN (Major a) (Major b)
  else if negb (compareN (Minor a) (Minor b) =? 0)%Z then compareN (Minor a) (Minor b)
  else if negb (compareN (Patch a) (Patch b) =? 0)%Z then compareN (Patch a) (Patch b)
  else
    match Pre a, Pre b with
    | [], [] => 0
    | [], _ :: _ => 1
    | _ :: _, [] => -1
    | _, _ => comparePre (Pre a) (Pre b)
    end%Z.

(** The table [unicode.Digit] beyond Latin-1 (the decimal digits of
    Unicode 15.0.0). *)
Definition Digit (r : N) : bool :=
  existsb (fun lo => (lo <=? r) && (r <? lo + 10))%N
    [1632; 1776; 1984; 2406; 2534; 2662; 2790; 2918; 3046; 3174; 3302; 3430;
     3558; 3664; 3792; 3872; 4160; 4240; 6112; 6160; 6470; 6608; 6784; 6800;
     6992; 7088; 7232; 7248; 42528; 43216; 43264; 43472; 43504; 43600; 44016;
     65296; 66720; 68912; 69734; 69872; 69942; 70096; 70384; 70736; 70864;
     71248; 71360; 71472; 71904; 72016; 72784; 73040; 73120; 73552; 92768;
     92864; 93008; 123200; 123632; 124144; 125264; 130032]%N
  || ((120782 <=? r) && (r <=? 120831))%N.

Definition version (M m p : N) : Version :=
  {| Major := M; Minor := m; Patch := p; Pre := []; Build := [] |}.

End Collaborator.

(** [ParseRange] with this collaborator. *)
Definition ParseRangeV : string -> Range Collaborator.Version * option (error Collaborator.ParseError) :=
  ParseRange Collaborator.Version Collaborator.ParseError
    Collaborator.Parse Collaborator.Compare Collaborator.Digit.

(** ** range.go: the other functions of the file *)

Section Must.

Variable Version : Type.
Variable VersionError : Type.
Variable Parse : string -> Version + VersionError.
Variable Compare : Version -> Version -> Z.
Variable digitTable : N -> bool.

(** [MustParseRange]: the Range, or the panic, by the values its message is
    formatted from. *)
Definition MustParseRange (s : string) : Range Version + string * error VersionError :=
  match ParseRange Version VersionError Parse Compare digitTable s with
  | (_, Some err) => inr (s, err)
  | (r, None) => inl r
  end.

End Must.

Inductive wildcardType : Type :=
| noneWildcard
| majorWildcard
| minorWildcard
| patchWildcard.

Definition wildcardTypefromInt (i : Z) : wildcardType :=
  if (i =? 1)%Z then majorWildcard
  else if (i =? 2)%Z then minorWildcard
  else if (i =? 3)%Z then patchWildcard
  else noneWildcard.

(** The loop of [splitORParts]: [i] is the index of the head of [rest] in
    [parts]; an error is the message it is made with. *)
Fixpoint splitORLoop (parts rest : list string) (i last : nat) (ORparts : list (list string))
  : list (list string) * nat + string :=
  match rest with
  | [] => inl (ORparts, last)
  | p :: rest' =>
    if String.eqb p "||" then
      if (i =? 0)%nat then inr "First element in range is '||'"
      else splitORLoop parts rest' (S i) (S i)
             (ORparts ++ [firstn (i - last) (skipn last parts)])%list
    else splitORLoop parts rest' (S i) last ORparts
  end.

Definition splitORParts (parts : list string) : list (list string) + string :=
  match splitORLoop parts parts 0 0 [] with
  | inr err => inr err
  | inl (ORparts, last) =>
    if (last =? List.length parts)%nat then inr "Last element in range is '||'"
    else inl (ORparts ++ [skipn last parts])%list
  end.

Fixpoint inArray (s : ascii) (list : list ascii) : bool :=
  match list with
  | [] => false
  | el :: list' => if Ascii.eqb el s then true else inArray s list'
  end.

Definition excludeFromSplit : list ascii := [">"; "<"; "="]%char.

(** The first loop of [splitAndTrim]: [i] is the index of the head of [rest]
    in [s]. *)
Fixpoint splitAndTrimLoop (s rest : string) (i last : nat) (lastChar : ascii)
    (result : list string) : list string * nat :=
  match rest with
  | EmptyString => (result, last)
  | String ch rest' =>
    if Ascii.eqb ch " " && negb (inArray lastChar excludeFromSplit) then
      splitAndTrimLoop s rest' (S i) (S i) lastChar
        (if (Z.of_nat last <? Z.of_nat i - 1)%Z then (result ++ [slice s last i])%list else result)
    else if negb (Ascii.eqb ch " ") then splitAndTrimLoop s rest' (S i) last ch result
    else splitAndTrimLoop s rest' (S i) last lastChar result
  end.

Definition splitAndTrim (s : string) : list string :=
  let '(result, last) := splitAndTrimLoop s s 0 0 Ascii.zero [] in
  let result := if (last <? length s)%nat then (result ++ [drop last s])%list else result in
  map (fun v => strings.Replace v " " "" (-1)) result.

Definition getWildcardType (vStr : string) : wildcardType :=
  let parts := strings.splitByte "." vStr "" in
  let nparts := List.length parts in
  let wildcard := nth (nparts - 1) parts "" in
  let isUint :=
    match snd (strconv.ParseUint (nth 0 parts "")) with
    | None => true
    | Some _ => false
    end in
  if (nparts =? 1)%nat && isUint then minorWildcard
  else
    let possibleWildcardType := wildcardTypefromInt (Z.of_nat nparts) in
    if String.eqb wildcard "x" then possibleWildcardType else noneWildcard.

Definition createVersionFromWildcard (vStr : string) : string :=
  let vStr2 := strings.Replace vStr ".x.x" ".x" 1 in
  let vStr2 := strings.Replace vStr2 ".x" ".0" 1 in
  let parts := strings.splitByte "." vStr2 "" in
  if (List.length parts =? 2)%nat then vStr2 ++ ".0"
  else if (List.length parts =? 1)%nat then vStr2 ++ ".0.0"
  else vStr2.

(** [parts[i] = v], for an index in range. *)
Fixpoint assign (i : nat) (v : string) (parts : list string) : list string :=
  match parts, i with
  | [], _ => []
  | _ :: t, O => v :: t
  | x :: t, S j => x :: assign j v t
  end.

(** [incrementMajorVersion]: [None] is the panic of an index out of range. *)
Definition incrementMajorVersion (vStr : string) : option (string * option strconv.NumError) :=
  let parts := strings.splitByte "." vStr "" in
  match parts with
  | [] => None
  | p0 :: rest =>
    match strconv.AtoiErr p0 with
    | (_, Some err) => Some ("", Some err)
    | (i, None) =>
      let parts := incr i :: rest in
      let parts :=
        match parts with
        | [] => []
        | q0 :: rest' => q0 :: map (fun _ => "0") rest'
        end in
      Some (strings.Join parts ".", None)
    end
  end.

(** [incrementMinorVersion]: [None] is the panic of an index out of range. *)
Definition incrementMinorVersion (vStr : string) : option (string * option strconv.NumError) :=
  let parts := strings.splitByte "." vStr "" in
  match nth_error parts 1 with
  | None => None
  | Some p1 =>
    match strconv.AtoiErr p1 with
    | (_, Some err) => Some ("", Some err)
    | (i, None) =>
      let parts := assign 1 (incr i) parts in
      let parts := if (2 <? List.length parts)%nat then assign 2 "0" parts else parts in
      Some (strings.Join parts ".", None)
    end
  end.

(** The switch of [expandWildcardVersion] over the operator of a token, and
    the increment after it: what is appended to [newParts] before the last
    [append], and the value of [ap] there; [None] is a panic. *)
Definition expandOperator (opStr vStr : string) : option (list string * string) :=
  let versionWildcardType := getWildcardType vStr in
  let flatVersion := createVersionFromWildcard vStr in
  let isNone :=
    match versionWildcardType with noneWildcard => true | _ => false end in
  let '(newParts, versionWildcardType, resultOperator, shouldIncrementVersion) :=
    if String.eqb opStr ">" then
      if isNone then ([], versionWildcardType, ">", false)
      else ([], versionWildcardType, ">=", true)
    else if String.eqb opStr ">=" then ([], versionWildcardType, ">=", false)
    else if String.eqb opStr "<" then ([], versionWildcardType, "<", false)
    else if String.eqb opStr "<=" then
      if isNone then ([], versionWildcardType, "<=", false)
      else ([], versionWildcardType, "<", true)
    else if String.eqb opStr "" || String.eqb opStr "=" || String.eqb opStr "==" then
      if isNone then ([], versionWildcardType, "", false)
      else ([">=" ++ flatVersion], versionWildcardType, "<", true)
    else if String.eqb opStr "!=" || String.eqb opStr "!" then
      if isNone then ([], versionWildcardType, "!", false)
      else (["<" ++ flatVersion], versionWildcardType, ">=", true)
    else if String.eqb opStr "~" then
      match versionWildcardType with
      | noneWildcard | patchWildcard =>
        ([">=" ++ flatVersion], patchWildcard, "<", true)
      | _ => ([">=" ++ flatVersion], versionWildcardType, "<", true)
      end
    else if String.eqb opStr "^" then
      ([">=" ++ flatVersion], minorWildcard, "<", true)
    else ([], versionWildcardType, "", false) in
  let resultVersion :=
    if shouldIncrementVersion then
      match versionWildcardType with
      | patchWildcard => option_map fst (incrementMinorVersion flatVersion)
      | minorWildcard => option_map fst (incrementMajorVersion flatVersion)
      | _ => Some ""
      end
    else Some flatVersion in
  match resultVersion with
  | None => None
  | Some resultVersion => Some (newParts, resultOperator ++ resultVersion)
  end.

Section Wildcard.

Variable VersionError : Type.
Variable digitTable : N -> bool.

(** One round of the inner loop of [expandWildcardVersion]. *)
Definition expandPart (ap : string) : option (list string * string + error VersionError) :=
  if String.eqb ap "x" then Some (inl ([], ">=0.0.0"))
  else
    match strconv.ParseInt ap with
    | (major, None) =>
      Some (inl ([">=" ++ strconv.Itoa major ++ ".0.0"], "<" ++ incr major ++ ".0.0"))
    | (_, Some _) =>
      if strings.ContainsAny ap "x~^><=!" then
        match splitComparatorVersion VersionError digitTable ap with
        | inr err => Some (inr err)
        | inl (opStr, vStr) => option_map inl (expandOperator opStr vStr)
        end
      else Some (inl ([], ap))
    end.

(** The inner loop: the tokens of one part. *)
Fixpoint expandParts (p : list string) (newParts : list string)
  : option (list string + error VersionError) :=
  match p with
  | [] => Some (inl newParts)
  | ap :: p' =>
    match expandPart ap with
    | None => None
    | Some (inr err) => Some (inr err)
    | Some (inl (before, ap')) => expandParts p' ((newParts ++ before) ++ [ap'])%list
    end
  end.

(** The outer loop: the parts. *)
Fixpoint expandLoop (parts : list (list string)) (expandedParts : list (list string))
  : option (list (list string) + error VersionError) :=
  match parts with
  | [] => Some (inl expandedParts)
  | p :: parts' =>
    match expandParts p [] with
    | None => None
    | Some (inr err) => Some (inr err)
    | Some (inl newParts) => expandLoop parts' (expandedParts ++ [newParts])%list
    end
  end.

(** [expandWildcardVersion]: [None] is a panic. *)
Definition expandWildcardVersion (parts : list (list string))
  : option (list (list string) + error VersionError) :=
  expandLoop parts [].

End Wildcard.

(** * Specification

    The definitions the properties below are stated with: the reading of a
    Range in the words of the specification, the rules of the expansions in
    exact arithmetic, the canonical tokens, and what the proofs about the
    matcher need. *)

Section Semantics.

Variable Version : Type.
Variable VersionError : Type.
Variable Parse : string -> Version + VersionError.
Variable Compare : Version -> Version -> Z.
Variable digitTable : N -> bool.

(** The reading of a comparator in the words of the specification: the
    operator decides which outcomes of the three-way comparison of the
    candidate with the operand make it true. *)
Definition spec_opHolds (op : string) (cmp : Z) : Prop :=
  ((op = "" \/ op = "=" \/ op = "==") /\ cmp = 0%Z)
  \/ ((op = "!" \/ op = "!=") /\ cmp <> 0%Z)
  \/ (op = ">" /\ cmp = 1%Z)
  \/ (op = ">=" /\ (cmp >= 0)%Z)
  \/ (op = "<" /\ cmp = (-1)%Z)
  \/ (op = "<=" /\ (cmp <= 0)%Z).

(** A token is a true comparator against [x]: its operator and its operand
    are those [splitComparatorVersion] and [Parse] give. *)
Definition spec_comparatorHolds (x : Version) (tok : string) : Prop :=
  exists op vStr operand,
    splitComparatorVersion VersionError digitTable tok = inl (op, vStr)
    /\ Parse vStr = inl operand
    /\ spec_opHolds op (Compare x operand).

(** The OR groups: the segments between the separators, normalised. *)
Definition spec_groups (raw : string) : list (list string) :=
  map (fun segment => parseRange (strings.TrimSpace segment)) (Split reOr raw).

Definition spec_matches (raw : string) (x : Version) : Prop :=
  exists g, In g (spec_groups raw) /\ forall tok, In tok g -> spec_comparatorHolds x tok.

(** The same, computed. *)
Definition opHolds (op : string) (cmp : Z) : bool :=
  if String.eqb op "" || String.eqb op "=" || String.eqb op "==" then (cmp =? 0)%Z
  else if String.eqb op "!" || String.eqb op "!=" then negb (cmp =? 0)%Z
  else if String.eqb op ">" then (cmp =? 1)%Z
  else if String.eqb op ">=" then (cmp >=? 0)%Z
  else if String.eqb op "<" then (cmp =? -1)%Z
  else if String.eqb op "<=" then (cmp <=? 0)%Z
  else false.

Definition comparatorHolds (x : Version) (tok : string) : bool :=
  match splitComparatorVersion VersionError digitTable tok with
  | inl (op, vStr) =>
    match Parse vStr with
    | inl operand => opHolds op (Compare x operand)
    | inr _ => false
    end
  | inr _ => false
  end.

(** One round of the inner loop. *)
Definition comparatorOf (ap : string) : Range Version + error VersionError :=
  match splitComparatorVersion VersionError digitTable ap with
  | inr err => inr err
  | inl (opStr, vStr) =>
    match buildVersionRange Version VersionError Parse Compare opStr vStr with
    | inr err => inr (ErrRange ap err)
    | inl vr => inl (rangeFunc Version vr)
    end
  end.

(** A token that does not make a comparator. *)
Definition rejected (tok : string) : Prop :=
  exists op vStr,
    splitComparatorVersion VersionError digitTable tok = inl (op, vStr)
    /\ (~ In op [""; "="; "=="; "!"; "!="; ">"; ">="; "<"; "<="]
        \/ exists err, Parse vStr = inr err).

End Semantics.

Arguments spec_comparatorHolds {Version VersionError}.
Arguments spec_matches {Version VersionError}.
Arguments comparatorHolds {Version VersionError}.
Arguments comparatorOf {Version VersionError}.
Arguments rejected {Version VersionError}.

(** Version 0.0.0-alpha of the collaborator. *)
Definition v000alpha : Collaborator.Version :=
  {| Collaborator.Major := 0; Collaborator.Minor := 0; Collaborator.Patch := 0;
     Collaborator.Pre := [Collaborator.PRStr "alpha"]; Collaborator.Build := [] |}.

(** A numeral: digits only, at least one. *)
Definition numeral (s : string) : bool :=
  negb (length s =? 0)%nat && sall strconv.isDigit s.

(** The numeral of the successor, in exact arithmetic. *)
Definition spec_next (s : string) : string :=
  strconv.digits (S (length s)) (strconv.decimal s 0 + 1) "".

Definition incrementable (part : string) : Prop :=
  numeral part = true /\ (strconv.decimal part 0 <= 2 ^ 63 - 2)%Z.

Definition spec_hyphen (from fM fm fp to tM tm tp tpr : string) : string :=
  let lower :=
    if isX fM then ""
    else if isX fm then ">=" ++ fM ++ ".0.0"
    else if isX fp then ">=" ++ fM ++ "." ++ fm ++ ".0"
    else ">=" ++ from in
  let upper :=
    if isX tM then ""
    else if isX tm then "<" ++ spec_next tM ++ ".0.0"
    else if isX tp then "<" ++ tM ++ "." ++ spec_next tm ++ ".0"
    else if String.eqb tpr "" then "<=" ++ to
    else "<=" ++ tM ++ "." ++ tm ++ "." ++ tp ++ "-" ++ tpr in
  strings.TrimSpace (lower ++ " " ++ upper).

Definition spec_lowerBound (M m p pr : string) : string :=
  ">=" ++ M ++ "." ++ m ++ "." ++ p ++ (if String.eqb pr "" then "" else "-" ++ pr).

Definition spec_caret (M m p pr : string) : string :=
  if isX M then ""
  else if isX m then ">=" ++ M ++ ".0.0 <" ++ spec_next M ++ ".0.0"
  else if isX p then
    if String.eqb M "0"
    then ">=" ++ M ++ "." ++ m ++ ".0 <" ++ M ++ "." ++ spec_next m ++ ".0"
    else ">=" ++ M ++ "." ++ m ++ ".0 <" ++ spec_next M ++ ".0.0"
  else
    spec_lowerBound M m p pr ++
    (if String.eqb M "0" && negb (String.eqb m "0")
     then " <" ++ M ++ "." ++ spec_next m ++ ".0"
     else if String.eqb M "0" && String.eqb m "0"
          then " <" ++ M ++ "." ++ m ++ "." ++ spec_next p
          else " <" ++ spec_next M ++ ".0.0").

Definition spec_tilde (M m p pr : string) : string :=
  if isX M then ""
  else if isX m then ">=" ++ M ++ ".0.0 <" ++ spec_next M ++ ".0.0"
  else if isX p then ">=" ++ M ++ "." ++ m ++ ".0 <" ++ M ++ "." ++ spec_next m ++ ".0"
  else spec_lowerBound M m p pr ++ " <" ++ M ++ "." ++ spec_next m ++ ".0".

(** The x-range rule says nothing of a token without a wildcard, nor of the
    operators >= and < on a wildcard below the major: [None] there. *)
Definition spec_xrange (gtlt M m p : string) : option string :=
  let gtlt := if String.eqb gtlt "=" then "" else gtlt in
  if isX M then
    Some (if String.eqb gtlt ">" || String.eqb gtlt "<" then "<0.0.0" else "*")
  else if isX m then
    if String.eqb gtlt ">" then Some (">=" ++ spec_next M ++ ".0.0")
    else if String.eqb gtlt "<=" then Some ("<" ++ spec_next M ++ ".0.0")
    else if String.eqb gtlt "" then Some (">=" ++ M ++ ".0.0 <" ++ spec_next M ++ ".0.0")
    else None
  else if isX p then
    if String.eqb gtlt ">" then Some (">=" ++ M ++ "." ++ spec_next m ++ ".0")
    else if String.eqb gtlt "<=" then Some ("<" ++ M ++ "." ++ spec_next m ++ ".0")
    else if String.eqb gtlt ""
         then Some (">=" ++ M ++ "." ++ m ++ ".0 <" ++ M ++ "." ++ spec_next m ++ ".0")
         else None
  else None.

Definition suffix (s' s : string) : Prop := exists p, s = p ++ s'.

(** [needs ch r]: every match of [r] holds the byte [ch]. *)
Fixpoint needs (ch : ascii) (r : re) : bool :=
  match r with
  | Chr a => Ascii.eqb a ch
  | Seq a b => needs ch a || needs ch b
  | Alt a b => needs ch a && needs ch b
  | Cap _ a => needs ch a
  | _ => false
  end.

(** [fails n0 r s]: no match of [r] starts at the head of [s], whatever
    follows. *)
Definition fails (n0 : nat) (r : re) (s : string) : Prop :=
  forall (k : cont) (c : caps), m n0 r k s c = None.

(** [first_match n0 r w rest f]: at the head of [w ++ rest], the first match
    of [r] the search tries is [w], with the submatches set by [f]; when
    what follows accepts it, that is the result. *)
Definition first_match (n0 : nat) (r : re) (w rest : string) (f : caps -> caps) : Prop :=
  forall (k : cont) (c : caps) (x : string * caps),
    k rest (f c) = Some x -> m n0 r k (w ++ rest) c = Some x.

(** The next byte does not belong to the class: a greedy iteration stops. *)
Definition stops (rs : list (ascii * ascii)) (rest : string) : bool :=
  match rest with
  | EmptyString => true
  | String ch _ => negb (in_class rs ch)
  end.

Definition apart_from_digits (rs : list (ascii * ascii)) : bool :=
  forallb (fun r => (byte (snd r) <? 48) || (57 <? byte (fst r)))%N rs.

(** A numeric identifier: 0, or a digit that is not 0 and then digits. *)
Definition numid (s : string) : bool :=
  match s with
  | EmptyString => false
  | String c t =>
    if Ascii.eqb c "0" then String.eqb t ""
    else strconv.isDigit c && sall strconv.isDigit t
  end.

Definition canonical_op (op : string) : bool :=
  String.eqb op ">=" || String.eqb op "<=" || String.eqb op ">"
  || String.eqb op "<" || String.eqb op "=" || String.eqb op "".

(** A canonical token: one of the operators, or none, and a version with its
    three numeric identifiers. *)
Definition canonical_token (tok : string) : Prop :=
  exists op M m p : string,
    tok = op ++ M ++ "." ++ m ++ "." ++ p
    /\ canonical_op op = true
    /\ numid M = true /\ numid m = true /\ numid p = true.

(** What may follow a numeric identifier in a canonical sequence: a dot, a
    blank or the end. *)
Definition after_number (rest : string) : bool :=
  match rest with
  | EmptyString => true
  | String ch _ => Ascii.eqb ch "." || Ascii.eqb ch " "
  end.

(** The pattern XRANGE, with its groups numbered. *)
Definition xrange_prog : re :=
  Cap 0
    (Seq Bol
       (Seq (Cap 1 (Seq (Opt (Alt (Chr "<") (Chr ">"))) (Opt (Chr "="))))
          (Seq (Star Grammar.space)
             (Seq
                (Seq Grammar.vEqSpace
                   (Seq (Cap 2 Grammar.XRANGEIDENTIFIER)
                      (Opt (Seq Grammar.dot
                              (Seq (Cap 3 Grammar.XRANGEIDENTIFIER)
                                 (Opt (Seq Grammar.dot
                                         (Seq (Cap 4 Grammar.XRANGEIDENTIFIER)
                                            (Seq (Opt (fst (number Grammar.PRERELEASE 5)))
                                               (Opt (fst (number Grammar.BUILD 6))))))))))))
                Eol)))).

(** The pattern COMPARATORTRIM, with its groups numbered. *)
Definition comparatortrim_prog : re :=
  Cap 0
    (Seq (Cap 1 (Star Grammar.space))
       (Seq (Cap 2 (Seq (Opt (Alt (Chr "<") (Chr ">"))) (Opt (Chr "="))))
          (Seq (Star Grammar.space)
             (Cap 3
                (Alt
                   (Seq Grammar.vEqSpace
                      (Seq
                         (Seq (Cap 4 Grammar.NUMERICIDENTIFIERLOOSE)
                            (Seq Grammar.dot
                               (Seq (Cap 5 Grammar.NUMERICIDENTIFIERLOOSE)
                                  (Seq Grammar.dot (Cap 6 Grammar.NUMERICIDENTIFIERLOOSE)))))
                         (Seq (Opt (fst (number Grammar.PRERELEASELOOSE 7)))
                            (Opt (fst (number Grammar.BUILD 8))))))
                   (fst (number Grammar.XRANGEPLAIN 9))))))).

(** The end of a token in a canonical sequence: a blank or the end. *)
Definition at_boundary (rest : string) : bool :=
  match rest with
  | EmptyString => true
  | String ch _ => Ascii.eqb ch " "
  end.

(** The submatches COMPARATORTRIM leaves on a canonical token, after the
    blanks [sp] before it. *)
Definition trim_caps (sp op M mi p : string) (c : caps) : caps :=
  upd 0 (Some (sp ++ op ++ M ++ "." ++ mi ++ "." ++ p))
    (upd 3 (Some (M ++ "." ++ mi ++ "." ++ p))
       (upd 6 (Some p) (upd 5 (Some mi) (upd 4 (Some M)
          (upd 2 (Some op) (upd 1 (Some sp) c)))))).

(** The bytes of the canonical tokens: the digits, the dot and the bytes of
    the operators. *)
Definition plain (c : ascii) : bool :=
  strconv.isDigit c || Ascii.eqb c "." || Ascii.eqb c "<" || Ascii.eqb c ">"
  || Ascii.eqb c "=".

(** The text [w] before the first match of a result, or before its tail. *)
Definition pushes (w : string) (r : list (string * caps) * string)
  : list (string * caps) * string :=
  match r with
  | ([], tl) => ([], w ++ tl)
  | ((g, c) :: ms, tl) => ((w ++ g, c) :: ms, tl)
  end.

(** The pattern of the blanks, and the submatches of one blank. *)
Definition blank_caps : caps := [Some " "].

(** A token of a canonical sequence: plain bytes, at least one. *)
Definition word (w : string) : Prop := w <> "" /\ sall plain w = true.

Fixpoint pieces_length (ws : list string) : nat :=
  match ws with
  | [] => 0
  | w :: ws' => length w + 1 + pieces_length ws'
  end.

Definition plain_or_blank (c : ascii) : bool := plain c || Ascii.eqb c " ".

(** ** What the properties of the other functions are stated with *)

(** The parts of a range with its groups [gs], the separator between the
    groups. *)
Fixpoint joinOR (gs : list (list string)) : list string :=
  match gs with
  | [] => []
  | [g] => g
  | g :: gs' => (g ++ "||" :: joinOR gs')%list
  end.

(** The groups that are closed, each with the separator after it. *)
Definition closedOR (gs : list (list string)) : list string :=
  flat_map (fun g => (g ++ ["||"])%list) gs.

(** The state of the loop after the elements [done]: the groups closed so
    far, and the start of the group that is open. *)
Record orState (done : list string) (last : nat) (ORparts : list (list string)) : Prop := {
  or_last : (last <= List.length done)%nat;
  or_join : (closedOR ORparts ++ skipn last done)%list = done;
  or_closed : Forall (fun g => ~ In "||" g) ORparts;
  or_open : ~ In "||" (skipn last done);
  or_head : hd_error done <> Some "||";
  or_end : last = List.length done <-> (done = [] \/ exists a, done = (a ++ ["||"])%list)
}.

(** [s] without its blanks. *)
Fixpoint withoutBlanks (s : string) : string :=
  match s with
  | EmptyString => ""
  | String c t => if Ascii.eqb c " " then withoutBlanks t else String c (withoutBlanks t)
  end.

Fixpoint blanks (s : string) : nat :=
  match s with
  | EmptyString => 0
  | String c t => if Ascii.eqb c " " then S (blanks t) else blanks t
  end.

(** The first byte of [t] is not a blank. *)
Definition startsNonBlank (t : string) : Prop :=
  match t with
  | String c _ => Ascii.eqb c " " = false
  | EmptyString => False
  end.

(** The state of the first loop after the bytes [done]. *)
Record trimState (done : string) (last : nat) (lastChar : ascii) (result : list string)
  : Prop := {
  ts_last : (last <= length done)%nat;
  ts_result : Forall startsNonBlank result;
  ts_open : (last < length done)%nat -> startsNonBlank (drop last done);
  ts_char : last = length done -> inArray lastChar excludeFromSplit = false
}.

(** A byte that is not ASCII. *)
Definition high (c : ascii) : bool := (128 <=? byte c)%N.

(** No ASCII byte of [s] satisfies [f]. *)
Definition asciiFree (f : N -> bool) (s : string) : bool :=
  sall (fun c => high c || negb (f (byte c))) s.

(** The bytes of the class of white space of the patterns: tab, line feed,
    form feed, carriage return and the blank. *)
Definition spaceByte (c : ascii) : bool :=
  in_class [("009", "010"); ("012", "013"); (" ", " ")]%char c.

(** A text without white space. *)
Definition spaceFree (s : string) : bool := sall (fun c => negb (spaceByte c)) s.

(** The white space at the head of a text, and what follows it. *)
Fixpoint spanSpace (s : string) : string * string :=
  match s with
  | EmptyString => ("", "")
  | String c t =>
    if spaceByte c then let '(w, rest) := spanSpace t in (String c w, rest)
    else ("", s)
  end.

Section Outcome.

Variable Version : Type.
Variable VersionError : Type.
Variable Parse : string -> Version + VersionError.
Variable Compare : Version -> Version -> Z.
Variable digitTable : N -> bool.

(** A token that makes a comparator: it splits into one of the operators
    and a version that [Parse] accepts. *)
Definition accepted (tok : string) : Prop :=
  exists op vStr operand,
    splitComparatorVersion VersionError digitTable tok = inl (op, vStr)
    /\ In op [""; "="; "=="; "!"; "!="; ">"; ">="; "<"; "<="]
    /\ Parse vStr = inl operand.

(** The error of the first token that makes no comparator. *)
Fixpoint firstError (toks : list string) : option (error VersionError) :=
  match toks with
  | [] => None
  | tok :: rest =>
    match comparatorOf Parse Compare digitTable tok with
    | inr err => Some err
    | inl _ => firstError rest
    end
  end.

End Outcome.

Arguments accepted {Version VersionError}.
Arguments firstError {Version VersionError}.

(** A segment of a canonical expression: tokens of plain bytes with one
    blank between them. *)
Definition segment (A : string) : Prop :=
  exists w ws, A = strings.Join (w :: ws) " " /\ word w /\ Forall word ws.

(** The submatches of one separator of the groups. *)
Definition or_caps : caps := [Some " || "].

Fixpoint segments_length (As : list string) : nat :=
  match As with
  | [] => 0
  | A :: As' => length A + 4 + segments_length As'
  end.

(** * Properties *)

(** ** Byte strings *)

Lemma app_assoc_s (a b c : string) : (a ++ b) ++ c = a ++ (b ++ c).
Proof. induction a as [| x a IH]; simpl; [reflexivity | rewrite IH; reflexivity]. Qed.

Lemma app_nil_r_s (a : string) : a ++ "" = a.
Proof. induction a as [| x a IH]; simpl; [reflexivity | rewrite IH; reflexivity]. Qed.

Lemma length_app_s (a b : string) : length (a ++ b) = (length a + length b)%nat.
Proof. induction a as [| x a IH]; simpl; [reflexivity | rewrite IH; reflexivity]. Qed.

(** ** The result of [Split] is never empty *)

Lemma splitLoop_shape (ms : list (string * caps)) :
  forall beg e0 out last,
    splitLoop ms beg e0 = (out, last) ->
    out <> [] \/ last = 0%nat \/ (ms = [] /\ last = e0).
Proof.
  induction ms as [| [g c] ms IH]; intros beg e0 out last H; simpl in H.
  - inversion H; subst. right; right; split; reflexivity.
  - destruct (splitLoop ms (beg + length g + length (group c 0)) (beg + length g))
      as [out' last'] eqn:E.
    inversion H; subst; clear H.
    destruct (Nat.eqb_spec (beg + length g + length (group c 0)) 0) as [Hz | Hnz].
    + destruct (IH _ _ _ _ E) as [Hout | [Hl | [_ Hl]]].
      * left; exact Hout.
      * right; left; exact Hl.
      * right; left. lia.
    + left; discriminate.
Qed.

Lemma Split_nonempty (re : Regexp) (s : string) : Split re s <> [].
Proof.
  unfold Split. destruct s as [| ch t]; [discriminate |].
  destruct (allMatches re (String ch t)) as [ms tl].
  destruct (splitLoop ms 0 0) as [out last] eqn:E.
  destruct (Nat.eqb_spec last (length (String ch t))) as [Hl | Hl].
  - destruct (splitLoop_shape _ _ _ _ _ E) as [Hout | [Hz | [_ Hz]]];
      [exact Hout | simpl in Hl; lia | simpl in Hl; lia].
  - destruct out; discriminate.
Qed.

Lemma parseRange_nonempty (s : string) : parseRange s <> [].
Proof. unfold parseRange. apply Split_nonempty. Qed.

Lemma expandedParts_eq (s : string) :
  expandedParts s = map (fun part => parseRange (strings.TrimSpace part)) (Split reOr s).
Proof.
  unfold expandedParts. induction (Split reOr s) as [| part parts IH]; simpl.
  - reflexivity.
  - destruct (parseRange part) eqn:E.
    + exfalso. exact (parseRange_nonempty part E).
    + simpl. f_equal. exact IH.
Qed.

Lemma expandedParts_nonempty (s : string) : expandedParts s <> [].
Proof.
  rewrite expandedParts_eq. pose proof (Split_nonempty reOr s) as H.
  destruct (Split reOr s); [contradiction | discriminate].
Qed.

Lemma expandedParts_groups (s : string) (g : list string) :
  In g (expandedParts s) -> g <> [].
Proof.
  rewrite expandedParts_eq, in_map_iff. intros [part [<- _]].
  apply parseRange_nonempty.
Qed.

(** ** The Range built by [ParseRange] *)

Section RangeProperties.

Variable Version : Type.
Variable VersionError : Type.
Variable Parse : string -> Version + VersionError.
Variable Compare : Version -> Version -> Z.
Variable digitTable : N -> bool.

Local Abbreviation ParseRange_ := (ParseRange Version VersionError Parse Compare digitTable).
Local Abbreviation splitCV := (@splitComparatorVersion VersionError digitTable).
Local Abbreviation buildVR := (buildVersionRange Version VersionError Parse Compare).
Local Abbreviation parseCmp := (parseComparator Version Compare).
Local Abbreviation andLoop_ := (andLoop Version VersionError Parse Compare digitTable).
Local Abbreviation orLoop_ := (orLoop Version VersionError Parse Compare digitTable).

Ltac string_cases op :=
  repeat match goal with
         | |- context [String.eqb op ?lit] =>
           destruct (String.eqb_spec op lit); [subst op |]
         end.

Lemma opHolds_iff (op : string) (cmp : Z) :
  opHolds op cmp = true <-> spec_opHolds op cmp.
Proof.
  unfold opHolds, spec_opHolds. split.
  - string_cases op; simpl; intros H;
      try discriminate;
      try (apply Z.eqb_eq in H);
      try (apply negb_true_iff, Z.eqb_neq in H);
      try (apply Z.geb_le in H);
      try (apply Z.leb_le in H);
      intuition (auto; lia).
  - intros [[[-> | [-> | ->]] ->] | [[[-> | ->] H] | [[-> ->] | [[-> H] | [[-> ->] | [-> H]]]]]];
      simpl; try reflexivity.
    + apply negb_true_iff, Z.eqb_neq; exact H.
    + apply negb_true_iff, Z.eqb_neq; exact H.
    + apply Z.geb_le; lia.
    + apply Z.leb_le; lia.
Qed.

Lemma comparatorHolds_iff (x : Version) (tok : string) :
  comparatorHolds Parse Compare digitTable x tok = true <-> spec_comparatorHolds Parse Compare digitTable x tok.
Proof.
  unfold comparatorHolds, spec_comparatorHolds. split.
  - destruct (splitCV tok) as [[op vStr] | e]; [| discriminate].
    destruct (Parse vStr) as [operand | e] eqn:EP; [| discriminate].
    intros H. exists op, vStr, operand. repeat split; auto.
    apply opHolds_iff; exact H.
  - intros [op [vStr [operand [-> [-> H]]]]]. apply opHolds_iff; exact H.
Qed.

Lemma parseComparator_opHolds (op : string) (cmp : comparator Version) :
  parseCmp op = Some cmp ->
  forall x y, cmp x y = opHolds op (Compare x y).
Proof.
  unfold parseComparator, opHolds.
  string_cases op; simpl; intros H; inversion H; subst; reflexivity.
Qed.

Lemma parseComparator_known (op : string) :
  parseCmp op = None <->
  ~ In op [""; "="; "=="; "!"; "!="; ">"; ">="; "<"; "<="].
Proof.
  unfold parseComparator. split.
  - string_cases op; simpl; intros H; try discriminate. intuition congruence.
  - intros H. string_cases op; simpl; try reflexivity; exfalso; apply H; simpl; tauto.
Qed.

Lemma comparatorOf_call (ap : string) (rf : Range Version) :
  comparatorOf Parse Compare digitTable ap = inl rf ->
  forall x, call rf x = Some (comparatorHolds Parse Compare digitTable x ap).
Proof.
  unfold comparatorOf, comparatorHolds, buildVersionRange.
  destruct (splitCV ap) as [[op vStr] | e]; [| discriminate].
  destruct (parseCmp op) as [cmp |] eqn:EC; [| discriminate].
  destruct (Parse vStr) as [operand | e]; [| discriminate].
  intros H x. inversion H; subst. simpl.
  rewrite (parseComparator_opHolds _ _ EC). reflexivity.
Qed.

Lemma andLoop_step (ap : string) (p : list string) (andFn : Range Version) :
  andLoop_ (ap :: p) andFn =
  match comparatorOf Parse Compare digitTable ap with
  | inr err => inr err
  | inl rf => andLoop_ p (match andFn with None => rf | Some _ => AND Version andFn rf end)
  end.
Proof.
  unfold comparatorOf. simpl.
  destruct (splitCV ap) as [[op vStr] | e]; [| reflexivity].
  destruct (buildVR op vStr); reflexivity.
Qed.

Lemma andLoop_call (p : list string) :
  forall andFn r, andLoop_ p andFn = inl r ->
  forall x b, call andFn x = Some b ->
  call r x = Some (b && forallb (comparatorHolds Parse Compare digitTable x) p).
Proof.
  induction p as [| ap p IH]; intros andFn r H x b Hb.
  - simpl in H. inversion H; subst. rewrite Hb, andb_true_r. reflexivity.
  - rewrite andLoop_step in H.
    destruct (comparatorOf Parse Compare digitTable ap) as [rf | e] eqn:E; [| discriminate].
    pose proof (comparatorOf_call _ _ E x) as Hrf.
    destruct andFn as [f |]; [| discriminate].
    rewrite (IH _ _ H x (b && comparatorHolds Parse Compare digitTable x ap)).
    + simpl. rewrite andb_assoc. reflexivity.
    + simpl in Hb |- *. rewrite Hb. destruct b; simpl; [exact Hrf | reflexivity].
Qed.

Lemma andLoop_group (p : list string) (r : Range Version) :
  p <> [] -> andLoop_ p None = inl r ->
  forall x, call r x = Some (forallb (comparatorHolds Parse Compare digitTable x) p).
Proof.
  destruct p as [| ap p]; [contradiction |]. intros _ H x.
  rewrite andLoop_step in H.
  destruct (comparatorOf Parse Compare digitTable ap) as [rf | e] eqn:E; [| discriminate].
  apply (andLoop_call _ _ _ H x). apply (comparatorOf_call _ _ E).
Qed.

Lemma orLoop_call (parts : list (list string)) :
  (forall g, In g parts -> g <> []) ->
  forall orFn r, orLoop_ parts orFn = inl r ->
  forall x b, call orFn x = Some b ->
  call r x = Some (b || existsb (forallb (comparatorHolds Parse Compare digitTable x)) parts).
Proof.
  induction parts as [| g parts IH]; intros Hne orFn r H x b Hb.
  - simpl in H. inversion H; subst. rewrite Hb, orb_false_r. reflexivity.
  - simpl in H.
    destruct (andLoop_ g None) as [andFn | e] eqn:E; [| discriminate].
    pose proof (andLoop_group g andFn (Hne g (or_introl eq_refl)) E x) as Hg.
    destruct orFn as [f |]; [| discriminate].
    rewrite (IH (fun g' Hin => Hne g' (or_intror Hin)) _ _ H x
               (b || forallb (comparatorHolds Parse Compare digitTable x) g)).
    + simpl. rewrite orb_assoc. reflexivity.
    + simpl in Hb |- *. rewrite Hb. destruct b; simpl; [reflexivity | exact Hg].
Qed.

Lemma orLoop_groups (parts : list (list string)) (r : Range Version) :
  parts <> [] -> (forall g, In g parts -> g <> []) ->
  orLoop_ parts None = inl r ->
  forall x, call r x = Some (existsb (forallb (comparatorHolds Parse Compare digitTable x)) parts).
Proof.
  destruct parts as [| g parts]; [contradiction |]. intros _ Hne H x.
  simpl in H.
  destruct (andLoop_ g None) as [andFn | e] eqn:E; [| discriminate].
  pose proof (andLoop_group g andFn (Hne g (or_introl eq_refl)) E x) as Hg.
  apply (orLoop_call parts (fun g' Hin => Hne g' (or_intror Hin)) _ _ H x).
  exact Hg.
Qed.

Lemma spec_matches_iff (raw : string) (x : Version) :
  existsb (forallb (comparatorHolds Parse Compare digitTable x)) (expandedParts raw) = true
  <-> spec_matches Parse Compare digitTable raw x.
Proof.
  unfold spec_matches, spec_groups. rewrite <- expandedParts_eq, existsb_exists.
  split; intros [g [Hin Hall]]; exists g; split; auto.
  - rewrite forallb_forall in Hall. intros tok Ht.
    apply comparatorHolds_iff, Hall, Ht.
  - apply forallb_forall. intros tok Ht. apply comparatorHolds_iff, Hall, Ht.
Qed.

(** A Range that [ParseRange_] returns without an error answers every call,
    and answers true exactly on the versions that satisfy all the
    comparators of one of the OR groups. *)
Lemma ParseRange_matches (raw : string) (f : RangeFunc Version) :
  ParseRange_ raw = (Some f, None) ->
  forall x, exists b, f x = Some b /\ (b = true <-> spec_matches Parse Compare digitTable raw x).
Proof.
  unfold ParseRange.
  destruct (orLoop_ (expandedParts raw) None) as [r | e] eqn:E; [| discriminate].
  intros H x. inversion H; subst.
  pose proof (orLoop_groups _ _ (expandedParts_nonempty raw)
                (expandedParts_groups raw) E x) as Hc.
  simpl in Hc. eexists. split; [exact Hc |]. apply spec_matches_iff.
Qed.

(** The inner loop keeps a function once it has one. *)
Lemma andLoop_some (p : list string) :
  forall andFn r, andLoop_ p andFn = inl r -> p <> [] \/ andFn <> None -> r <> None.
Proof.
  induction p as [| ap p IH]; intros andFn r H Hne.
  - simpl in H. inversion H; subst. destruct Hne; [contradiction | assumption].
  - rewrite andLoop_step in H.
    destruct (comparatorOf Parse Compare digitTable ap) as [rf | e] eqn:E; [| discriminate].
    apply (IH _ _ H). right.
    destruct andFn; [discriminate |].
    unfold comparatorOf in E.
    destruct (splitCV ap) as [[op vStr] | e]; [| discriminate].
    destruct (buildVR op vStr); inversion E. discriminate.
Qed.

Lemma orLoop_some (parts : list (list string)) :
  (forall g, In g parts -> g <> []) ->
  forall orFn r, orLoop_ parts orFn = inl r -> parts <> [] \/ orFn <> None -> r <> None.
Proof.
  induction parts as [| g parts IH]; intros Hg orFn r H Hne.
  - simpl in H. inversion H; subst. destruct Hne; [contradiction | assumption].
  - simpl in H.
    destruct (andLoop_ g None) as [andFn | e] eqn:E; [| discriminate].
    apply (IH (fun g' Hin => Hg g' (or_intror Hin)) _ _ H). right.
    destruct orFn; [discriminate |].
    apply (andLoop_some _ _ _ E). left. apply Hg. left. reflexivity.
Qed.

Lemma ParseRange_range_or_error (s : string) :
  (exists f, ParseRange_ s = (Some f, None))
  \/ (exists err, ParseRange_ s = (None, Some err)).
Proof.
  unfold ParseRange.
  destruct (orLoop_ (expandedParts s) None) as [r | e] eqn:E.
  - left. destruct r as [f |].
    + exists f. reflexivity.
    + exfalso. apply (orLoop_some _ (expandedParts_groups s) _ _ E); auto.
      left. apply expandedParts_nonempty.
  - right. exists e. reflexivity.
Qed.

Lemma rejected_comparatorOf (tok : string) :
  rejected Parse digitTable tok -> exists err, comparatorOf Parse Compare digitTable tok = inr err.
Proof.
  intros [op [vStr [Hs Hbad]]]. unfold comparatorOf, buildVersionRange.
  rewrite Hs. destruct Hbad as [Hop | [err Hp]].
  - apply parseComparator_known in Hop. rewrite Hop. eexists; reflexivity.
  - destruct (parseCmp op); [rewrite Hp |]; eexists; reflexivity.
Qed.

Lemma andLoop_rejected (tok : string) (p : list string) :
  In tok p -> rejected Parse digitTable tok -> forall andFn, exists err, andLoop_ p andFn = inr err.
Proof.
  intros Hin Hbad. induction p as [| ap p IH]; [contradiction |].
  intros andFn. rewrite andLoop_step.
  destruct (comparatorOf Parse Compare digitTable ap) as [rf | e] eqn:E.
  - destruct Hin as [-> | Hin].
    + destruct (rejected_comparatorOf _ Hbad) as [err Herr]. congruence.
    + apply (IH Hin).
  - exists e. reflexivity.
Qed.

Lemma orLoop_rejected (tok : string) (g : list string) (parts : list (list string)) :
  In g parts -> In tok g -> rejected Parse digitTable tok ->
  forall orFn, exists err, orLoop_ parts orFn = inr err.
Proof.
  intros Hg Hin Hbad. induction parts as [| g' parts IH]; [contradiction |].
  intros orFn. simpl.
  destruct (andLoop_ g' None) as [andFn | e] eqn:E.
  - destruct Hg as [-> | Hg].
    + destruct (andLoop_rejected _ _ Hin Hbad None) as [err Herr]. congruence.
    + apply (IH Hg).
  - exists e. reflexivity.
Qed.

Lemma ParseRange_rejected (s : string) (g : list string) (tok : string) :
  In g (spec_groups s) -> In tok g -> rejected Parse digitTable tok ->
  exists err, ParseRange_ s = (None, Some err).
Proof.
  unfold spec_groups. rewrite <- expandedParts_eq. intros Hg Hin Hbad.
  unfold ParseRange.
  destruct (orLoop_rejected _ _ _ Hg Hin Hbad None) as [err ->].
  exists err. reflexivity.
Qed.

End RangeProperties.


(** ** The claims about [ParseRange] *)

(** C1.  When [ParseRange] parses a range string, the Range it returns,
    applied to a version, is true if and only if one of the OR groups (the
    segments between the separators, normalised) has all its comparators
    true against the version; a comparator is read by its operator from the
    outcome of the three-way comparison with its operand ([spec_opHolds]).
    The range of the example matches 1.1.1, 3.0.0 and 3.5.0 and none of
    1.0.0, 2.0.0 and 2.9.9. *)
Theorem ParseRange_or_of_and_groups :
  (forall (Version VersionError : Type) (Parse : string -> Version + VersionError)
          (Compare : Version -> Version -> Z) (digitTable : N -> bool)
          (raw : string) (f : RangeFunc Version),
      ParseRange Version VersionError Parse Compare digitTable raw = (Some f, None) ->
      forall x : Version,
      exists b : bool,
        f x = Some b
        /\ (b = true <-> spec_matches Parse Compare digitTable raw x))
  /\ snd (ParseRangeV ">1.0.0 <2.0.0 || >=3.0.0") = None
  /\ call (fst (ParseRangeV ">1.0.0 <2.0.0 || >=3.0.0")) (Collaborator.version 1 1 1) = Some true
  /\ call (fst (ParseRangeV ">1.0.0 <2.0.0 || >=3.0.0")) (Collaborator.version 3 0 0) = Some true
  /\ call (fst (ParseRangeV ">1.0.0 <2.0.0 || >=3.0.0")) (Collaborator.version 3 5 0) = Some true
  /\ call (fst (ParseRangeV ">1.0.0 <2.0.0 || >=3.0.0")) (Collaborator.version 1 0 0) = Some false
  /\ call (fst (ParseRangeV ">1.0.0 <2.0.0 || >=3.0.0")) (Collaborator.version 2 0 0) = Some false
  /\ call (fst (ParseRangeV ">1.0.0 <2.0.0 || >=3.0.0")) (Collaborator.version 2 9 9) = Some false.
Proof.
  split.
  - intros Version VersionError Parse Compare digitTable raw f H x.
    exact (ParseRange_matches Version VersionError Parse Compare digitTable raw f H x).
  - repeat split; vm_compute; reflexivity.
Qed.

Lemma ParseRange_or_of_and_groups_witness :
  exists f : RangeFunc Collaborator.Version,
    ParseRangeV ">1.0.0 <2.0.0" = (Some f, None)
    /\ exists b : bool,
        f (Collaborator.version 1 1 1) = Some b
        /\ (b = true <->
            spec_matches Collaborator.Parse Collaborator.Compare Collaborator.Digit
              ">1.0.0 <2.0.0" (Collaborator.version 1 1 1)).
Proof.
  eexists. split.
  - vm_compute. reflexivity.
  - apply (proj1 ParseRange_or_of_and_groups). vm_compute. reflexivity.
Defined.

(** C6.  [ParseRange] returns an error and no Range whenever a normalised
    token has an operator part that is none of the nine operators, or a
    version part that [Parse] refuses.  The inputs >=1.2.x.y and 1.2.3 -
    (with its trailing hyphen) both yield an error and no Range. *)
Theorem ParseRange_error_on_rejected_token :
  (forall (Version VersionError : Type) (Parse : string -> Version + VersionError)
          (Compare : Version -> Version -> Z) (digitTable : N -> bool)
          (s : string) (g : list string) (tok op vStr : string),
      In g (spec_groups s) -> In tok g ->
      splitComparatorVersion VersionError digitTable tok = inl (op, vStr) ->
      (~ In op [""; "="; "=="; "!"; "!="; ">"; ">="; "<"; "<="]
       \/ exists err, Parse vStr = inr err) ->
      exists err,
        ParseRange Version VersionError Parse Compare digitTable s = (None, Some err))
  /\ (exists err, ParseRangeV ">=1.2.x.y" = (None, Some err))
  /\ (exists err, ParseRangeV "1.2.3 -" = (None, Some err)).
Proof.
  split; [| split].
  - intros Version VersionError Parse Compare digitTable s g tok op vStr Hg Hin Hs Hbad.
    apply (ParseRange_rejected Version VersionError Parse Compare digitTable s g tok Hg Hin).
    exists op, vStr. split; assumption.
  - eexists. vm_compute. reflexivity.
  - eexists. vm_compute. reflexivity.
Qed.

Lemma ParseRange_error_on_rejected_token_witness :
  exists err, ParseRangeV "1.0.0 || =>2.0.0" = (None, Some err).
Proof.
  apply (proj1 ParseRange_error_on_rejected_token
           Collaborator.Version Collaborator.ParseError Collaborator.Parse
           Collaborator.Compare Collaborator.Digit
           "1.0.0 || =>2.0.0" ["=>2.0.0"] "=>2.0.0" "=>" "2.0.0").
  - vm_compute. right. left. reflexivity.
  - left. reflexivity.
  - vm_compute. reflexivity.
  - left. simpl. intros H.
    repeat (destruct H as [H | H]; [discriminate H |]). exact H.
Defined.

(** C10.  For every input, [ParseRange] returns either a Range that is not
    nil and no error, or an error and a nil Range, never two nils: the split
    at the separators gives at least one segment, every segment normalises
    to at least one token, and every token makes a comparator or fails the
    whole call. *)
Theorem ParseRange_range_xor_error :
  forall (Version VersionError : Type) (Parse : string -> Version + VersionError)
         (Compare : Version -> Version -> Z) (digitTable : N -> bool) (s : string),
    Split reOr s <> []
    /\ (forall segment : string, parseRange segment <> [])
    /\ ((exists f : RangeFunc Version,
           ParseRange Version VersionError Parse Compare digitTable s = (Some f, None))
        \/ (exists err : error VersionError,
              ParseRange Version VersionError Parse Compare digitTable s = (None, Some err))).
Proof.
  intros Version VersionError Parse Compare digitTable s. split; [| split].
  - apply Split_nonempty.
  - apply parseRange_nonempty.
  - apply ParseRange_range_or_error.
Qed.

(** ** The segments that are only a wildcard *)

Section Wildcards.

Variable Version : Type.
Variable VersionError : Type.
Variable Parse : string -> Version + VersionError.
Variable Compare : Version -> Version -> Z.
Variable digitTable : N -> bool.

Lemma expandedParts_x : expandedParts "x" = [[">=0.0.0"]].
Proof. vm_compute. reflexivity. Qed.

Lemma expandedParts_star : expandedParts "*" = [[">=0.0.0"]].
Proof. vm_compute. reflexivity. Qed.

Lemma expandedParts_empty : expandedParts "" = [[""]].
Proof. vm_compute. reflexivity. Qed.

Lemma splitComparatorVersion_any :
  @splitComparatorVersion VersionError digitTable ">=0.0.0" = inl (">=", "0.0.0").
Proof. vm_compute. reflexivity. Qed.

Lemma splitComparatorVersion_empty :
  @splitComparatorVersion VersionError digitTable "" = inr (ErrNoVersion "").
Proof. vm_compute. reflexivity. Qed.

Lemma orLoop_any (v0 : Version) :
  Parse "0.0.0" = inl v0 ->
  exists f : RangeFunc Version,
    orLoop Version VersionError Parse Compare digitTable [[">=0.0.0"]] None = inl (Some f)
    /\ forall x, f x = Some (Compare x v0 >=? 0)%Z.
Proof.
  intros HP. unfold orLoop, andLoop.
  rewrite splitComparatorVersion_any. unfold buildVersionRange.
  change (parseComparator Version Compare ">=") with (Some (compGE Version Compare)).
  rewrite HP. eexists. split; [reflexivity |]. intros x. reflexivity.
Qed.

End Wildcards.

(** C7, as the code has it.  For the segments x and star, [parseRange] gives
    the one token >=0.0.0, and the Range [ParseRange] builds from it is true
    exactly on the versions that compare at or above 0.0.0; for the empty
    string [parseRange] gives the one empty token, and [ParseRange] returns
    an error and no Range. *)
Theorem wildcard_segment_ranges :
  forall (Version VersionError : Type) (Parse : string -> Version + VersionError)
         (Compare : Version -> Version -> Z) (digitTable : N -> bool) (v0 : Version),
    Parse "0.0.0" = inl v0 ->
    parseRange "x" = [">=0.0.0"]
    /\ parseRange "*" = [">=0.0.0"]
    /\ parseRange "" = [""]
    /\ (exists f : RangeFunc Version,
          ParseRange Version VersionError Parse Compare digitTable "x" = (Some f, None)
          /\ forall x, f x = Some (Compare x v0 >=? 0)%Z)
    /\ (exists f : RangeFunc Version,
          ParseRange Version VersionError Parse Compare digitTable "*" = (Some f, None)
          /\ forall x, f x = Some (Compare x v0 >=? 0)%Z)
    /\ ParseRange Version VersionError Parse Compare digitTable ""
       = (None, Some (ErrNoVersion "")).
Proof.
  intros Version VersionError Parse Compare digitTable v0 HP.
  split; [vm_compute; reflexivity |].
  split; [vm_compute; reflexivity |].
  split; [vm_compute; reflexivity |].
  split; [| split].
  - unfold ParseRange. rewrite expandedParts_x.
    destruct (orLoop_any Version VersionError Parse Compare digitTable v0 HP) as [f [-> Hf]].
    exists f. split; [reflexivity | exact Hf].
  - unfold ParseRange. rewrite expandedParts_star.
    destruct (orLoop_any Version VersionError Parse Compare digitTable v0 HP) as [f [-> Hf]].
    exists f. split; [reflexivity | exact Hf].
  - unfold ParseRange. rewrite expandedParts_empty. unfold orLoop, andLoop.
    rewrite splitComparatorVersion_empty. reflexivity.
Qed.

Lemma wildcard_segment_ranges_witness :
  Collaborator.Parse "0.0.0" = inl (Collaborator.version 0 0 0)
  /\ parseRange "x" = [">=0.0.0"]
  /\ parseRange "*" = [">=0.0.0"]
  /\ parseRange "" = [""]
  /\ (exists f : RangeFunc Collaborator.Version,
        ParseRangeV "x" = (Some f, None)
        /\ forall x, f x = Some (Collaborator.Compare x (Collaborator.version 0 0 0) >=? 0)%Z)
  /\ (exists f : RangeFunc Collaborator.Version,
        ParseRangeV "*" = (Some f, None)
        /\ forall x, f x = Some (Collaborator.Compare x (Collaborator.version 0 0 0) >=? 0)%Z)
  /\ ParseRangeV "" = (None, Some (ErrNoVersion "")).
Proof.
  split.
  - vm_compute. reflexivity.
  - apply (wildcard_segment_ranges Collaborator.Version Collaborator.ParseError
             Collaborator.Parse Collaborator.Compare Collaborator.Digit).
    vm_compute. reflexivity.
Defined.

(** C7 as it is stated fails: the empty string gives an error and no Range,
    and the Range of x and of the star is false on the prerelease
    0.0.0-alpha. *)
Lemma wildcard_segments_counterexample :
  ParseRangeV "" = (None, Some (ErrNoVersion ""))
  /\ Collaborator.Parse "0.0.0-alpha" = inl v000alpha
  /\ call (fst (ParseRangeV "x")) v000alpha = Some false
  /\ call (fst (ParseRangeV "*")) v000alpha = Some false.
Proof. repeat split; vm_compute; reflexivity. Qed.

(** ** The increments of the expansions *)

Lemma digitVal_range (c : ascii) :
  strconv.isDigit c = true -> (0 <= strconv.digitVal c <= 9)%Z.
Proof.
  unfold strconv.isDigit, strconv.digitVal. intros H.
  apply andb_true_iff in H. destruct H as [H1 H2].
  apply N.leb_le in H1, H2. lia.
Qed.

Lemma decimal_acc (s : string) :
  forall acc : Z,
    strconv.decimal s acc = (acc * 10 ^ Z.of_nat (length s) + strconv.decimal s 0)%Z.
Proof.
  induction s as [| c t IH]; intros acc.
  - simpl. lia.
  - cbn [strconv.decimal length]. rewrite (IH (10 * acc + strconv.digitVal c)%Z).
    rewrite (IH (10 * 0 + strconv.digitVal c)%Z).
    rewrite Nat2Z.inj_succ, Z.pow_succ_r by lia. ring.
Qed.

Lemma decimal_range (s : string) :
  sall strconv.isDigit s = true ->
  (0 <= strconv.decimal s 0 < 10 ^ Z.of_nat (length s))%Z.
Proof.
  induction s as [| c t IH]; intros H.
  - simpl. lia.
  - cbn [sall] in H. apply andb_true_iff in H. destruct H as [Hc Ht].
    cbn [strconv.decimal length]. rewrite decimal_acc.
    rewrite Nat2Z.inj_succ, Z.pow_succ_r by lia.
    pose proof (digitVal_range c Hc). specialize (IH Ht).
    nia.
Qed.

Lemma digits_fuel (f1 : nat) :
  forall (f2 : nat) (n : Z) (acc : string),
    (0 <= n < 10 ^ Z.of_nat (S f1))%Z -> (n < 10 ^ Z.of_nat (S f2))%Z ->
    strconv.digits (S f1) n acc = strconv.digits (S f2) n acc.
Proof.
  induction f1 as [| f1 IH]; intros f2 n acc H1 H2.
  - change (10 ^ Z.of_nat 1)%Z with 10%Z in H1.
    cbn [strconv.digits]. destruct (Z.ltb_spec n 10); [reflexivity | lia].
  - cbn [strconv.digits]. destruct (Z.ltb_spec n 10) as [Hlt | Hge]; [reflexivity |].
    destruct f2 as [| f2].
    + change (10 ^ Z.of_nat 1)%Z with 10%Z in H2. lia.
    + apply IH.
      * rewrite Nat2Z.inj_succ, Z.pow_succ_r in H1 by lia.
        split; [apply Z.div_pos; lia | apply Z.div_lt_upper_bound; lia].
      * rewrite Nat2Z.inj_succ, Z.pow_succ_r in H2 by lia.
        apply Z.div_lt_upper_bound; lia.
Qed.

Lemma Atoi_numeral (s : string) :
  numeral s = true -> (strconv.decimal s 0 < 2 ^ 63)%Z ->
  strconv.Atoi s = strconv.decimal s 0.
Proof.
  unfold numeral. intros H Hlt. apply andb_true_iff in H. destruct H as [Hlen Hd].
  destruct s as [| c t]; [discriminate |].
  unfold strconv.Atoi.
  pose proof Hd as Hd'. cbn [sall] in Hd'. apply andb_true_iff in Hd'.
  destruct Hd' as [Hc _].
  destruct (Ascii.eqb_spec c "-") as [-> | _]; [discriminate |].
  destruct (Ascii.eqb_spec c "+") as [-> | _]; [discriminate |].
  rewrite Hd.
  destruct (Z.leb_spec (2 ^ 63) (strconv.decimal (String c t) 0)); [lia | reflexivity].
Qed.

Lemma incr_in_range (s : string) :
  numeral s = true -> (strconv.decimal s 0 <= 2 ^ 63 - 2)%Z ->
  incr (strconv.Atoi s) = spec_next s.
Proof.
  intros H Hle. rewrite (Atoi_numeral s H) by lia.
  unfold numeral in H. apply andb_true_iff in H. destruct H as [_ Hd].
  pose proof (decimal_range s Hd) as Hr.
  unfold incr, spec_next, strconv.wrap, strconv.Itoa.
  rewrite Z.mod_small by lia.
  replace (strconv.decimal s 0 + 1 + 2 ^ 63 - 2 ^ 63)%Z with (strconv.decimal s 0 + 1)%Z by lia.
  destruct (Z.ltb_spec (strconv.decimal s 0 + 1) 0); [lia |].
  apply (digits_fuel 19 (length s)).
  - split; [lia |]. apply Z.lt_trans with (2 ^ 63)%Z; [lia | reflexivity].
  - rewrite Nat2Z.inj_succ, Z.pow_succ_r by lia. lia.
Qed.

(** At the greatest [int] the increment wraps around. *)
Lemma incr_maxInt : incr strconv.maxInt = "-9223372036854775808".
Proof. vm_compute. reflexivity. Qed.

(** ** The rules of the expansions, in exact arithmetic

    The rules as the specification words them, with the increments taken in
    exact arithmetic ([spec_next]); the code follows them as long as the
    component it increments is a numeral below the greatest [int]. *)

Lemma MatchString_submatch (re : Regexp) (s : string) (mt : list string) :
  FindStringSubmatch re s = Some mt -> MatchString re s = true.
Proof.
  unfold FindStringSubmatch, MatchString.
  destruct (search re (length s) s) as [[[pre rest] c] |]; [reflexivity | discriminate].
Qed.

Lemma length_zero_eqb (s : string) : (0 <? length s)%nat = negb (String.eqb s "").
Proof. destruct s; reflexivity. Qed.

Ltac use_incr :=
  repeat match goal with
         | H : incrementable ?x |- context [incr (strconv.Atoi ?x)] =>
           rewrite (incr_in_range x (proj1 H) (proj2 H))
         end.

(** X1.  The rule of the hyphen ranges: for a segment that HYPHENRANGE
    matches, [hyphenReplace] gives the bounds of the rule, the increment
    taken exactly, as long as the component it increments is a numeral of
    at most 2^63 - 2. *)
Lemma hyphenReplace_rule (s : string) (mt : list string) :
  FindStringSubmatch (getRegex "HYPHENRANGE") s = Some mt ->
  (isX (sub mt 8) = false -> isX (sub mt 9) = true -> incrementable (sub mt 8)) ->
  (isX (sub mt 9) = false -> isX (sub mt 10) = true -> incrementable (sub mt 9)) ->
  hyphenReplace getRegex s =
  spec_hyphen (sub mt 1) (sub mt 2) (sub mt 3) (sub mt 4)
    (sub mt 7) (sub mt 8) (sub mt 9) (sub mt 10) (sub mt 11).
Proof.
  intros Hm H8 H9. unfold hyphenReplace, spec_hyphen.
  rewrite (MatchString_submatch _ _ _ Hm), Hm. cbn [negb].
  rewrite length_zero_eqb.
  destruct (isX (sub mt 8)) eqn:E8; [reflexivity |].
  destruct (isX (sub mt 9)) eqn:E9.
  { pose proof (H8 eq_refl eq_refl). use_incr. reflexivity. }
  destruct (isX (sub mt 10)) eqn:E10.
  { pose proof (H9 eq_refl eq_refl). use_incr. reflexivity. }
  destruct (String.eqb (sub mt 11) ""); reflexivity.
Qed.

(** X3.  The rule of the tilde ranges, under the same bound on the component
    that is incremented. *)
Lemma replaceTilde_rule (s : string) (mt : list string) :
  FindStringSubmatch (getRegex "TILDE") s = Some mt ->
  (isX (sub mt 1) = false -> isX (sub mt 2) = true -> incrementable (sub mt 1)) ->
  (isX (sub mt 2) = false -> incrementable (sub mt 2)) ->
  replaceTilde getRegex s = spec_tilde (sub mt 1) (sub mt 2) (sub mt 3) (sub mt 4).
Proof.
  intros Hm H1 H2. unfold replaceTilde, spec_tilde, spec_lowerBound.
  rewrite (MatchString_submatch _ _ _ Hm), Hm. cbn [negb].
  rewrite length_zero_eqb.
  destruct (isX (sub mt 1)) eqn:E1; [reflexivity |].
  destruct (isX (sub mt 2)) eqn:E2.
  { pose proof (H1 eq_refl eq_refl). use_incr. reflexivity. }
  pose proof (H2 eq_refl).
  destruct (isX (sub mt 3)) eqn:E3; use_incr; [reflexivity |].
  destruct (String.eqb (sub mt 4) ""); cbn [negb];
    repeat rewrite app_assoc_s; reflexivity.
Qed.

(** X2.  The rule of the caret ranges, under the same bound on the
    components that are not wildcards. *)
Lemma replaceCaret_rule (s : string) (mt : list string) :
  FindStringSubmatch (getRegex "CARET") s = Some mt ->
  (isX (sub mt 1) = false -> incrementable (sub mt 1)) ->
  (isX (sub mt 2) = false -> incrementable (sub mt 2)) ->
  (isX (sub mt 3) = false -> incrementable (sub mt 3)) ->
  replaceCaret getRegex s = spec_caret (sub mt 1) (sub mt 2) (sub mt 3) (sub mt 4).
Proof.
  intros Hm H1 H2 H3. unfold replaceCaret, spec_caret, spec_lowerBound.
  rewrite (MatchString_submatch _ _ _ Hm), Hm. cbn [negb].
  rewrite length_zero_eqb.
  destruct (isX (sub mt 1)) eqn:E1; [reflexivity |].
  pose proof (H1 eq_refl).
  destruct (isX (sub mt 2)) eqn:E2; [use_incr; reflexivity |].
  pose proof (H2 eq_refl).
  destruct (isX (sub mt 3)) eqn:E3; [use_incr; reflexivity |].
  pose proof (H3 eq_refl).
  destruct (String.eqb (sub mt 4) ""), (String.eqb (sub mt 1) "0"),
    (String.eqb (sub mt 2) "0");
    cbn [negb andb]; use_incr; repeat rewrite app_assoc_s; reflexivity.
Qed.

Ltac xrange_cases G :=
  destruct (String.eqb_spec G ">") as [-> | ?];
  [ intros Hs; inversion Hs; change (negb (">" =? "")) with true;
    cbv beta iota zeta; use_incr; reflexivity |];
  destruct (String.eqb_spec G "<=") as [-> | ?];
  [ intros Hs; inversion Hs; change (negb ("<=" =? "")) with true;
    cbv beta iota zeta; use_incr; reflexivity |];
  destruct (String.eqb_spec G "") as [-> | ?]; [| discriminate];
  intros Hs; inversion Hs; cbn [negb]; use_incr; reflexivity.

(** X4.  The rule of the x-ranges, where the specification gives one, under
    the same bound on the major and the minor when they are not wildcards. *)
Lemma replaceXRange_rule (s : string) (mt : list string) (r : string) :
  FindStringSubmatch (getRegex "XRANGE") s = Some mt ->
  (isX (sub mt 2) = false -> incrementable (sub mt 2)) ->
  (isX (sub mt 3) = false -> incrementable (sub mt 3)) ->
  spec_xrange (sub mt 1) (sub mt 2) (sub mt 3) (sub mt 4) = Some r ->
  replaceXRange getRegex s = r.
Proof.
  intros Hm H2 H3. unfold replaceXRange, spec_xrange.
  rewrite (MatchString_submatch _ _ _ Hm), Hm. cbn [negb].
  destruct (isX (sub mt 2)) eqn:E2.
  { cbn [orb andb]. rewrite andb_true_r.
    destruct (String.eqb (sub mt 1) "="); intros Hs; inversion Hs; reflexivity. }
  pose proof (H2 eq_refl) as I2.
  destruct (isX (sub mt 3)) eqn:E3.
  - cbn [orb andb]. rewrite !andb_true_r, length_zero_eqb.
    generalize (if String.eqb (sub mt 1) "=" then "" else sub mt 1). intros G.
    xrange_cases G.
  - pose proof (H3 eq_refl) as I3.
    destruct (isX (sub mt 4)) eqn:E4; [| discriminate].
    cbn [orb andb]. rewrite !andb_true_r, length_zero_eqb.
    generalize (if String.eqb (sub mt 1) "=" then "" else sub mt 1). intros G.
    xrange_cases G.
Qed.

(** The rules at work on concrete tokens. *)
Lemma hyphenReplace_rule_witness :
  hyphenReplace getRegex "1.2.3 - 3.4"
  = spec_hyphen "1.2.3" "1" "2" "3" "3.4" "3" "4" "" "".
Proof.
  apply (hyphenReplace_rule "1.2.3 - 3.4"
           ["1.2.3 - 3.4"; "1.2.3"; "1"; "2"; "3"; ""; ""; "3.4"; "3"; "4"; ""; ""; ""]).
  - vm_compute. reflexivity.
  - intros _ H. vm_compute in H. discriminate H.
  - intros _ _. split; vm_compute; [reflexivity | intros H; discriminate H].
Defined.

Lemma replaceTilde_rule_witness :
  replaceTilde getRegex "~1.2.3-beta" = spec_tilde "1" "2" "3" "beta".
Proof.
  apply (replaceTilde_rule "~1.2.3-beta" ["~1.2.3-beta"; "1"; "2"; "3"; "beta"; ""]).
  - vm_compute. reflexivity.
  - intros _ H. vm_compute in H. discriminate H.
  - intros _. split; vm_compute; [reflexivity | intros H; discriminate H].
Defined.

Lemma replaceCaret_rule_witness :
  replaceCaret getRegex "^0.0.3" = spec_caret "0" "0" "3" "".
Proof.
  apply (replaceCaret_rule "^0.0.3" ["^0.0.3"; "0"; "0"; "3"; ""; ""]).
  - vm_compute. reflexivity.
  - intros _. split; vm_compute; [reflexivity | intros H; discriminate H].
  - intros _. split; vm_compute; [reflexivity | intros H; discriminate H].
  - intros _. split; vm_compute; [reflexivity | intros H; discriminate H].
Defined.

Lemma replaceXRange_rule_witness :
  replaceXRange getRegex "<=1.2.x" = "<1.3.0".
Proof.
  apply (replaceXRange_rule "<=1.2.x" ["<=1.2.x"; "<="; "1"; "2"; "x"; ""; ""]).
  - vm_compute. reflexivity.
  - intros _. split; vm_compute; [reflexivity | intros H; discriminate H].
  - intros _. split; vm_compute; [reflexivity | intros H; discriminate H].
  - vm_compute. reflexivity.
Defined.

(** X5.  The literal cases of the expansions. *)
Lemma expansion_examples :
  hyphenReplace getRegex "1.2 - 3.4.5" = ">=1.2.0 <=3.4.5"
  /\ hyphenReplace getRegex "1.2.3 - 3.4" = ">=1.2.3 <3.5.0"
  /\ hyphenReplace getRegex "1.2 - 3.4" = ">=1.2.0 <3.5.0"
  /\ replaceCaret getRegex "^1.2.3" = ">=1.2.3 <2.0.0"
  /\ replaceCaret getRegex "^0.2.3" = ">=0.2.3 <0.3.0"
  /\ replaceCaret getRegex "^0.0.3" = ">=0.0.3 <0.0.4"
  /\ replaceTilde getRegex "~1.2.3" = ">=1.2.3 <1.3.0"
  /\ replaceTilde getRegex "~1.2" = ">=1.2.0 <1.3.0"
  /\ replaceTilde getRegex "~0" = ">=0.0.0 <1.0.0"
  /\ replaceTilde getRegex "~>1.2.3" = ">=1.2.3 <1.3.0"
  /\ replaceXRange getRegex ">1.2.x" = ">=1.3.0"
  /\ replaceXRange getRegex ">1" = ">=2.0.0"
  /\ replaceXRange getRegex "<=1.2.x" = "<1.3.0"
  /\ replaceXRange getRegex "=1.x" = ">=1.0.0 <2.0.0"
  /\ replaceXRange getRegex "1.2.x" = ">=1.2.0 <1.3.0"
  /\ replaceXRange getRegex ">x" = "<0.0.0"
  /\ replaceXRange getRegex "x" = "*".
Proof. repeat split; vm_compute; reflexivity. Qed.

(** ** The increments at the greatest [int]

    [strconv.Atoi] gives 9223372036854775807 for this numeral and for every
    greater one, and the increment of that value wraps around to the least
    [int]: the bound the expansion writes is negative. *)

(** C2 at the input 1.2.3 - 9223372036854775807: the hyphen expansion writes
    the wrapped major where the rule has its successor
    9223372036854775808. *)
Theorem hyphenReplace_wraps :
  hyphenReplace getRegex "1.2.3 - 9223372036854775807"
  = ">=1.2.3 <-9223372036854775808.0.0"
  /\ spec_hyphen "1.2.3" "1" "2" "3" "9223372036854775807" "9223372036854775807" "" "" ""
     = ">=1.2.3 <9223372036854775808.0.0".
Proof. split; vm_compute; reflexivity. Qed.

(** C3 at the input ^9223372036854775807.2.3: the caret expansion writes the
    wrapped major where the rule has its successor. *)
Theorem replaceCaret_wraps :
  replaceCaret getRegex "^9223372036854775807.2.3"
  = ">=9223372036854775807.2.3 <-9223372036854775808.0.0"
  /\ spec_caret "9223372036854775807" "2" "3" ""
     = ">=9223372036854775807.2.3 <9223372036854775808.0.0".
Proof. split; vm_compute; reflexivity. Qed.

(** C4 at the input ~1.9223372036854775807.3: the tilde expansion writes the
    wrapped minor where the rule has its successor. *)
Theorem replaceTilde_wraps :
  replaceTilde getRegex "~1.9223372036854775807.3"
  = ">=1.9223372036854775807.3 <1.-9223372036854775808.0"
  /\ spec_tilde "1" "9223372036854775807" "3" ""
     = ">=1.9223372036854775807.3 <1.9223372036854775808.0".
Proof. split; vm_compute; reflexivity. Qed.

(** C5 at the input >9223372036854775807: the x-range expansion writes the
    wrapped major where the rule has its successor. *)
Theorem replaceXRange_wraps :
  replaceXRange getRegex ">9223372036854775807" = ">=-9223372036854775808.0.0"
  /\ spec_xrange ">" "9223372036854775807" "" ""
     = Some ">=9223372036854775808.0.0".
Proof. split; vm_compute; reflexivity. Qed.

(** C9 at the input ~9223372036854775807: the increment is not exact within
    the range of the unsigned integers, and the normaliser reports nothing:
    [parseRange] returns the wrapped bound as a token.  ([ParseRange] then
    fails on that token, for the operator it reads from it.) *)
Theorem increment_wraps_silently :
  incr (strconv.Atoi "9223372036854775807") = "-9223372036854775808"
  /\ spec_next "9223372036854775807" = "9223372036854775808"
  /\ parseRange "~9223372036854775807"
     = [">=9223372036854775807.0.0"; "<-9223372036854775808.0.0"]
  /\ parseRange "9223372036854775807.x"
     = [">=9223372036854775807.0.0"; "<-9223372036854775808.0.0"]
  /\ parseRange "^0.0.9223372036854775807"
     = [">=0.0.9223372036854775807"; "<0.0.-9223372036854775808"]
  /\ parseRange "1 - 9223372036854775807"
     = [">=1.0.0"; "<-9223372036854775808.0.0"]
  /\ ParseRangeV "~9223372036854775807"
     = (None, Some (ErrRange "<-9223372036854775808.0.0"
                      (ErrComparator "<-" "<-9223372036854775808.0.0"))).
Proof. repeat split; vm_compute; reflexivity. Qed.

(** ** The matcher *)

Lemma suffix_refl (s : string) : suffix s s.
Proof. exists "". reflexivity. Qed.

Lemma suffix_cons (ch : ascii) (s' s : string) : suffix s' s -> suffix s' (String ch s).
Proof. intros [p ->]. exists (String ch p). reflexivity. Qed.

Lemma suffix_trans (a b c : string) : suffix a b -> suffix b c -> suffix a c.
Proof. intros [p ->] [q ->]. exists (q ++ p). rewrite app_assoc_s. reflexivity. Qed.

Lemma suffix_length (s' s : string) : suffix s' s -> (length s' <= length s)%nat.
Proof. intros [p ->]. rewrite length_app_s. lia. Qed.

(** A continuation that fails on every suffix makes the match fail. *)
Lemma star_loop_none (body : cont -> cont) (k : cont) :
  (forall (k' : cont) (s : string) (c : caps),
      (forall s' c', suffix s' s -> k' s' c' = None) -> body k' s c = None) ->
  forall (fuel : nat) (s : string) (c : caps),
    (forall s' c', suffix s' s -> k s' c' = None) ->
    star_loop body k fuel s c = None.
Proof.
  intros Hbody. induction fuel as [| fuel IH]; intros s c Hk.
  - simpl. apply Hk, suffix_refl.
  - simpl. rewrite Hbody.
    + apply Hk, suffix_refl.
    + intros s' c' Hs. destruct (length s' <? length s)%nat; [| reflexivity].
      apply IH. intros s'' c'' Hs'. apply Hk. eapply suffix_trans; eassumption.
Qed.

Lemma m_none_of_cont (n0 : nat) (r : re) :
  forall (k : cont) (s : string) (c : caps),
    (forall s' c', suffix s' s -> k s' c' = None) -> m n0 r k s c = None.
Proof.
  induction r as [| a | rs | a IHa b IHb | a IHa b IHb | a IHa | i a IHa | |];
    intros k s c Hk; cbn [m].
  - apply Hk, suffix_refl.
  - destruct s as [| b t]; [reflexivity |].
    destruct (Ascii.eqb a b); [| reflexivity]. apply Hk, suffix_cons, suffix_refl.
  - destruct s as [| b t]; [reflexivity |].
    destruct (in_class rs b); [| reflexivity]. apply Hk, suffix_cons, suffix_refl.
  - apply IHa. intros s' c' Hs. apply IHb. intros s'' c'' Hs'.
    apply Hk. eapply suffix_trans; eassumption.
  - rewrite IHa by assumption. apply IHb. assumption.
  - apply star_loop_none; [| assumption]. intros k' s0 c0 Hk'. apply IHa. assumption.
  - apply IHa. intros s' c' Hs. apply Hk. assumption.
  - destruct (length s =? n0)%nat; [| reflexivity]. apply Hk, suffix_refl.
  - destruct s; [| reflexivity]. apply Hk, suffix_refl.
Qed.

Lemma contains_byte_suffix (ch : ascii) (s' s : string) :
  suffix s' s -> contains_byte ch s = false -> contains_byte ch s' = false.
Proof.
  intros [p ->]. induction p as [| x p IH]; simpl; [auto |].
  intros H. apply orb_false_iff in H. destruct H as [_ H]. auto.
Qed.

Lemma m_needs (n0 : nat) (ch : ascii) (r : re) :
  needs ch r = true ->
  forall (k : cont) (s : string) (c : caps),
    contains_byte ch s = false -> m n0 r k s c = None.
Proof.
  induction r as [| a | rs | a IHa b IHb | a IHa b IHb | a IHa | i a IHa | |];
    cbn [needs]; intros Hn k s c Hs; try discriminate; cbn [m].
  - destruct s as [| b t]; [reflexivity |].
    apply Ascii.eqb_eq in Hn. subst a. cbn [contains_byte] in Hs.
    apply orb_false_iff in Hs. destruct Hs as [Hb _].
    rewrite Ascii.eqb_sym, Hb. reflexivity.
  - apply orb_true_iff in Hn. destruct Hn as [Hn | Hn].
    + apply IHa; assumption.
    + apply m_none_of_cont. intros s' c' Hsuf. apply IHb; [assumption |].
      eapply contains_byte_suffix; eassumption.
  - apply andb_true_iff in Hn. destruct Hn as [Ha Hb].
    rewrite IHa by assumption. apply IHb; assumption.
  - apply IHa; assumption.
Qed.

Lemma matchHere_needs (re : Regexp) (n0 : nat) (ch : ascii) (s : string) :
  needs ch (prog re) = true -> contains_byte ch s = false -> matchHere re n0 s = None.
Proof. intros Hn Hs. unfold matchHere. apply m_needs with (ch := ch); assumption. Qed.

Lemma search_none (re : Regexp) (n0 : nat) (s : string) :
  (forall s', suffix s' s -> matchHere re n0 s' = None) -> search re n0 s = None.
Proof.
  induction s as [| ch t IH]; intros H; cbn [search].
  - rewrite (H "" (suffix_refl _)). reflexivity.
  - rewrite (H _ (suffix_refl _)). rewrite IH; [reflexivity |].
    intros s' Hs. apply H, suffix_cons, Hs.
Qed.

Lemma MatchString_needs (re : Regexp) (ch : ascii) (s : string) :
  needs ch (prog re) = true -> contains_byte ch s = false -> MatchString re s = false.
Proof.
  intros Hn Hs. unfold MatchString. rewrite search_none; [reflexivity |].
  intros s' Hsuf. apply matchHere_needs with (ch := ch); [assumption |].
  eapply contains_byte_suffix; eassumption.
Qed.

Lemma matches_none (re : Regexp) (n0 : nat) :
  forall (fuel : nat) (s : string) (b : bool),
    (length s < fuel)%nat ->
    (forall s', suffix s' s -> matchHere re n0 s' = None) ->
    matches fuel re n0 s b = ([], s).
Proof.
  induction fuel as [| fuel IH]; intros s b Hf H; [lia |].
  cbn [matches]. rewrite (H s (suffix_refl _)).
  destruct s as [| ch t]; [reflexivity |].
  rewrite IH; [reflexivity | simpl in Hf; lia |].
  intros s' Hs. apply H, suffix_cons, Hs.
Qed.

Lemma ReplaceAllString_needs (re : Regexp) (ch : ascii) (s repl : string) :
  needs ch (prog re) = true -> contains_byte ch s = false ->
  ReplaceAllString re s repl = s.
Proof.
  intros Hn Hs. unfold ReplaceAllString, allMatches.
  rewrite matches_none; [reflexivity | lia |].
  intros s' Hsuf. apply matchHere_needs with (ch := ch); [assumption |].
  eapply contains_byte_suffix; eassumption.
Qed.

(** ** Matches found first *)

Lemma take_app_diff (w rest : string) :
  take (length (w ++ rest) - length rest) (w ++ rest) = w.
Proof.
  rewrite length_app_s. replace (length w + length rest - length rest)%nat with (length w) by lia.
  induction w as [| x w IH]; simpl.
  - destruct rest; reflexivity.
  - rewrite IH. reflexivity.
Qed.

Section FirstMatch.

Variable n0 : nat.

Lemma fm_eps (rest : string) : first_match n0 Eps "" rest (fun c => c).
Proof. intros k c x H. exact H. Qed.

Lemma fm_chr (a : ascii) (rest : string) :
  first_match n0 (Chr a) (String a "") rest (fun c => c).
Proof. intros k c x H. cbn. rewrite Ascii.eqb_refl. exact H. Qed.

Lemma fm_cls (rs : list (ascii * ascii)) (a : ascii) (rest : string) :
  in_class rs a = true -> first_match n0 (Cls rs) (String a "") rest (fun c => c).
Proof. intros Ha k c x H. cbn. rewrite Ha. exact H. Qed.

Lemma fm_seq (a b : re) (w1 w2 rest : string) (f1 f2 : caps -> caps) :
  first_match n0 a w1 (w2 ++ rest) f1 -> first_match n0 b w2 rest f2 ->
  first_match n0 (Seq a b) (w1 ++ w2) rest (fun c => f2 (f1 c)).
Proof.
  intros Ha Hb k c x H. cbn [m]. rewrite app_assoc_s.
  apply Ha. apply Hb. exact H.
Qed.

Lemma fm_alt_l (a b : re) (w rest : string) (f : caps -> caps) :
  first_match n0 a w rest f -> first_match n0 (Alt a b) w rest f.
Proof. intros Ha k c x H. cbn [m]. rewrite (Ha k c x H). reflexivity. Qed.

Lemma fm_alt_r (a b : re) (w rest : string) (f : caps -> caps) :
  fails n0 a (w ++ rest) -> first_match n0 b w rest f ->
  first_match n0 (Alt a b) w rest f.
Proof. intros Ha Hb k c x H. cbn [m]. rewrite Ha. apply Hb. exact H. Qed.

Lemma fm_cap (i : nat) (a : re) (w rest : string) (f : caps -> caps) :
  first_match n0 a w rest f ->
  first_match n0 (Cap i a) w rest (fun c => upd i (Some w) (f c)).
Proof.
  intros Ha k c x H. cbn [m]. apply Ha. rewrite take_app_diff. exact H.
Qed.

Lemma fm_bol (rest : string) :
  length rest = n0 -> first_match n0 Bol "" rest (fun c => c).
Proof. intros Hl k c x H. cbn. rewrite Hl, Nat.eqb_refl. exact H. Qed.

Lemma fm_eol : first_match n0 Eol "" "" (fun c => c).
Proof. intros k c x H. exact H. Qed.

Lemma star_loop_cls (rs : list (ascii * ascii)) (k : cont) (rest : string) (x : string * caps) :
  stops rs rest = true ->
  forall (w : string) (fuel : nat) (c : caps),
    sall (in_class rs) w = true -> (length w <= fuel)%nat ->
    k rest c = Some x ->
    star_loop (m n0 (Cls rs)) k fuel (w ++ rest) c = Some x.
Proof.
  intros Hstop. induction w as [| a w IH]; intros fuel c Hw Hf Hk.
  - cbn [append]. destruct fuel as [| fuel]; [exact Hk |].
    cbn [star_loop m]. destruct rest as [| ch t]; [exact Hk |].
    cbn [stops] in Hstop. apply negb_true_iff in Hstop. rewrite Hstop. exact Hk.
  - cbn [sall] in Hw. apply andb_true_iff in Hw. destruct Hw as [Ha Hw].
    destruct fuel as [| fuel]; [cbn in Hf; lia |].
    cbn [append star_loop m]. rewrite Ha.
    assert (Hlt : (length (w ++ rest) <? length (String a (w ++ rest)))%nat = true).
    { apply Nat.ltb_lt. cbn. lia. }
    rewrite Hlt. rewrite IH; [reflexivity | assumption | cbn in Hf; lia | assumption].
Qed.

Lemma fm_star_cls (rs : list (ascii * ascii)) (w rest : string) :
  sall (in_class rs) w = true -> stops rs rest = true ->
  first_match n0 (Star (Cls rs)) w rest (fun c => c).
Proof.
  intros Hw Hstop k c x H. cbn [m].
  apply star_loop_cls; try assumption. rewrite length_app_s. lia.
Qed.

(** Failures. *)
Lemma fails_seq (a b : re) (s : string) : fails n0 a s -> fails n0 (Seq a b) s.
Proof. intros Ha k c. cbn [m]. apply Ha. Qed.

Lemma fails_alt (a b : re) (s : string) :
  fails n0 a s -> fails n0 b s -> fails n0 (Alt a b) s.
Proof. intros Ha Hb k c. cbn [m]. rewrite Ha. apply Hb. Qed.

Lemma fails_cap (i : nat) (a : re) (s : string) : fails n0 a s -> fails n0 (Cap i a) s.
Proof. intros Ha k c. cbn [m]. apply Ha. Qed.

Lemma fails_chr (a b : ascii) (t : string) :
  Ascii.eqb a b = false -> fails n0 (Chr a) (String b t).
Proof. intros H k c. cbn. rewrite H. reflexivity. Qed.

Lemma fails_cls (rs : list (ascii * ascii)) (s : string) :
  stops rs s = true -> s <> "" -> fails n0 (Cls rs) s.
Proof.
  intros H Hne k c. destruct s as [| b t]; [contradiction |].
  cbn in *. apply negb_true_iff in H. rewrite H. reflexivity.
Qed.

End FirstMatch.

(** ** Digits and the other bytes *)

Lemma isDigit_byte (d : ascii) :
  strconv.isDigit d = true <-> (48 <= byte d <= 57)%N.
Proof.
  unfold strconv.isDigit. rewrite andb_true_iff, !N.leb_le. tauto.
Qed.

Lemma eqb_digit (a d : ascii) :
  strconv.isDigit a = false -> strconv.isDigit d = true -> Ascii.eqb a d = false.
Proof.
  intros Ha Hd. destruct (Ascii.eqb_spec a d) as [-> | _]; [congruence | reflexivity].
Qed.

Lemma in_class_digit_apart (rs : list (ascii * ascii)) (d : ascii) :
  apart_from_digits rs = true -> strconv.isDigit d = true -> in_class rs d = false.
Proof.
  intros Hrs Hd. apply isDigit_byte in Hd. unfold in_class, apart_from_digits in *.
  induction rs as [| r rs IH]; [reflexivity |].
  cbn [forallb existsb] in *. apply andb_true_iff in Hrs. destruct Hrs as [Hr Hrs].
  rewrite (IH Hrs), orb_false_r.
  apply orb_true_iff in Hr. destruct Hr as [Hr | Hr]; apply N.ltb_lt in Hr.
  - apply andb_false_iff. right. apply N.leb_gt. lia.
  - apply andb_false_iff. left. apply N.leb_gt. lia.
Qed.

Lemma in_class_digit (d : ascii) :
  strconv.isDigit d = true -> in_class [("0", "9")]%char d = true.
Proof.
  intros Hd. apply isDigit_byte in Hd. unfold in_class. cbn [existsb fst snd].
  rewrite orb_false_r. apply andb_true_iff. split; apply N.leb_le; cbn; lia.
Qed.

(** ** Canonical tokens *)

Lemma numid_digits (s : string) : numid s = true -> sall strconv.isDigit s = true.
Proof.
  destruct s as [| c t]; [discriminate |]. cbn [numid sall].
  destruct (Ascii.eqb_spec c "0") as [-> | _].
  - intros H. apply String.eqb_eq in H. subst t. reflexivity.
  - auto.
Qed.

Lemma numid_cons (s : string) :
  numid s = true -> exists d t, s = String d t /\ strconv.isDigit d = true
                                /\ sall strconv.isDigit t = true.
Proof.
  intros H. pose proof (numid_digits s H) as Hd.
  destruct s as [| d t]; [discriminate |]. cbn [sall] in Hd.
  apply andb_true_iff in Hd. destruct Hd. exists d, t. auto.
Qed.

Lemma sall_in_class_digit (s : string) :
  sall strconv.isDigit s = true -> sall (in_class [("0", "9")]%char) s = true.
Proof.
  induction s as [| c t IH]; [reflexivity |]. cbn [sall]. intros H.
  apply andb_true_iff in H. destruct H as [Hc Ht].
  rewrite (in_class_digit c Hc), (IH Ht). reflexivity.
Qed.

Lemma after_number_stops (rest : string) :
  after_number rest = true -> stops [("0", "9")]%char rest = true.
Proof.
  destruct rest as [| ch t]; [reflexivity |]. cbn [after_number stops].
  intros H. apply orb_true_iff in H.
  destruct H as [H | H]; apply Ascii.eqb_eq in H; subst ch; reflexivity.
Qed.

Section Numbers.

Variable n0 : nat.

(** The strict numeric identifier matches a numeric identifier whole. *)
Lemma fm_numid (M rest : string) :
  numid M = true -> after_number rest = true ->
  first_match n0 Grammar.NUMERICIDENTIFIER M rest (fun c => c).
Proof.
  intros HM Hrest. unfold Grammar.NUMERICIDENTIFIER, Grammar.digit.
  destruct M as [| d t]; [discriminate |]. cbn [numid] in HM.
  destruct (Ascii.eqb_spec d "0") as [-> | Hd].
  - apply String.eqb_eq in HM. subst t. apply fm_alt_l. apply fm_chr.
  - apply andb_true_iff in HM. destruct HM as [Hd1 Ht].
    apply fm_alt_r.
    + apply fails_chr. rewrite Ascii.eqb_sym. apply Ascii.eqb_neq. exact Hd.
    + change (String d t) with (String d "" ++ t).
      apply (fm_seq n0 _ _ (String d "") t rest (fun c => c) (fun c => c)).
      * apply fm_cls. apply isDigit_byte in Hd1. unfold in_class. cbn [existsb fst snd].
        rewrite orb_false_r. apply andb_true_iff.
        assert (byte d <> 48%N).
        { intros E. apply Hd. rewrite <- (ascii_N_embedding d).
          unfold byte in E. rewrite E. reflexivity. }
        split; apply N.leb_le; cbn; lia.
      * apply fm_star_cls; [apply sall_in_class_digit, Ht | apply after_number_stops, Hrest].
Qed.

(** The loose numeric identifier does too. *)
Lemma fm_numloose (M rest : string) :
  numid M = true -> after_number rest = true ->
  first_match n0 Grammar.NUMERICIDENTIFIERLOOSE M rest (fun c => c).
Proof.
  intros HM Hrest. unfold Grammar.NUMERICIDENTIFIERLOOSE, Plus.
  destruct (numid_cons M HM) as [d [t [-> [Hd Ht]]]].
  change (String d t) with (String d "" ++ t).
  apply (fm_seq n0 _ _ (String d "") t rest (fun c => c) (fun c => c)).
  - apply fm_cls, in_class_digit, Hd.
  - apply fm_star_cls; [apply sall_in_class_digit, Ht | apply after_number_stops, Hrest].
Qed.

End Numbers.

Section Fragments.

Variable n0 : nat.

Lemma fm_seq_r0 (a b : re) (w rest : string) (f1 f2 : caps -> caps) :
  first_match n0 a w rest f1 -> first_match n0 b "" rest f2 ->
  first_match n0 (Seq a b) w rest (fun c => f2 (f1 c)).
Proof.
  intros Ha Hb. pose proof (fm_seq n0 a b w "" rest f1 f2 Ha Hb) as H.
  rewrite app_nil_r_s in H. exact H.
Qed.

Lemma fm_opt_skip (a : re) (rest : string) :
  fails n0 a rest -> first_match n0 (Opt a) "" rest (fun c => c).
Proof. intros Ha. apply fm_alt_r; [exact Ha | apply fm_eps]. Qed.

Lemma fm_star_none (rs : list (ascii * ascii)) (rest : string) :
  stops rs rest = true -> first_match n0 (Star (Cls rs)) "" rest (fun c => c).
Proof. intros H. apply fm_star_cls; [reflexivity | exact H]. Qed.

(** The operator of a canonical token, before the first digit of its
    version. *)
Lemma fm_gtlt (i : nat) (op : string) (d : ascii) (t : string) :
  canonical_op op = true -> strconv.isDigit d = true ->
  first_match n0
    (Cap i (Seq (Opt (Alt (Chr "<") (Chr ">"))) (Opt (Chr "="))))
    op (String d t) (fun c => upd i (Some op) c).
Proof.
  intros Hop Hd. unfold canonical_op in Hop.
  assert (Heq : fails n0 (Chr "=") (String d t)).
  { apply fails_chr, eqb_digit; [reflexivity | exact Hd]. }
  assert (Hlt : fails n0 (Alt (Chr "<") (Chr ">")) (String d t)).
  { apply fails_alt; apply fails_chr, eqb_digit; (reflexivity || exact Hd). }
  apply (fm_cap n0 i _ op (String d t) (fun c => c)).
  repeat (apply orb_true_iff in Hop; destruct Hop as [Hop | Hop]);
    apply String.eqb_eq in Hop; subst op.
  - apply (fm_seq n0 _ _ ">" "=" (String d t) (fun c => c) (fun c => c)).
    + apply fm_alt_l, fm_alt_r; [apply fails_chr; reflexivity | apply fm_chr].
    + apply fm_alt_l, fm_chr.
  - apply (fm_seq n0 _ _ "<" "=" (String d t) (fun c => c) (fun c => c)).
    + apply fm_alt_l, fm_alt_l, fm_chr.
    + apply fm_alt_l, fm_chr.
  - apply (fm_seq_r0 _ _ ">" (String d t) (fun c => c) (fun c => c)).
    + apply fm_alt_l, fm_alt_r; [apply fails_chr; reflexivity | apply fm_chr].
    + apply fm_opt_skip, Heq.
  - apply (fm_seq_r0 _ _ "<" (String d t) (fun c => c) (fun c => c)).
    + apply fm_alt_l, fm_alt_l, fm_chr.
    + apply fm_opt_skip, Heq.
  - apply (fm_seq n0 _ _ "" "=" (String d t) (fun c => c) (fun c => c)).
    + apply fm_opt_skip. apply fails_alt; apply fails_chr; reflexivity.
    + apply fm_alt_l, fm_chr.
  - apply (fm_seq n0 _ _ "" "" (String d t) (fun c => c) (fun c => c)).
    + apply fm_opt_skip, Hlt.
    + apply fm_opt_skip, Heq.
Qed.

End Fragments.

Lemma search_here (re : Regexp) (n0 : nat) (s rest : string) (c : caps) :
  matchHere re n0 s = Some (rest, c) -> search re n0 s = Some ("", rest, c).
Proof. intros H. destruct s; cbn [search]; rewrite H; reflexivity. Qed.

Lemma xrange_prog_eq : prog (getRegex "XRANGE") = xrange_prog.
Proof. vm_compute. reflexivity. Qed.

Lemma fm_xid (n0 : nat) (M rest : string) :
  numid M = true -> after_number rest = true ->
  first_match n0 Grammar.XRANGEIDENTIFIER M rest (fun c => c).
Proof. intros HM Hr. apply fm_alt_l, fm_numid; assumption. Qed.

(** XRANGE matches a canonical token whole, and its groups are the operator
    and the three numbers. *)
Lemma xrange_canonical (op M mi p : string) :
  canonical_op op = true -> numid M = true -> numid mi = true -> numid p = true ->
  FindStringSubmatch (getRegex "XRANGE") (op ++ M ++ "." ++ mi ++ "." ++ p)
  = Some [op ++ M ++ "." ++ mi ++ "." ++ p; op; M; mi; p; ""; ""].
Proof.
  intros Hop HM Hm Hp.
  set (tok := op ++ M ++ "." ++ mi ++ "." ++ p).
  assert (Hfm : first_match (length tok) xrange_prog tok ""
                  (fun c => upd 0 (Some tok)
                              (upd 4 (Some p) (upd 3 (Some mi) (upd 2 (Some M) (upd 1 (Some op) c)))))).
  { destruct (numid_cons M HM) as [d [t [EM [Hd Ht]]]].
    unfold xrange_prog.
    apply (fm_cap _ 0 _ tok "" (fun c => upd 4 (Some p) (upd 3 (Some mi) (upd 2 (Some M) (upd 1 (Some op) c))))).
    apply (fm_seq _ Bol _ "" tok "" (fun c => c)
             (fun c => upd 4 (Some p) (upd 3 (Some mi) (upd 2 (Some M) (upd 1 (Some op) c))))).
    { apply fm_bol. cbn [append]. rewrite app_nil_r_s. reflexivity. }
    unfold tok.
    apply (fm_seq _ _ _ op (M ++ "." ++ mi ++ "." ++ p) "" (fun c => upd 1 (Some op) c)
             (fun c => upd 4 (Some p) (upd 3 (Some mi) (upd 2 (Some M) c)))).
    { rewrite EM. cbn [append]. apply fm_gtlt; assumption. }
    apply (fm_seq _ _ _ "" (M ++ "." ++ mi ++ "." ++ p) "" (fun c => c)
             (fun c => upd 4 (Some p) (upd 3 (Some mi) (upd 2 (Some M) c)))).
    { unfold Grammar.space. apply fm_star_none. rewrite EM. cbn [append stops].
      rewrite in_class_digit_apart; [reflexivity | reflexivity | exact Hd]. }
    apply (fm_seq_r0 _ _ _ (M ++ "." ++ mi ++ "." ++ p) "" 
             (fun c => upd 4 (Some p) (upd 3 (Some mi) (upd 2 (Some M) c))) (fun c => c));
      [| apply fm_eol].
    apply (fm_seq _ _ _ "" (M ++ "." ++ mi ++ "." ++ p) "" (fun c => c)
             (fun c => upd 4 (Some p) (upd 3 (Some mi) (upd 2 (Some M) c)))).
    { unfold Grammar.vEqSpace. apply fm_star_none. rewrite EM. cbn [append stops].
      rewrite in_class_digit_apart; [reflexivity | reflexivity | exact Hd]. }
    apply (fm_seq _ _ _ M ("." ++ mi ++ "." ++ p) "" (fun c => upd 2 (Some M) c)
             (fun c => upd 4 (Some p) (upd 3 (Some mi) c))).
    { apply (fm_cap _ 2 _ M _ (fun c => c)). apply fm_xid; [exact HM | reflexivity]. }
    apply fm_alt_l.
    apply (fm_seq _ _ _ "." (mi ++ "." ++ p) "" (fun c => c)
             (fun c => upd 4 (Some p) (upd 3 (Some mi) c))).
    { apply fm_chr. }
    apply (fm_seq _ _ _ mi ("." ++ p) "" (fun c => upd 3 (Some mi) c)
             (fun c => upd 4 (Some p) c)).
    { apply (fm_cap _ 3 _ mi _ (fun c => c)). apply fm_xid; [exact Hm | reflexivity]. }
    apply fm_alt_l.
    apply (fm_seq _ _ _ "." p "" (fun c => c) (fun c => upd 4 (Some p) c)).
    { apply fm_chr. }
    apply (fm_seq_r0 _ _ _ p "" (fun c => upd 4 (Some p) c) (fun c => c)).
    { apply (fm_cap _ 4 _ p _ (fun c => c)). apply fm_xid; [exact Hp | reflexivity]. }
    apply (fm_seq _ _ _ "" "" "" (fun c => c) (fun c => c)).
    - apply fm_opt_skip. intros k c. reflexivity.
    - apply fm_opt_skip. intros k c. reflexivity. }
  unfold FindStringSubmatch.
  assert (Hs : search (getRegex "XRANGE") (length tok) tok
               = Some ("", "", [Some tok; Some op; Some M; Some mi; Some p; None; None])).
  { apply search_here. unfold matchHere. rewrite xrange_prog_eq.
    pose proof (Hfm accept (repeat None (S (numSubexp (getRegex "XRANGE"))))) as H.
    rewrite app_nil_r_s in H. erewrite H; reflexivity. }
  rewrite Hs. reflexivity.
Qed.

Lemma comparatortrim_prog_eq : prog (getRegex "COMPARATORTRIM") = comparatortrim_prog.
Proof. vm_compute. reflexivity. Qed.

Lemma at_boundary_after_number (rest : string) :
  at_boundary rest = true -> after_number rest = true.
Proof.
  destruct rest as [| ch t]; [reflexivity |]. cbn. intros ->. apply orb_true_r.
Qed.

Lemma stops_space_token (op : string) (d : ascii) (t : string) :
  canonical_op op = true -> strconv.isDigit d = true ->
  stops [("009", "010"); ("012", "013"); (" ", " ")]%char (op ++ String d t) = true.
Proof.
  intros Hop Hd. unfold canonical_op in Hop.
  repeat (apply orb_true_iff in Hop; destruct Hop as [Hop | Hop]);
    apply String.eqb_eq in Hop; subst op; try reflexivity.
  cbn [append stops]. rewrite in_class_digit_apart; [reflexivity | reflexivity | exact Hd].
Qed.

Lemma comparatortrim_canonical (n0 : nat) (sp op M mi p rest : string) :
  sall (in_class [("009", "010"); ("012", "013"); (" ", " ")]%char) sp = true ->
  canonical_op op = true -> numid M = true -> numid mi = true -> numid p = true ->
  at_boundary rest = true ->
  first_match n0 comparatortrim_prog (sp ++ op ++ M ++ "." ++ mi ++ "." ++ p) rest
    (trim_caps sp op M mi p).
Proof.
  intros Hsp Hop HM Hm Hp Hrest.
  destruct (numid_cons M HM) as [d [t [EM [Hd Ht]]]].
  unfold comparatortrim_prog, trim_caps.
  apply (fm_cap _ 0 _ _ rest
           (fun c => upd 3 (Some (M ++ "." ++ mi ++ "." ++ p))
                       (upd 6 (Some p) (upd 5 (Some mi) (upd 4 (Some M)
                          (upd 2 (Some op) (upd 1 (Some sp) c))))))).
  apply (fm_seq _ _ _ sp (op ++ M ++ "." ++ mi ++ "." ++ p) rest
           (fun c => upd 1 (Some sp) c)
           (fun c => upd 3 (Some (M ++ "." ++ mi ++ "." ++ p))
                       (upd 6 (Some p) (upd 5 (Some mi) (upd 4 (Some M)
                          (upd 2 (Some op) c)))))).
  { apply (fm_cap _ 1 _ sp _ (fun c => c)). unfold Grammar.space.
    apply fm_star_cls; [exact Hsp |].
    rewrite EM, !app_assoc_s. cbn [append]. apply stops_space_token; assumption. }
  apply (fm_seq _ _ _ op (M ++ "." ++ mi ++ "." ++ p) rest
           (fun c => upd 2 (Some op) c)
           (fun c => upd 3 (Some (M ++ "." ++ mi ++ "." ++ p))
                       (upd 6 (Some p) (upd 5 (Some mi) (upd 4 (Some M) c))))).
  { rewrite EM, !app_assoc_s. cbn [append]. apply fm_gtlt; assumption. }
  apply (fm_seq _ _ _ "" (M ++ "." ++ mi ++ "." ++ p) rest (fun c => c)
           (fun c => upd 3 (Some (M ++ "." ++ mi ++ "." ++ p))
                       (upd 6 (Some p) (upd 5 (Some mi) (upd 4 (Some M) c))))).
  { unfold Grammar.space. apply fm_star_none. rewrite EM. cbn [append stops].
    rewrite in_class_digit_apart; [reflexivity | reflexivity | exact Hd]. }
  apply (fm_cap _ 3 _ (M ++ "." ++ mi ++ "." ++ p) rest
           (fun c => upd 6 (Some p) (upd 5 (Some mi) (upd 4 (Some M) c)))).
  apply fm_alt_l.
  apply (fm_seq _ _ _ "" (M ++ "." ++ mi ++ "." ++ p) rest (fun c => c)
           (fun c => upd 6 (Some p) (upd 5 (Some mi) (upd 4 (Some M) c)))).
  { unfold Grammar.vEqSpace. apply fm_star_none. rewrite EM. cbn [append stops].
    rewrite in_class_digit_apart; [reflexivity | reflexivity | exact Hd]. }
  apply (fm_seq_r0 _ _ _ (M ++ "." ++ mi ++ "." ++ p) rest
           (fun c => upd 6 (Some p) (upd 5 (Some mi) (upd 4 (Some M) c))) (fun c => c)).
  - replace (M ++ "." ++ mi ++ "." ++ p) with (M ++ ("." ++ (mi ++ ("." ++ p)))) by reflexivity.
    apply (fm_seq _ _ _ M ("." ++ mi ++ "." ++ p) rest (fun c => upd 4 (Some M) c)
             (fun c => upd 6 (Some p) (upd 5 (Some mi) c))).
    { apply (fm_cap _ 4 _ M _ (fun c => c)). apply fm_numloose; [exact HM | reflexivity]. }
    apply (fm_seq _ _ _ "." (mi ++ "." ++ p) rest (fun c => c)
             (fun c => upd 6 (Some p) (upd 5 (Some mi) c))).
    { apply fm_chr. }
    apply (fm_seq _ _ _ mi ("." ++ p) rest (fun c => upd 5 (Some mi) c)
             (fun c => upd 6 (Some p) c)).
    { apply (fm_cap _ 5 _ mi _ (fun c => c)). apply fm_numloose; [exact Hm | reflexivity]. }
    apply (fm_seq _ _ _ "." p rest (fun c => c) (fun c => upd 6 (Some p) c)).
    { apply fm_chr. }
    apply (fm_cap _ 6 _ p _ (fun c => c)).
    apply fm_numloose; [exact Hp | apply at_boundary_after_number, Hrest].
  - apply (fm_seq _ _ _ "" "" rest (fun c => c) (fun c => c)).
    + apply fm_opt_skip. intros k c. destruct rest as [| ch rt]; [reflexivity |].
      cbn in Hrest. apply Ascii.eqb_eq in Hrest. subst ch. reflexivity.
    + apply fm_opt_skip. intros k c. destruct rest as [| ch rt]; [reflexivity |].
      cbn in Hrest. apply Ascii.eqb_eq in Hrest. subst ch. reflexivity.
Qed.

(** ** Canonical sequences *)

Lemma srev_append_app (s acc : string) : srev_append s acc = srev s ++ acc.
Proof.
  unfold srev. revert acc. induction s as [| c t IH]; intros acc; cbn [srev_append].
  - reflexivity.
  - rewrite (IH (String c acc)), (IH (String c "")), app_assoc_s. reflexivity.
Qed.

Lemma srev_cons (c : ascii) (s : string) : srev (String c s) = srev s ++ String c "".
Proof. unfold srev at 1. cbn [srev_append]. apply srev_append_app. Qed.

Lemma srev_app (a b : string) : srev (a ++ b) = srev b ++ srev a.
Proof.
  induction a as [| c a IH]; cbn [append].
  - rewrite app_nil_r_s. reflexivity.
  - rewrite !srev_cons, IH, app_assoc_s. reflexivity.
Qed.

Lemma srev_involutive (s : string) : srev (srev s) = s.
Proof.
  induction s as [| c s IH]; [reflexivity |].
  rewrite srev_cons, srev_app, IH. reflexivity.
Qed.

Lemma sall_app (p : ascii -> bool) (a b : string) :
  sall p (a ++ b) = sall p a && sall p b.
Proof.
  induction a as [| c a IH]; cbn [append sall]; [reflexivity |].
  rewrite IH, andb_assoc. reflexivity.
Qed.

Lemma plain_not_space (c : ascii) :
  plain c = true ->
  in_class [("009", "010"); ("012", "013"); (" ", " ")]%char c = false.
Proof.
  intros H. unfold plain in H.
  repeat (apply orb_true_iff in H; destruct H as [H | H]);
    try (apply Ascii.eqb_eq in H; subst c; reflexivity).
  apply in_class_digit_apart; [reflexivity | exact H].
Qed.

Lemma plain_ascii (c : ascii) :
  plain c = true -> (utf8.RuneSelf <=? byte c)%N = false /\ strings.asciiSpace c = false.
Proof.
  intros H. unfold plain in H.
  repeat (apply orb_true_iff in H; destruct H as [H | H]);
    try (apply Ascii.eqb_eq in H; subst c; split; reflexivity).
  apply isDigit_byte in H. unfold strings.asciiSpace, utf8.RuneSelf. split.
  - apply N.leb_gt. lia.
  - repeat (apply orb_false_iff; split); apply N.eqb_neq; lia.
Qed.

Lemma plain_other (ch c : ascii) : plain ch = false -> plain c = true -> Ascii.eqb c ch = false.
Proof.
  intros Hch Hc. destruct (Ascii.eqb_spec c ch) as [-> | _]; [congruence | reflexivity].
Qed.

Lemma plain_contains (ch : ascii) (s : string) :
  plain ch = false -> Ascii.eqb ch " " = false ->
  sall (fun c => plain c || Ascii.eqb c " ") s = true -> contains_byte ch s = false.
Proof.
  intros Hch Hsp. induction s as [| c t IH]; [reflexivity |]. cbn [sall contains_byte].
  intros H. apply andb_true_iff in H. destruct H as [Hc Ht].
  rewrite (IH Ht), orb_false_r. apply orb_true_iff in Hc. destruct Hc as [Hc | Hc].
  - apply plain_other; assumption.
  - apply Ascii.eqb_eq in Hc. subst c. rewrite Ascii.eqb_sym. exact Hsp.
Qed.

(** [TrimSpace] leaves a string that starts and ends with plain bytes. *)
Lemma TrimSpace_plain (c d : ascii) (t a : string) :
  plain c = true -> plain d = true -> String c t = a ++ String d "" ->
  strings.TrimSpace (String c t) = String c t.
Proof.
  intros Hc Hd E. cbn [strings.TrimSpace].
  destruct (plain_ascii c Hc) as [-> ->].
  rewrite E, srev_app. change (srev (String d "")) with (String d "").
  cbn [append strings.trimSpace_stop].
  destruct (plain_ascii d Hd) as [-> ->].
  rewrite srev_cons, srev_involutive. reflexivity.
Qed.

(** A canonical token is made of plain bytes, starts with one and ends with
    a digit. *)
Lemma canonical_op_plain (op : string) : canonical_op op = true -> sall plain op = true.
Proof.
  unfold canonical_op. intros H.
  repeat (apply orb_true_iff in H; destruct H as [H | H]);
    apply String.eqb_eq in H; subst op; reflexivity.
Qed.

Lemma digits_plain (s : string) : sall strconv.isDigit s = true -> sall plain s = true.
Proof.
  induction s as [| c t IH]; [reflexivity |]. cbn [sall]. intros H.
  apply andb_true_iff in H. destruct H as [Hc Ht]. rewrite (IH Ht), andb_true_r.
  unfold plain. rewrite Hc. reflexivity.
Qed.

Lemma digits_last (s : string) :
  sall strconv.isDigit s = true -> s <> "" ->
  exists a d, s = a ++ String d "" /\ strconv.isDigit d = true.
Proof.
  induction s as [| c t IH]; [contradiction |]. cbn [sall]. intros H _.
  apply andb_true_iff in H. destruct H as [Hc Ht].
  destruct t as [| c' t'].
  - exists "", c. auto.
  - destruct (IH Ht) as [a [d [E Hd]]]; [discriminate |].
    exists (String c a), d. rewrite E. auto.
Qed.

Lemma canonical_token_shape (tok : string) :
  canonical_token tok ->
  sall plain tok = true
  /\ (exists c t, tok = String c t /\ plain c = true)
  /\ (exists a d, tok = a ++ String d "" /\ plain d = true).
Proof.
  intros [op [M [mi [p [E [Hop [HM [Hm Hp]]]]]]]].
  pose proof (canonical_op_plain op Hop) as Pop.
  pose proof (digits_plain _ (numid_digits M HM)) as PM.
  pose proof (digits_plain _ (numid_digits mi Hm)) as Pm.
  pose proof (digits_plain _ (numid_digits p Hp)) as Pp.
  assert (Hall : sall plain tok = true).
  { rewrite E, !sall_app, Pop, PM, Pm, Pp. reflexivity. }
  split; [exact Hall |]. split.
  - destruct tok as [| c t].
    + destruct op; [| discriminate]. destruct (numid_cons M HM) as [d [t [EM _]]].
      rewrite EM in E. discriminate.
    + exists c, t. split; [reflexivity |]. cbn [sall] in Hall.
      apply andb_true_iff in Hall. tauto.
  - destruct (digits_last p (numid_digits p Hp)) as [a [d [Ep Hd]]].
    { destruct p; [discriminate | discriminate]. }
    exists (op ++ M ++ "." ++ mi ++ "." ++ a), d. split.
    + rewrite E, Ep, !app_assoc_s. reflexivity.
    + unfold plain. rewrite Hd. reflexivity.
Qed.

(** ** The successive matches over a canonical sequence *)

Lemma push_pushes (ch : ascii) (w : string) (r : list (string * caps) * string) :
  push ch (pushes w r) = pushes (String ch w) r.
Proof. destruct r as [[| [g c] ms] tl]; reflexivity. Qed.

(** Where no match starts on a plain byte, the search steps over a text of
    plain bytes. *)
Lemma matches_skip (re : Regexp) (n0 : nat) :
  (forall c t, plain c = true -> matchHere re n0 (String c t) = None) ->
  forall (w : string) (fuel : nat) (rest : string) (b : bool),
    sall plain w = true -> (length w <= fuel)%nat ->
    matches fuel re n0 (w ++ rest) b
    = pushes w (matches (fuel - length w) re n0 rest
                  (match w with EmptyString => b | _ => false end)).
Proof.
  intros Hnone. induction w as [| c w IH]; intros fuel rest b Hw Hf.
  - cbn [append length]. rewrite Nat.sub_0_r.
    destruct (matches fuel re n0 rest b) as [[| [g c] ms] tl]; reflexivity.
  - cbn [sall] in Hw. apply andb_true_iff in Hw. destruct Hw as [Hc Hw].
    destruct fuel as [| fuel]; [cbn in Hf; lia |].
    cbn [append matches]. rewrite (Hnone c _ Hc).
    rewrite (IH fuel rest false Hw) by (cbn in Hf; lia).
    rewrite push_pushes. cbn [length Nat.sub].
    destruct w; reflexivity.
Qed.

Lemma reSpaces_prog : prog reSpaces = Cap 0 (Seq Grammar.space (Star Grammar.space)).
Proof. reflexivity. Qed.

Lemma reSpaces_plain (n0 : nat) (c : ascii) (t : string) :
  plain c = true -> matchHere reSpaces n0 (String c t) = None.
Proof.
  intros Hc. unfold matchHere. rewrite reSpaces_prog.
  apply fails_cap, fails_seq, fails_cls; [| discriminate].
  cbn [stops]. rewrite (plain_not_space c Hc). reflexivity.
Qed.

Lemma reSpaces_blank (n0 : nat) (c : ascii) (t : string) :
  plain c = true ->
  matchHere reSpaces n0 (String " " (String c t)) = Some (String c t, [Some " "]).
Proof.
  intros Hc. unfold matchHere. rewrite reSpaces_prog.
  assert (H : first_match n0 (Cap 0 (Seq Grammar.space (Star Grammar.space)))
                " " (String c t) (fun cs => upd 0 (Some " ") cs)).
  { apply (fm_cap n0 0 _ " " _ (fun cs => cs)).
    apply (fm_seq_r0 n0 _ _ " " _ (fun cs => cs) (fun cs => cs)).
    - apply fm_cls. reflexivity.
    - apply fm_star_none. cbn [stops]. rewrite (plain_not_space c Hc). reflexivity. }
  apply (H accept). reflexivity.
Qed.

Lemma canonical_token_word (tok : string) : canonical_token tok -> word tok.
Proof.
  intros H. destruct (canonical_token_shape tok H) as [Hall [[c [t [-> _]]] _]].
  split; [discriminate | exact Hall].
Qed.

Lemma Join_cons (a b : string) (rest : list string) (sep : string) :
  strings.Join (a :: b :: rest) sep = a ++ sep ++ strings.Join (b :: rest) sep.
Proof. reflexivity. Qed.

Lemma Join_head (w : string) (ws : list string) :
  word w -> Forall word ws ->
  exists c t, strings.Join (w :: ws) " " = String c t /\ plain c = true.
Proof.
  intros [Hne Hw] _. destruct w as [| c t]; [contradiction |].
  cbn [sall] in Hw. apply andb_true_iff in Hw. destruct Hw as [Hc _].
  destruct ws as [| w2 ws].
  - exists c, t. auto.
  - rewrite Join_cons. cbn [append]. eexists c, _. auto.
Qed.

Lemma matches_reSpaces (n0 : nat) (ws : list string) :
  forall (w : string) (fuel : nat) (b : bool),
    word w -> Forall word ws ->
    (length (strings.Join (w :: ws) " ") < fuel)%nat ->
    matches fuel reSpaces n0 (strings.Join (w :: ws) " ") b
    = (map (fun t => (t, blank_caps)) (removelast (w :: ws)), last (w :: ws) "").
Proof.
  induction ws as [| w2 ws IH]; intros w fuel b Hw Hws Hf.
  - cbn [strings.Join removelast last map] in *.
    rewrite <- (app_nil_r_s w) at 1.
    rewrite (matches_skip reSpaces n0 (reSpaces_plain n0)) by (try apply Hw; lia).
    destruct (fuel - length w)%nat as [| f] eqn:Ef; [lia |].
    cbn [matches]. change (matchHere reSpaces n0 "") with (@None (string * caps)).
    cbn [pushes]. rewrite app_nil_r_s. reflexivity.
  - inversion Hws as [| ? ? Hw2 Hws']; subst.
    rewrite Join_cons in *. rewrite length_app_s in Hf. cbn [append length] in Hf.
    rewrite (matches_skip reSpaces n0 (reSpaces_plain n0)) by (try apply Hw; lia).
    destruct (Join_head w2 ws Hw2 Hws') as [c [t [EJ Hc]]].
    destruct (fuel - length w)%nat as [| f] eqn:Ef; [lia |].
    cbn [append matches]. rewrite EJ, (reSpaces_blank n0 c t Hc).
    assert (Hlt : (length (String c t) <? length (String " " (String c t)))%nat = true).
    { apply Nat.ltb_lt. cbn. lia. }
    rewrite Hlt, <- EJ. rewrite (IH w2 f true Hw2 Hws') by lia.
    destruct Hw as [Hne _]. destruct w as [| x w']; [contradiction |].
    cbn [pushes]. rewrite app_nil_r_s. reflexivity.
Qed.

Lemma splitLoop_words (ws : list string) :
  forall (beg e0 : nat),
    exists last_,
      splitLoop (map (fun t => (t, blank_caps)) ws) beg e0 = (ws, last_)
      /\ (ws = [] -> last_ = e0)
      /\ (ws <> [] -> (last_ < beg + pieces_length ws)%nat).
Proof.
  induction ws as [| w ws IH]; intros beg e0.
  - exists e0. cbn. repeat split; auto. intros H. contradiction.
  - cbn [map splitLoop pieces_length].
    change (length (group blank_caps 0)) with 1%nat.
    destruct (IH (beg + length w + 1)%nat (beg + length w)%nat) as [l [E [Hnil Hne]]].
    rewrite E. exists l.
    destruct (Nat.eqb_spec (beg + length w + 1) 0) as [Hz | _]; [lia |].
    split; [reflexivity |]. split; [discriminate |]. intros _.
    destruct ws as [| w' ws'].
    + rewrite (Hnil eq_refl). cbn. lia.
    + assert (Hl : (l < beg + length w + 1 + pieces_length (w' :: ws'))%nat)
        by (apply Hne; discriminate).
      lia.
Qed.

Lemma length_Join (ws : list string) :
  forall w, length (strings.Join (w :: ws) " ")
            = (pieces_length (removelast (w :: ws)) + length (last (w :: ws) ""))%nat.
Proof.
  induction ws as [| w2 ws IH]; intros w.
  - reflexivity.
  - rewrite Join_cons, length_app_s. cbn [append length].
    rewrite (IH w2). cbn [removelast last pieces_length].
    destruct ws; cbn [pieces_length]; lia.
Qed.

Lemma Split_unfold (re : Regexp) (s : string) :
  s <> "" ->
  Split re s
  = let '(ms, tl) := allMatches re s in
    let '(out, last_) := splitLoop ms 0 0 in
    if (last_ =? length s)%nat then out else (out ++ [tl])%list.
Proof. destruct s; [contradiction | reflexivity]. Qed.

(** The blanks split a canonical sequence into its tokens. *)
Lemma Split_reSpaces (w : string) (ws : list string) :
  word w -> Forall word ws ->
  Split reSpaces (strings.Join (w :: ws) " ") = w :: ws.
Proof.
  intros Hw Hws. rewrite Split_unfold.
  2:{ destruct (Join_head w ws Hw Hws) as [c [t [EJ Hc]]]. rewrite EJ. discriminate. }
  unfold allMatches.
  rewrite (matches_reSpaces _ ws w _ false Hw Hws) by lia.
  destruct (splitLoop_words (removelast (w :: ws)) 0 0) as [l [E [Hnil Hne]]].
  rewrite E, (length_Join ws w).
  assert (Hl : (l =? pieces_length (removelast (w :: ws)) + length (last (w :: ws) ""))%nat = false).
  { apply Nat.eqb_neq. destruct (removelast (w :: ws)) as [| r rs] eqn:Er.
    - rewrite (Hnil eq_refl). cbn [pieces_length].
      assert (last (w :: ws) "" = w).
      { destruct ws; [reflexivity | discriminate]. }
      rewrite H. destruct Hw as [Hne' _]. destruct w; [contradiction | cbn; lia].
    - assert (l < 0 + pieces_length (r :: rs))%nat by (apply Hne; discriminate). lia. }
  rewrite Hl. symmetry. apply app_removelast_last. discriminate.
Qed.

Lemma Split_reSpaces_word (w : string) : word w -> Split reSpaces w = [w].
Proof. intros Hw. apply (Split_reSpaces w [] Hw). constructor. Qed.

(** So does [strings.Split] at the blank. *)
Lemma splitByte_word (w : string) :
  sall plain w = true ->
  forall rest cur,
    strings.splitByte " " (w ++ rest) cur = strings.splitByte " " rest (srev w ++ cur).
Proof.
  induction w as [| c w IH]; intros Hw rest cur; [reflexivity |].
  cbn [sall] in Hw. apply andb_true_iff in Hw. destruct Hw as [Hc Hw].
  cbn [append strings.splitByte].
  rewrite (plain_other " " c eq_refl Hc).
  rewrite (IH Hw), srev_cons, app_assoc_s. reflexivity.
Qed.

Lemma splitByte_words (ws : list string) :
  forall w, word w -> Forall word ws ->
            strings.splitByte " " (strings.Join (w :: ws) " ") "" = w :: ws.
Proof.
  induction ws as [| w2 ws IH]; intros w Hw Hws.
  - cbn [strings.Join]. rewrite <- (app_nil_r_s w) at 1.
    rewrite (splitByte_word w (proj2 Hw)). cbn [strings.splitByte].
    rewrite app_nil_r_s, srev_involutive. reflexivity.
  - inversion Hws as [| ? ? Hw2 Hws']; subst.
    rewrite Join_cons, (splitByte_word w (proj2 Hw)). cbn [append strings.splitByte].
    rewrite app_nil_r_s, srev_involutive, (IH w2 Hw2 Hws'). reflexivity.
Qed.

(** ** COMPARATORTRIM over a canonical sequence *)

Lemma expand_123 (c : caps) :
  expand "$1$2$3" c None = group c 1 ++ group c 2 ++ group c 3.
Proof. reflexivity. Qed.

Lemma comparatortrim_numSubexp : numSubexp (getRegex "COMPARATORTRIM") = 13%nat.
Proof. vm_compute. reflexivity. Qed.

Lemma comparatortrim_empty (n0 : nat) : matchHere (getRegex "COMPARATORTRIM") n0 "" = None.
Proof. vm_compute. reflexivity. Qed.

Lemma comparatortrim_token (n0 : nat) (sp tok rest : string) :
  sp = "" \/ sp = " " -> canonical_token tok -> at_boundary rest = true ->
  exists c : caps,
    matchHere (getRegex "COMPARATORTRIM") n0 (sp ++ tok ++ rest) = Some (rest, c)
    /\ group c 1 ++ group c 2 ++ group c 3 = sp ++ tok.
Proof.
  intros Hsp [op [M [mi [p [E [Hop [HM [Hm Hp]]]]]]]] Hrest. subst tok.
  exists (trim_caps sp op M mi p (repeat None 14)). split.
  - unfold matchHere. rewrite comparatortrim_prog_eq, comparatortrim_numSubexp.
    replace (sp ++ (op ++ M ++ "." ++ mi ++ "." ++ p) ++ rest)
      with ((sp ++ op ++ M ++ "." ++ mi ++ "." ++ p) ++ rest)
      by (rewrite !app_assoc_s; reflexivity).
    apply (comparatortrim_canonical n0 sp op M mi p rest); try assumption.
    + destruct Hsp as [-> | ->]; reflexivity.
    + reflexivity.
  - reflexivity.
Qed.

Lemma canonical_token_nonempty (tok : string) : canonical_token tok -> tok <> "".
Proof. intros H. apply (canonical_token_word tok H). Qed.

Lemma comparatortrim_pieces (n0 : nat) (ws : list string) :
  forall (w sp : string) (fuel : nat) (b : bool),
    canonical_token w -> Forall canonical_token ws -> sp = "" \/ sp = " " ->
    (length (sp ++ strings.Join (w :: ws) " ") < fuel)%nat ->
    concat_pieces "$1$2$3"
      (fst (matches fuel (getRegex "COMPARATORTRIM") n0 (sp ++ strings.Join (w :: ws) " ") b))
      (snd (matches fuel (getRegex "COMPARATORTRIM") n0 (sp ++ strings.Join (w :: ws) " ") b))
    = sp ++ strings.Join (w :: ws) " ".
Proof.
  induction ws as [| w2 ws IH]; intros w sp fuel b Hw Hws Hsp Hf.
  - cbn [strings.Join] in *.
    destruct (comparatortrim_token n0 sp w "" Hsp Hw eq_refl) as [c [Hm Hc]].
    rewrite app_nil_r_s in Hm.
    destruct fuel as [| f]; [lia |]. cbn [matches]. rewrite Hm.
    assert (Hlt : (length "" <? length (sp ++ w))%nat = true).
    { apply Nat.ltb_lt. rewrite length_app_s.
      pose proof (canonical_token_nonempty w Hw). destruct w; [contradiction | cbn; lia]. }
    rewrite Hlt. destruct f as [| f].
    { rewrite length_app_s in Hf.
      pose proof (canonical_token_nonempty w Hw). destruct w; [contradiction | cbn in Hf; lia]. }
    cbn [matches]. rewrite comparatortrim_empty. cbn [fst snd concat_pieces].
    rewrite expand_123, Hc. cbn [append]. rewrite app_nil_r_s. reflexivity.
  - inversion Hws as [| ? ? Hw2 Hws']; subst.
    rewrite Join_cons in *.
    destruct (comparatortrim_token n0 sp w (" " ++ strings.Join (w2 :: ws) " ")
                Hsp Hw eq_refl) as [c [Hm Hc]].
    destruct fuel as [| f]; [lia |]. cbn [matches]. rewrite Hm.
    assert (Hlt : (length (" " ++ strings.Join (w2 :: ws) " ")
                   <? length (sp ++ w ++ " " ++ strings.Join (w2 :: ws) " "))%nat = true).
    { apply Nat.ltb_lt. rewrite !length_app_s.
      pose proof (canonical_token_nonempty w Hw). destruct w; [contradiction | cbn; lia]. }
    rewrite Hlt.
    assert (HI := IH w2 " " f true Hw2 Hws' (or_intror eq_refl)).
    destruct (matches f (getRegex "COMPARATORTRIM") n0 (" " ++ strings.Join (w2 :: ws) " ") true)
      as [ms tl] eqn:EM.
    cbn [fst snd concat_pieces] in *. rewrite expand_123, Hc, HI.
    + cbn [append]. rewrite !app_assoc_s. reflexivity.
    + pose proof (canonical_token_nonempty w Hw) as Hne.
      rewrite !length_app_s in Hf. rewrite length_app_s.
      destruct w; [contradiction |]. cbn [length] in *. lia.
Qed.

Lemma ReplaceAllString_comparatortrim (w : string) (ws : list string) :
  canonical_token w -> Forall canonical_token ws ->
  ReplaceAllString (getRegex "COMPARATORTRIM") (strings.Join (w :: ws) " ") "$1$2$3"
  = strings.Join (w :: ws) " ".
Proof.
  intros Hw Hws. unfold ReplaceAllString, allMatches.
  pose proof (comparatortrim_pieces (length (strings.Join (w :: ws) " ")) ws w ""
                (S (length (strings.Join (w :: ws) " "))) false Hw Hws (or_introl eq_refl)) as H.
  cbn [append] in H.
  destruct (matches _ _ _ _ _) as [ms tl]. apply H. lia.
Qed.

(** ** The normaliser on a canonical sequence *)

Lemma plain_plain_or_blank (s : string) :
  sall plain s = true -> sall plain_or_blank s = true.
Proof.
  induction s as [| c t IH]; [reflexivity |]. cbn [sall]. intros H.
  apply andb_true_iff in H. destruct H as [Hc Ht].
  unfold plain_or_blank at 1. rewrite Hc, (IH Ht). reflexivity.
Qed.

Lemma Join_plain_or_blank (ws : list string) :
  forall w, word w -> Forall word ws ->
            sall plain_or_blank (strings.Join (w :: ws) " ") = true.
Proof.
  induction ws as [| w2 ws IH]; intros w Hw Hws.
  - apply plain_plain_or_blank, Hw.
  - inversion Hws as [| ? ? Hw2 Hws']; subst.
    rewrite Join_cons, !sall_app, (plain_plain_or_blank w (proj2 Hw)), (IH w2 Hw2 Hws').
    reflexivity.
Qed.

Lemma Join_last (ws : list string) :
  forall w, canonical_token w -> Forall canonical_token ws ->
            exists a d, strings.Join (w :: ws) " " = a ++ String d "" /\ plain d = true.
Proof.
  induction ws as [| w2 ws IH]; intros w Hw Hws.
  - apply (canonical_token_shape w Hw).
  - inversion Hws as [| ? ? Hw2 Hws']; subst.
    destruct (IH w2 Hw2 Hws') as [a [d [E Hd]]].
    exists (w ++ " " ++ a), d. rewrite Join_cons, E, !app_assoc_s. auto.
Qed.

Lemma Forall_word (ws : list string) : Forall canonical_token ws -> Forall word ws.
Proof. intros H. eapply Forall_impl; [| exact H]. apply canonical_token_word. Qed.

Lemma lacks (ch : ascii) (s : string) :
  plain ch = false -> Ascii.eqb ch " " = false ->
  sall plain_or_blank s = true -> contains_byte ch s = false.
Proof. apply plain_contains. Qed.

Lemma numid_not_wildcard (M : string) : numid M = true -> isX M = false.
Proof.
  intros H. destruct (numid_cons M H) as [d [t [-> [Hd _]]]].
  unfold isX. cbn [length Nat.eqb orb String.eqb].
  rewrite !(Ascii.eqb_sym d), !(eqb_digit _ d) by (reflexivity || exact Hd).
  reflexivity.
Qed.

Section Tokens.

Variable w : string.
Hypothesis Hw : canonical_token w.

Lemma token_TrimSpace : strings.TrimSpace w = w.
Proof.
  destruct (canonical_token_shape w Hw) as [_ [[c [t [E Hc]]] [a [d [E' Hd]]]]].
  rewrite E in *. apply (TrimSpace_plain c d t a Hc Hd E').
Qed.

Lemma token_lacks (ch : ascii) :
  plain ch = false -> Ascii.eqb ch " " = false -> contains_byte ch w = false.
Proof.
  intros H1 H2. apply lacks; try assumption.
  apply plain_plain_or_blank, (canonical_token_word w Hw).
Qed.

Lemma token_replaceCarets : replaceCarets getRegex w = w.
Proof.
  unfold replaceCarets. rewrite token_TrimSpace.
  rewrite (Split_reSpaces_word w (canonical_token_word w Hw)).
  cbn [map strings.Join]. unfold replaceCaret.
  rewrite (MatchString_needs _ "^" w); [reflexivity | reflexivity |].
  apply token_lacks; reflexivity.
Qed.

Lemma token_replaceTildes : replaceTildes getRegex w = w.
Proof.
  unfold replaceTildes. rewrite token_TrimSpace.
  rewrite (Split_reSpaces_word w (canonical_token_word w Hw)).
  cbn [map strings.Join]. unfold replaceTilde.
  rewrite (MatchString_needs _ "~" w); [reflexivity | reflexivity |].
  apply token_lacks; reflexivity.
Qed.

Lemma token_replaceXRange : replaceXRange getRegex w = w.
Proof.
  destruct Hw as [op [M [mi [p [E [Hop [HM [Hm Hp]]]]]]]].
  pose proof (xrange_canonical op M mi p Hop HM Hm Hp) as Hx. rewrite <- E in Hx.
  unfold replaceXRange. rewrite (MatchString_submatch _ _ _ Hx), Hx.
  cbn [negb sub nth].
  rewrite (numid_not_wildcard M HM), (numid_not_wildcard mi Hm), (numid_not_wildcard p Hp).
  cbn [orb]. rewrite !andb_false_r. reflexivity.
Qed.

Lemma token_replaceXRanges : replaceXRanges getRegex w = w.
Proof.
  unfold replaceXRanges. rewrite token_TrimSpace.
  rewrite (Split_reSpaces_word w (canonical_token_word w Hw)).
  cbn [map strings.Join]. apply token_replaceXRange.
Qed.

Lemma token_replaceStars : replaceStars getRegex w = w.
Proof.
  unfold replaceStars. rewrite token_TrimSpace.
  apply (ReplaceAllString_needs _ "*"); [reflexivity |].
  apply token_lacks; reflexivity.
Qed.

Lemma token_parseComparatorString : parseComparatorString getRegex w = w.
Proof.
  unfold parseComparatorString.
  rewrite token_replaceCarets, token_replaceTildes, token_replaceXRanges.
  apply token_replaceStars.
Qed.

End Tokens.



(** C8.  The normaliser leaves a canonical input as it is: on the tokens of
    a canonical sequence (each one of the operators >=, <=, >, <, =, or
    none, followed by a version with its three numeric identifiers) joined
    by single blanks, [parseRange] returns exactly these tokens. *)
Theorem parseRange_canonical :
  forall (w : string) (ws : list string),
    canonical_token w -> Forall canonical_token ws ->
    parseRange (strings.Join (w :: ws) " ") = w :: ws.
Proof.
  intros w ws Hw Hws.
  pose proof (canonical_token_word w Hw) as Ww.
  pose proof (Forall_word ws Hws) as Wws.
  pose proof (Join_plain_or_blank ws w Ww Wws) as Hall.
  unfold parseRange.
  assert (HT : strings.TrimSpace (strings.Join (w :: ws) " ") = strings.Join (w :: ws) " ").
  { destruct (Join_head w ws Ww Wws) as [c [t [E Hc]]].
    destruct (Join_last ws w Hw Hws) as [a [d [E' Hd]]].
    rewrite E in *. apply (TrimSpace_plain c d t a Hc Hd E'). }
  rewrite HT.
  assert (HH : hyphenReplace getRegex (strings.Join (w :: ws) " ") = strings.Join (w :: ws) " ").
  { unfold hyphenReplace. rewrite (MatchString_needs _ "-"); [reflexivity | reflexivity |].
    apply lacks; [reflexivity | reflexivity | exact Hall]. }
  rewrite HH, (ReplaceAllString_comparatortrim w ws Hw Hws).
  rewrite (ReplaceAllString_needs (getRegex "TILDETRIM") "~");
    [| reflexivity | apply lacks; [reflexivity | reflexivity | exact Hall]].
  rewrite (ReplaceAllString_needs (getRegex "CARETTRIM") "^");
    [| reflexivity | apply lacks; [reflexivity | reflexivity | exact Hall]].
  rewrite (Split_reSpaces w ws Ww Wws), (splitByte_words ws w Ww Wws).
  assert (HM : map (parseComparatorString getRegex) (w :: ws) = w :: ws).
  { rewrite <- (map_id (w :: ws)) at 2. apply map_ext_in.
    intros tok Hin. apply token_parseComparatorString.
    destruct Hin as [<- | Hin]; [exact Hw |].
    rewrite Forall_forall in Hws. apply Hws, Hin. }
  rewrite HM. apply (Split_reSpaces w ws Ww Wws).
Qed.

Lemma parseRange_canonical_witness :
  parseRange ">=1.2.3 <2.0.0 =0.10.0 7.0.45" = [">=1.2.3"; "<2.0.0"; "=0.10.0"; "7.0.45"].
Proof.
  apply (parseRange_canonical ">=1.2.3" ["<2.0.0"; "=0.10.0"; "7.0.45"]).
  - exists ">=", "1", "2", "3". repeat split; reflexivity.
  - repeat constructor.
    + exists "<", "2", "0", "0". repeat split; reflexivity.
    + exists "=", "0", "10", "0". repeat split; reflexivity.
    + exists "", "7", "0", "45". repeat split; reflexivity.
Defined.

(** * Properties of the other functions *)

(** ** [splitORParts] *)

Lemma joinOR_cons (g : list string) (gs : list (list string)) :
  gs <> [] -> joinOR (g :: gs) = (g ++ "||" :: joinOR gs)%list.
Proof. destruct gs; [contradiction | reflexivity]. Qed.

Lemma joinOR_closed (gs : list (list string)) (g : list string) :
  joinOR (gs ++ [g]) = (closedOR gs ++ g)%list.
Proof.
  induction gs as [| h gs IH].
  - reflexivity.
  - change ((h :: gs) ++ [g])%list with (h :: (gs ++ [g]))%list.
    rewrite joinOR_cons by (destruct gs; discriminate).
    rewrite IH. unfold closedOR; simpl. rewrite <- !app_assoc. reflexivity.
Qed.

Lemma closedOR_app (gs : list (list string)) (g : list string) :
  closedOR (gs ++ [g]) = (closedOR gs ++ g ++ ["||"])%list.
Proof. unfold closedOR. rewrite flat_map_app. simpl. rewrite app_nil_r. reflexivity. Qed.

Lemma firstn_skipn_done (A : Type) (done rest : list A) (last : nat) :
  (last <= List.length done)%nat ->
  firstn (List.length done - last) (skipn last (done ++ rest)) = skipn last done.
Proof.
  intros H. rewrite skipn_app.
  replace (last - List.length done)%nat with 0%nat by lia. simpl.
  rewrite firstn_app, length_skipn.
  replace (List.length done - last - (List.length done - last))%nat with 0%nat by lia.
  simpl. rewrite app_nil_r. apply firstn_all2. rewrite length_skipn. lia.
Qed.

Lemma splitORLoop_spec (parts : list string) :
  forall (rest done : list string) (last : nat) (ORparts : list (list string)),
    parts = (done ++ rest)%list ->
    orState done last ORparts ->
    match splitORLoop parts rest (List.length done) last ORparts with
    | inr err => err = "First element in range is '||'" /\ hd_error parts = Some "||"
    | inl (ORparts', last') => orState parts last' ORparts'
    end.
Proof.
  induction rest as [| p rest IH]; intros done last ORparts Hp St; simpl.
  - rewrite app_nil_r in Hp. subst done. exact St.
  - destruct (String.eqb_spec p "||") as [-> | Hne].
    + destruct (Nat.eqb_spec (List.length done) 0) as [Hz | Hnz].
      * destruct done; [| discriminate]. subst parts. split; reflexivity.
      * specialize (IH (done ++ ["||"])%list (S (List.length done))
                       (ORparts ++ [firstn (List.length done - last) (skipn last parts)])%list).
        rewrite length_app in IH; simpl in IH.
        replace (List.length done + 1)%nat with (S (List.length done)) in IH by lia.
        apply IH.
        { rewrite <- app_assoc. exact Hp. }
        destruct St as [L J C O H E].
        rewrite Hp, firstn_skipn_done by exact L.
        constructor.
        -- rewrite length_app; simpl; lia.
        -- rewrite closedOR_app, (@skipn_all2 _ (S (List.length done)))
             by (rewrite length_app; simpl; lia).
           rewrite app_nil_r, app_assoc, J. reflexivity.
        -- apply Forall_app. split; [exact C | constructor; [exact O | constructor]].
        -- rewrite (@skipn_all2 _ (S (List.length done)))
             by (rewrite length_app; simpl; lia). intros [].
        -- destruct done; [contradiction | exact H].
        -- split; [intros _; right; exists done; reflexivity |].
           intros _. rewrite length_app; simpl; lia.
    + specialize (IH (done ++ [p])%list last ORparts).
      rewrite length_app in IH; simpl in IH.
      replace (List.length done + 1)%nat with (S (List.length done)) in IH by lia.
      apply IH.
      { rewrite <- app_assoc. exact Hp. }
      destruct St as [L J C O H E].
      constructor.
      * rewrite length_app; simpl; lia.
      * rewrite skipn_app. replace (last - List.length done)%nat with 0%nat by lia.
        simpl. rewrite app_assoc, J. reflexivity.
      * exact C.
      * rewrite skipn_app. replace (last - List.length done)%nat with 0%nat by lia.
        simpl. intros Hin. apply in_app_or in Hin. destruct Hin as [Hin | [Hin | []]];
          [exact (O Hin) | exact (Hne Hin)].
      * destruct done; simpl; [intros Heq; inversion Heq; subst; contradiction | exact H].
      * split.
        -- rewrite length_app; simpl. lia.
        -- intros [Hnil | [a Ha]].
           ++ destruct done; discriminate.
           ++ apply app_inj_tail in Ha. destruct Ha as [_ Ha]. contradiction.
Qed.

Lemma orState_init : orState [] 0 [].
Proof.
  constructor; simpl.
  - lia.
  - reflexivity.
  - constructor.
  - intros [].
  - discriminate.
  - split; [intros _; left; reflexivity | reflexivity].
Qed.

(** X6.  When [splitORParts] returns groups, the groups joined by the
    separator || are the parts it was given, and no group holds the
    separator. *)
Theorem splitORParts_groups (parts : list string) (gs : list (list string)) :
  splitORParts parts = inl gs ->
  joinOR gs = parts /\ Forall (fun g => ~ In "||" g) gs.
Proof.
  unfold splitORParts. intros H.
  pose proof (splitORLoop_spec parts parts [] 0 [] eq_refl orState_init) as S.
  simpl in S.
  destruct (splitORLoop parts parts 0 0 []) as [[ORparts last] | err]; [| discriminate].
  destruct (Nat.eqb_spec last (List.length parts)); [discriminate |].
  inversion H; subst gs; clear H.
  destruct S as [L J C O Hh E]. split.
  - rewrite joinOR_closed. exact J.
  - apply Forall_app. split; [exact C | constructor; [exact O | constructor]].
Qed.

Lemma splitORParts_groups_witness :
  splitORParts ["a"; "||"; "b"; "c"; "||"; "||"; "d"] = inl [["a"]; ["b"; "c"]; []; ["d"]]
  /\ joinOR [["a"]; ["b"; "c"]; []; ["d"]] = ["a"; "||"; "b"; "c"; "||"; "||"; "d"]
  /\ Forall (fun g => ~ In "||" g) [["a"]; ["b"; "c"]; []; ["d"]].
Proof.
  split; [reflexivity |].
  apply (splitORParts_groups ["a"; "||"; "b"; "c"; "||"; "||"; "d"]). reflexivity.
Defined.

(** X7.  [splitORParts] fails with the message on the first element exactly
    when the first part is the separator ||; it fails with the message on the
    last element exactly when the first part is not the separator and the
    list is empty or ends with the separator; in every other case, and only
    then, it returns groups. *)
Theorem splitORParts_errors (parts : list string) :
  (splitORParts parts = inr "First element in range is '||'"
   <-> hd_error parts = Some "||")
  /\ (splitORParts parts = inr "Last element in range is '||'"
      <-> hd_error parts <> Some "||"
          /\ (parts = [] \/ exists a, parts = (a ++ ["||"])%list))
  /\ ((exists gs, splitORParts parts = inl gs)
      <-> hd_error parts <> Some "||" /\ parts <> []
          /\ forall a, parts <> (a ++ ["||"])%list).
Proof.
  unfold splitORParts.
  pose proof (splitORLoop_spec parts parts [] 0 [] eq_refl orState_init) as S.
  simpl in S.
  destruct (splitORLoop parts parts 0 0 []) as [[ORparts last] | err].
  - destruct S as [L J C O Hh E].
    destruct (Nat.eqb_spec last (List.length parts)) as [Hl | Hl].
    + apply E in Hl. split; [| split].
      * split; [discriminate | intros Hf; contradiction].
      * split; [intros _; split; assumption | reflexivity].
      * split; [intros [gs Hgs]; discriminate |].
        intros (_ & Hn & Ha). destruct Hl as [Hl | [a Hl]];
          [contradiction | destruct (Ha a Hl)].
    + split; [| split].
      * split; [discriminate | intros Hf; contradiction].
      * split; [discriminate |]. intros (_ & Hf). apply E in Hf. contradiction.
      * split; [| intros _; eexists; reflexivity].
        intros _. split; [exact Hh |]. split.
        -- intros ->. apply Hl. apply E. left; reflexivity.
        -- intros a Ha. apply Hl. apply E. right. exists a; exact Ha.
  - destruct S as [-> Hh]. split; [| split].
    + split; [intros _; exact Hh | reflexivity].
    + split; [discriminate | intros (Hn & _); contradiction].
    + split; [intros [gs Hgs]; discriminate | intros (Hn & _); contradiction].
Qed.

(** ** [splitAndTrim] *)

Lemma drop_app_length (p s : string) (n : nat) : drop (length p + n) (p ++ s) = drop n s.
Proof. induction p as [| c p IH]; simpl; [reflexivity | exact IH]. Qed.

Lemma drop_app_le (a b : string) (n : nat) :
  (n <= length a)%nat -> drop n (a ++ b) = drop n a ++ b.
Proof.
  revert n. induction a as [| c a IH]; intros n H; simpl in *.
  - replace n with 0%nat by lia. destruct b; reflexivity.
  - destruct n as [| n]; [reflexivity |]. apply IH. lia.
Qed.

Lemma length_drop (s : string) (n : nat) : length (drop n s) = (length s - n)%nat.
Proof.
  revert n. induction s as [| c s IH]; intros [| n]; simpl; try reflexivity. apply IH.
Qed.

Lemma take_app_length (a b : string) : take (length a) (a ++ b) = a.
Proof. induction a as [| c a IH]; simpl; [destruct b; reflexivity | rewrite IH; reflexivity]. Qed.

Lemma slice_done (done rest : string) (last : nat) :
  (last <= length done)%nat ->
  slice (done ++ rest) last (length done) = drop last done.
Proof.
  intros H. unfold slice. rewrite drop_app_le by exact H.
  rewrite <- (length_drop done last). apply take_app_length.
Qed.

Lemma Index_blank (c : ascii) (t : string) :
  strings.Index (String c t) " "
  = if Ascii.eqb c " " then Some 0%nat else option_map S (strings.Index t " ").
Proof.
  cbn [strings.Index has_prefix]. rewrite (Ascii.eqb_sym " " c), andb_true_r. reflexivity.
Qed.

Lemma Index_blank_none (s : string) :
  strings.Index s " " = None -> withoutBlanks s = s /\ blanks s = 0%nat.
Proof.
  induction s as [| c t IH]; [split; reflexivity |].
  rewrite Index_blank. simpl. destruct (Ascii.eqb c " "); [discriminate |].
  destruct (strings.Index t " "); [discriminate |]. intros _.
  destruct (IH eq_refl) as [-> ->]. split; reflexivity.
Qed.

Lemma Index_blank_some (s : string) :
  forall j, strings.Index s " " = Some j ->
            withoutBlanks s = take j s ++ withoutBlanks (drop (j + 1) s)
            /\ blanks s = S (blanks (drop (j + 1) s)).
Proof.
  induction s as [| c t IH]; intros j; [discriminate |].
  rewrite Index_blank. simpl. destruct (Ascii.eqb c " ") eqn:E.
  - intros H; inversion H; subst j. simpl. split; reflexivity.
  - destruct (strings.Index t " ") as [j' |]; [| discriminate].
    intros H; inversion H; subst j. simpl.
    destruct (IH j' eq_refl) as [-> ->]. split; reflexivity.
Qed.

Lemma blanks_length (s : string) : (blanks s <= length s)%nat.
Proof. induction s as [| c t IH]; simpl; [lia | destruct (Ascii.eqb c " "); lia]. Qed.

Lemma count_blanks (fuel : nat) :
  forall s, (blanks s < fuel)%nat -> strings.count fuel s " " = blanks s.
Proof.
  induction fuel as [| fuel IH]; intros s H; [lia |]. simpl strings.count.
  destruct (strings.Index s " ") as [j |] eqn:E.
  - destruct (Index_blank_some s j E) as [_ Hb]. change (length " ") with 1%nat.
    rewrite IH by lia. symmetry; exact Hb.
  - destruct (Index_blank_none s E) as [_ ->]. reflexivity.
Qed.

Lemma withoutBlanks_id (s : string) : blanks s = 0%nat -> withoutBlanks s = s.
Proof.
  induction s as [| c t IH]; [reflexivity |]. simpl.
  destruct (Ascii.eqb c " "); [discriminate |]. intros H. rewrite IH by exact H. reflexivity.
Qed.

Lemma replaceLoop_blanks (n : nat) :
  forall s b, (blanks s <= n)%nat -> strings.replaceLoop n b s " " "" = withoutBlanks s.
Proof.
  induction n as [| n IH]; intros s b H.
  - simpl. symmetry. apply withoutBlanks_id. lia.
  - simpl strings.replaceLoop. destruct (strings.Index s " ") as [j |] eqn:E.
    + destruct (Index_blank_some s j E) as [Hw Hb]. change (length " ") with 1%nat.
      rewrite IH by lia. simpl. symmetry; exact Hw.
    + destruct (Index_blank_none s E) as [-> _]. reflexivity.
Qed.

Lemma Replace_blanks (v : string) : strings.Replace v " " "" (-1) = withoutBlanks v.
Proof.
  unfold strings.Replace. simpl String.eqb. simpl orb. cbv iota.
  unfold strings.Count. pose proof (blanks_length v) as Hl.
  rewrite count_blanks by lia.
  destruct (Nat.eqb_spec (blanks v) 0) as [Hz | Hnz].
  - symmetry. apply withoutBlanks_id. exact Hz.
  - simpl. apply replaceLoop_blanks. lia.
Qed.

Lemma withoutBlanks_clean (s : string) : contains_byte " " (withoutBlanks s) = false.
Proof.
  induction s as [| c t IH]; [reflexivity |]. simpl.
  destruct (Ascii.eqb c " ") eqn:E; [exact IH |]. simpl. rewrite E, IH. reflexivity.
Qed.

Lemma withoutBlanks_start (s : string) : startsNonBlank s -> withoutBlanks s <> "".
Proof. destruct s as [| c t]; simpl; [intros [] | intros ->; discriminate]. Qed.

Lemma drop_snoc (done : string) (ch : ascii) (last : nat) :
  (last <= length done)%nat ->
  drop last (done ++ String ch "") = drop last done ++ String ch "".
Proof. apply drop_app_le. Qed.

Lemma startsNonBlank_app (a b : string) : startsNonBlank a -> startsNonBlank (a ++ b).
Proof. destruct a; simpl; [intros [] | auto]. Qed.

Lemma drop_all (s : string) : drop (length s) s = "".
Proof. induction s as [| c s IH]; simpl; [reflexivity | exact IH]. Qed.

Lemma splitAndTrimLoop_cons (s : string) (ch : ascii) (rest : string) (i last : nat)
    (lastChar : ascii) (result : list string) :
  splitAndTrimLoop s (String ch rest) i last lastChar result
  = if Ascii.eqb ch " " && negb (inArray lastChar excludeFromSplit) then
      splitAndTrimLoop s rest (S i) (S i) lastChar
        (if (Z.of_nat last <? Z.of_nat i - 1)%Z then (result ++ [slice s last i])%list else result)
    else if negb (Ascii.eqb ch " ") then splitAndTrimLoop s rest (S i) last ch result
    else splitAndTrimLoop s rest (S i) last lastChar result.
Proof. reflexivity. Qed.

Lemma splitAndTrimLoop_state (s : string) :
  forall (rest done : string) (last : nat) (lastChar : ascii) (result : list string),
    s = done ++ rest ->
    trimState done last lastChar result ->
    exists lastChar',
      trimState s (snd (splitAndTrimLoop s rest (length done) last lastChar result))
        lastChar' (fst (splitAndTrimLoop s rest (length done) last lastChar result)).
Proof.
  induction rest as [| ch rest IH]; intros done last lastChar result Hs St.
  - simpl. rewrite app_nil_r_s in Hs. subst done. exists lastChar. exact St.
  - assert (Hs' : s = (done ++ String ch "") ++ rest)
      by (rewrite app_assoc_s; exact Hs).
    assert (Hlen : length (done ++ String ch "") = S (length done))
      by (rewrite length_app_s; simpl; lia).
    destruct St as [L R O C]. rewrite splitAndTrimLoop_cons.
    destruct (Ascii.eqb ch " ") eqn:Eb; cbn [andb negb].
    + destruct (inArray lastChar excludeFromSplit) eqn:Ein; cbn [andb negb].
      * (* a blank after an operator: the piece goes on *)
        rewrite <- Hlen. apply IH; [exact Hs' |].
        assert (Hlt : (last < length done)%nat).
        { destruct (Nat.eq_dec last (length done)) as [He | He];
            [discriminate (C He) | lia]. }
        constructor.
        -- rewrite Hlen; lia.
        -- exact R.
        -- intros _. rewrite drop_snoc by exact L. apply startsNonBlank_app. exact (O Hlt).
        -- rewrite Hlen; lia.
      * (* a blank that ends the piece *)
        rewrite <- Hlen. apply IH; [exact Hs' |].
        constructor.
        -- lia.
        -- destruct (Z.of_nat last <? Z.of_nat (length done) - 1)%Z eqn:Ez; [| exact R].
           apply Forall_app. split; [exact R |]. constructor; [| constructor].
           rewrite Hs, slice_done by exact L. apply O.
           apply Z.ltb_lt in Ez. lia.
        -- lia.
        -- intros _. exact Ein.
    + rewrite <- Hlen. apply IH; [exact Hs' |].
      constructor.
      * rewrite Hlen; lia.
      * exact R.
      * intros _. rewrite drop_snoc by exact L.
        destruct (Nat.eq_dec last (length done)) as [He | He].
        -- rewrite He, drop_all. simpl. exact Eb.
        -- apply startsNonBlank_app. apply O. lia.
      * rewrite Hlen; lia.
Qed.

Lemma trimState_init : trimState "" 0 Ascii.zero [].
Proof.
  constructor; simpl; [lia | constructor | lia | reflexivity].
Qed.

(** X8.  Every element [splitAndTrim] returns is free of blanks and is not
    empty. *)
Theorem splitAndTrim_elements (s : string) :
  Forall (fun t => t <> "" /\ contains_byte " " t = false) (splitAndTrim s).
Proof.
  unfold splitAndTrim.
  destruct (splitAndTrimLoop_state s s "" 0 Ascii.zero [] eq_refl trimState_init)
    as [lc St].
  simpl length in St.
  destruct (splitAndTrimLoop s s 0 0 Ascii.zero []) as [result last].
  simpl in St. destruct St as [L R O _].
  assert (H : Forall startsNonBlank
                (if (last <? length s)%nat then (result ++ [drop last s])%list else result)).
  { destruct (Nat.ltb_spec last (length s)) as [Hlt | Hge]; [| exact R].
    apply Forall_app. split; [exact R | constructor; [exact (O Hlt) | constructor]]. }
  revert H. generalize (if (last <? length s)%nat then (result ++ [drop last s])%list else result).
  intros l H. induction H as [| t l Ht _ IH]; simpl; constructor; [| exact IH].
  rewrite Replace_blanks. split; [apply withoutBlanks_start; exact Ht | apply withoutBlanks_clean].
Qed.

Lemma splitAndTrimLoop_char (s : string) :
  forall (rest : string) (i last : nat) (c1 c2 : ascii) (result : list string),
    inArray c1 excludeFromSplit = inArray c2 excludeFromSplit ->
    splitAndTrimLoop s rest i last c1 result = splitAndTrimLoop s rest i last c2 result.
Proof.
  induction rest as [| ch rest IH]; intros i last c1 c2 result H; [reflexivity |].
  rewrite !splitAndTrimLoop_cons.
  rewrite H. destruct (Ascii.eqb ch " " && negb (inArray c2 excludeFromSplit)).
  - apply IH. exact H.
  - destruct (negb (Ascii.eqb ch " ")); [reflexivity | apply IH; exact H].
Qed.

Lemma splitAndTrimLoop_shift (p s : string) :
  forall (rest : string) (i last : nat) (lc : ascii) (result : list string),
    splitAndTrimLoop (p ++ s) rest (length p + i) (length p + last) lc result
    = (fst (splitAndTrimLoop s rest i last lc result),
       (length p + snd (splitAndTrimLoop s rest i last lc result))%nat).
Proof.
  induction rest as [| ch rest IH]; intros i last lc result; [reflexivity |].
  rewrite !splitAndTrimLoop_cons.
  assert (Hsl : slice (p ++ s) (length p + last) (length p + i) = slice s last i).
  { unfold slice. rewrite drop_app_length. f_equal. lia. }
  assert (Hz : (Z.of_nat (length p + last) <? Z.of_nat (length p + i) - 1)%Z
               = (Z.of_nat last <? Z.of_nat i - 1)%Z).
  { destruct (Z.ltb_spec (Z.of_nat last) (Z.of_nat i - 1));
      destruct (Z.ltb_spec (Z.of_nat (length p + last)) (Z.of_nat (length p + i) - 1));
      try reflexivity; lia. }
  rewrite Hsl, Hz.
  replace (S (length p + i)) with (length p + S i)%nat by lia.
  destruct (Ascii.eqb ch " " && negb (inArray lc excludeFromSplit)).
  - apply IH.
  - destruct (negb (Ascii.eqb ch " ")); apply IH.
Qed.

(** X9.  [splitAndTrim] loses a token of one byte that a blank follows: when
    the first byte is neither a blank nor one of the bytes > < = and the
    second is a blank, the result is that of the text after the blank. *)
Theorem splitAndTrim_one_byte (c : ascii) (s : string) :
  Ascii.eqb c " " = false -> inArray c excludeFromSplit = false ->
  splitAndTrim (String c (String " " s)) = splitAndTrim s.
Proof.
  intros Hc Hex. unfold splitAndTrim.
  set (p := String c (String " " "")).
  change (String c (String " " s)) with (p ++ s).
  change (splitAndTrimLoop (p ++ s) (p ++ s) 0 0 Ascii.zero [])
    with (splitAndTrimLoop (p ++ s) (String c (String " " s)) 0 0 Ascii.zero []).
  rewrite splitAndTrimLoop_cons, Hc. cbn [andb negb].
  rewrite splitAndTrimLoop_cons, Hex. change (Ascii.eqb " " " ") with true. cbn [andb negb].
  change (Z.of_nat 0 <? Z.of_nat 1 - 1)%Z with false. cbv iota.
  change (splitAndTrimLoop (p ++ s) s 2 2 c [])
    with (splitAndTrimLoop (p ++ s) s (length p + 0) (length p + 0) c []).
  rewrite splitAndTrimLoop_shift.
  rewrite (splitAndTrimLoop_char s s 0 0 c Ascii.zero [])
    by (rewrite Hex; reflexivity).
  destruct (splitAndTrimLoop s s 0 0 Ascii.zero []) as [result last].
  cbn [fst snd]. rewrite length_app_s, drop_app_length.
  replace (length p + last <? length p + length s)%nat with (last <? length s)%nat
    by (destruct (Nat.ltb_spec last (length s));
        destruct (Nat.ltb_spec (length p + last) (length p + length s));
        try reflexivity; lia).
  reflexivity.
Qed.

(** ** Splitting at a byte and joining *)

Lemma contains_byte_app (c : ascii) (a b : string) :
  contains_byte c (a ++ b) = contains_byte c a || contains_byte c b.
Proof.
  induction a as [| x a IH]; simpl; [reflexivity | rewrite IH, orb_assoc; reflexivity].
Qed.

Lemma contains_byte_srev (c : ascii) (s : string) :
  contains_byte c (srev s) = contains_byte c s.
Proof.
  induction s as [| x s IH]; [reflexivity |].
  rewrite srev_cons, contains_byte_app, IH. simpl. rewrite orb_false_r. apply orb_comm.
Qed.

Lemma splitByte_skip (sep : ascii) (w : string) :
  contains_byte sep w = false ->
  forall rest cur,
    strings.splitByte sep (w ++ rest) cur = strings.splitByte sep rest (srev w ++ cur).
Proof.
  induction w as [| c w IH]; intros Hw rest cur; [reflexivity |].
  cbn [contains_byte] in Hw. apply orb_false_iff in Hw. destruct Hw as [Hc Hw].
  cbn [append strings.splitByte]. rewrite Hc.
  rewrite (IH Hw), srev_cons, app_assoc_s. reflexivity.
Qed.

Lemma splitByte_Join (sep : ascii) (ws : list string) :
  forall w, Forall (fun p => contains_byte sep p = false) (w :: ws) ->
            strings.splitByte sep (strings.Join (w :: ws) (String sep "")) "" = w :: ws.
Proof.
  induction ws as [| w2 ws IH]; intros w Hws; inversion Hws as [| ? ? Hw Hws']; subst.
  - cbn [strings.Join]. rewrite <- (app_nil_r_s w) at 1.
    rewrite (splitByte_skip sep w Hw). cbn [strings.splitByte].
    rewrite app_nil_r_s, srev_involutive. reflexivity.
  - rewrite Join_cons, (splitByte_skip sep w Hw). cbn [append strings.splitByte].
    rewrite Ascii.eqb_refl, app_nil_r_s, srev_involutive, (IH w2 Hws'). reflexivity.
Qed.

Lemma splitByte_nonempty (sep : ascii) (s : string) :
  forall cur, strings.splitByte sep s cur <> [].
Proof.
  induction s as [| c s IH]; intros cur; cbn [strings.splitByte]; [discriminate |].
  destruct (Ascii.eqb c sep); [discriminate | apply IH].
Qed.

Lemma Join_splitByte (sep : ascii) (s : string) :
  forall cur, strings.Join (strings.splitByte sep s cur) (String sep "") = srev cur ++ s.
Proof.
  induction s as [| c s IH]; intros cur; cbn [strings.splitByte].
  - cbn [strings.Join]. rewrite app_nil_r_s. reflexivity.
  - destruct (Ascii.eqb_spec c sep) as [-> | Hne].
    + pose proof (splitByte_nonempty sep s "") as Hn. specialize (IH "").
      destruct (strings.splitByte sep s "") as [| p ps]; [contradiction |].
      rewrite Join_cons, IH. reflexivity.
    + rewrite IH, srev_cons, app_assoc_s. reflexivity.
Qed.

Lemma splitByte_parts (sep : ascii) (s : string) :
  forall cur, contains_byte sep cur = false ->
              Forall (fun p => contains_byte sep p = false) (strings.splitByte sep s cur).
Proof.
  induction s as [| c s IH]; intros cur Hcur; cbn [strings.splitByte].
  - constructor; [rewrite contains_byte_srev; exact Hcur | constructor].
  - destruct (Ascii.eqb c sep) eqn:E.
    + constructor; [rewrite contains_byte_srev; exact Hcur | apply IH; reflexivity].
    + apply IH. cbn [contains_byte]. rewrite E, Hcur. reflexivity.
Qed.

Lemma length_splitByte_cur (sep : ascii) (s : string) :
  forall cur, List.length (strings.splitByte sep s cur)
              = List.length (strings.splitByte sep s "").
Proof.
  induction s as [| c s IH]; intros cur; cbn [strings.splitByte]; [reflexivity |].
  destruct (Ascii.eqb c sep); [reflexivity |]. rewrite (IH (String c cur)), (IH (String c "")).
  reflexivity.
Qed.

Lemma length_splitByte_app (sep : ascii) (a b : string) :
  forall cur, List.length (strings.splitByte sep (a ++ b) cur)
              = (List.length (strings.splitByte sep a cur)
                 + List.length (strings.splitByte sep b "") - 1)%nat.
Proof.
  induction a as [| c a IH]; intros cur; cbn [append strings.splitByte].
  - rewrite length_splitByte_cur. simpl. lia.
  - destruct (Ascii.eqb c sep); [| apply IH].
    simpl. rewrite IH.
    pose proof (splitByte_nonempty sep a "") as Hn.
    destruct (strings.splitByte sep a ""); [contradiction | simpl; lia].
Qed.

(** ** [Index] and [Replace] *)

Lemma Index_skip (d : ascii) (pat A rest : string) :
  contains_byte d A = false ->
  strings.Index (A ++ rest) (String d pat)
  = option_map (fun i => (length A + i)%nat) (strings.Index rest (String d pat)).
Proof.
  induction A as [| a A IH]; intros H.
  - simpl append. destruct (strings.Index rest (String d pat)); reflexivity.
  - cbn [contains_byte] in H. apply orb_false_iff in H. destruct H as [Ha HA].
    cbn [append strings.Index has_prefix]. rewrite (Ascii.eqb_sym d a), Ha. cbn [andb].
    rewrite (IH HA). destruct (strings.Index rest (String d pat)); reflexivity.
Qed.

Lemma Index_here (pat s : string) : has_prefix pat s = true -> strings.Index s pat = Some 0%nat.
Proof. intros H. destruct s; cbn [strings.Index]; rewrite H; reflexivity. Qed.

Lemma Index_next (pat : string) (c : ascii) (s : string) :
  has_prefix pat (String c s) = false ->
  strings.Index (String c s) pat = option_map S (strings.Index s pat).
Proof. intros H. cbn [strings.Index]. rewrite H. reflexivity. Qed.

Lemma Index_end (d : ascii) (pat : string) : strings.Index "" (String d pat) = None.
Proof. reflexivity. Qed.

Lemma Replace_once (s old new : string) :
  old <> "" -> String.eqb old new = false ->
  strings.Replace s old new 1
  = match strings.Index s old with
    | None => s
    | Some j => take j s ++ new ++ drop (j + length old) s
    end.
Proof.
  intros Hold Hne. unfold strings.Replace. rewrite Hne. cbn [orb Z.eqb].
  unfold strings.Count. destruct old as [| o old]; [contradiction |].
  cbn [strings.count].
  destruct (strings.Index s (String o old)) as [j |] eqn:E; [| reflexivity].
  cbn [Nat.eqb]. 
  replace ((1 <? 0)%Z || (Z.of_nat (S (strings.count (length s)
             (drop (j + length (String o old)) s) (String o old))) <? 1)%Z) with false
    by (symmetry; apply orb_false_iff; split; [reflexivity | apply Z.ltb_ge; lia]).
  change (Z.to_nat 1) with 1%nat. cbn [strings.replaceLoop]. rewrite E. reflexivity.
Qed.

(** ** [ParseUint], [ParseInt] and [Atoi] *)

Lemma parseUintLoop_digits (s : string) :
  forall n : Z,
    (0 <= n)%Z -> sall strconv.isDigit s = true ->
    (n * 10 ^ Z.of_nat (length s) + strconv.decimal s 0 <= strconv.maxUint64)%Z ->
    strconv.parseUintLoop s n
    = ((n * 10 ^ Z.of_nat (length s) + strconv.decimal s 0)%Z, None).
Proof.
  induction s as [| c t IH]; intros n Hn Hd Hle.
  - simpl. f_equal. lia.
  - cbn [sall] in Hd. apply andb_true_iff in Hd. destruct Hd as [Hc Ht].
    pose proof (digitVal_range c Hc) as Hv.
    pose proof (decimal_range t Ht) as Hr.
    assert (Hp : (0 < 10 ^ Z.of_nat (length t))%Z) by (apply Z.pow_pos_nonneg; lia).
    cbn [strconv.decimal length] in Hle |- *.
    rewrite (decimal_acc t) in Hle |- *.
    rewrite Nat2Z.inj_succ, Z.pow_succ_r in Hle |- * by lia.
    unfold strconv.maxUint64 in *.
    change (2 ^ 64 - 1)%Z with 18446744073709551615%Z in *.
    cbn [strconv.parseUintLoop]. rewrite Hc.
    change (strconv.maxUint64 / 10 + 1)%Z with 1844674407370955162%Z.
    unfold strconv.maxUint64.
    change (2 ^ 64 - 1)%Z with 18446744073709551615%Z.
    change (2 ^ 64)%Z with 18446744073709551616%Z.
    assert (Hn1 : (n * 10 + strconv.digitVal c <= 18446744073709551615)%Z) by nia.
    destruct (Z.leb_spec 1844674407370955162 n); [lia |].
    rewrite Z.mod_small by lia.
    destruct (Z.ltb_spec (n * 10 + strconv.digitVal c) (n * 10)); [lia |].
    destruct (Z.ltb_spec 18446744073709551615 (n * 10 + strconv.digitVal c)); [lia |].
    cbn [orb]. rewrite IH; [f_equal; lia | lia | exact Ht | nia].
Qed.

Lemma parseUintLoop_nondigit (s : string) :
  forall n : Z, sall strconv.isDigit s = false -> snd (strconv.parseUintLoop s n) <> None.
Proof.
  induction s as [| c t IH]; intros n H; [discriminate |].
  cbn [sall] in H. cbn [strconv.parseUintLoop].
  destruct (strconv.isDigit c); [| discriminate]. cbn [andb] in H.
  destruct (_ <=? n)%Z; [discriminate |].
  destruct (_ || _); [discriminate | apply IH; exact H].
Qed.

Lemma ParseUint_numeral (s : string) :
  numeral s = true -> (strconv.decimal s 0 <= strconv.maxUint64)%Z ->
  strconv.ParseUint s = (strconv.decimal s 0, None).
Proof.
  unfold numeral. intros H Hle. apply andb_true_iff in H. destruct H as [Hlen Hd].
  destruct s as [| c t]; [discriminate |]. unfold strconv.ParseUint.
  rewrite parseUintLoop_digits; [reflexivity | lia | exact Hd | lia].
Qed.

Lemma ParseUint_nondigit (s : string) :
  sall strconv.isDigit s = false -> snd (strconv.ParseUint s) <> None.
Proof.
  intros H. destruct s as [| c t]; [discriminate |]. unfold strconv.ParseUint.
  pose proof (parseUintLoop_nondigit (String c t) 0 H) as Hn.
  destruct (strconv.parseUintLoop (String c t) 0) as [n [k |]];
    [discriminate | contradiction].
Qed.

Lemma ParseInt_nondigit (c : ascii) (t : string) :
  sall strconv.isDigit t = false -> snd (strconv.ParseInt (String c t)) <> None.
Proof.
  intros H. unfold strconv.ParseInt.
  assert (Hs : forall ds, sall strconv.isDigit ds = false ->
               forall neg : bool,
                 snd (let '(un, err) := strconv.ParseUint ds in
                      let syntax :=
                        match err with
                        | Some e => match strconv.Err e with
                                    | strconv.ErrRange => false
                                    | strconv.ErrSyntax => true
                                    end
                        | None => false
                        end in
                      if syntax
                      then (0%Z, Some {| strconv.Func := "ParseInt"; strconv.Num := String c t;
                                         strconv.Err := strconv.ErrSyntax |})
                      else
                        let cutoff := (2 ^ 63)%Z in
                        if negb neg && (cutoff <=? un)%Z
                        then ((cutoff - 1)%Z,
                              Some {| strconv.Func := "ParseInt"; strconv.Num := String c t;
                                      strconv.Err := strconv.ErrRange |})
                        else if neg && (cutoff <? un)%Z
                        then ((- cutoff)%Z,
                              Some {| strconv.Func := "ParseInt"; strconv.Num := String c t;
                                      strconv.Err := strconv.ErrRange |})
                        else
                          let n := strconv.wrap un in
                          ((if neg then strconv.wrap (- n) else n), None)) <> None).
  { intros ds Hds neg. destruct ds as [| d ds]; [discriminate |].
    unfold strconv.ParseUint.
    pose proof (parseUintLoop_nondigit (String d ds) 0 Hds) as Hn.
    destruct (strconv.parseUintLoop (String d ds) 0) as [un [k |]] eqn:E; [| contradiction].
    cbn [option_map strconv.Err]. destruct k; [discriminate |].
    (* a range error: the value is the greatest *)
    assert (Hun : un = strconv.maxUint64).
    { clear - E. revert E. generalize 0%Z. induction (String d ds) as [| a s IHs];
        intros n E; cbn [strconv.parseUintLoop] in E; [discriminate |].
      destruct (strconv.isDigit a); [| discriminate].
      destruct (_ <=? n)%Z; [inversion E; reflexivity |].
      destruct (_ || _); [inversion E; reflexivity | exact (IHs _ E)]. }
    subst un. destruct neg; cbn [negb andb]; discriminate. }
  destruct (Ascii.eqb c "+"); [apply Hs; exact H |].
  destruct (Ascii.eqb c "-"); [apply Hs; exact H |].
  apply Hs. cbn [sall]. rewrite H. apply andb_false_r.
Qed.

Lemma wrap_small (z : Z) : (- 2 ^ 63 <= z < 2 ^ 63)%Z -> strconv.wrap z = z.
Proof. intros H. unfold strconv.wrap. rewrite Z.mod_small by lia. lia. Qed.

Lemma numeral_head (s : string) :
  numeral s = true ->
  exists c t, s = String c t /\ strconv.isDigit c = true /\ sall strconv.isDigit t = true.
Proof.
  unfold numeral. intros H. apply andb_true_iff in H. destruct H as [Hlen Hd].
  destruct s as [| c t]; [discriminate |]. cbn [sall] in Hd.
  apply andb_true_iff in Hd. exists c, t. tauto.
Qed.

Lemma digit_not_sign (c : ascii) :
  strconv.isDigit c = true -> Ascii.eqb c "+" = false /\ Ascii.eqb c "-" = false.
Proof.
  intros H. split.
  - destruct (Ascii.eqb_spec c "+") as [-> | _]; [discriminate | reflexivity].
  - destruct (Ascii.eqb_spec c "-") as [-> | _]; [discriminate | reflexivity].
Qed.

Lemma ParseInt_numeral (s : string) :
  numeral s = true -> (strconv.decimal s 0 < 2 ^ 63)%Z ->
  strconv.ParseInt s = (strconv.decimal s 0, None).
Proof.
  intros H Hlt. destruct (numeral_head s H) as (c & t & -> & Hc & Ht).
  destruct (digit_not_sign c Hc) as [Hp Hm].
  pose proof (decimal_range (String c t)) as Hr. cbn [sall] in Hr. rewrite Hc, Ht in Hr.
  specialize (Hr eq_refl).
  unfold strconv.ParseInt. rewrite Hp, Hm.
  rewrite (ParseUint_numeral (String c t) H)
    by (unfold strconv.maxUint64; change (2 ^ 64 - 1)%Z with 18446744073709551615%Z;
        change (2 ^ 63)%Z with 9223372036854775808%Z in Hlt; lia).
  cbn [negb andb].
  destruct (Z.leb_spec (2 ^ 63) (strconv.decimal (String c t) 0)); [lia |].
  rewrite wrap_small by lia. reflexivity.
Qed.

Lemma AtoiErr_numeral (s : string) :
  numeral s = true -> (strconv.decimal s 0 < 2 ^ 63)%Z ->
  strconv.AtoiErr s = (strconv.decimal s 0, None).
Proof.
  intros H Hlt. unfold strconv.AtoiErr.
  destruct ((0 <? length s)%nat && (length s <? 19)%nat).
  - destruct (numeral_head s H) as (c & t & -> & Hc & Ht).
    destruct (digit_not_sign c Hc) as [Hp Hm]. rewrite Hp, Hm. cbn [orb].
    cbn [length Nat.ltb Nat.leb sall]. rewrite Hc, Ht. reflexivity.
  - rewrite (ParseInt_numeral s H Hlt). reflexivity.
Qed.

Lemma AtoiErr_nondigit (c : ascii) (t : string) :
  sall strconv.isDigit t = false -> snd (strconv.AtoiErr (String c t)) <> None.
Proof.
  intros H. unfold strconv.AtoiErr.
  destruct ((0 <? length (String c t))%nat && (length (String c t) <? 19)%nat).
  - assert (Hct : sall strconv.isDigit (String c t) = false)
      by (cbn [sall]; rewrite H; apply andb_false_r).
    destruct (Ascii.eqb c "-" || Ascii.eqb c "+").
    + destruct (length t <? 1)%nat; [discriminate |]. rewrite H. discriminate.
    + destruct (length (String c t) <? 1)%nat; [discriminate |]. rewrite Hct. discriminate.
  - pose proof (ParseInt_nondigit c t H) as Hn.
    destruct (strconv.ParseInt (String c t)) as [i [e |]]; [discriminate | contradiction].
Qed.

(** ** [Itoa] of the value of a numeric identifier *)

Lemma decimal_snoc (a : string) (d : ascii) :
  forall acc, strconv.decimal (a ++ String d "") acc
              = (10 * strconv.decimal a acc + strconv.digitVal d)%Z.
Proof. induction a as [| c a IH]; intros acc; simpl; [reflexivity | apply IH]. Qed.

Lemma digit_char (d : ascii) :
  strconv.isDigit d = true -> ascii_of_N (Z.to_N (48 + strconv.digitVal d)) = d.
Proof.
  intros H. unfold strconv.digitVal.
  replace (48 + (Z.of_N (byte d) - 48))%Z with (Z.of_N (byte d)) by lia.
  rewrite N2Z.id. apply ascii_N_embedding.
Qed.

Lemma digits_S (fuel : nat) (n : Z) (acc : string) :
  strconv.digits (S fuel) n acc
  = if (n <? 10)%Z then String (ascii_of_N (Z.to_N (48 + n mod 10))) acc
    else strconv.digits fuel (n / 10) (String (ascii_of_N (Z.to_N (48 + n mod 10))) acc).
Proof. reflexivity. Qed.

Lemma digits_decimal (k : nat) :
  forall (M acc : string),
    length M = S k -> sall strconv.isDigit M = true ->
    (k = 0%nat \/ 10 ^ Z.of_nat k <= strconv.decimal M 0)%Z ->
    strconv.digits (S k) (strconv.decimal M 0) acc = M ++ acc.
Proof.
  induction k as [| k IH]; intros M acc Hlen Hd Hlead.
  - destruct M as [| d [| ? ?]]; try discriminate.
    cbn [sall] in Hd. rewrite andb_true_r in Hd.
    pose proof (digitVal_range d Hd) as Hv.
    cbn [strconv.decimal]. rewrite digits_S, Z.mul_0_r, Z.add_0_l.
    rewrite Z.mod_small by lia. rewrite (digit_char d Hd).
    destruct (Z.ltb_spec (strconv.digitVal d) 10); [reflexivity | lia].
  - destruct (digits_last M Hd) as (a & d & -> & Hdd); [destruct M; discriminate |].
    rewrite sall_app in Hd. apply andb_true_iff in Hd. destruct Hd as [Ha _].
    rewrite length_app_s in Hlen. simpl in Hlen.
    pose proof (digitVal_range d Hdd) as Hv.
    pose proof (decimal_range a Ha) as Hr.
    rewrite decimal_snoc in Hlead |- *.
    destruct Hlead as [Hk | Hlead]; [discriminate |].
    rewrite Nat2Z.inj_succ, Z.pow_succ_r in Hlead by lia.
    assert (Hp : (0 < 10 ^ Z.of_nat k)%Z) by (apply Z.pow_pos_nonneg; lia).
    assert (Hge : (10 ^ Z.of_nat k <= strconv.decimal a 0)%Z) by lia.
    rewrite digits_S.
    replace ((10 * strconv.decimal a 0 + strconv.digitVal d) mod 10)%Z
      with (strconv.digitVal d)
      by (rewrite Z.add_comm, Z.mul_comm, Z.mod_add by lia; symmetry; apply Z.mod_small; lia).
    rewrite (digit_char d Hdd).
    destruct (Z.ltb_spec (10 * strconv.decimal a 0 + strconv.digitVal d) 10); [lia |].
    replace ((10 * strconv.decimal a 0 + strconv.digitVal d) / 10)%Z
      with (strconv.decimal a 0)
      by (rewrite Z.add_comm, Z.mul_comm, Z.div_add by lia;
          rewrite Z.div_small by lia; reflexivity).
    rewrite IH; [rewrite app_assoc_s; reflexivity | lia | exact Ha |].
    destruct k; [left; reflexivity | right; exact Hge].
Qed.

Lemma numid_leading (M : string) :
  numid M = true ->
  exists k, length M = S k
            /\ (k = 0%nat \/ 10 ^ Z.of_nat k <= strconv.decimal M 0)%Z.
Proof.
  intros H. destruct M as [| c t]; [discriminate |]. exists (length t).
  split; [reflexivity |]. cbn [numid] in H.
  destruct (Ascii.eqb c "0") eqn:E0.
  - apply String.eqb_eq in H. subst t. left; reflexivity.
  - apply andb_true_iff in H. destruct H as [Hc Ht]. right.
    pose proof (decimal_range t Ht) as Hr.
    cbn [strconv.decimal]. rewrite decimal_acc.
    assert (Hv : (1 <= strconv.digitVal c)%Z).
    { pose proof (digitVal_range c Hc) as Hv.
      destruct (Z.eq_dec (strconv.digitVal c) 0) as [Hz | Hz]; [| lia].
      exfalso. unfold strconv.digitVal in Hz.
      assert (Hb : byte c = 48%N) by lia.
      assert (Hc0 : c = "0"%char).
      { rewrite <- (ascii_N_embedding c). unfold byte in Hb. rewrite Hb. reflexivity. }
      subst c. discriminate E0. }
    assert (Hp : (0 < 10 ^ Z.of_nat (length t))%Z) by (apply Z.pow_pos_nonneg; lia).
    nia.
Qed.

Lemma Itoa_decimal (M : string) :
  numid M = true -> (strconv.decimal M 0 < 2 ^ 63)%Z ->
  strconv.Itoa (strconv.decimal M 0) = M.
Proof.
  intros H Hlt. pose proof (numid_digits M H) as Hd.
  pose proof (decimal_range M Hd) as Hr.
  destruct (numid_leading M H) as (k & Hlen & Hlead).
  unfold strconv.Itoa. destruct (Z.ltb_spec (strconv.decimal M 0) 0); [lia |].
  rewrite (digits_fuel 19 k).
  - rewrite (digits_decimal k M "" Hlen Hd Hlead). apply app_nil_r_s.
  - split; [lia |]. apply Z.lt_trans with (2 ^ 63)%Z; [lia | reflexivity].
  - rewrite <- Hlen. lia.
Qed.

(** ** [getWildcardType] *)

Lemma parseUintLoop_overflow (s : string) :
  forall n : Z,
    (0 <= n <= strconv.maxUint64)%Z -> sall strconv.isDigit s = true ->
    (strconv.maxUint64 < n * 10 ^ Z.of_nat (length s) + strconv.decimal s 0)%Z ->
    snd (strconv.parseUintLoop s n) <> None.
Proof.
  induction s as [| c t IH]; intros n Hn Hd Hlt.
  - simpl in Hlt. lia.
  - cbn [sall] in Hd. apply andb_true_iff in Hd. destruct Hd as [Hc Ht].
    pose proof (digitVal_range c Hc) as Hv.
    cbn [strconv.decimal length] in Hlt.
    rewrite (decimal_acc t) in Hlt.
    rewrite Nat2Z.inj_succ, Z.pow_succ_r in Hlt by lia.
    unfold strconv.maxUint64 in *.
    change (2 ^ 64 - 1)%Z with 18446744073709551615%Z in *.
    cbn [strconv.parseUintLoop]. rewrite Hc.
    change (strconv.maxUint64 / 10 + 1)%Z with 1844674407370955162%Z.
    unfold strconv.maxUint64.
    change (2 ^ 64 - 1)%Z with 18446744073709551615%Z.
    change (2 ^ 64)%Z with 18446744073709551616%Z.
    destruct (Z.leb_spec 1844674407370955162 n); [discriminate |].
    destruct (Z.le_gt_cases (n * 10 + strconv.digitVal c) 18446744073709551615) as [Hle | Hgt].
    + rewrite Z.mod_small by lia.
      destruct (Z.ltb_spec (n * 10 + strconv.digitVal c) (n * 10)); [lia |].
      destruct (Z.ltb_spec 18446744073709551615 (n * 10 + strconv.digitVal c)); [lia |].
      cbn [orb]. apply IH; [lia | exact Ht | lia].
    + replace ((n * 10 + strconv.digitVal c) mod 18446744073709551616)%Z
        with (n * 10 + strconv.digitVal c - 18446744073709551616)%Z
        by (apply Z.mod_unique with 1%Z; lia).
      destruct (Z.ltb_spec (n * 10 + strconv.digitVal c - 18446744073709551616) (n * 10));
        [discriminate | lia].
Qed.

Lemma ParseUint_ok (s : string) :
  snd (strconv.ParseUint s) = None
  <-> numeral s = true /\ (strconv.decimal s 0 <= strconv.maxUint64)%Z.
Proof.
  split.
  - intros H. destruct (sall strconv.isDigit s) eqn:Hd.
    + destruct s as [| c t]; [discriminate |].
      split; [unfold numeral; rewrite Hd; reflexivity |].
      destruct (Z.le_gt_cases (strconv.decimal (String c t) 0) strconv.maxUint64) as [Hle | Hgt];
        [exact Hle |].
      exfalso. unfold strconv.ParseUint in H.
      pose proof (parseUintLoop_overflow (String c t) 0) as Ho.
      destruct (strconv.parseUintLoop (String c t) 0) as [n [k |]]; [discriminate |].
      apply Ho; [unfold strconv.maxUint64; lia | exact Hd | lia | reflexivity].
    + exfalso. exact (ParseUint_nondigit s Hd H).
  - intros [Hn Hle]. rewrite (ParseUint_numeral s Hn Hle). reflexivity.
Qed.

Lemma digits_dotless (s : string) : sall strconv.isDigit s = true -> contains_byte "." s = false.
Proof.
  induction s as [| c t IH]; [reflexivity |]. cbn [sall contains_byte]. intros H.
  apply andb_true_iff in H. destruct H as [Hc Ht]. rewrite (IH Ht), orb_false_r.
  destruct (Ascii.eqb_spec c ".") as [-> | _]; [discriminate | reflexivity].
Qed.

Lemma last_nth (ps : list string) : nth (List.length ps - 1) ps "" = last ps "".
Proof.
  induction ps as [| p ps IH]; [reflexivity |].
  destruct ps as [| q ps]; [reflexivity |].
  change (last (p :: q :: ps) "") with (last (q :: ps) ""). rewrite <- IH.
  simpl. rewrite Nat.sub_0_r. reflexivity.
Qed.

(** The type of the wildcard, by the parts between the dots. *)
Lemma getWildcardType_parts (w : string) (ws : list string) :
  Forall (fun p => contains_byte "." p = false) (w :: ws) ->
  getWildcardType (strings.Join (w :: ws) ".")
  = match ws with
    | [] =>
      match snd (strconv.ParseUint w) with
      | None => minorWildcard
      | Some _ => if String.eqb w "x" then majorWildcard else noneWildcard
      end
    | [a] => if String.eqb a "x" then minorWildcard else noneWildcard
    | [_; b] => if String.eqb b "x" then patchWildcard else noneWildcard
    | _ => noneWildcard
    end.
Proof.
  intros H. unfold getWildcardType. rewrite (splitByte_Join "." ws w H).
  rewrite last_nth.
  destruct ws as [| a [| b [| c ws]]].
  - cbn [List.length nth last Nat.eqb andb].
    destruct (snd (strconv.ParseUint w)); reflexivity.
  - reflexivity.
  - reflexivity.
  - change (List.length (w :: a :: b :: c :: ws) =? 1)%nat with false. cbn [andb].
    replace (wildcardTypefromInt (Z.of_nat (List.length (w :: a :: b :: c :: ws))))
      with noneWildcard.
    + destruct (String.eqb _ "x"); reflexivity.
    + unfold wildcardTypefromInt. cbn [List.length].
      rewrite !Nat2Z.inj_succ.
      destruct (Z.eqb_spec (Z.succ (Z.succ (Z.succ (Z.succ (Z.of_nat (List.length ws)))))) 1); [lia |].
      destruct (Z.eqb_spec (Z.succ (Z.succ (Z.succ (Z.succ (Z.of_nat (List.length ws)))))) 2); [lia |].
      destruct (Z.eqb_spec (Z.succ (Z.succ (Z.succ (Z.succ (Z.of_nat (List.length ws)))))) 3); [lia |].
      reflexivity.
Qed.

Lemma parts_of (v : string) :
  exists w ws, v = strings.Join (w :: ws) "."
               /\ Forall (fun p => contains_byte "." p = false) (w :: ws).
Proof.
  pose proof (Join_splitByte "." v "") as HJ.
  pose proof (splitByte_parts "." v "" eq_refl) as HF.
  pose proof (splitByte_nonempty "." v "") as Hn.
  destruct (strings.splitByte "." v "") as [| w ws]; [contradiction |].
  exists w, ws. split; [symmetry; exact HJ | exact HF].
Qed.

Lemma Join_dot (w : string) (ws : list string) :
  Forall (fun p => contains_byte "." p = false) (w :: ws) ->
  contains_byte "." (strings.Join (w :: ws) ".") = false -> ws = [].
Proof.
  destruct ws as [| a ws]; [reflexivity |]. intros _. rewrite Join_cons.
  rewrite contains_byte_app. cbn [append contains_byte]. change (Ascii.eqb "." ".") with true.
  rewrite orb_true_r. discriminate.
Qed.

Lemma Join_inj (ws1 : list string) :
  forall w1 w2 ws2,
    Forall (fun p => contains_byte "." p = false) (w1 :: ws1) ->
    Forall (fun p => contains_byte "." p = false) (w2 :: ws2) ->
    strings.Join (w1 :: ws1) "." = strings.Join (w2 :: ws2) "." ->
    w1 :: ws1 = w2 :: ws2.
Proof.
  intros w1 w2 ws2 H1 H2 E.
  rewrite <- (splitByte_Join "." ws1 w1 H1), <- (splitByte_Join "." ws2 w2 H2), E.
  reflexivity.
Qed.

(** X10.  The strings of each type of wildcard: [getWildcardType] returns
    majorWildcard exactly on x; minorWildcard exactly on the numerals within
    uint64 and on the strings A.x; patchWildcard exactly on the strings
    A.B.x, where A and B hold no dot. *)
Theorem getWildcardType_classes (v : string) :
  (getWildcardType v = majorWildcard <-> v = "x")
  /\ (getWildcardType v = minorWildcard
      <-> (numeral v = true /\ (strconv.decimal v 0 <= strconv.maxUint64)%Z)
          \/ exists A, contains_byte "." A = false /\ v = A ++ ".x")
  /\ (getWildcardType v = patchWildcard
      <-> exists A B, contains_byte "." A = false /\ contains_byte "." B = false
                      /\ v = A ++ "." ++ B ++ ".x").
Proof.
  destruct (parts_of v) as (w & ws & -> & HF).
  rewrite (getWildcardType_parts w ws HF).
  assert (Hx : forall A, contains_byte "." A = false ->
                         strings.Join (w :: ws) "." = A ++ ".x" -> w = A /\ ws = ["x"]).
  { intros A HA E.
    assert (E' : w :: ws = [A; "x"]).
    { apply Join_inj; [exact HF | repeat constructor; exact HA | exact E]. }
    inversion E'; split; reflexivity. }
  assert (Hxx : forall A B, contains_byte "." A = false -> contains_byte "." B = false ->
                            strings.Join (w :: ws) "." = A ++ "." ++ B ++ ".x" ->
                            ws = [B; "x"]).
  { intros A B HA HB E.
    assert (E' : w :: ws = [A; B; "x"]).
    { apply Join_inj; [exact HF | repeat constructor; assumption | exact E]. }
    inversion E'; reflexivity. }
  assert (Hnum : numeral (strings.Join (w :: ws) ".") = true -> ws = []).
  { intros Hn. apply (Join_dot w ws HF). apply digits_dotless.
    unfold numeral in Hn. apply andb_true_iff in Hn. tauto. }
  inversion HF as [| ? ? Hw HFs]; subst.
  destruct ws as [| a [| b [| c ws]]].
  - cbn [strings.Join]. pose proof (ParseUint_ok w) as Hok.
    destruct (snd (strconv.ParseUint w)) as [e |] eqn:E.
    + assert (Hno : ~ (numeral w = true /\ (strconv.decimal w 0 <= strconv.maxUint64)%Z))
        by (intros Hc; apply Hok in Hc; discriminate).
      destruct (String.eqb_spec w "x") as [-> | Hne].
      * split; [tauto | split].
        -- split; [discriminate |]. intros [Hc | (A & HA & Hv)]; [contradiction |].
           destruct (Hx A HA Hv) as [_ Hc]. discriminate.
        -- split; [discriminate |]. intros (A & B & HA & HB & Hv).
           discriminate (Hxx A B HA HB Hv).
      * split; [split; [discriminate | intros Hc; contradiction] | split].
        -- split; [discriminate |]. intros [Hc | (A & HA & Hv)]; [contradiction |].
           destruct (Hx A HA Hv) as [_ Hc]. discriminate.
        -- split; [discriminate |]. intros (A & B & HA & HB & Hv).
           discriminate (Hxx A B HA HB Hv).
    + split; [| split].
      * split; [discriminate |]. intros ->. discriminate E.
      * split; [intros _; left; apply Hok; reflexivity | reflexivity].
      * split; [discriminate |]. intros (A & B & HA & HB & Hv).
        discriminate (Hxx A B HA HB Hv).
  - inversion HFs as [| ? ? Ha _]; subst.
    assert (Hw' : w ++ "." ++ a <> "x").
    { intros Hc. destruct w as [| c0 [| c1 w]]; discriminate. }
    rewrite Join_cons. cbn [strings.Join].
    destruct (String.eqb_spec a "x") as [-> | Hne].
    + split; [split; [discriminate | intros Hc; contradiction] | split].
      * split; [| reflexivity]. intros _. right. exists w. split; [exact Hw | reflexivity].
      * split; [discriminate |]. intros (A & B & HA & HB & Hv).
        specialize (Hxx A B HA HB). rewrite Join_cons in Hxx. discriminate (Hxx Hv).
    + split; [split; [discriminate | intros Hc; contradiction] | split].
      * split; [discriminate |]. intros [[Hc _] | (A & HA & Hv)].
        -- specialize (Hnum). rewrite Join_cons in Hnum. discriminate (Hnum Hc).
        -- specialize (Hx A HA). rewrite Join_cons in Hx. destruct (Hx Hv) as [_ Hc].
           inversion Hc. contradiction.
      * split; [discriminate |]. intros (A & B & HA & HB & Hv).
        specialize (Hxx A B HA HB). rewrite Join_cons in Hxx. discriminate (Hxx Hv).
  - inversion HFs as [| ? ? Ha HFs']; subst. inversion HFs' as [| ? ? Hb _]; subst.
    assert (Hw' : strings.Join [w; a; b] "." <> "x").
    { rewrite Join_cons. intros Hc. destruct w as [| c0 [| c1 w]]; discriminate. }
    destruct (String.eqb_spec b "x") as [-> | Hne].
    + split; [split; [discriminate | intros Hc; contradiction] | split].
      * split; [discriminate |]. intros [[Hc _] | (A & HA & Hv)].
        -- discriminate (Hnum Hc).
        -- destruct (Hx A HA Hv) as [_ Hc]. discriminate.
      * split; [| reflexivity]. intros _. exists w, a.
        split; [exact Hw | split; [exact Ha | reflexivity]].
    + split; [split; [discriminate | intros Hc; contradiction] | split].
      * split; [discriminate |]. intros [[Hc _] | (A & HA & Hv)].
        -- discriminate (Hnum Hc).
        -- destruct (Hx A HA Hv) as [_ Hc]. discriminate.
      * split; [discriminate |]. intros (A & B & HA & HB & Hv).
        pose proof (Hxx A B HA HB Hv) as Hc. inversion Hc. contradiction.
  - assert (Hw' : strings.Join (w :: a :: b :: c :: ws) "." <> "x").
    { rewrite Join_cons. intros Hc. destruct w as [| c0 [| c1 w]]; discriminate. }
    split; [split; [discriminate | intros Hc; contradiction] | split].
    + split; [discriminate |]. intros [[Hc _] | (A & HA & Hv)].
      * discriminate (Hnum Hc).
      * destruct (Hx A HA Hv) as [_ Hc]. discriminate.
    + split; [discriminate |]. intros (A & B & HA & HB & Hv).
      discriminate (Hxx A B HA HB Hv).
Qed.

(** ** [createVersionFromWildcard] *)

Lemma Replace_none (s old new : string) :
  old <> "" -> strings.Index s old = None -> strings.Replace s old new 1 = s.
Proof.
  intros Hold H. destruct (String.eqb old new) eqn:E.
  - unfold strings.Replace. rewrite E. reflexivity.
  - rewrite (Replace_once s old new Hold E), H. reflexivity.
Qed.

Lemma Replace_first (A old new tl : string) :
  old <> "" -> String.eqb old new = false ->
  strings.Index (A ++ old ++ tl) old = Some (length A) ->
  strings.Replace (A ++ old ++ tl) old new 1 = A ++ new ++ tl.
Proof.
  intros Hold Hne H. rewrite (Replace_once _ old new Hold Hne), H.
  rewrite take_app_length, drop_app_length.
  replace (length old) with (length old + 0)%nat by lia.
  rewrite drop_app_length. reflexivity.
Qed.

Lemma Index_at (d : ascii) (pat A rest : string) :
  contains_byte d A = false -> has_prefix (String d pat) rest = true ->
  strings.Index (A ++ rest) (String d pat) = Some (length A).
Proof.
  intros HA Hp. rewrite (Index_skip d pat A rest HA), (Index_here _ _ Hp).
  cbn [option_map]. f_equal. lia.
Qed.

Lemma Index_dotless (d : ascii) (pat A : string) :
  contains_byte d A = false -> strings.Index A (String d pat) = None.
Proof.
  intros HA. rewrite <- (app_nil_r_s A), (Index_skip d pat A "" HA). reflexivity.
Qed.

Lemma head_not_x (pat m rest : string) :
  contains_byte "x" m = false ->
  has_prefix (String "x" pat) (m ++ String "." rest) = false.
Proof.
  destruct m as [| c m]; intros H; [reflexivity |].
  cbn [contains_byte] in H. apply orb_false_iff in H. destruct H as [Hc _].
  cbn [append has_prefix]. rewrite (Ascii.eqb_sym "x" c), Hc. reflexivity.
Qed.

Lemma head_not_x_end (pat m : string) :
  contains_byte "x" m = false -> has_prefix (String "x" pat) m = false.
Proof.
  destruct m as [| c m]; intros H; [reflexivity |].
  cbn [contains_byte] in H. apply orb_false_iff in H. destruct H as [Hc _].
  cbn [has_prefix]. rewrite (Ascii.eqb_sym "x" c), Hc. reflexivity.
Qed.

Lemma dots_x (M : string) :
  contains_byte "." M = false ->
  strings.Index (M ++ ".x") ".x.x" = None
  /\ strings.Index (M ++ ".x" ++ "") ".x" = Some (length M)
  /\ strings.Index (M ++ ".x.x" ++ "") ".x.x" = Some (length M).
Proof.
  intros HM. split; [| split].
  - rewrite (Index_skip "." _ M _ HM). reflexivity.
  - apply Index_at; [exact HM | reflexivity].
  - apply Index_at; [exact HM | reflexivity].
Qed.

Lemma dots_mx (pat M m : string) :
  contains_byte "." M = false -> contains_byte "." m = false ->
  contains_byte "x" m = false ->
  strings.Index (M ++ "." ++ m ++ ".x") (String "." (String "x" pat))
  = option_map (fun i => (length M + S (length m + i))%nat)
      (strings.Index ".x" (String "." (String "x" pat))).
Proof.
  intros HM Hm Hx. rewrite (Index_skip "." _ M _ HM). cbn [append].
  rewrite Index_next
    by (cbn [has_prefix]; change (Ascii.eqb "." ".") with true; cbn [andb];
        apply head_not_x; exact Hx).
  rewrite (Index_skip "." _ m _ Hm).
  destruct (strings.Index ".x" (String "." (String "x" pat))); reflexivity.
Qed.

Lemma dots_mp (pat M m p : string) :
  contains_byte "." M = false -> contains_byte "." m = false ->
  contains_byte "x" m = false -> contains_byte "." p = false ->
  contains_byte "x" p = false ->
  strings.Index (M ++ "." ++ m ++ "." ++ p) (String "." (String "x" pat)) = None.
Proof.
  intros HM Hm Hx Hp Hxp. rewrite (Index_skip "." _ M _ HM). cbn [append].
  rewrite Index_next
    by (cbn [has_prefix]; change (Ascii.eqb "." ".") with true; cbn [andb];
        apply head_not_x; exact Hx).
  rewrite (Index_skip "." _ m _ Hm).
  rewrite Index_next
    by (cbn [has_prefix]; change (Ascii.eqb "." ".") with true; cbn [andb];
        apply head_not_x_end; exact Hxp).
  rewrite (Index_dotless "." _ p Hp). reflexivity.
Qed.

Lemma createVersionFromWildcard_of (v v2 : string) (w : string) (ws : list string) :
  strings.Replace (strings.Replace v ".x.x" ".x" 1) ".x" ".0" 1 = v2 ->
  v2 = strings.Join (w :: ws) "." ->
  Forall (fun p => contains_byte "." p = false) (w :: ws) ->
  createVersionFromWildcard v
  = match ws with
    | [] => v2 ++ ".0.0"
    | [_] => v2 ++ ".0"
    | _ => v2
    end.
Proof.
  intros H2 HJ HF. unfold createVersionFromWildcard. rewrite H2, HJ.
  rewrite (splitByte_Join "." ws w HF).
  destruct ws as [| a [| b ws]]; reflexivity.
Qed.

(** The versions [createVersionFromWildcard] makes of the wildcard forms,
    for parts free of dots and of the byte x. *)
Lemma createVersion_forms (M m p : string) :
  contains_byte "." M = false ->
  contains_byte "." m = false -> contains_byte "x" m = false ->
  contains_byte "." p = false -> contains_byte "x" p = false ->
  createVersionFromWildcard M = M ++ ".0.0"
  /\ createVersionFromWildcard (M ++ ".x") = M ++ ".0.0"
  /\ createVersionFromWildcard (M ++ ".x.x") = M ++ ".0.0"
  /\ createVersionFromWildcard (M ++ "." ++ m) = M ++ "." ++ m ++ ".0"
  /\ createVersionFromWildcard (M ++ "." ++ m ++ ".x") = M ++ "." ++ m ++ ".0"
  /\ createVersionFromWildcard (M ++ "." ++ m ++ "." ++ p) = M ++ "." ++ m ++ "." ++ p.
Proof.
  intros HM Hm Hxm Hp Hxp.
  destruct (dots_x M HM) as (Hx1 & Hx2 & Hx3).
  assert (Hdot0 : contains_byte "." "0" = false) by reflexivity.
  assert (Hb2 : strings.Replace (M ++ ".x" ++ "") ".x" ".0" 1 = M ++ ".0").
  { rewrite Replace_first by (discriminate || reflexivity || exact Hx2). reflexivity. }
  assert (Hb : strings.Replace (strings.Replace (M ++ ".x") ".x.x" ".x" 1) ".x" ".0" 1
               = M ++ ".0").
  { rewrite (Replace_none (M ++ ".x") ".x.x" ".x") by (discriminate || exact Hx1).
    exact Hb2. }
  split; [| split; [| split; [| split; [| split]]]].
  - rewrite (createVersionFromWildcard_of M M M []); [reflexivity | | reflexivity |].
    + rewrite !Replace_none; try discriminate; try reflexivity;
        rewrite ?Replace_none; try discriminate; apply Index_dotless; exact HM.
    + repeat constructor; exact HM.
  - rewrite (createVersionFromWildcard_of (M ++ ".x") (M ++ ".0") M ["0"]);
      [rewrite app_assoc_s; reflexivity | exact Hb | reflexivity |].
    repeat constructor; assumption.
  - rewrite (createVersionFromWildcard_of (M ++ ".x.x") (M ++ ".0") M ["0"]);
      [rewrite app_assoc_s; reflexivity | | reflexivity |].
    + change (M ++ ".x.x") with (M ++ ".x.x" ++ "").
      rewrite Replace_first by (discriminate || reflexivity || exact Hx3).
      exact Hb2.
    + repeat constructor; assumption.
  - rewrite (createVersionFromWildcard_of (M ++ "." ++ m) (M ++ "." ++ m) M [m]);
      [rewrite !app_assoc_s; reflexivity | | reflexivity |].
    + assert (Hn : forall pat, strings.Index (M ++ "." ++ m) (String "." (String "x" pat)) = None).
      { intros pat. rewrite (Index_skip "." _ M _ HM). cbn [append].
        rewrite Index_next
          by (cbn [has_prefix]; change (Ascii.eqb "." ".") with true; cbn [andb];
              apply head_not_x_end; exact Hxm).
        rewrite (Index_dotless "." _ m Hm). reflexivity. }
      rewrite (Replace_none _ ".x.x" ".x") by (discriminate || apply Hn).
      apply Replace_none; [discriminate | apply Hn].
    + repeat constructor; assumption.
  - rewrite (createVersionFromWildcard_of (M ++ "." ++ m ++ ".x") (M ++ "." ++ m ++ ".0")
               M [m; "0"]); [reflexivity | | reflexivity |].
    + rewrite (Replace_none _ ".x.x" ".x")
        by (discriminate || (rewrite (dots_mx _ M m HM Hm Hxm); reflexivity)).
      replace (M ++ "." ++ m ++ ".x") with ((M ++ "." ++ m) ++ ".x" ++ "")
        by (rewrite !app_assoc_s; reflexivity).
      rewrite Replace_first; [rewrite !app_assoc_s; reflexivity | discriminate | reflexivity |].
      replace ((M ++ "." ++ m) ++ ".x" ++ "") with (M ++ "." ++ m ++ ".x")
        by (rewrite !app_assoc_s; reflexivity).
      rewrite (dots_mx _ M m HM Hm Hxm). cbn [strings.Index has_prefix option_map].
      change (Ascii.eqb "." ".") with true. change (Ascii.eqb "x" "x") with true. cbn [andb].
      rewrite !length_app_s. simpl. f_equal. lia.
    + repeat constructor; assumption.
  - rewrite (createVersionFromWildcard_of (M ++ "." ++ m ++ "." ++ p) (M ++ "." ++ m ++ "." ++ p)
               M [m; p]); [reflexivity | | reflexivity |].
    + rewrite (Replace_none _ ".x.x" ".x")
        by (discriminate || apply dots_mp; assumption).
      apply Replace_none; [discriminate | apply dots_mp; assumption].
    + repeat constructor; assumption.
Qed.

(** At least three parts between dots, whatever the argument. *)
Lemma createVersionFromWildcard_parts (v : string) :
  (3 <= List.length (strings.splitByte "." (createVersionFromWildcard v) ""))%nat.
Proof.
  unfold createVersionFromWildcard.
  set (v2 := strings.Replace (strings.Replace v ".x.x" ".x" 1) ".x" ".0" 1).
  pose proof (splitByte_nonempty "." v2 "") as Hn.
  destruct (Nat.eqb_spec (List.length (strings.splitByte "." v2 "")) 2) as [H2 | H2].
  - rewrite length_splitByte_app, H2. simpl. lia.
  - destruct (Nat.eqb_spec (List.length (strings.splitByte "." v2 "")) 1) as [H1 | H1].
    + rewrite length_splitByte_app, H1. simpl. lia.
    + destruct (strings.splitByte "." v2 "") as [| a [| b [| c l]]];
        [contradiction | simpl in H1; lia | simpl in H2; lia | simpl; lia].
Qed.

(** ** [incrementMajorVersion] and [incrementMinorVersion] *)

Lemma incr_decimal (s : string) : incrementable s -> incr (strconv.decimal s 0) = spec_next s.
Proof.
  intros [Hn Hle]. rewrite <- (Atoi_numeral s Hn) by lia. apply incr_in_range; assumption.
Qed.

Lemma AtoiErr_incrementable (s : string) :
  incrementable s -> strconv.AtoiErr s = (strconv.decimal s 0, None).
Proof. intros [Hn Hle]. apply AtoiErr_numeral; [exact Hn | lia]. Qed.

Lemma incrementable_dotless (s : string) : incrementable s -> contains_byte "." s = false.
Proof.
  intros [Hn _]. apply digits_dotless. unfold numeral in Hn.
  apply andb_true_iff in Hn. tauto.
Qed.

Lemma incrementMajor_parts (M : string) (ps : list string) :
  incrementable M -> Forall (fun p => contains_byte "." p = false) ps ->
  incrementMajorVersion (strings.Join (M :: ps) ".")
  = Some (strings.Join (spec_next M :: map (fun _ => "0") ps) ".", None).
Proof.
  intros HM Hps. unfold incrementMajorVersion.
  rewrite (splitByte_Join "." ps M)
    by (constructor; [apply incrementable_dotless; exact HM | exact Hps]).
  rewrite (AtoiErr_incrementable M HM), (incr_decimal M HM). reflexivity.
Qed.

Lemma incrementMinor_panic (v : string) :
  incrementMinorVersion v = None <-> contains_byte "." v = false.
Proof.
  destruct (parts_of v) as (w & ws & -> & HF).
  unfold incrementMinorVersion. rewrite (splitByte_Join "." ws w HF).
  destruct ws as [| a ws].
  - cbn [nth_error strings.Join]. inversion HF; subst. split; [intros _; assumption | reflexivity].
  - cbn [nth_error]. rewrite Join_cons, contains_byte_app. cbn [append contains_byte].
    change (Ascii.eqb "." ".") with true. rewrite orb_true_r.
    destruct (strconv.AtoiErr a) as [i [e |]]; split; discriminate.
Qed.

Lemma incrementMinor_parts (A m : string) (ps : list string) :
  contains_byte "." A = false -> incrementable m ->
  Forall (fun p => contains_byte "." p = false) ps ->
  incrementMinorVersion (strings.Join (A :: m :: ps) ".")
  = Some (strings.Join (A :: spec_next m
                          :: match ps with [] => [] | _ :: t => "0" :: t end) ".",
          None).
Proof.
  intros HA Hm Hps. unfold incrementMinorVersion.
  rewrite (splitByte_Join "." (m :: ps) A)
    by (constructor; [exact HA | constructor; [apply incrementable_dotless; exact Hm | exact Hps]]).
  cbn [nth_error]. rewrite (AtoiErr_incrementable m Hm), (incr_decimal m Hm).
  destruct ps as [| p ps]; reflexivity.
Qed.

(** ** [IndexFunc] over the runes *)

Lemma decode_ascii (c : ascii) (t : string) :
  high c = false -> utf8.DecodeRuneInString (String c t) = (byte c, 1%nat).
Proof.
  unfold high. intros H. apply N.leb_gt in H.
  cbn [utf8.DecodeRuneInString]. unfold utf8.RuneSelf.
  destruct (N.ltb_spec (byte c) 128); [reflexivity | lia].
Qed.

Lemma first_range (s0 : N) :
  (128 <= snd (fst (utf8.first s0)))%N.
Proof.
  unfold utf8.first.
  repeat match goal with |- context [if ?b then _ else _] => destruct b end;
    cbn [fst snd]; lia.
Qed.

(** The bytes a rune takes after its first are not ASCII. *)
Lemma decode_tail (c : ascii) (t : string) :
  let size := snd (utf8.DecodeRuneInString (String c t)) in
  (1 <= size)%nat /\ (size - 1 <= length t)%nat /\ sall high (take (size - 1) t) = true.
Proof.
  cbn [utf8.DecodeRuneInString].
  destruct (_ <? utf8.RuneSelf)%N; [cbn; repeat split; lia |].
  destruct (_ || _); [cbn; repeat split; lia |].
  pose proof (first_range (byte c)) as Hlo.
  destruct (utf8.first (byte c)) as [[sz lo] hi]. cbn [fst snd] in Hlo.
  destruct t as [| c1 t1]; [cbn; repeat split; lia |].
  destruct (N.ltb_spec (byte c1) lo) as [? | H1]; cbn [orb]; [cbn; repeat split; lia |].
  destruct (_ <? byte c1)%N; [cbn; repeat split; lia |].
  assert (Hc1 : high c1 = true) by (unfold high; apply N.leb_le; lia).
  destruct (sz <=? 2)%nat; [cbn [snd Nat.sub take sall length]; rewrite Hc1; repeat split; lia |].
  destruct t1 as [| c2 t2]; [cbn; repeat split; lia |].
  destruct (utf8.cont (byte c2)) eqn:E2; cbn [negb]; [| cbn; repeat split; lia].
  assert (Hc2 : high c2 = true).
  { unfold utf8.cont in E2. apply andb_true_iff in E2. destruct E2 as [E2 _].
    unfold high. exact E2. }
  destruct (sz <=? 3)%nat;
    [cbn [snd Nat.sub take sall length]; rewrite Hc1, Hc2; repeat split; lia |].
  destruct t2 as [| c3 t3]; [cbn; repeat split; lia |].
  destruct (utf8.cont (byte c3)) eqn:E3; cbn [negb]; [| cbn; repeat split; lia].
  assert (Hc3 : high c3 = true).
  { unfold utf8.cont in E3. apply andb_true_iff in E3. destruct E3 as [E3 _].
    unfold high. exact E3. }
  cbn [snd Nat.sub take sall length]. rewrite Hc1, Hc2, Hc3. repeat split; lia.
Qed.

Lemma indexFunc_cons (f : N -> bool) (c : ascii) (t : string) (skip i : nat) :
  strings.indexFunc f (String c t) skip i
  = match skip with
    | S k => strings.indexFunc f t k (S i)
    | O =>
      if f (fst (utf8.DecodeRuneInString (String c t))) then Some i
      else strings.indexFunc f t (snd (utf8.DecodeRuneInString (String c t)) - 1) (S i)
    end.
Proof.
  cbn [strings.indexFunc]. destruct skip; [| reflexivity].
  destruct (utf8.DecodeRuneInString (String c t)) as [r size]. reflexivity.
Qed.

(** Where [indexFunc] stops, a rune that satisfies [f] starts. *)
Lemma indexFunc_some (f : N -> bool) (s : string) :
  forall skip i j,
    strings.indexFunc f s skip i = Some j ->
    exists k, j = (i + k)%nat /\ (k < length s)%nat
              /\ f (fst (utf8.DecodeRuneInString (drop k s))) = true.
Proof.
  induction s as [| c t IH]; intros skip i j H; [discriminate |].
  rewrite indexFunc_cons in H. destruct skip as [| sk].
  - destruct (f (fst (utf8.DecodeRuneInString (String c t)))) eqn:E.
    + inversion H; subst j. exists 0%nat. cbn [drop length]. repeat split; [lia | lia | exact E].
    + destruct (IH _ _ _ H) as (k & -> & Hk & Hf). exists (S k). cbn [drop length].
      repeat split; [lia | lia | exact Hf].
  - destruct (IH _ _ _ H) as (k & -> & Hk & Hf). exists (S k). cbn [drop length].
    repeat split; [lia | lia | exact Hf].
Qed.

(** Before the place where [indexFunc] stops, no ASCII byte satisfies [f]. *)
Lemma indexFunc_before (f : N -> bool) (s : string) :
  forall skip i k,
    (skip <= length s)%nat -> sall high (take skip s) = true ->
    strings.indexFunc f s skip i = Some (i + k)%nat ->
    asciiFree f (take k s) = true.
Proof.
  induction s as [| c t IH]; intros skip i k Hlen Hhi H; [discriminate |].
  rewrite indexFunc_cons in H. destruct skip as [| sk].
  - destruct (f (fst (utf8.DecodeRuneInString (String c t)))) eqn:E.
    + inversion H. replace k with 0%nat by lia. reflexivity.
    + destruct (indexFunc_some f t _ _ _ H) as (k' & Hk & _).
      replace k with (S k') in * by lia. cbn [take]. unfold asciiFree. cbn [sall].
      fold (asciiFree f (take k' t)).
      destruct (decode_tail c t) as (_ & Hsz & Htl).
      replace (i + S k')%nat with (S i + k')%nat in H by lia.
      rewrite (IH _ _ _ Hsz Htl H), andb_true_r.
      destruct (high c) eqn:Hc; [reflexivity |].
      rewrite (decode_ascii c t Hc) in E. cbn [fst] in E. rewrite E. reflexivity.
  - cbn [take sall length] in Hlen, Hhi. apply andb_true_iff in Hhi. destruct Hhi as [Hc Hhi].
    destruct (indexFunc_some f t _ _ _ H) as (k' & Hk & _).
    replace k with (S k') in * by lia. cbn [take]. unfold asciiFree. cbn [sall].
    fold (asciiFree f (take k' t)). rewrite Hc. cbn [orb andb].
    replace (i + S k')%nat with (S i + k')%nat in H by lia.
    apply (IH sk (S i) k'); [lia | exact Hhi | exact H].
Qed.

(** Where [indexFunc] finds nothing, no ASCII byte satisfies [f]. *)
Lemma indexFunc_none (f : N -> bool) (s : string) :
  forall skip i,
    (skip <= length s)%nat -> sall high (take skip s) = true ->
    strings.indexFunc f s skip i = None ->
    asciiFree f s = true.
Proof.
  induction s as [| c t IH]; intros skip i Hlen Hhi H; [reflexivity |].
  rewrite indexFunc_cons in H. unfold asciiFree. cbn [sall]. fold (asciiFree f t).
  destruct skip as [| sk].
  - destruct (f (fst (utf8.DecodeRuneInString (String c t)))) eqn:E; [discriminate |].
    destruct (decode_tail c t) as (_ & Hsz & Htl).
    rewrite (IH _ _ Hsz Htl H), andb_true_r.
    destruct (high c) eqn:Hc; [reflexivity |].
    rewrite (decode_ascii c t Hc) in E. cbn [fst] in E. rewrite E. reflexivity.
  - cbn [take sall length] in Hlen, Hhi. apply andb_true_iff in Hhi. destruct Hhi as [Hc Hhi].
    rewrite Hc. cbn [orb andb]. apply (IH sk (S i)); [lia | exact Hhi | exact H].
Qed.

Lemma take_drop (s : string) (k : nat) : take k s ++ drop k s = s.
Proof.
  revert k. induction s as [| c s IH]; intros [| k]; cbn; try reflexivity.
  rewrite IH. reflexivity.
Qed.

(** ** [splitComparatorVersion] *)

Section SplitComparator.

Variable VersionError : Type.
Variable digitTable : N -> bool.

Local Abbreviation splitCV2 := (@splitComparatorVersion VersionError digitTable).
Local Abbreviation isDigitRune := (unicode.IsDigit digitTable).

Lemma splitComparatorVersion_inl (s op vs : string) :
  splitCV2 s = inl (op, vs) ->
  (s = "x" /\ op = "" /\ vs = "x")
  \/ exists pre,
      s = pre ++ vs /\ op = strings.TrimSpace pre
      /\ asciiFree isDigitRune pre = true
      /\ isDigitRune (fst (utf8.DecodeRuneInString vs)) = true.
Proof.
  unfold splitComparatorVersion. destruct (String.eqb_spec s "x") as [-> | Hne].
  - intros H; inversion H. left. repeat split; reflexivity.
  - unfold strings.IndexFunc.
    destruct (strings.indexFunc isDigitRune s 0 0) as [i |] eqn:E; [| discriminate].
    intros H; inversion H; subst op vs; clear H. right. exists (take i s).
    destruct (indexFunc_some _ _ _ _ _ E) as (k & Hk & _ & Hf). simpl in Hk. subst k.
    repeat split.
    + symmetry. apply take_drop.
    + apply (indexFunc_before isDigitRune s 0 0 i); [lia | reflexivity | exact E].
    + exact Hf.
Qed.

Lemma splitComparatorVersion_inr (s : string) (err : error VersionError) :
  splitCV2 s = inr err ->
  err = ErrNoVersion s /\ s <> "x" /\ asciiFree isDigitRune s = true.
Proof.
  unfold splitComparatorVersion. destruct (String.eqb_spec s "x") as [-> | Hne]; [discriminate |].
  unfold strings.IndexFunc.
  destruct (strings.indexFunc isDigitRune s 0 0) as [i |] eqn:E; [discriminate |].
  intros H; inversion H. repeat split; [exact Hne |].
  apply (indexFunc_none isDigitRune s 0 0); [lia | reflexivity | exact E].
Qed.

End SplitComparator.

(** ** [expandWildcardVersion] *)

Lemma incrementMajorVersion_total (v : string) : incrementMajorVersion v <> None.
Proof.
  unfold incrementMajorVersion.
  pose proof (splitByte_nonempty "." v "") as Hn.
  destruct (strings.splitByte "." v "") as [| p0 rest]; [contradiction |].
  destruct (strconv.AtoiErr p0) as [i [e |]]; discriminate.
Qed.

Lemma incrementMinorVersion_flat (v : string) :
  incrementMinorVersion (createVersionFromWildcard v) <> None.
Proof.
  unfold incrementMinorVersion.
  pose proof (createVersionFromWildcard_parts v) as H.
  destruct (strings.splitByte "." (createVersionFromWildcard v) "") as [| a [| b l]];
    [simpl in H; lia | simpl in H; lia |].
  cbn [nth_error]. destruct (strconv.AtoiErr b) as [i [e |]]; discriminate.
Qed.

Lemma expandOperator_total (opStr vStr : string) : expandOperator opStr vStr <> None.
Proof.
  unfold expandOperator.
  pose proof (incrementMinorVersion_flat vStr) as Hmin.
  pose proof (incrementMajorVersion_total (createVersionFromWildcard vStr)) as Hmaj.
  destruct (incrementMinorVersion (createVersionFromWildcard vStr)) as [rmin |];
    [| contradiction].
  destruct (incrementMajorVersion (createVersionFromWildcard vStr)) as [rmaj |];
    [| contradiction].
  destruct (getWildcardType vStr);
    repeat match goal with
           | |- context [if ?b then _ else _] => destruct b
           end; discriminate.
Qed.

Section WildcardProperties.

Variable VersionError : Type.
Variable digitTable : N -> bool.

Local Abbreviation expandPart_ := (expandPart VersionError digitTable).
Local Abbreviation expandParts_ := (expandParts VersionError digitTable).
Local Abbreviation expandLoop_ := (expandLoop VersionError digitTable).
Local Abbreviation splitCV3 := (@splitComparatorVersion VersionError digitTable).

Lemma expandPart_total (ap : string) : expandPart_ ap <> None.
Proof.
  unfold expandPart. destruct (String.eqb ap "x"); [discriminate |].
  destruct (strconv.ParseInt ap) as [major [e |]]; [| discriminate].
  destruct (strings.ContainsAny ap "x~^><=!"); [| discriminate].
  destruct (splitCV3 ap) as [[opStr vStr] | err]; [| discriminate].
  pose proof (expandOperator_total opStr vStr) as H.
  destruct (expandOperator opStr vStr); [discriminate | contradiction].
Qed.

(** The outcome of one token. *)
Lemma expandPart_outcome (ap : string) :
  (exists before ap', expandPart_ ap = Some (inl (before, ap'))
                      /\ (List.length before <= 1)%nat
                      /\ (ap = "x" \/ strings.ContainsAny ap "x~^><=!" = false
                          \/ strings.IndexFunc ap (unicode.IsDigit digitTable) <> None))
  \/ (expandPart_ ap = Some (inr (ErrNoVersion ap))
      /\ ap <> "x" /\ strings.ContainsAny ap "x~^><=!" = true
      /\ strings.IndexFunc ap (unicode.IsDigit digitTable) = None).
Proof.
  unfold expandPart. destruct (String.eqb_spec ap "x") as [-> | Hne].
  - left. eexists; eexists. split; [reflexivity | split; [simpl; lia | left; reflexivity]].
  - destruct (strconv.ParseInt ap) as [major [e |]] eqn:EP.
    + destruct (strings.ContainsAny ap "x~^><=!") eqn:EC.
      * unfold splitComparatorVersion.
        destruct (String.eqb_spec ap "x") as [Hx | _]; [contradiction |].
        destruct (strings.IndexFunc ap (unicode.IsDigit digitTable)) as [i |] eqn:EI.
        -- left. pose proof (expandOperator_total (strings.TrimSpace (take i ap)) (drop i ap)) as Ht.
           assert (Hlen : forall np r, expandOperator (strings.TrimSpace (take i ap)) (drop i ap)
                                       = Some (np, r) -> (List.length np <= 1)%nat).
           { unfold expandOperator. intros np r.
             destruct (incrementMinorVersion _) as [rmin |];
               destruct (incrementMajorVersion _) as [rmaj |];
               repeat match goal with
                      | |- context [if ?b then _ else _] => destruct b
                      | |- context [match ?w with noneWildcard => _ | _ => _ end] => destruct w
                      end;
               cbn; intros H; inversion H; simpl; lia. }
           destruct (expandOperator (strings.TrimSpace (take i ap)) (drop i ap))
             as [[np r] |]; [| contradiction].
           exists np, r. split; [reflexivity | split; [apply (Hlen np r eq_refl) |]].
           right; right. discriminate.
        -- right. repeat split; assumption.
      * left. eexists; eexists. split; [reflexivity | split; [simpl; lia |]].
        right; left. reflexivity.
    + left. eexists; eexists. split; [reflexivity | split; [simpl; lia |]].
      right; right. intros Hnone.
      (* an integer holds a digit *)
      unfold strings.IndexFunc in Hnone.
      pose proof (indexFunc_none _ ap 0 0 (Nat.le_0_l _) eq_refl Hnone) as Hfree.
      destruct ap as [| c t]; [discriminate EP |].
      assert (Ht : sall strconv.isDigit t = true).
      { destruct (sall strconv.isDigit t) eqn:Ht; [reflexivity |].
        pose proof (ParseInt_nondigit c t Ht) as Hp. rewrite EP in Hp. contradiction. }
      assert (Hdig : forall a s, strconv.isDigit a = true ->
                                 asciiFree (unicode.IsDigit digitTable) (String a s) = false).
      { intros a s Ha. unfold asciiFree. cbn [sall].
        apply isDigit_byte in Ha.
        replace (high a) with false by (symmetry; unfold high; apply N.leb_gt; lia).
        unfold unicode.IsDigit, unicode.MaxLatin1.
        destruct (N.leb_spec (byte a) 255); [| lia].
        destruct (N.leb_spec 48 (byte a)); [| lia].
        destruct (N.leb_spec (byte a) 57); [| lia]. reflexivity. }
      destruct t as [| d t'].
      * (* one byte: it is a digit *)
        destruct (strconv.isDigit c) eqn:Hc.
        -- rewrite (Hdig c "" Hc) in Hfree. discriminate.
        -- revert EP. unfold strconv.ParseInt.
           destruct (Ascii.eqb c "+"); [cbn; discriminate |].
           destruct (Ascii.eqb c "-"); [cbn; discriminate |].
           unfold strconv.ParseUint. cbn [strconv.parseUintLoop]. rewrite Hc.
           cbn. discriminate.
      * cbn [sall] in Ht. apply andb_true_iff in Ht. destruct Ht as [Hd _].
        change (asciiFree (unicode.IsDigit digitTable) (String c (String d t')))
          with ((high c || negb (unicode.IsDigit digitTable (byte c)))
                && asciiFree (unicode.IsDigit digitTable) (String d t')) in Hfree.
        rewrite (Hdig d t' Hd), andb_false_r in Hfree. discriminate.
Qed.

Lemma expandParts_outcome (p : list string) :
  forall acc,
    (exists out, expandParts_ p acc = Some (inl out)
                 /\ (List.length acc + List.length p <= List.length out
                     <= List.length acc + 2 * List.length p)%nat
                 /\ forall tok, In tok p ->
                      tok = "x" \/ strings.ContainsAny tok "x~^><=!" = false
                      \/ strings.IndexFunc tok (unicode.IsDigit digitTable) <> None)
    \/ (exists tok, In tok p
                    /\ expandParts_ p acc = Some (inr (ErrNoVersion tok))
                    /\ tok <> "x" /\ strings.ContainsAny tok "x~^><=!" = true
                    /\ strings.IndexFunc tok (unicode.IsDigit digitTable) = None).
Proof.
  induction p as [| ap p IH]; intros acc.
  - left. exists acc. split; [reflexivity | split; [simpl; lia | intros tok []]].
  - cbn [expandParts].
    destruct (expandPart_outcome ap) as [(before & ap' & -> & Hb & Hok) | (-> & Hbad)].
    + destruct (IH ((acc ++ before) ++ [ap'])%list) as [(out & -> & Hlen & Hall) | (tok & Hin & -> & Hbad)].
      * left. exists out. split; [reflexivity | split].
        -- rewrite !length_app in Hlen. simpl in Hlen |- *. lia.
        -- intros tok [<- | Hin]; [exact Hok | exact (Hall tok Hin)].
      * right. exists tok. split; [right; exact Hin | split; [reflexivity | exact Hbad]].
    + right. exists ap. split; [left; reflexivity | split; [reflexivity | exact Hbad]].
Qed.

Lemma expandLoop_outcome (parts : list (list string)) :
  forall acc,
    (exists out, expandLoop_ parts acc = Some (inl out)
                 /\ List.length out = (List.length acc + List.length parts)%nat
                 /\ forall p tok, In p parts -> In tok p ->
                      tok = "x" \/ strings.ContainsAny tok "x~^><=!" = false
                      \/ strings.IndexFunc tok (unicode.IsDigit digitTable) <> None)
    \/ (exists p tok, In p parts /\ In tok p
                      /\ expandLoop_ parts acc = Some (inr (ErrNoVersion tok))
                      /\ tok <> "x" /\ strings.ContainsAny tok "x~^><=!" = true
                      /\ strings.IndexFunc tok (unicode.IsDigit digitTable) = None).
Proof.
  induction parts as [| p parts IH]; intros acc.
  - left. exists acc. split; [reflexivity | split; [simpl; lia | intros p tok []]].
  - cbn [expandLoop].
    destruct (expandParts_outcome p []) as [(np & -> & _ & Hall) | (tok & Hin & -> & Hbad)].
    + destruct (IH (acc ++ [np])%list) as [(out & -> & Hlen & Hall') | (q & tok & Hq & Hin & -> & Hbad)].
      * left. exists out. split; [reflexivity | split].
        -- rewrite length_app in Hlen. simpl in Hlen |- *. lia.
        -- intros q tok [<- | Hq] Hin; [exact (Hall tok Hin) | exact (Hall' q tok Hq Hin)].
      * right. exists q, tok. split; [right; exact Hq | split; [exact Hin | split; [reflexivity | exact Hbad]]].
    + right. exists p, tok. split; [left; reflexivity | split; [exact Hin | split; [reflexivity | exact Hbad]]].
Qed.

End WildcardProperties.

(** X14.  [expandWildcardVersion] does not panic.  It returns as many parts
    as it is given exactly when every token is x, or holds none of the bytes
    x~^><=!, or holds a digit; otherwise it returns the error of a token in
    which [splitComparatorVersion] finds no digit. *)
Theorem expandWildcardVersion_outcome :
  forall (VersionError : Type) (digitTable : N -> bool) (parts : list (list string)),
    expandWildcardVersion VersionError digitTable parts <> None
    /\ ((exists out, expandWildcardVersion VersionError digitTable parts = Some (inl out)
                     /\ List.length out = List.length parts)
        <-> forall p tok, In p parts -> In tok p ->
              tok = "x" \/ strings.ContainsAny tok "x~^><=!" = false
              \/ strings.IndexFunc tok (unicode.IsDigit digitTable) <> None)
    /\ (forall err,
           expandWildcardVersion VersionError digitTable parts = Some (inr err) ->
           exists p tok, In p parts /\ In tok p /\ err = ErrNoVersion tok
                         /\ strings.IndexFunc tok (unicode.IsDigit digitTable) = None).
Proof.
  intros VersionError digitTable parts. unfold expandWildcardVersion.
  destruct (expandLoop_outcome VersionError digitTable parts [])
    as [(out & E & Hlen & Hall) | (p & tok & Hp & Hin & E & Hne & Hc & Hi)]; rewrite E.
  - split; [discriminate | split; [split |]].
    + intros _. exact Hall.
    + intros _. exists out. split; [reflexivity | exact Hlen].
    + intros err H. discriminate.
  - split; [discriminate | split; [split |]].
    + intros (out & H & _). discriminate.
    + intros Hall. exfalso. destruct (Hall p tok Hp Hin) as [Hx | [Hx | Hx]];
        [contradiction | rewrite Hx in Hc; discriminate | contradiction].
    + intros err H. inversion H; subst err. exists p, tok. repeat split; assumption.
Qed.

(** ** The table of [expandWildcardVersion] *)

Lemma ContainsAny_app (a b chars : string) :
  strings.ContainsAny (a ++ b) chars
  = strings.ContainsAny a chars || strings.ContainsAny b chars.
Proof.
  unfold strings.ContainsAny. rewrite sall_app, negb_andb. reflexivity.
Qed.

Lemma isDigit_ascii (dt : N -> bool) (c : ascii) :
  unicode.IsDigit dt (byte c) = strconv.isDigit c.
Proof.
  unfold unicode.IsDigit, unicode.MaxLatin1, strconv.isDigit.
  assert (H : (byte c < 256)%N) by (unfold byte; apply N_ascii_bounded).
  destruct (N.leb_spec (byte c) 255); [reflexivity | lia].
Qed.

Lemma isDigit_low (c : ascii) : strconv.isDigit c = true -> high c = false.
Proof. intros H. apply isDigit_byte in H. unfold high. apply N.leb_gt. lia. Qed.

(** An operator: ASCII bytes that are not digits. *)
Lemma indexFunc_operator (dt : N -> bool) (op : string) (d : ascii) (t : string) :
  sall (fun c => negb (high c) && negb (strconv.isDigit c)) op = true ->
  strconv.isDigit d = true ->
  forall i, strings.indexFunc (unicode.IsDigit dt) (op ++ String d t) 0 i
            = Some (i + length op)%nat.
Proof.
  intros Hop Hd. induction op as [| c op IH]; intros i.
  - cbn [append]. rewrite indexFunc_cons, (decode_ascii d t (isDigit_low d Hd)).
    cbn [fst]. rewrite isDigit_ascii, Hd. f_equal. simpl. lia.
  - cbn [sall] in Hop. apply andb_true_iff in Hop. destruct Hop as [Hc Hop].
    apply andb_true_iff in Hc. destruct Hc as [Hlow Hnd].
    apply negb_true_iff in Hlow. apply negb_true_iff in Hnd.
    cbn [append]. rewrite indexFunc_cons, (decode_ascii c _ Hlow).
    cbn [fst snd]. rewrite isDigit_ascii, Hnd. cbn [Nat.sub].
    rewrite (IH Hop). f_equal. simpl. lia.
Qed.

Section TableLemmas.

Variable VersionError : Type.
Variable digitTable : N -> bool.

Lemma splitComparatorVersion_operator (op : string) (d : ascii) (t : string) :
  sall (fun c => negb (high c) && negb (strconv.isDigit c)) op = true ->
  strconv.isDigit d = true ->
  splitComparatorVersion VersionError digitTable (op ++ String d t)
  = inl (strings.TrimSpace op, String d t).
Proof.
  intros Hop Hd. unfold splitComparatorVersion.
  destruct (String.eqb_spec (op ++ String d t) "x") as [Hx | _].
  - exfalso. destruct op as [| c [| c' op]]; cbn in Hx; inversion Hx. subst d. discriminate.
  - unfold strings.IndexFunc. rewrite (indexFunc_operator digitTable op d t Hop Hd 0).
    cbn [Nat.add]. rewrite take_app_length.
    replace (length op) with (length op + 0)%nat by lia. rewrite drop_app_length.
    reflexivity.
Qed.

Lemma isDigit_not_dot (s : string) :
  contains_byte "." s = true -> sall strconv.isDigit s = false.
Proof.
  induction s as [| c s IH]; [discriminate |]. cbn [contains_byte sall].
  destruct (Ascii.eqb_spec c ".") as [-> | _]; [reflexivity |].
  cbn [orb]. intros H. rewrite (IH H). apply andb_false_r.
Qed.

(** A token made of an operator and a version with a dot goes to the switch
    over the operator. *)
Lemma expandPart_operator (op : string) (d : ascii) (t : string) :
  sall (fun c => negb (high c) && negb (strconv.isDigit c)) op = true ->
  strings.TrimSpace op = op ->
  strconv.isDigit d = true ->
  contains_byte "." t = true ->
  strings.ContainsAny (op ++ String d t) "x~^><=!" = true ->
  expandPart VersionError digitTable (op ++ String d t)
  = option_map inl (expandOperator op (String d t)).
Proof.
  intros Hop Htrim Hd Hdot Hany. unfold expandPart.
  destruct (String.eqb_spec (op ++ String d t) "x") as [Hx | _].
  { exfalso. destruct op as [| c [| c' op]]; cbn in Hx; inversion Hx. subst d. discriminate. }
  assert (Hp : snd (strconv.ParseInt (op ++ String d t)) <> None).
  { destruct op as [| c op]; cbn [append].
    - apply ParseInt_nondigit. apply isDigit_not_dot. exact Hdot.
    - apply ParseInt_nondigit. apply isDigit_not_dot.
      rewrite contains_byte_app. cbn [contains_byte]. rewrite Hdot, !orb_true_r. reflexivity. }
  destruct (strconv.ParseInt (op ++ String d t)) as [major [e |]]; [| contradiction].
  rewrite Hany, (splitComparatorVersion_operator op d t Hop Hd), Htrim. reflexivity.
Qed.

End TableLemmas.

Lemma numeral_parts (M : string) :
  numeral M = true ->
  contains_byte "." M = false /\ contains_byte "x" M = false
  /\ exists d t, M = String d t /\ strconv.isDigit d = true.
Proof.
  intros H. destruct (numeral_head M H) as (d & t & -> & Hd & Ht).
  assert (Hall : sall strconv.isDigit (String d t) = true) by (cbn [sall]; rewrite Hd, Ht; reflexivity).
  split; [apply digits_dotless; exact Hall | split].
  - clear - Hall. induction (String d t) as [| c s IH]; [reflexivity |].
    cbn [sall contains_byte] in *. apply andb_true_iff in Hall. destruct Hall as [Hc Hs].
    rewrite (IH Hs), orb_false_r.
    destruct (Ascii.eqb_spec c "x") as [-> | _]; [discriminate | reflexivity].
  - exists d, t. split; [reflexivity | exact Hd].
Qed.

Lemma getWildcardType_patch (M m : string) :
  contains_byte "." M = false -> contains_byte "." m = false ->
  getWildcardType (M ++ "." ++ m ++ ".x") = patchWildcard.
Proof.
  intros HM Hm. change (M ++ "." ++ m ++ ".x") with (strings.Join [M; m; "x"] ".").
  rewrite getWildcardType_parts by (first [assumption | repeat constructor; assumption]). reflexivity.
Qed.

Lemma getWildcardType_minor (M : string) :
  contains_byte "." M = false -> getWildcardType (M ++ ".x") = minorWildcard.
Proof.
  intros HM. change (M ++ ".x") with (strings.Join [M; "x"] ".").
  rewrite getWildcardType_parts by (first [assumption | repeat constructor; assumption]). reflexivity.
Qed.

Lemma getWildcardType_zero (M : string) :
  contains_byte "." M = false -> getWildcardType (M ++ ".0") = noneWildcard.
Proof.
  intros HM. change (M ++ ".0") with (strings.Join [M; "0"] ".").
  rewrite getWildcardType_parts by (first [assumption | repeat constructor; assumption]). reflexivity.
Qed.

Lemma incrementMinor_flat (M m : string) :
  contains_byte "." M = false -> incrementable m ->
  incrementMinorVersion (M ++ "." ++ m ++ ".0")
  = Some (M ++ "." ++ spec_next m ++ ".0", None).
Proof.
  intros HM Hm. change (M ++ "." ++ m ++ ".0") with (strings.Join [M; m; "0"] ".").
  rewrite incrementMinor_parts by (first [assumption | repeat constructor; assumption]). reflexivity.
Qed.

Lemma incrementMajor_flat (M : string) :
  incrementable M ->
  incrementMajorVersion (M ++ ".0.0") = Some (spec_next M ++ ".0.0", None).
Proof.
  intros HM. change (M ++ ".0.0") with (strings.Join [M; "0"; "0"] ".").
  rewrite incrementMajor_parts by (first [assumption | repeat constructor; assumption]). reflexivity.
Qed.

Section Table.

Variable VersionError : Type.
Variable digitTable : N -> bool.

Local Abbreviation expand := (expandWildcardVersion VersionError digitTable).

Variables M m : string.
Hypothesis HM : incrementable M.
Hypothesis Hm : incrementable m.

Lemma expandOperator_patch (op : string) :
  expandOperator op (M ++ "." ++ m ++ ".x")
  = (if String.eqb op ">" then Some ([], ">=" ++ M ++ "." ++ spec_next m ++ ".0")
     else if String.eqb op ">=" then Some ([], ">=" ++ M ++ "." ++ m ++ ".0")
     else if String.eqb op "<" then Some ([], "<" ++ M ++ "." ++ m ++ ".0")
     else if String.eqb op "<=" then Some ([], "<" ++ M ++ "." ++ spec_next m ++ ".0")
     else if String.eqb op "" || String.eqb op "=" || String.eqb op "==" then
       Some ([">=" ++ M ++ "." ++ m ++ ".0"], "<" ++ M ++ "." ++ spec_next m ++ ".0")
     else if String.eqb op "!=" || String.eqb op "!" then
       Some (["<" ++ M ++ "." ++ m ++ ".0"], ">=" ++ M ++ "." ++ spec_next m ++ ".0")
     else if String.eqb op "~" then
       Some ([">=" ++ M ++ "." ++ m ++ ".0"], "<" ++ M ++ "." ++ spec_next m ++ ".0")
     else if String.eqb op "^" then
       Some ([">=" ++ M ++ "." ++ m ++ ".0"], "<" ++ spec_next M ++ ".0.0")
     else Some ([], M ++ "." ++ m ++ ".0")).
Proof.
  destruct (numeral_parts M (proj1 HM)) as (HMd & HMx & _).
  destruct (numeral_parts m (proj1 Hm)) as (Hmd & Hmx & _).
  destruct (createVersion_forms M m "" HMd Hmd Hmx eq_refl eq_refl)
    as (_ & _ & _ & _ & Hflat & _).
  unfold expandOperator.
  rewrite (getWildcardType_patch M m HMd Hmd), Hflat.
  rewrite (incrementMinor_flat M m HMd Hm).
  change (M ++ "." ++ m ++ ".0") with (strings.Join [M; m; "0"] ".").
  rewrite (incrementMajor_parts M [m; "0"] HM)
    by (first [assumption | repeat constructor; assumption]).
  repeat match goal with
         | |- context [if ?b then _ else _] => destruct b
         end; reflexivity.
Qed.

Lemma expandOperator_minor (op : string) :
  expandOperator op (M ++ ".x")
  = (if String.eqb op ">" then Some ([], ">=" ++ spec_next M ++ ".0.0")
     else if String.eqb op ">=" then Some ([], ">=" ++ M ++ ".0.0")
     else if String.eqb op "<" then Some ([], "<" ++ M ++ ".0.0")
     else if String.eqb op "<=" then Some ([], "<" ++ spec_next M ++ ".0.0")
     else if String.eqb op "" || String.eqb op "=" || String.eqb op "==" then
       Some ([">=" ++ M ++ ".0.0"], "<" ++ spec_next M ++ ".0.0")
     else if String.eqb op "!=" || String.eqb op "!" then
       Some (["<" ++ M ++ ".0.0"], ">=" ++ spec_next M ++ ".0.0")
     else if String.eqb op "~" then
       Some ([">=" ++ M ++ ".0.0"], "<" ++ spec_next M ++ ".0.0")
     else if String.eqb op "^" then
       Some ([">=" ++ M ++ ".0.0"], "<" ++ spec_next M ++ ".0.0")
     else Some ([], M ++ ".0.0")).
Proof.
  destruct (numeral_parts M (proj1 HM)) as (HMd & HMx & _).
  destruct (createVersion_forms M "" "" HMd eq_refl eq_refl eq_refl eq_refl)
    as (_ & Hflat & _).
  unfold expandOperator.
  rewrite (getWildcardType_minor M HMd), Hflat.
  rewrite (incrementMajor_flat M HM).
  repeat match goal with
         | |- context [if ?b then _ else _] => destruct b
         end; reflexivity.
Qed.

Lemma expandOperator_below :
  expandOperator "<" (M ++ ".0") = Some ([], "<" ++ M ++ ".0.0").
Proof.
  destruct (numeral_parts M (proj1 HM)) as (HMd & HMx & _).
  destruct (createVersion_forms M "0" "" HMd eq_refl eq_refl eq_refl eq_refl)
    as (_ & _ & _ & Hflat & _).
  change (M ++ "." ++ "0") with (M ++ ".0") in Hflat.
  unfold expandOperator.
  rewrite (getWildcardType_zero M HMd), Hflat. reflexivity.
Qed.

Lemma expandPart_version (op v : string) :
  sall (fun c => negb (high c) && negb (strconv.isDigit c)) op = true ->
  strings.TrimSpace op = op ->
  strings.ContainsAny (op ++ M ++ v) "x~^><=!" = true ->
  (exists v', v = String "." v') ->
  expandPart VersionError digitTable (op ++ M ++ v)
  = option_map inl (expandOperator op (M ++ v)).
Proof.
  intros Hop Htrim Hany (v' & ->).
  destruct (numeral_parts M (proj1 HM)) as (_ & _ & d & t & E & Hd).
  revert Hany. rewrite E. cbn [append]. intros Hany.
  apply expandPart_operator; try assumption.
  rewrite contains_byte_app. cbn [contains_byte]. change (Ascii.eqb "." ".") with true.
  rewrite orb_true_r. reflexivity.
Qed.

Lemma ContainsAny_wildcard (a : string) :
  strings.ContainsAny (a ++ ".x") "x~^><=!" = true.
Proof. rewrite ContainsAny_app. apply orb_true_r. Qed.

Lemma expand_one (tok : string) (before : list string) (ap' : string) :
  expandPart VersionError digitTable tok = Some (inl (before, ap')) ->
  expand [[tok]] = Some (inl [(before ++ [ap'])%list]).
Proof.
  intros H. unfold expandWildcardVersion. cbn [expandLoop expandParts]. rewrite H.
  reflexivity.
Qed.

Lemma expand_patch (op : string) (before : list string) (ap' : string) :
  sall (fun c => negb (high c) && negb (strconv.isDigit c)) op = true ->
  strings.TrimSpace op = op ->
  expandOperator op (M ++ "." ++ m ++ ".x") = Some (before, ap') ->
  expand [[op ++ M ++ "." ++ m ++ ".x"]] = Some (inl [(before ++ [ap'])%list]).
Proof.
  intros Hop Htrim H. apply expand_one.
  rewrite (expandPart_version op ("." ++ m ++ ".x") Hop Htrim).
  - rewrite H. reflexivity.
  - replace (op ++ M ++ "." ++ m ++ ".x") with ((op ++ M ++ "." ++ m) ++ ".x")
      by (rewrite !app_assoc_s; reflexivity).
    apply ContainsAny_wildcard.
  - eexists; reflexivity.
Qed.

Lemma expand_minor (op : string) (before : list string) (ap' : string) :
  sall (fun c => negb (high c) && negb (strconv.isDigit c)) op = true ->
  strings.TrimSpace op = op ->
  expandOperator op (M ++ ".x") = Some (before, ap') ->
  expand [[op ++ M ++ ".x"]] = Some (inl [(before ++ [ap'])%list]).
Proof.
  intros Hop Htrim H. apply expand_one.
  rewrite (expandPart_version op ".x" Hop Htrim).
  - rewrite H. reflexivity.
  - replace (op ++ M ++ ".x") with ((op ++ M) ++ ".x")
      by (rewrite !app_assoc_s; reflexivity).
    apply ContainsAny_wildcard.
  - eexists; reflexivity.
Qed.

Lemma expand_below :
  expand [["<" ++ M ++ ".0"]] = Some (inl [["<" ++ M ++ ".0.0"]]).
Proof.
  apply (expand_one _ [] ("<" ++ M ++ ".0.0")).
  rewrite (expandPart_version "<" ".0" eq_refl eq_refl).
  - rewrite expandOperator_below. reflexivity.
  - reflexivity.
  - eexists; reflexivity.
Qed.

Lemma expand_major :
  numid M = true ->
  expand [[M]] = Some (inl [[">=" ++ M ++ ".0.0"; "<" ++ spec_next M ++ ".0.0"]]).
Proof.
  intros Hid. apply (expand_one _ [">=" ++ M ++ ".0.0"] ("<" ++ spec_next M ++ ".0.0")).
  unfold expandPart.
  destruct (String.eqb_spec M "x") as [Hx | _].
  { pose proof (proj1 HM) as HMn. rewrite Hx in HMn. discriminate. }
  pose proof (proj2 HM) as Hle.
  rewrite (ParseInt_numeral M (proj1 HM)) by lia.
  rewrite (Itoa_decimal M Hid) by lia.
  rewrite (incr_decimal M HM). reflexivity.
Qed.

End Table.

(** X15.  The table in the comment of [expandWildcardVersion], for a numeric
    identifier [M] and a numeral [m], both at most 2^63-2: the patch
    wildcards, the minor wildcards, and the tokens without an operator. *)
Theorem expandWildcardVersion_table :
  forall (VersionError : Type) (digitTable : N -> bool) (M m : string),
    numid M = true -> incrementable M -> incrementable m ->
    let expand := expandWildcardVersion VersionError digitTable in
    let ok (l : list string) : option (list (list string) + error VersionError) :=
      Some (inl [l]) in
    (* patch wildcards *)
    expand [[">=" ++ M ++ "." ++ m ++ ".x"]] = ok [">=" ++ M ++ "." ++ m ++ ".0"]
    /\ expand [["<=" ++ M ++ "." ++ m ++ ".x"]] = ok ["<" ++ M ++ "." ++ spec_next m ++ ".0"]
    /\ expand [[">" ++ M ++ "." ++ m ++ ".x"]] = ok [">=" ++ M ++ "." ++ spec_next m ++ ".0"]
    /\ expand [["<" ++ M ++ "." ++ m ++ ".x"]] = ok ["<" ++ M ++ "." ++ m ++ ".0"]
    /\ expand [["!=" ++ M ++ "." ++ m ++ ".x"]]
       = ok ["<" ++ M ++ "." ++ m ++ ".0"; ">=" ++ M ++ "." ++ spec_next m ++ ".0"]
    (* minor wildcards *)
    /\ expand [[">=" ++ M ++ ".x"]] = ok [">=" ++ M ++ ".0.0"]
    /\ expand [["<=" ++ M ++ ".x"]] = ok ["<" ++ spec_next M ++ ".0.0"]
    /\ expand [[">" ++ M ++ ".x"]] = ok [">=" ++ spec_next M ++ ".0.0"]
    /\ expand [["<" ++ M ++ ".0"]] = ok ["<" ++ M ++ ".0.0"]
    /\ expand [["!=" ++ M ++ ".x"]] = ok ["<" ++ M ++ ".0.0"; ">=" ++ spec_next M ++ ".0.0"]
    (* no operator *)
    /\ expand [[M ++ "." ++ m ++ ".x"]]
       = ok [">=" ++ M ++ "." ++ m ++ ".0"; "<" ++ M ++ "." ++ spec_next m ++ ".0"]
    /\ expand [[M ++ ".x"]] = ok [">=" ++ M ++ ".0.0"; "<" ++ spec_next M ++ ".0.0"]
    /\ expand [[M]] = ok [">=" ++ M ++ ".0.0"; "<" ++ spec_next M ++ ".0.0"].
Proof.
  intros VersionError digitTable M m Hid HM Hm expand ok. subst expand ok.
  pose proof (expandOperator_patch M m HM Hm) as Hp.
  pose proof (expandOperator_minor M HM) as Hn.
  repeat split.
  - apply (expand_patch VersionError digitTable M m HM ">=" [] _ eq_refl eq_refl). apply Hp.
  - apply (expand_patch VersionError digitTable M m HM "<=" [] _ eq_refl eq_refl). apply Hp.
  - apply (expand_patch VersionError digitTable M m HM ">" [] _ eq_refl eq_refl). apply Hp.
  - apply (expand_patch VersionError digitTable M m HM "<" [] _ eq_refl eq_refl). apply Hp.
  - apply (expand_patch VersionError digitTable M m HM "!=" [_] _ eq_refl eq_refl). apply Hp.
  - apply (expand_minor VersionError digitTable M HM ">=" [] _ eq_refl eq_refl). apply Hn.
  - apply (expand_minor VersionError digitTable M HM "<=" [] _ eq_refl eq_refl). apply Hn.
  - apply (expand_minor VersionError digitTable M HM ">" [] _ eq_refl eq_refl). apply Hn.
  - apply (expand_below VersionError digitTable M HM).
  - apply (expand_minor VersionError digitTable M HM "!=" [_] _ eq_refl eq_refl). apply Hn.
  - apply (expand_patch VersionError digitTable M m HM "" [_] _ eq_refl eq_refl). apply Hp.
  - apply (expand_minor VersionError digitTable M HM "" [_] _ eq_refl eq_refl). apply Hn.
  - apply (expand_major VersionError digitTable M HM Hid).
Qed.

Lemma expandWildcardVersion_table_witness :
  expandWildcardVersion unit (fun _ => false) [["!=1.2.x"]] = Some (inl [["<1.2.0"; ">=1.3.0"]]).
Proof.
  assert (H1 : incrementable "1") by (split; [reflexivity | vm_compute; discriminate]).
  assert (H2 : incrementable "2") by (split; [reflexivity | vm_compute; discriminate]).
  exact (proj1 (proj2 (proj2 (proj2 (proj2
           (expandWildcardVersion_table unit (fun _ => false) "1" "2" eq_refl H1 H2)))))).
Defined.

(** ** The pieces between white space *)

Lemma spanSpace_spec (s : string) :
  s = fst (spanSpace s) ++ snd (spanSpace s)
  /\ sall spaceByte (fst (spanSpace s)) = true
  /\ stops [("009", "010"); ("012", "013"); (" ", " ")]%char (snd (spanSpace s)) = true.
Proof.
  induction s as [| c t IH]; [repeat split |].
  cbn [spanSpace]. destruct (spaceByte c) eqn:E.
  - destruct (spanSpace t) as [w rest]. cbn [fst snd] in *.
    destruct IH as (Ht & Hw & Hr). repeat split.
    + cbn [append]. rewrite <- Ht. reflexivity.
    + cbn [sall]. rewrite E, Hw. reflexivity.
    + exact Hr.
  - cbn [fst snd]. repeat split. cbn [stops]. unfold spaceByte in E. rewrite E. reflexivity.
Qed.

Lemma reSpaces_miss (n0 : nat) (s : string) :
  stops [("009", "010"); ("012", "013"); (" ", " ")]%char s = true ->
  matchHere reSpaces n0 s = None.
Proof.
  intros H. unfold matchHere. rewrite reSpaces_prog. destruct s as [| c t]; [reflexivity |].
  apply fails_cap, fails_seq, fails_cls; [exact H | discriminate].
Qed.

Lemma reSpaces_run (n0 : nat) (c : ascii) (w rest : string) :
  spaceByte c = true -> sall spaceByte w = true ->
  stops [("009", "010"); ("012", "013"); (" ", " ")]%char rest = true ->
  matchHere reSpaces n0 (String c w ++ rest) = Some (rest, [Some (String c w)]).
Proof.
  intros Hc Hw Hr. unfold matchHere. rewrite reSpaces_prog.
  assert (H : first_match n0 (Cap 0 (Seq Grammar.space (Star Grammar.space)))
                (String c w) rest (fun cs => upd 0 (Some (String c w)) cs)).
  { apply (fm_cap n0 0 _ (String c w) _ (fun cs => cs)).
    apply (fm_seq n0 _ _ (String c "") w rest (fun cs => cs) (fun cs => cs)).
    - apply fm_cls. exact Hc.
    - apply fm_star_cls; [exact Hw | exact Hr]. }
  apply (H accept). reflexivity.
Qed.

Lemma matches_S (fuel : nat) (re : Regexp) (n0 : nat) (s : string) (prevEnd : bool) :
  matches (S fuel) re n0 s prevEnd
  = let step :=
      match s with
      | EmptyString => ([], "")
      | String ch t => push ch (matches fuel re n0 t false)
      end in
    match matchHere re n0 s with
    | Some (rest, c) =>
      if (length rest <? length s)%nat
      then let '(ms, tl) := matches fuel re n0 rest true in (("", c) :: ms, tl)
      else if prevEnd then step
      else let '(ms, tl) := step in (("", c) :: ms, tl)
    | None => step
    end.
Proof. reflexivity. Qed.

(** Between the matches of the white space, and after the last, the text is
    free of white space. *)
Lemma matches_reSpaces_free (n0 : nat) (fuel : nat) :
  forall (s : string) (b : bool),
    (length s < fuel)%nat ->
    Forall (fun gc => spaceFree (fst gc) = true) (fst (matches fuel reSpaces n0 s b))
    /\ spaceFree (snd (matches fuel reSpaces n0 s b)) = true.
Proof.
  induction fuel as [| fuel IH]; intros s b Hlen; [lia |].
  rewrite matches_S. cbv zeta.
  destruct s as [| c t].
  - rewrite (reSpaces_miss n0 "" eq_refl). split; [constructor | reflexivity].
  - destruct (spaceByte c) eqn:Ec.
    + pose proof (spanSpace_spec t) as Hsp.
      destruct (spanSpace t) as [w rest]. cbn [fst snd] in Hsp.
      destruct Hsp as (-> & Hw & Hr).
      change (String c (w ++ rest)) with (String c w ++ rest).
      rewrite (reSpaces_run n0 c _ _ Ec Hw Hr).
      assert (Hl : (length rest < length (String c w ++ rest))%nat)
        by (rewrite length_app_s; simpl; lia).
      apply Nat.ltb_lt in Hl. rewrite Hl.
      assert (Hlr : (length rest < fuel)%nat).
      { cbn [length] in Hlen. rewrite length_app_s in Hlen. lia. }
      destruct (IH rest true Hlr) as [Hms Htl].
      destruct (matches fuel reSpaces n0 rest true) as [ms tl].
      cbn [fst snd] in *. split; [constructor; [reflexivity | exact Hms] | exact Htl].
    + rewrite (reSpaces_miss n0 (String c t))
        by (cbn [stops]; unfold spaceByte in Ec; rewrite Ec; reflexivity).
      assert (Hlt : (length t < fuel)%nat) by (cbn [length] in Hlen; lia).
      destruct (IH t false Hlt) as [Hms Htl].
      destruct (matches fuel reSpaces n0 t false) as [[| [g cs] ms] tl];
        cbn [push fst snd] in *.
      * split; [constructor |]. unfold spaceFree. cbn [sall]. rewrite Ec. exact Htl.
      * inversion Hms as [| ? ? Hg Hms']; subst. cbn [fst] in Hg.
        split; [| exact Htl]. constructor; [| exact Hms'].
        cbn [fst]. unfold spaceFree. cbn [sall]. rewrite Ec. exact Hg.
Qed.

Lemma splitLoop_pieces (ms : list (string * caps)) :
  forall beg e0 out last_,
    splitLoop ms beg e0 = (out, last_) -> forall p, In p out -> In p (map fst ms).
Proof.
  induction ms as [| [g c] ms IH]; intros beg e0 out last_ H p Hin; cbn [splitLoop] in H.
  - inversion H; subst. destruct Hin.
  - destruct (splitLoop ms (beg + length g + length (group c 0)) (beg + length g))
      as [out' last'] eqn:E.
    inversion H; subst; clear H.
    destruct (beg + length g + length (group c 0) =? 0)%nat.
    + right. exact (IH _ _ _ _ E p Hin).
    + destruct Hin as [<- | Hin]; [left; reflexivity | right; exact (IH _ _ _ _ E p Hin)].
Qed.

Lemma Split_reSpaces_free (s : string) :
  Forall (fun p => spaceFree p = true) (Split reSpaces s).
Proof.
  unfold Split. destruct s as [| ch t]; [repeat constructor |].
  unfold allMatches.
  destruct (matches_reSpaces_free (length (String ch t)) (S (length (String ch t)))
              (String ch t) false (Nat.lt_succ_diag_r _)) as [Hms Htl].
  destruct (matches (S (length (String ch t))) reSpaces (length (String ch t)) (String ch t) false)
    as [ms tl].
  cbn [fst snd] in Hms, Htl.
  destruct (splitLoop ms 0 0) as [out last_] eqn:E.
  assert (Hout : Forall (fun p => spaceFree p = true) out).
  { apply Forall_forall. intros p Hin.
    pose proof (splitLoop_pieces ms 0 0 out last_ E p Hin) as Hp.
    apply in_map_iff in Hp. destruct Hp as ([g c] & <- & Hgc).
    rewrite Forall_forall in Hms. exact (Hms (g, c) Hgc). }
  destruct (last_ =? length (String ch t))%nat; [exact Hout |].
  apply Forall_app. split; [exact Hout | constructor; [exact Htl | constructor]].
Qed.

(** X19.  No token of [parseRange] holds a byte of white space (tab, line
    feed, form feed, carriage return, blank), whatever the input. *)
Theorem parseRange_tokens_free (s : string) :
  Forall (fun tok => spaceFree tok = true) (parseRange s).
Proof. unfold parseRange. apply Split_reSpaces_free. Qed.

(** ** When [ParseRange] returns a Range, and which error it returns *)

Section OutcomeProperties.

Variable Version : Type.
Variable VersionError : Type.
Variable Parse : string -> Version + VersionError.
Variable Compare : Version -> Version -> Z.
Variable digitTable : N -> bool.

Local Abbreviation ParseRange2 := (ParseRange Version VersionError Parse Compare digitTable).
Local Abbreviation splitCV4 := (@splitComparatorVersion VersionError digitTable).
Local Abbreviation andLoop2 := (andLoop Version VersionError Parse Compare digitTable).
Local Abbreviation orLoop2 := (orLoop Version VersionError Parse Compare digitTable).
Local Abbreviation cmpOf := (comparatorOf Parse Compare digitTable).
Local Abbreviation firstErr := (firstError Parse Compare digitTable).

Lemma comparatorOf_accepted (tok : string) :
  (exists rf, cmpOf tok = inl rf) <-> accepted Parse digitTable tok.
Proof.
  unfold comparatorOf, accepted, buildVersionRange. split.
  - intros [rf H]. destruct (splitCV4 tok) as [[op vStr] | err]; [| discriminate].
    destruct (parseComparator Version Compare op) as [cmp |] eqn:Ec; [| discriminate].
    destruct (Parse vStr) as [ver | e] eqn:Ep; [| discriminate].
    exists op, vStr, ver. repeat split; [| exact Ep].
    destruct (in_dec string_dec op [""; "="; "=="; "!"; "!="; ">"; ">="; "<"; "<="])
      as [Hin | Hout]; [exact Hin |].
    apply (parseComparator_known Version VersionError Parse Compare) in Hout.
    rewrite Hout in Ec. discriminate.
  - intros (op & vStr & ver & -> & Hin & ->).
    destruct (parseComparator Version Compare op) as [cmp |] eqn:Ec.
    + eexists; reflexivity.
    + apply (parseComparator_known Version VersionError Parse Compare) in Ec. contradiction.
Qed.

Lemma comparatorOf_error (tok : string) (err : error VersionError) :
  cmpOf tok = inr err ->
  (err = ErrNoVersion tok /\ tok <> "x"
   /\ strings.IndexFunc tok (unicode.IsDigit digitTable) = None)
  \/ (exists op vStr,
         splitCV4 tok = inl (op, vStr)
         /\ ((~ In op [""; "="; "=="; "!"; "!="; ">"; ">="; "<"; "<="]
              /\ err = ErrRange tok (ErrComparator op (op ++ vStr)))
             \/ (exists e, Parse vStr = inr e
                           /\ err = ErrRange tok (ErrVersion vStr (op ++ vStr) e)))).
Proof.
  unfold comparatorOf, buildVersionRange.
  destruct (splitCV4 tok) as [[op vStr] | e0] eqn:Es.
  - intros H. right. exists op, vStr. split; [reflexivity |].
    destruct (parseComparator Version Compare op) as [cmp |] eqn:Ec.
    + destruct (Parse vStr) as [ver | e] eqn:Ep; [discriminate |].
      inversion H. right. exists e. split; reflexivity.
    + inversion H. left. split; [| reflexivity].
      apply (parseComparator_known Version VersionError Parse Compare). exact Ec.
  - intros H. inversion H; subst e0. left. revert Es. unfold splitComparatorVersion.
    destruct (String.eqb_spec tok "x") as [-> | Hne]; [discriminate |].
    destruct (strings.IndexFunc tok (unicode.IsDigit digitTable)); [discriminate |].
    intros Es; inversion Es. repeat split. exact Hne.
Qed.

Lemma andLoop_firstError (p : list string) :
  forall andFn,
    match firstErr p with
    | Some err => andLoop2 p andFn = inr err
    | None => exists r, andLoop2 p andFn = inl r
    end.
Proof.
  induction p as [| ap p IH]; intros andFn.
  - eexists; reflexivity.
  - rewrite andLoop_step. cbn [firstError].
    destruct (cmpOf ap) as [rf | err]; [apply IH | reflexivity].
Qed.

Lemma orLoop_firstError (parts : list (list string)) :
  forall orFn,
    match firstErr (List.concat parts) with
    | Some err => orLoop2 parts orFn = inr err
    | None => exists r, orLoop2 parts orFn = inl r
    end.
Proof.
  assert (Happ : forall a b,
             firstErr (a ++ b)%list = match firstErr a with Some e => Some e | None => firstErr b end).
  { induction a as [| t a IHa]; intros b; [reflexivity |]. cbn [firstError app].
    destruct (cmpOf t); [apply IHa | reflexivity]. }
  induction parts as [| p parts IH]; intros orFn.
  - eexists; reflexivity.
  - cbn [List.concat orLoop]. rewrite Happ.
    pose proof (andLoop_firstError p None) as Hp.
    destruct (firstErr p) as [err |].
    + rewrite Hp. reflexivity.
    + destruct Hp as [r ->]. apply IH.
Qed.

Lemma firstError_none (toks : list string) :
  firstErr toks = None <-> Forall (accepted Parse digitTable) toks.
Proof.
  induction toks as [| tok toks IH]; cbn [firstError].
  - split; [constructor | reflexivity].
  - pose proof (comparatorOf_accepted tok) as Ha.
    destruct (cmpOf tok) as [rf | err].
    + rewrite IH. split.
      * intros H. constructor; [apply Ha; eexists; reflexivity | exact H].
      * intros H. inversion H; assumption.
    + split; [discriminate |]. intros H. inversion H as [| ? ? Hacc _]; subst.
      apply Ha in Hacc. destruct Hacc as [rf Hrf]. discriminate.
Qed.

Lemma ParseRange_snd (s : string) :
  snd (ParseRange2 s) = firstErr (List.concat (spec_groups s)).
Proof.
  unfold ParseRange. rewrite expandedParts_eq. fold (spec_groups s).
  pose proof (orLoop_firstError (spec_groups s) None) as H.
  destruct (firstErr (List.concat (spec_groups s))) as [err |].
  - rewrite H. reflexivity.
  - destruct H as [r ->]. reflexivity.
Qed.

Lemma ParseRange_succeeds (s : string) :
  (exists f, ParseRange2 s = (Some f, None))
  <-> forall g tok, In g (spec_groups s) -> In tok g -> accepted Parse digitTable tok.
Proof.
  pose proof (ParseRange_snd s) as Hs.
  pose proof (firstError_none (List.concat (spec_groups s))) as Hn.
  rewrite Forall_forall in Hn.
  split.
  - intros [f Hf]. rewrite Hf in Hs. cbn [snd] in Hs. symmetry in Hs.
    intros g tok Hg Htok. apply (proj1 Hn Hs). apply in_concat. exists g. tauto.
  - intros Hall.
    assert (Hnone : firstErr (List.concat (spec_groups s)) = None).
    { apply Hn. intros tok Hin. apply in_concat in Hin. destruct Hin as (g & Hg & Htok).
      exact (Hall g tok Hg Htok). }
    destruct (ParseRange_range_or_error Version VersionError Parse Compare digitTable s)
      as [[f Hf] | [err He]].
    + exists f. exact Hf.
    + rewrite He, Hnone in Hs. discriminate.
Qed.

End OutcomeProperties.

(** X20.  [ParseRange] returns a Range exactly when every token of every
    group is a comparator: it splits into one of the nine operators and a
    version that [Parse] accepts. *)
Theorem ParseRange_succeeds_iff :
  forall (Version VersionError : Type) (Parse : string -> Version + VersionError)
         (Compare : Version -> Version -> Z) (digitTable : N -> bool) (s : string),
    (exists f : RangeFunc Version,
        ParseRange Version VersionError Parse Compare digitTable s = (Some f, None))
    <-> (forall g tok, In g (spec_groups s) -> In tok g ->
           exists op vStr operand,
             splitComparatorVersion VersionError digitTable tok = inl (op, vStr)
             /\ In op [""; "="; "=="; "!"; "!="; ">"; ">="; "<"; "<="]
             /\ Parse vStr = inl operand).
Proof.
  intros. apply ParseRange_succeeds.
Qed.

(** X21.  The error of [ParseRange] is that of the first token, in the order
    of the input, that is not a comparator; it names the token, and says
    whether no version was found in it, or the operator is unknown, or
    [Parse] refused the version. *)
Theorem ParseRange_first_error :
  forall (Version VersionError : Type) (Parse : string -> Version + VersionError)
         (Compare : Version -> Version -> Z) (digitTable : N -> bool) (s : string),
    snd (ParseRange Version VersionError Parse Compare digitTable s)
    = firstError Parse Compare digitTable (List.concat (spec_groups s))
    /\ (forall tok err,
           comparatorOf Parse Compare digitTable tok = inr err ->
           (err = ErrNoVersion tok /\ tok <> "x"
            /\ strings.IndexFunc tok (unicode.IsDigit digitTable) = None)
           \/ (exists op vStr,
                  splitComparatorVersion VersionError digitTable tok = inl (op, vStr)
                  /\ ((~ In op [""; "="; "=="; "!"; "!="; ">"; ">="; "<"; "<="]
                       /\ err = ErrRange tok (ErrComparator op (op ++ vStr)))
                      \/ (exists e, Parse vStr = inr e
                                    /\ err = ErrRange tok (ErrVersion vStr (op ++ vStr) e))))).
Proof.
  intros. split; [apply ParseRange_snd | apply comparatorOf_error].
Qed.

(** X22.  [MustParseRange] returns the Range of [ParseRange], which is then
    not nil and true as the groups say, every token being a comparator; or it
    panics with the input and the error of the first token that is not a
    comparator. *)
Theorem MustParseRange_outcome :
  forall (Version VersionError : Type) (Parse : string -> Version + VersionError)
         (Compare : Version -> Version -> Z) (digitTable : N -> bool) (s : string),
    match MustParseRange Version VersionError Parse Compare digitTable s with
    | inl r =>
      (forall g tok, In g (spec_groups s) -> In tok g -> accepted Parse digitTable tok)
      /\ exists f, r = Some f
                   /\ forall x, exists b,
                        f x = Some b
                        /\ (b = true <-> spec_matches Parse Compare digitTable s x)
    | inr (s', err) =>
      s' = s /\ firstError Parse Compare digitTable (List.concat (spec_groups s)) = Some err
    end.
Proof.
  intros. unfold MustParseRange.
  pose proof (ParseRange_snd Version VersionError Parse Compare digitTable s) as Hs.
  destruct (ParseRange_range_or_error Version VersionError Parse Compare digitTable s)
    as [[f Hf] | [err He]].
  - rewrite Hf. split.
    + apply (ParseRange_succeeds Version VersionError Parse Compare digitTable s).
      exists f. exact Hf.
    + exists f. split; [reflexivity |].
      exact (ParseRange_matches Version VersionError Parse Compare digitTable s f Hf).
  - rewrite He in Hs |- *. cbn [snd] in Hs. split; [reflexivity | symmetry; exact Hs].
Qed.

(** ** The combinators of Ranges *)

(** X23.  [AND] and [OR] never return nil; they are associative and each
    distributes over the other, panics included; on the Ranges of two
    comparators they are the conjunction and the disjunction of the results;
    and a nil operand on the right is called only when the left operand does
    not decide. *)
Theorem Range_combinators :
  forall (Version : Type) (r1 r2 r3 : Range Version) (va vb : versionRange Version)
         (x : Version),
    AND Version r1 r2 <> None /\ OR Version r1 r2 <> None
    /\ call (AND Version (AND Version r1 r2) r3) x
       = call (AND Version r1 (AND Version r2 r3)) x
    /\ call (OR Version (OR Version r1 r2) r3) x
       = call (OR Version r1 (OR Version r2 r3)) x
    /\ call (AND Version r1 (OR Version r2 r3)) x
       = call (OR Version (AND Version r1 r2) (AND Version r1 r3)) x
    /\ call (OR Version r1 (AND Version r2 r3)) x
       = call (AND Version (OR Version r1 r2) (OR Version r1 r3)) x
    /\ call (AND Version (rangeFunc Version va) (rangeFunc Version vb)) x
       = Some (c Version va x (v Version va) && c Version vb x (v Version vb))
    /\ call (OR Version (rangeFunc Version va) (rangeFunc Version vb)) x
       = Some (c Version va x (v Version va) || c Version vb x (v Version vb))
    /\ call (AND Version (rangeFunc Version va) None) x
       = (if c Version va x (v Version va) then None else Some false)
    /\ call (OR Version (rangeFunc Version va) None) x
       = (if c Version va x (v Version va) then Some true else None).
Proof.
  intros Version r1 r2 r3 va vb x. unfold AND, OR, rangeFunc. cbn [call].
  split; [discriminate |]. split; [discriminate |].
  split; [destruct (call r1 x) as [[|] |]; reflexivity |].
  split; [destruct (call r1 x) as [[|] |]; reflexivity |].
  split.
  { destruct (call r1 x) as [[|] |]; [| reflexivity | reflexivity].
    destruct (call r2 x) as [[|] |]; reflexivity. }
  split.
  { destruct (call r1 x) as [[|] |]; [reflexivity | | reflexivity].
    destruct (call r2 x) as [[|] |]; reflexivity. }
  repeat split; destruct (c Version va x (v Version va)); reflexivity.
Qed.

(** ** The separator of the groups over a canonical expression *)

Lemma star_loop_fails (n0 : nat) (rs : list (ascii * ascii)) (k : cont) (rest : string) :
  stops rs rest = true ->
  forall (fuel : nat) (w : string) (c : caps),
    sall (in_class rs) w = true ->
    (forall i c', k (drop i w ++ rest) c' = None) ->
    star_loop (m n0 (Cls rs)) k fuel (w ++ rest) c = None.
Proof.
  intros Hstop. induction fuel as [| fuel IH]; intros w c Hw Hk.
  - exact (Hk 0%nat c).
  - destruct w as [| a w].
    + cbn [append star_loop m]. destruct rest as [| ch t]; [exact (Hk 0%nat c) |].
      cbn [stops] in Hstop. apply negb_true_iff in Hstop. rewrite Hstop.
      exact (Hk 0%nat c).
    + cbn [sall] in Hw. apply andb_true_iff in Hw. destruct Hw as [Ha Hw].
      cbn [append star_loop m]. rewrite Ha.
      assert (Hlt : (length (w ++ rest) <? length (String a (w ++ rest)))%nat = true)
        by (apply Nat.ltb_lt; cbn; lia).
      rewrite Hlt, IH; [exact (Hk 0%nat c) | exact Hw |].
      intros i c'. exact (Hk (S i) c').
Qed.

Lemma reOr_prog :
  prog reOr
  = Cap 0 (Seq (Star Grammar.space) (Seq (Chr "|") (Seq (Chr "|") (Star Grammar.space)))).
Proof. reflexivity. Qed.

(** No separator starts on a plain byte, nor on a blank before one. *)
Lemma reOr_miss (n0 : nat) (w : string) (c : ascii) (t : string) :
  w = "" \/ w = " " -> plain c = true ->
  matchHere reOr n0 (w ++ String c t) = None.
Proof.
  intros Hw Hc. unfold matchHere. rewrite reOr_prog. cbn [m].
  apply star_loop_fails.
  - cbn [stops]. rewrite (plain_not_space c Hc). reflexivity.
  - destruct Hw as [-> | ->]; reflexivity.
  - intros i c'.
    assert (Hbar : Ascii.eqb "|" c = false)
      by (rewrite Ascii.eqb_sym; apply (plain_other "|" c eq_refl Hc)).
    destruct Hw as [-> | ->].
    + destruct i; cbn [drop append m]; rewrite Hbar; reflexivity.
    + destruct i as [| i]; cbn [drop append m]; [reflexivity |].
      destruct i; cbn [drop append m]; rewrite Hbar; reflexivity.
Qed.

(** The separator with its blanks is the match that starts on its blank. *)
Lemma reOr_sep (n0 : nat) (c : ascii) (t : string) :
  plain c = true ->
  matchHere reOr n0 (" || " ++ String c t) = Some (String c t, or_caps).
Proof.
  intros Hc. unfold matchHere. rewrite reOr_prog.
  assert (H : first_match n0
                (Cap 0 (Seq (Star Grammar.space)
                          (Seq (Chr "|") (Seq (Chr "|") (Star Grammar.space)))))
                " || " (String c t) (fun cs => upd 0 (Some " || ") cs)).
  { apply (fm_cap n0 0 _ " || " _ (fun cs => cs)).
    apply (fm_seq n0 _ _ " " "|| " _ (fun cs => cs) (fun cs => cs)).
    - apply fm_star_cls; reflexivity.
    - apply (fm_seq n0 _ _ "|" "| " _ (fun cs => cs) (fun cs => cs)); [apply fm_chr |].
      apply (fm_seq n0 _ _ "|" " " _ (fun cs => cs) (fun cs => cs)); [apply fm_chr |].
      apply fm_star_cls; [reflexivity |].
      cbn [stops]. rewrite (plain_not_space c Hc). reflexivity. }
  apply (H accept). reflexivity.
Qed.

Lemma pushes_app (a b : string) (r : list (string * caps) * string) :
  pushes a (pushes b r) = pushes (a ++ b) r.
Proof.
  destruct r as [[| [g c] ms] tl]; cbn [pushes]; rewrite app_assoc_s; reflexivity.
Qed.

Lemma reOr_plain (n0 : nat) (c : ascii) (t : string) :
  plain c = true -> matchHere reOr n0 (String c t) = None.
Proof. intros Hc. exact (reOr_miss n0 "" c t (or_introl eq_refl) Hc). Qed.

(** The search steps over a segment. *)
Lemma matches_segment (n0 : nat) (ws : list string) :
  forall (w : string) (fuel : nat) (rest : string) (b : bool),
    word w -> Forall word ws ->
    (length (strings.Join (w :: ws) " ") <= fuel)%nat ->
    matches fuel reOr n0 (strings.Join (w :: ws) " " ++ rest) b
    = pushes (strings.Join (w :: ws) " ")
        (matches (fuel - length (strings.Join (w :: ws) " ")) reOr n0 rest false).
Proof.
  induction ws as [| w2 ws IH]; intros w fuel rest b Hw Hws Hf.
  - cbn [strings.Join] in *.
    rewrite (matches_skip reOr n0 (reOr_plain n0)) by (try apply Hw; lia).
    destruct Hw as [Hne _]. destruct w; [contradiction | reflexivity].
  - inversion Hws as [| ? ? Hw2 Hws']; subst.
    rewrite Join_cons in *. rewrite length_app_s in Hf. cbn [append length] in Hf.
    rewrite !app_assoc_s. cbn [append].
    rewrite (matches_skip reOr n0 (reOr_plain n0)) by (try apply Hw; lia).
    destruct (Join_head w2 ws Hw2 Hws') as [c [t [EJ Hc]]].
    destruct (fuel - length w)%nat as [| f] eqn:Ef; [lia |].
    rewrite matches_S. cbv zeta.
    assert (Hmiss : matchHere reOr n0 (String " " (strings.Join (w2 :: ws) " " ++ rest)) = None).
    { rewrite EJ. exact (reOr_miss n0 " " c (t ++ rest) (or_intror eq_refl) Hc). }
    rewrite Hmiss, (IH w2 f rest false Hw2 Hws') by lia.
    replace (fuel - length (w ++ String " " (strings.Join (w2 :: ws) " ")))%nat
      with (f - length (strings.Join (w2 :: ws) " "))%nat
      by (rewrite length_app_s; cbn [length]; lia).
    rewrite push_pushes.
    destruct Hw as [Hne _]. destruct w as [| x w']; [contradiction |].
    rewrite pushes_app. reflexivity.
Qed.

Lemma segment_head (A : string) : segment A -> exists c t, A = String c t /\ plain c = true.
Proof. intros (w & ws & -> & Hw & Hws). exact (Join_head w ws Hw Hws). Qed.

Lemma Join_or_cons (A B : string) (As : list string) :
  strings.Join (A :: B :: As) " || " = A ++ " || " ++ strings.Join (B :: As) " || ".
Proof. reflexivity. Qed.

Lemma Join_or_head (A : string) (As : list string) :
  segment A -> exists c t, strings.Join (A :: As) " || " = String c t /\ plain c = true.
Proof.
  intros HA. destruct (segment_head A HA) as (c & t & -> & Hc).
  destruct As as [| B As]; [exists c, t; auto |].
  rewrite Join_or_cons. cbn [append]. eexists c, _. auto.
Qed.

(** The matches of the separator over a canonical expression. *)
Lemma matches_reOr (n0 : nat) (As : list string) :
  forall (A : string) (fuel : nat) (b : bool),
    Forall segment (A :: As) ->
    (length (strings.Join (A :: As) " || ") < fuel)%nat ->
    matches fuel reOr n0 (strings.Join (A :: As) " || ") b
    = (map (fun t => (t, or_caps)) (removelast (A :: As)), last (A :: As) "").
Proof.
  induction As as [| B As IH]; intros A fuel b HF Hf;
    inversion HF as [| ? ? HA HFs]; subst.
  - cbn [strings.Join removelast last map] in *.
    destruct HA as (w & ws & -> & Hw & Hws).
    rewrite <- (app_nil_r_s (strings.Join (w :: ws) " ")) at 1.
    rewrite (matches_segment n0 ws w fuel "" b Hw Hws) by lia.
    destruct (fuel - length (strings.Join (w :: ws) " "))%nat as [| f] eqn:Ef; [lia |].
    rewrite matches_S. cbv zeta. change (matchHere reOr n0 "") with (@None (string * caps)).
    cbn [pushes]. rewrite app_nil_r_s. reflexivity.
  - rewrite Join_or_cons in *. rewrite length_app_s in Hf.
    inversion HFs as [| ? ? HB _]; subst.
    destruct (Join_or_head B As HB) as (c & t & EJ & Hc).
    destruct HA as (w & ws & -> & Hw & Hws).
    rewrite (matches_segment n0 ws w fuel _ b Hw Hws) by lia.
    rewrite length_app_s in Hf. cbn [length] in Hf.
    destruct (fuel - length (strings.Join (w :: ws) " "))%nat as [| f] eqn:Ef; [lia |].
    rewrite matches_S. cbv zeta. rewrite EJ, (reOr_sep n0 c t Hc).
    assert (Hlt : (length (String c t) <? length (" || " ++ String c t))%nat = true)
      by (apply Nat.ltb_lt; cbn; lia).
    rewrite Hlt, <- EJ, (IH B f true HFs) by lia.
    cbn [pushes removelast last map]. rewrite app_nil_r_s.
    destruct As; reflexivity.
Qed.

Lemma splitLoop_segments (As : list string) :
  forall (beg e0 : nat),
    exists last_,
      splitLoop (map (fun t => (t, or_caps)) As) beg e0 = (As, last_)
      /\ (As = [] -> last_ = e0)
      /\ (As <> [] -> (last_ < beg + segments_length As)%nat).
Proof.
  induction As as [| A As IH]; intros beg e0.
  - exists e0. cbn. repeat split; auto. intros H. contradiction.
  - cbn [map splitLoop segments_length].
    change (length (group or_caps 0)) with 4%nat.
    destruct (IH (beg + length A + 4)%nat (beg + length A)%nat) as [l [E [Hnil Hne]]].
    rewrite E. exists l.
    destruct (Nat.eqb_spec (beg + length A + 4) 0) as [Hz | _]; [lia |].
    split; [reflexivity |]. split; [discriminate |]. intros _.
    destruct As as [| A' As'].
    + rewrite (Hnil eq_refl). cbn. lia.
    + assert (Hl : (l < beg + length A + 4 + segments_length (A' :: As'))%nat)
        by (apply Hne; discriminate).
      lia.
Qed.

Lemma length_Join_or (As : list string) :
  forall A, length (strings.Join (A :: As) " || ")
            = (segments_length (removelast (A :: As)) + length (last (A :: As) ""))%nat.
Proof.
  induction As as [| B As IH]; intros A.
  - reflexivity.
  - rewrite Join_or_cons, length_app_s. cbn [append length].
    rewrite (IH B). cbn [removelast last segments_length].
    destruct As; cbn [segments_length]; lia.
Qed.

(** The separators split a canonical expression into its segments. *)
Lemma Split_reOr (A : string) (As : list string) :
  Forall segment (A :: As) ->
  Split reOr (strings.Join (A :: As) " || ") = A :: As.
Proof.
  intros HF. inversion HF as [| ? ? HA HFs]; subst.
  rewrite Split_unfold.
  2:{ destruct (Join_or_head A As HA) as (c & t & EJ & _). rewrite EJ. discriminate. }
  unfold allMatches.
  rewrite (matches_reOr _ As A _ false HF) by lia.
  destruct (splitLoop_segments (removelast (A :: As)) 0 0) as [l [E [Hnil Hne]]].
  rewrite E, (length_Join_or As A).
  assert (Hl : (l =? segments_length (removelast (A :: As)) + length (last (A :: As) ""))%nat
               = false).
  { apply Nat.eqb_neq. destruct (removelast (A :: As)) as [| r rs] eqn:Er.
    - rewrite (Hnil eq_refl). cbn [segments_length].
      assert (Hlast : last (A :: As) "" = A).
      { destruct As; [reflexivity | discriminate]. }
      rewrite Hlast. destruct (segment_head A HA) as (c & t & -> & _). cbn; lia.
    - assert (l < 0 + segments_length (r :: rs))%nat by (apply Hne; discriminate). lia. }
  rewrite Hl. symmetry. apply app_removelast_last. discriminate.
Qed.

(** ** [ParseRange] on a canonical expression *)

Lemma parseRange_sequence (w : string) (ws : list string) :
  canonical_token w -> Forall canonical_token ws ->
  parseRange (strings.TrimSpace (strings.Join (w :: ws) " ")) = w :: ws.
Proof.
  intros Hw Hws.
  pose proof (canonical_token_word w Hw) as Ww.
  pose proof (Forall_word ws Hws) as Wws.
  pose proof (Join_plain_or_blank ws w Ww Wws) as Hall.
  assert (HT : strings.TrimSpace (strings.Join (w :: ws) " ") = strings.Join (w :: ws) " ").
  { destruct (Join_head w ws Ww Wws) as [c [t [E Hc]]].
    destruct (Join_last ws w Hw Hws) as [a [d [E' Hd]]].
    rewrite E in *. apply (TrimSpace_plain c d t a Hc Hd E'). }
  rewrite HT. unfold parseRange. rewrite HT.
  assert (HH : hyphenReplace getRegex (strings.Join (w :: ws) " ") = strings.Join (w :: ws) " ").
  { unfold hyphenReplace. rewrite (MatchString_needs _ "-"); [reflexivity | reflexivity |].
    apply lacks; [reflexivity | reflexivity | exact Hall]. }
  rewrite HH, (ReplaceAllString_comparatortrim w ws Hw Hws).
  rewrite (ReplaceAllString_needs (getRegex "TILDETRIM") "~");
    [| reflexivity | apply lacks; [reflexivity | reflexivity | exact Hall]].
  rewrite (ReplaceAllString_needs (getRegex "CARETTRIM") "^");
    [| reflexivity | apply lacks; [reflexivity | reflexivity | exact Hall]].
  rewrite (Split_reSpaces w ws Ww Wws), (splitByte_words ws w Ww Wws).
  assert (HM : map (parseComparatorString getRegex) (w :: ws) = w :: ws).
  { rewrite <- (map_id (w :: ws)) at 2. apply map_ext_in.
    intros tok Hin. apply token_parseComparatorString.
    destruct Hin as [<- | Hin]; [exact Hw |].
    rewrite Forall_forall in Hws. apply Hws, Hin. }
  rewrite HM. apply (Split_reSpaces w ws Ww Wws).
Qed.

Lemma group_segment (g : list string) :
  g <> [] -> Forall canonical_token g -> segment (strings.Join g " ").
Proof.
  intros Hne HF. destruct g as [| w ws]; [contradiction |].
  inversion HF as [| ? ? Hw Hws]; subst.
  exists w, ws. split; [reflexivity |].
  split; [apply canonical_token_word; exact Hw | apply Forall_word; exact Hws].
Qed.

Lemma spec_groups_canonical (g : list string) (gs : list (list string)) :
  Forall (fun g => g <> [] /\ Forall canonical_token g) (g :: gs) ->
  spec_groups (strings.Join (map (fun g => strings.Join g " ") (g :: gs)) " || ") = g :: gs.
Proof.
  intros HF. unfold spec_groups. cbn [map].
  rewrite Split_reOr.
  - change (strings.Join g " " :: map (fun g0 => strings.Join g0 " ") gs)
      with (map (fun g0 => strings.Join g0 " ") (g :: gs)).
    rewrite map_map. rewrite <- (map_id (g :: gs)) at 2. apply map_ext_in.
    intros h Hin. rewrite Forall_forall in HF. destruct (HF h Hin) as [Hne Hh].
    destruct h as [| w ws]; [contradiction |].
    inversion Hh as [| ? ? Hw Hws]; subst. apply parseRange_sequence; assumption.
  - change (strings.Join g " " :: map (fun g0 => strings.Join g0 " ") gs)
      with (map (fun g0 => strings.Join g0 " ") (g :: gs)).
    apply Forall_map. revert HF. apply Forall_impl. intros h [Hne Hh].
    apply group_segment; assumption.
Qed.

(** X24.  On a canonical expression (groups of canonical tokens, one blank
    between the tokens and the separator || with a blank on each side between
    the groups), the groups [ParseRange] reads are the groups as written;
    when every token is a comparator, it returns a Range that is true exactly
    when all the comparators of some group are. *)
Theorem ParseRange_canonical_expression :
  forall (Version VersionError : Type) (Parse : string -> Version + VersionError)
         (Compare : Version -> Version -> Z) (digitTable : N -> bool)
         (g : list string) (gs : list (list string)),
    Forall (fun g => g <> [] /\ Forall canonical_token g) (g :: gs) ->
    let raw := strings.Join (map (fun g => strings.Join g " ") (g :: gs)) " || " in
    spec_groups raw = g :: gs
    /\ (Forall (Forall (accepted Parse digitTable)) (g :: gs) ->
        exists f : RangeFunc Version,
          ParseRange Version VersionError Parse Compare digitTable raw = (Some f, None)
          /\ forall x,
               f x = Some (existsb (forallb (comparatorHolds Parse Compare digitTable x))
                             (g :: gs))).
Proof.
  intros Version VersionError Parse Compare digitTable g gs HF raw.
  pose proof (spec_groups_canonical g gs HF) as Hg. fold raw in Hg.
  split; [exact Hg |]. intros Hacc.
  assert (Hok : exists f, ParseRange Version VersionError Parse Compare digitTable raw
                          = (Some f, None)).
  { apply ParseRange_succeeds. rewrite Hg. intros h tok Hh Htok.
    rewrite Forall_forall in Hacc. specialize (Hacc h Hh).
    rewrite Forall_forall in Hacc. exact (Hacc tok Htok). }
  destruct Hok as [f Hf]. exists f. split; [exact Hf |].
  intros x. revert Hf. unfold ParseRange.
  destruct (orLoop Version VersionError Parse Compare digitTable (expandedParts raw) None)
    as [orFn | err] eqn:E; [| discriminate].
  intros Hf; inversion Hf; subst orFn.
  pose proof (orLoop_groups Version VersionError Parse Compare digitTable
                (expandedParts raw) (Some f) (expandedParts_nonempty raw)
                (expandedParts_groups raw) E x) as Hcall.
  rewrite expandedParts_eq in Hcall. fold (spec_groups raw) in Hcall.
  rewrite Hg in Hcall. exact Hcall.
Qed.

Lemma ParseRange_canonical_expression_witness :
  spec_groups ">=1.2.3 <2.0.0 || =0.10.0" = [[">=1.2.3"; "<2.0.0"]; ["=0.10.0"]]
  /\ exists f : RangeFunc Collaborator.Version,
       ParseRangeV ">=1.2.3 <2.0.0 || =0.10.0" = (Some f, None)
       /\ forall x,
            f x = Some (existsb
                          (forallb (comparatorHolds Collaborator.Parse Collaborator.Compare
                                      Collaborator.Digit x))
                          [[">=1.2.3"; "<2.0.0"]; ["=0.10.0"]]).
Proof.
  assert (HF : Forall (fun g => g <> [] /\ Forall canonical_token g)
                 [[">=1.2.3"; "<2.0.0"]; ["=0.10.0"]]).
  { repeat constructor; try discriminate.
    - exists ">=", "1", "2", "3". repeat split; reflexivity.
    - exists "<", "2", "0", "0". repeat split; reflexivity.
    - exists "=", "0", "10", "0". repeat split; reflexivity. }
  destruct (ParseRange_canonical_expression Collaborator.Version Collaborator.ParseError
              Collaborator.Parse Collaborator.Compare Collaborator.Digit
              [">=1.2.3"; "<2.0.0"] [["=0.10.0"]] HF) as [H1 H2].
  split; [exact H1 |]. apply H2.
  repeat constructor;
    (eexists; eexists; eexists;
     split; [vm_compute; reflexivity | split; [simpl; tauto | vm_compute; reflexivity]]).
Defined.

(** ** What the expansions leave alone *)

Lemma contains_byte_drop (ch : ascii) (s : string) :
  forall n, contains_byte ch s = false -> contains_byte ch (drop n s) = false.
Proof.
  induction s as [| c s IH]; intros [| n] H; cbn [drop]; try exact H.
  cbn [contains_byte] in H. apply orb_false_iff in H. apply IH. tauto.
Qed.

Lemma trimLeft_lacks (ch : ascii) (fuel : nat) :
  forall s, contains_byte ch s = false -> contains_byte ch (strings.trimLeft fuel s) = false.
Proof.
  induction fuel as [| fuel IH]; intros s H; cbn [strings.trimLeft]; [exact H |].
  destruct s as [| c t]; [reflexivity |].
  destruct (utf8.DecodeRuneInString (String c t)) as [r size].
  destruct (unicode.IsSpace r); [| exact H].
  apply IH. apply contains_byte_drop. exact H.
Qed.

Lemma trimRight_rev_lacks (ch : ascii) (fuel : nat) :
  forall r, contains_byte ch r = false ->
            contains_byte ch (strings.trimRight_rev fuel r) = false.
Proof.
  induction fuel as [| fuel IH]; intros r H; cbn [strings.trimRight_rev]; [exact H |].
  destruct r as [| c t]; [reflexivity |].
  destruct (utf8.DecodeLastRune_rev (String c t)) as [ru size].
  destruct (unicode.IsSpace ru); [| exact H].
  apply IH. apply contains_byte_drop. exact H.
Qed.

Lemma TrimRightSpace_lacks (ch : ascii) (s : string) :
  contains_byte ch s = false -> contains_byte ch (strings.TrimRightSpace s) = false.
Proof.
  intros H. unfold strings.TrimRightSpace. rewrite contains_byte_srev.
  apply trimRight_rev_lacks. rewrite contains_byte_srev. exact H.
Qed.

Lemma trimSpace_stop_lacks (ch : ascii) (r : string) :
  contains_byte ch r = false -> contains_byte ch (strings.trimSpace_stop r) = false.
Proof.
  induction r as [| c t IH]; intros H; [reflexivity |]. cbn [strings.trimSpace_stop].
  destruct (utf8.RuneSelf <=? byte c)%N.
  - rewrite contains_byte_srev. apply TrimRightSpace_lacks.
    rewrite contains_byte_srev. exact H.
  - destruct (strings.asciiSpace c); [| exact H].
    apply IH. cbn [contains_byte] in H. apply orb_false_iff in H. tauto.
Qed.

(** [TrimSpace] brings in no byte. *)
Lemma TrimSpace_lacks (ch : ascii) (s : string) :
  contains_byte ch s = false -> contains_byte ch (strings.TrimSpace s) = false.
Proof.
  induction s as [| c t IH]; intros H; [reflexivity |]. cbn [strings.TrimSpace].
  destruct (utf8.RuneSelf <=? byte c)%N.
  - apply TrimRightSpace_lacks. unfold strings.TrimLeftSpace. apply trimLeft_lacks. exact H.
  - destruct (strings.asciiSpace c).
    + apply IH. cbn [contains_byte] in H. apply orb_false_iff in H. tauto.
    + rewrite contains_byte_srev. apply trimSpace_stop_lacks.
      rewrite contains_byte_srev. exact H.
Qed.

(** X25.  An expansion changes only a text that holds its mark: the hyphen
    for [hyphenReplace], the tilde for [replaceTilde], the caret for
    [replaceCaret]; [replaceStars] only trims a text without a star. *)
Theorem expansions_need_their_mark :
  forall s : string,
    (contains_byte "-" s = false -> hyphenReplace getRegex s = s)
    /\ (contains_byte "~" s = false -> replaceTilde getRegex s = s)
    /\ (contains_byte "^" s = false -> replaceCaret getRegex s = s)
    /\ (contains_byte "*" s = false -> replaceStars getRegex s = strings.TrimSpace s).
Proof.
  intros s. repeat split; intros H.
  - unfold hyphenReplace. rewrite (MatchString_needs _ "-" s); [reflexivity | reflexivity | exact H].
  - unfold replaceTilde. rewrite (MatchString_needs _ "~" s); [reflexivity | reflexivity | exact H].
  - unfold replaceCaret. rewrite (MatchString_needs _ "^" s); [reflexivity | reflexivity | exact H].
  - unfold replaceStars. apply (ReplaceAllString_needs _ "*"); [reflexivity |].
    apply TrimSpace_lacks. exact H.
Qed.

Lemma expansions_need_their_mark_witness :
  hyphenReplace getRegex ">=1.2.3 <2.0.0" = ">=1.2.3 <2.0.0"
  /\ replaceTilde getRegex "^1.2.3" = "^1.2.3"
  /\ replaceCaret getRegex "~1.2.3" = "~1.2.3"
  /\ replaceStars getRegex " 1.2.x " = "1.2.x".
Proof.
  split; [apply (proj1 (expansions_need_their_mark ">=1.2.3 <2.0.0")); reflexivity |].
  split; [apply (proj1 (proj2 (expansions_need_their_mark "^1.2.3"))); reflexivity |].
  split; [apply (proj1 (proj2 (proj2 (expansions_need_their_mark "~1.2.3")))); reflexivity |].
  apply (proj2 (proj2 (proj2 (expansions_need_their_mark " 1.2.x ")))). reflexivity.
Defined.

(** ** The entries on [splitComparatorVersion] and [parseComparator] *)

Lemma asciiFree_digits (dt : N -> bool) (s : string) :
  asciiFree (unicode.IsDigit dt) s = sall (fun c => negb (strconv.isDigit c)) s.
Proof.
  induction s as [| c s IH]; [reflexivity |].
  unfold asciiFree in *. cbn [sall]. rewrite IH, isDigit_ascii. f_equal.
  destruct (strconv.isDigit c) eqn:E; [| apply orb_true_r].
  rewrite (isDigit_low c E). reflexivity.
Qed.

(** X16.  [splitComparatorVersion] cuts a token before its first digit: the
    operator is the text before it, trimmed, and holds no digit 0-9; the
    version starts with a digit.  It fails only on a token other than x, and
    then the token holds no digit 0-9 and the error names the token. *)
Theorem splitComparatorVersion_parts :
  forall (VersionError : Type) (digitTable : N -> bool) (s : string),
    match splitComparatorVersion VersionError digitTable s with
    | inl (op, vs) =>
      (s = "x" /\ op = "" /\ vs = "x")
      \/ exists pre,
          s = pre ++ vs /\ op = strings.TrimSpace pre
          /\ sall (fun c => negb (strconv.isDigit c)) pre = true
          /\ unicode.IsDigit digitTable (fst (utf8.DecodeRuneInString vs)) = true
    | inr err =>
      err = ErrNoVersion s /\ s <> "x"
      /\ sall (fun c => negb (strconv.isDigit c)) s = true
    end.
Proof.
  intros VersionError digitTable s.
  destruct (splitComparatorVersion VersionError digitTable s) as [[op vs] | err] eqn:E.
  - destruct (splitComparatorVersion_inl VersionError digitTable s op vs E)
      as [H | (pre & H1 & H2 & H3 & H4)]; [left; exact H |].
    right. exists pre. rewrite asciiFree_digits in H3. tauto.
  - destruct (splitComparatorVersion_inr VersionError digitTable s err E) as (H1 & H2 & H3).
    rewrite asciiFree_digits in H3. tauto.
Qed.

(** X17.  On an operator of ASCII bytes that are not digits, followed by a
    version that starts with a digit 0-9, [splitComparatorVersion] returns the
    operator, trimmed, and the version. *)
Theorem splitComparatorVersion_token :
  forall (VersionError : Type) (digitTable : N -> bool) (op : string) (d : ascii)
         (t : string),
    sall (fun c => negb (high c) && negb (strconv.isDigit c)) op = true ->
    strconv.isDigit d = true ->
    splitComparatorVersion VersionError digitTable (op ++ String d t)
    = inl (strings.TrimSpace op, String d t).
Proof. intros. apply splitComparatorVersion_operator; assumption. Qed.

Lemma splitComparatorVersion_token_witness :
  splitComparatorVersion unit (fun _ => false) ">= 1.2.3" = inl (">=", "1.2.3").
Proof.
  apply (splitComparatorVersion_token unit (fun _ => false) ">= " "1" ".2.3"); reflexivity.
Defined.

(** X18.  [parseComparator] knows the nine operators and no other string; the
    comparator it returns reads the three-way comparison as the operator
    says.  [buildVersionRange] checks the operator before the version, and
    returns the parsed version with the comparator of the operator. *)
Theorem parseComparator_table :
  forall (Version VersionError : Type) (Parse : string -> Version + VersionError)
         (Compare : Version -> Version -> Z) (op vStr : string),
    (parseComparator Version Compare op = None
     <-> ~ In op [""; "="; "=="; "!"; "!="; ">"; ">="; "<"; "<="])
    /\ (forall cmp, parseComparator Version Compare op = Some cmp ->
          forall x y, cmp x y = true <-> spec_opHolds op (Compare x y))
    /\ match buildVersionRange Version VersionError Parse Compare op vStr with
       | inl vr =>
         Parse vStr = inl (v Version vr)
         /\ parseComparator Version Compare op = Some (c Version vr)
       | inr err =>
         (parseComparator Version Compare op = None
          /\ err = ErrComparator op (op ++ vStr))
         \/ (parseComparator Version Compare op <> None
             /\ exists e, Parse vStr = inr e /\ err = ErrVersion vStr (op ++ vStr) e)
       end.
Proof.
  intros Version VersionError Parse Compare op vStr. split; [| split].
  - apply (parseComparator_known Version VersionError Parse Compare).
  - intros cmp H x y. rewrite (parseComparator_opHolds Version Compare op cmp H).
    apply opHolds_iff.
  - unfold buildVersionRange.
    destruct (parseComparator Version Compare op) as [cmp |].
    + destruct (Parse vStr) as [ver | e].
      * split; reflexivity.
      * right. split; [discriminate |]. exists e. split; reflexivity.
    + left. split; reflexivity.
Qed.

(** ** The pattern XRANGE on a canonical token *)

(** X26.  XRANGE matches a canonical token whole: the submatches are the
    operator and the three numeric identifiers, and there is neither a
    prerelease nor a build; [replaceXRange] returns the token as it is. *)
Theorem XRANGE_canonical_token :
  forall op M mi p : string,
    canonical_op op = true -> numid M = true -> numid mi = true -> numid p = true ->
    MatchString (getRegex "XRANGE") (op ++ M ++ "." ++ mi ++ "." ++ p) = true
    /\ FindStringSubmatch (getRegex "XRANGE") (op ++ M ++ "." ++ mi ++ "." ++ p)
       = Some [op ++ M ++ "." ++ mi ++ "." ++ p; op; M; mi; p; ""; ""]
    /\ replaceXRange getRegex (op ++ M ++ "." ++ mi ++ "." ++ p)
       = op ++ M ++ "." ++ mi ++ "." ++ p.
Proof.
  intros op M mi p Hop HM Hm Hp.
  pose proof (xrange_canonical op M mi p Hop HM Hm Hp) as Hx.
  split; [exact (MatchString_submatch _ _ _ Hx) | split; [exact Hx |]].
  apply token_replaceXRange. exists op, M, mi, p. repeat split; assumption.
Qed.

Lemma XRANGE_canonical_token_witness :
  FindStringSubmatch (getRegex "XRANGE") ">=1.20.3" = Some [">=1.20.3"; ">="; "1"; "20"; "3"; ""; ""].
Proof.
  exact (proj1 (proj2 (XRANGE_canonical_token ">=" "1" "20" "3" eq_refl eq_refl eq_refl eq_refl))).
Defined.

(** ** The entries on the wildcard helpers *)

(** X11.  [createVersionFromWildcard]: a version of at least three parts,
    whatever the argument, so that neither increment panics on it; the
    wildcard forms, for parts free of dots and of the byte x, become the
    version with zeros for the wildcards and for the parts left out. *)
Theorem createVersionFromWildcard_forms :
  (forall v : string,
      (3 <= List.length (strings.splitByte "." (createVersionFromWildcard v) ""))%nat
      /\ incrementMinorVersion (createVersionFromWildcard v) <> None
      /\ incrementMajorVersion (createVersionFromWildcard v) <> None)
  /\ (forall M m p : string,
         contains_byte "." M = false ->
         contains_byte "." m = false -> contains_byte "x" m = false ->
         contains_byte "." p = false -> contains_byte "x" p = false ->
         createVersionFromWildcard M = M ++ ".0.0"
         /\ createVersionFromWildcard (M ++ ".x") = M ++ ".0.0"
         /\ createVersionFromWildcard (M ++ ".x.x") = M ++ ".0.0"
         /\ createVersionFromWildcard (M ++ "." ++ m) = M ++ "." ++ m ++ ".0"
         /\ createVersionFromWildcard (M ++ "." ++ m ++ ".x") = M ++ "." ++ m ++ ".0"
         /\ createVersionFromWildcard (M ++ "." ++ m ++ "." ++ p)
            = M ++ "." ++ m ++ "." ++ p).
Proof.
  split.
  - intros v. split; [apply createVersionFromWildcard_parts | split].
    + apply incrementMinorVersion_flat.
    + apply incrementMajorVersion_total.
  - apply createVersion_forms.
Qed.

Lemma createVersionFromWildcard_forms_witness :
  createVersionFromWildcard "1.2.x" = "1.2.0".
Proof.
  exact (proj1 (proj2 (proj2 (proj2 (proj2
           (proj2 createVersionFromWildcard_forms "1" "2" "3"
              eq_refl eq_refl eq_refl eq_refl eq_refl)))))).
Defined.

(** X12.  [incrementMajorVersion] does not panic; on a version with a numeral
    of at most 2^63-2 for its first part, it gives the next numeral and a
    zero for every other part. *)
Theorem incrementMajorVersion_rule :
  (forall v : string, incrementMajorVersion v <> None)
  /\ (forall (M : string) (ps : list string),
         incrementable M -> Forall (fun p => contains_byte "." p = false) ps ->
         incrementMajorVersion (strings.Join (M :: ps) ".")
         = Some (strings.Join (spec_next M :: map (fun _ => "0") ps) ".", None)).
Proof. split; [apply incrementMajorVersion_total | apply incrementMajor_parts]. Qed.

Lemma incrementMajorVersion_rule_witness :
  incrementMajorVersion "1.2.3" = Some ("2.0.0", None).
Proof.
  apply (proj2 incrementMajorVersion_rule "1" ["2"; "3"]).
  - split; [reflexivity | vm_compute; discriminate].
  - repeat constructor.
Defined.

(** X13.  [incrementMinorVersion] panics exactly on a version without a dot;
    on a version with a numeral of at most 2^63-2 for its second part, it
    gives the next numeral there and a zero for the third part, and keeps
    the others. *)
Theorem incrementMinorVersion_rule :
  (forall v : string, incrementMinorVersion v = None <-> contains_byte "." v = false)
  /\ (forall (A m : string) (ps : list string),
         contains_byte "." A = false -> incrementable m ->
         Forall (fun p => contains_byte "." p = false) ps ->
         incrementMinorVersion (strings.Join (A :: m :: ps) ".")
         = Some (strings.Join (A :: spec_next m
                                 :: match ps with [] => [] | _ :: t => "0" :: t end) ".",
                 None)).
Proof. split; [apply incrementMinor_panic | apply incrementMinor_parts]. Qed.

Lemma incrementMinorVersion_rule_witness :
  incrementMinorVersion "1.2.3" = Some ("1.3.0", None).
Proof.
  apply (proj2 incrementMinorVersion_rule "1" "2" ["3"]).
  - reflexivity.
  - split; [reflexivity | vm_compute; discriminate].
  - repeat constructor.
Defined.

Lemma splitAndTrim_one_byte_witness : splitAndTrim "1 <2.0.0" = splitAndTrim "<2.0.0".
Proof. apply (splitAndTrim_one_byte "1" "<2.0.0"); reflexivity. Defined.

(** ** The expansions from end to end *)

Lemma suffix_inv (s' : string) (c : ascii) (t : string) :
  suffix s' (String c t) -> s' = String c t \/ suffix s' t.
Proof.
  intros [p E]. destruct p as [| a p']; cbn [append] in E.
  - left. symmetry. exact E.
  - right. injection E as _ E. exists p'. exact E.
Qed.

Lemma spaceFree_suffix (s' s : string) :
  suffix s' s -> spaceFree s = true -> spaceFree s' = true.
Proof.
  intros [p ->]. unfold spaceFree. rewrite sall_app. intros H.
  apply andb_true_iff in H. apply H.
Qed.

Lemma spaceFree_stops (s : string) :
  spaceFree s = true ->
  stops [("009", "010"); ("012", "013"); (" ", " ")]%char s = true.
Proof.
  destruct s as [| c t]; [reflexivity |]. unfold spaceFree. cbn [sall stops].
  intros H. apply andb_true_iff in H. apply H.
Qed.

Lemma plain_spaceFree (w : string) : sall plain w = true -> spaceFree w = true.
Proof.
  unfold spaceFree. induction w as [| c t IH]; [reflexivity |]. cbn [sall].
  intros H. apply andb_true_iff in H. destruct H as [Hc Ht].
  rewrite (IH Ht), andb_true_r. unfold spaceByte. rewrite (plain_not_space c Hc). reflexivity.
Qed.

Lemma spaceFree_blank (s : string) : spaceFree s = true -> contains_byte " " s = false.
Proof.
  unfold spaceFree. induction s as [| c t IH]; [reflexivity |]. cbn [sall contains_byte].
  intros H. apply andb_true_iff in H. destruct H as [Hc Ht].
  rewrite (IH Ht), orb_false_r.
  destruct (Ascii.eqb_spec c " ") as [-> | _]; [discriminate Hc | reflexivity].
Qed.

(** A text without white space is one piece. *)
Lemma Split_reSpaces_one (s : string) :
  s <> "" -> spaceFree s = true -> Split reSpaces s = [s].
Proof.
  intros Hne Hf. rewrite Split_unfold by exact Hne. unfold allMatches.
  rewrite matches_none; [| lia |].
  - cbn [splitLoop]. destruct s as [| c t]; [contradiction | reflexivity].
  - intros s' Hs. apply reSpaces_miss, spaceFree_stops, (spaceFree_suffix _ _ Hs Hf).
Qed.

Lemma concat_pieces_push (repl : string) (ch : ascii) (r : list (string * caps) * string) :
  concat_pieces repl (fst (push ch r)) (snd (push ch r))
  = String ch (concat_pieces repl (fst r) (snd r)).
Proof. destruct r as [[| [g c] ms] tl]; reflexivity. Qed.

Lemma ReplaceAllString_pieces (re : Regexp) (s repl : string) :
  ReplaceAllString re s repl
  = concat_pieces repl (fst (allMatches re s)) (snd (allMatches re s)).
Proof. unfold ReplaceAllString. destruct (allMatches re s); reflexivity. Qed.

Lemma ReplaceAllString_miss (re : Regexp) (s repl : string) :
  (forall s', suffix s' s -> matchHere re (length s) s' = None) ->
  ReplaceAllString re s repl = s.
Proof.
  intros H. unfold ReplaceAllString, allMatches.
  rewrite matches_none; [reflexivity | lia | exact H].
Qed.

(** [TrimSpace] leaves a text that starts and ends with ASCII bytes other
    than white space. *)
Lemma TrimSpace_ends (c d : ascii) (t a : string) :
  (utf8.RuneSelf <=? byte c)%N = false -> strings.asciiSpace c = false ->
  (utf8.RuneSelf <=? byte d)%N = false -> strings.asciiSpace d = false ->
  String c t = a ++ String d "" ->
  strings.TrimSpace (String c t) = String c t.
Proof.
  intros Hc1 Hc2 Hd1 Hd2 E. cbn [strings.TrimSpace]. rewrite Hc1, Hc2.
  rewrite E, srev_app. change (srev (String d "")) with (String d "").
  cbn [append strings.trimSpace_stop]. rewrite Hd1, Hd2.
  rewrite srev_cons, srev_involutive. reflexivity.
Qed.

(** A version with its three numeric identifiers is a canonical token. *)
Lemma version_token (op M mi p : string) :
  canonical_op op = true -> numid M = true -> numid mi = true -> numid p = true ->
  canonical_token (op ++ M ++ "." ++ mi ++ "." ++ p).
Proof. intros Hop HM Hm Hp. exists op, M, mi, p. repeat split; assumption. Qed.

Section Marked.

Variables (ch : ascii) (M mi p : string).
Hypothesis Hch : ch = "^"%char \/ ch = "~"%char.
Hypothesis HM : numid M = true.
Hypothesis Hmi : numid mi = true.
Hypothesis Hp : numid p = true.

Local Abbreviation v := (M ++ "." ++ mi ++ "." ++ p).

Lemma marked_version : canonical_token v.
Proof. exact (version_token "" M mi p eq_refl HM Hmi Hp). Qed.

Lemma marked_TrimSpace : strings.TrimSpace (String ch v) = String ch v.
Proof.
  destruct (canonical_token_shape v marked_version) as (_ & _ & (a & d & E & Hd)).
  destruct (plain_ascii d Hd) as [Hd1 Hd2].
  apply (TrimSpace_ends ch d v (String ch a)); try assumption.
  - destruct Hch as [-> | ->]; reflexivity.
  - destruct Hch as [-> | ->]; reflexivity.
  - rewrite E. reflexivity.
Qed.

Lemma marked_spaceFree : spaceFree (String ch v) = true.
Proof.
  destruct (canonical_token_shape v marked_version) as (Hall & _).
  pose proof (plain_spaceFree v Hall) as H. unfold spaceFree in *. cbn [sall].
  rewrite H, andb_true_r. destruct Hch as [-> | ->]; reflexivity.
Qed.

Lemma marked_lacks (x : ascii) :
  plain x = false -> Ascii.eqb x " " = false -> Ascii.eqb ch x = false ->
  contains_byte x (String ch v) = false.
Proof.
  intros Hx Hs Hne. cbn [contains_byte].
  rewrite (token_lacks v marked_version x Hx Hs), orb_false_r. exact Hne.
Qed.

Lemma comparatortrim_mark (n0 : nat) (t : string) :
  matchHere (getRegex "COMPARATORTRIM") n0 (String ch t) = None.
Proof. destruct Hch as [-> | ->]; vm_compute; reflexivity. Qed.

Lemma marked_comparatortrim :
  ReplaceAllString (getRegex "COMPARATORTRIM") (String ch v) "$1$2$3" = String ch v.
Proof.
  rewrite ReplaceAllString_pieces. unfold allMatches.
  rewrite matches_S, comparatortrim_mark. cbv zeta.
  rewrite concat_pieces_push. f_equal.
  pose proof (comparatortrim_pieces (length (String ch v)) [] v "" (length (String ch v))
                false marked_version (Forall_nil _) (or_introl eq_refl)) as H.
  cbn [strings.Join append] in H. apply H. cbn [length]. lia.
Qed.

Lemma carettrim_prog :
  prog (getRegex "CARETTRIM")
  = Cap 0 (Seq (Cap 1 (Star Grammar.space))
             (Seq (Chr "^") (Seq Grammar.space (Star Grammar.space)))).
Proof. vm_compute. reflexivity. Qed.

Lemma tildetrim_prog :
  prog (getRegex "TILDETRIM")
  = Cap 0 (Seq (Cap 1 (Star Grammar.space))
             (Seq (Seq (Chr "~") (Opt (Chr ">")))
                (Seq Grammar.space (Star Grammar.space)))).
Proof. vm_compute. reflexivity. Qed.

(** The mark is not trimmed: a digit follows it, not white space. *)
Lemma carettrim_digit (n0 : nat) (d : ascii) (t : string) :
  strconv.isDigit d = true ->
  matchHere (getRegex "CARETTRIM") n0 (String "^" (String d t)) = None.
Proof.
  intros Hd. unfold matchHere. rewrite carettrim_prog. cbn [m].
  apply (star_loop_fails n0 _ _ (String "^" (String d t))) with (w := "");
    [reflexivity | reflexivity |].
  intros i c'. destruct i; cbn [drop append m]; rewrite Ascii.eqb_refl;
    unfold Grammar.space; cbn [m];
    (rewrite in_class_digit_apart; [reflexivity | reflexivity | exact Hd]).
Qed.

Lemma tildetrim_digit (n0 : nat) (d : ascii) (t : string) :
  strconv.isDigit d = true ->
  matchHere (getRegex "TILDETRIM") n0 (String "~" (String d t)) = None.
Proof.
  intros Hd. unfold matchHere. rewrite tildetrim_prog. cbn [m].
  assert (Hgt : Ascii.eqb ">" d = false)
    by (apply eqb_digit; [reflexivity | exact Hd]).
  apply (star_loop_fails n0 _ _ (String "~" (String d t))) with (w := "");
    [reflexivity | reflexivity |].
  intros i c'. destruct i; cbn [drop append m Opt]; rewrite Ascii.eqb_refl;
    unfold Grammar.space; cbn [m]; rewrite Hgt;
    (rewrite in_class_digit_apart; [reflexivity | reflexivity | exact Hd]).
Qed.

Lemma marked_trims :
  ReplaceAllString (getRegex "TILDETRIM") (String ch v) "$1~" = String ch v
  /\ ReplaceAllString (getRegex "CARETTRIM") (String ch v) "$1^" = String ch v.
Proof.
  pose proof marked_version as Hv.
  destruct (numid_cons M HM) as (d & t & EM & Hd & _).
  destruct Hch as [E | E]; split.
  - apply (ReplaceAllString_needs _ "~"); [reflexivity |].
    apply marked_lacks; [reflexivity | reflexivity | rewrite E; reflexivity].
  - apply ReplaceAllString_miss. intros s' Hs.
    destruct (suffix_inv _ _ _ Hs) as [-> | Hs'].
    + rewrite E, EM. cbn [append]. apply carettrim_digit, Hd.
    + apply (matchHere_needs _ _ "^"); [reflexivity |].
      apply (contains_byte_suffix _ _ _ Hs'), token_lacks; [exact Hv | reflexivity | reflexivity].
  - apply ReplaceAllString_miss. intros s' Hs.
    destruct (suffix_inv _ _ _ Hs) as [-> | Hs'].
    + rewrite E, EM. cbn [append]. apply tildetrim_digit, Hd.
    + apply (matchHere_needs _ _ "~"); [reflexivity |].
      apply (contains_byte_suffix _ _ _ Hs'), token_lacks; [exact Hv | reflexivity | reflexivity].
  - apply (ReplaceAllString_needs _ "^"); [reflexivity |].
    apply marked_lacks; [reflexivity | reflexivity | rewrite E; reflexivity].
Qed.

(** The normaliser on the single token: the expansions of
    [parseComparatorString] are all that is left. *)
Lemma marked_parseRange :
  parseRange (String ch v)
  = Split reSpaces (parseComparatorString getRegex (String ch v)).
Proof.
  unfold parseRange. rewrite marked_TrimSpace.
  assert (HH : hyphenReplace getRegex (String ch v) = String ch v).
  { unfold hyphenReplace. rewrite (MatchString_needs _ "-"); [reflexivity | reflexivity |].
    apply marked_lacks; [reflexivity | reflexivity |].
    destruct Hch as [-> | ->]; reflexivity. }
  rewrite HH, marked_comparatortrim.
  destruct marked_trims as [-> ->].
  assert (Hne : String ch v <> "") by discriminate.
  rewrite (Split_reSpaces_one _ Hne marked_spaceFree).
  cbn [strings.Join].
  assert (HS : strings.splitByte " " (String ch v) "" = [String ch v]).
  { apply (splitByte_Join " " [] (String ch v)). constructor; [| constructor].
    apply spaceFree_blank, marked_spaceFree. }
  rewrite HS. reflexivity.
Qed.

End Marked.

(** ** XRANGEPLAIN on a version *)

Lemma xrangeplain_number (i : nat) :
  fst (number Grammar.XRANGEPLAIN i)
  = Seq Grammar.vEqSpace
      (Seq (Cap i Grammar.XRANGEIDENTIFIER)
         (Opt (Seq Grammar.dot
                 (Seq (Cap (S i) Grammar.XRANGEIDENTIFIER)
                    (Opt (Seq Grammar.dot
                            (Seq (Cap (S (S i)) Grammar.XRANGEIDENTIFIER)
                               (Seq (Opt (fst (number Grammar.PRERELEASE (S (S (S i))))))
                                  (Opt (fst (number Grammar.BUILD (S (S (S (S i))))))))))))))).
Proof. reflexivity. Qed.

(** XRANGEPLAIN, its first group being the group [i], matches a version
    whole before a blank or the end; its groups are the three numbers. *)
Lemma fm_xrangeplain (n0 i : nat) (M mi p rest : string) :
  numid M = true -> numid mi = true -> numid p = true -> at_boundary rest = true ->
  first_match n0 (fst (number Grammar.XRANGEPLAIN i)) (M ++ "." ++ mi ++ "." ++ p) rest
    (fun c => upd (S (S i)) (Some p) (upd (S i) (Some mi) (upd i (Some M) c))).
Proof.
  intros HM Hm Hp Hrest.
  destruct (numid_cons M HM) as [d [t [EM [Hd Ht]]]].
  rewrite xrangeplain_number.
  apply (fm_seq _ _ _ "" (M ++ "." ++ mi ++ "." ++ p) rest (fun c => c)
           (fun c => upd (S (S i)) (Some p) (upd (S i) (Some mi) (upd i (Some M) c)))).
  { unfold Grammar.vEqSpace. apply fm_star_none. rewrite EM. cbn [append stops].
    rewrite in_class_digit_apart; [reflexivity | reflexivity | exact Hd]. }
  apply (fm_seq _ _ _ M ("." ++ mi ++ "." ++ p) rest (fun c => upd i (Some M) c)
           (fun c => upd (S (S i)) (Some p) (upd (S i) (Some mi) c))).
  { apply (fm_cap _ i _ M _ (fun c => c)). apply fm_xid; [exact HM | reflexivity]. }
  apply fm_alt_l.
  apply (fm_seq _ _ _ "." (mi ++ "." ++ p) rest (fun c => c)
           (fun c => upd (S (S i)) (Some p) (upd (S i) (Some mi) c))).
  { apply fm_chr. }
  apply (fm_seq _ _ _ mi ("." ++ p) rest (fun c => upd (S i) (Some mi) c)
           (fun c => upd (S (S i)) (Some p) c)).
  { apply (fm_cap _ (S i) _ mi _ (fun c => c)). apply fm_xid; [exact Hm | reflexivity]. }
  apply fm_alt_l.
  apply (fm_seq _ _ _ "." p rest (fun c => c) (fun c => upd (S (S i)) (Some p) c)).
  { apply fm_chr. }
  apply (fm_seq_r0 _ _ _ p rest (fun c => upd (S (S i)) (Some p) c) (fun c => c)).
  { apply (fm_cap _ (S (S i)) _ p _ (fun c => c)).
    apply fm_xid; [exact Hp | apply at_boundary_after_number, Hrest]. }
  apply (fm_seq _ _ _ "" "" rest (fun c => c) (fun c => c)).
  - apply fm_opt_skip. intros k c. destruct rest as [| x rt]; [reflexivity |].
    cbn in Hrest. apply Ascii.eqb_eq in Hrest. subst x. reflexivity.
  - apply fm_opt_skip. intros k c. destruct rest as [| x rt]; [reflexivity |].
    cbn in Hrest. apply Ascii.eqb_eq in Hrest. subst x. reflexivity.
Qed.

Lemma caret_prog :
  prog (getRegex "CARET")
  = Cap 0 (Seq Bol (Seq (Chr "^") (Seq (fst (number Grammar.XRANGEPLAIN 1)) Eol))).
Proof. vm_compute. reflexivity. Qed.

Lemma tilde_prog :
  prog (getRegex "TILDE")
  = Cap 0 (Seq Bol (Seq (Seq (Chr "~") (Opt (Chr ">")))
                      (Seq (fst (number Grammar.XRANGEPLAIN 1)) Eol))).
Proof. vm_compute. reflexivity. Qed.

(** CARET matches the caret and a version: the submatches are the three
    numbers, and there is neither a prerelease nor a build. *)
Lemma caret_canonical (M mi p : string) :
  numid M = true -> numid mi = true -> numid p = true ->
  FindStringSubmatch (getRegex "CARET") ("^" ++ M ++ "." ++ mi ++ "." ++ p)
  = Some ["^" ++ M ++ "." ++ mi ++ "." ++ p; M; mi; p; ""; ""].
Proof.
  intros HM Hm Hp.
  set (v := M ++ "." ++ mi ++ "." ++ p).
  set (tok := "^" ++ v).
  assert (Hfm : first_match (length tok)
                  (Cap 0 (Seq Bol (Seq (Chr "^") (Seq (fst (number Grammar.XRANGEPLAIN 1)) Eol))))
                  tok ""
                  (fun c => upd 0 (Some tok)
                              (upd 3 (Some p) (upd 2 (Some mi) (upd 1 (Some M) c))))).
  { apply (fm_cap _ 0 _ tok "" (fun c => upd 3 (Some p) (upd 2 (Some mi) (upd 1 (Some M) c)))).
    apply (fm_seq _ Bol _ "" tok "" (fun c => c)
             (fun c => upd 3 (Some p) (upd 2 (Some mi) (upd 1 (Some M) c)))).
    { apply fm_bol. cbn [append]. rewrite app_nil_r_s. reflexivity. }
    apply (fm_seq _ _ _ "^" v "" (fun c => c)
             (fun c => upd 3 (Some p) (upd 2 (Some mi) (upd 1 (Some M) c)))).
    { apply fm_chr. }
    apply (fm_seq_r0 _ _ _ v ""
             (fun c => upd 3 (Some p) (upd 2 (Some mi) (upd 1 (Some M) c))) (fun c => c));
      [| apply fm_eol].
    apply fm_xrangeplain; (assumption || reflexivity). }
  unfold FindStringSubmatch.
  assert (Hs : search (getRegex "CARET") (length tok) tok
               = Some ("", "", [Some tok; Some M; Some mi; Some p; None; None])).
  { apply search_here. unfold matchHere. rewrite caret_prog.
    pose proof (Hfm accept (repeat None (S (numSubexp (getRegex "CARET"))))) as H.
    rewrite app_nil_r_s in H. erewrite H; reflexivity. }
  rewrite Hs. reflexivity.
Qed.

Lemma tilde_canonical (M mi p : string) :
  numid M = true -> numid mi = true -> numid p = true ->
  FindStringSubmatch (getRegex "TILDE") ("~" ++ M ++ "." ++ mi ++ "." ++ p)
  = Some ["~" ++ M ++ "." ++ mi ++ "." ++ p; M; mi; p; ""; ""].
Proof.
  intros HM Hm Hp.
  destruct (numid_cons M HM) as [d [t [EM [Hd Ht]]]].
  set (v := M ++ "." ++ mi ++ "." ++ p).
  set (tok := "~" ++ v).
  assert (Hfm : first_match (length tok)
                  (Cap 0 (Seq Bol (Seq (Seq (Chr "~") (Opt (Chr ">")))
                                     (Seq (fst (number Grammar.XRANGEPLAIN 1)) Eol))))
                  tok ""
                  (fun c => upd 0 (Some tok)
                              (upd 3 (Some p) (upd 2 (Some mi) (upd 1 (Some M) c))))).
  { apply (fm_cap _ 0 _ tok "" (fun c => upd 3 (Some p) (upd 2 (Some mi) (upd 1 (Some M) c)))).
    apply (fm_seq _ Bol _ "" tok "" (fun c => c)
             (fun c => upd 3 (Some p) (upd 2 (Some mi) (upd 1 (Some M) c)))).
    { apply fm_bol. cbn [append]. rewrite app_nil_r_s. reflexivity. }
    apply (fm_seq _ _ _ "~" v "" (fun c => c)
             (fun c => upd 3 (Some p) (upd 2 (Some mi) (upd 1 (Some M) c)))).
    { rewrite app_nil_r_s.
      apply (fm_seq_r0 _ _ _ "~" v (fun c => c) (fun c => c)); [apply fm_chr |].
      apply fm_opt_skip. unfold v. rewrite EM. cbn [append].
      apply fails_chr, eqb_digit; [reflexivity | exact Hd]. }
    apply (fm_seq_r0 _ _ _ v ""
             (fun c => upd 3 (Some p) (upd 2 (Some mi) (upd 1 (Some M) c))) (fun c => c));
      [| apply fm_eol].
    apply fm_xrangeplain; (assumption || reflexivity). }
  unfold FindStringSubmatch.
  assert (Hs : search (getRegex "TILDE") (length tok) tok
               = Some ("", "", [Some tok; Some M; Some mi; Some p; None; None])).
  { apply search_here. unfold matchHere. rewrite tilde_prog.
    pose proof (Hfm accept (repeat None (S (numSubexp (getRegex "TILDE"))))) as H.
    rewrite app_nil_r_s in H. erewrite H; reflexivity. }
  rewrite Hs. reflexivity.
Qed.

(** ** The next numeral is a numeric identifier *)

Lemma digit_of (r : Z) :
  (0 <= r <= 9)%Z ->
  strconv.isDigit (ascii_of_N (Z.to_N (48 + r))) = true
  /\ (Ascii.eqb (ascii_of_N (Z.to_N (48 + r))) "0" = true -> r = 0%Z).
Proof.
  intros H.
  assert (E : (r = 0 \/ r = 1 \/ r = 2 \/ r = 3 \/ r = 4 \/ r = 5 \/ r = 6 \/ r = 7
               \/ r = 8 \/ r = 9)%Z) by lia.
  repeat (destruct E as [-> | E]); try subst r; split;
    first [reflexivity | discriminate | intros _; reflexivity].
Qed.

Lemma digits_numid (fuel : nat) :
  forall (n : Z) (acc : string),
    (1 <= n < 10 ^ Z.of_nat fuel)%Z -> sall strconv.isDigit acc = true ->
    numid (strconv.digits fuel n acc) = true.
Proof.
  induction fuel as [| fuel IH]; intros n acc Hn Hacc.
  - cbn in Hn. lia.
  - rewrite digits_S.
    assert (Hr : (0 <= n mod 10 <= 9)%Z) by (pose proof (Z.mod_pos_bound n 10); lia).
    destruct (digit_of (n mod 10) Hr) as [Hd H0].
    destruct (Z.ltb_spec n 10) as [Hlt | Hge].
    + cbn [numid].
      destruct (Ascii.eqb (ascii_of_N (Z.to_N (48 + n mod 10))) "0") eqn:E.
      * specialize (H0 eq_refl). rewrite Z.mod_small in H0 by lia. lia.
      * rewrite Hd, Hacc. reflexivity.
    + apply IH.
      * rewrite Nat2Z.inj_succ, Z.pow_succ_r in Hn by lia.
        split.
        -- apply Z.div_le_lower_bound; lia.
        -- apply Z.div_lt_upper_bound; lia.
      * cbn [sall]. rewrite Hd, Hacc. reflexivity.
Qed.

Lemma numid_spec_next (s : string) : numeral s = true -> numid (spec_next s) = true.
Proof.
  intros H. unfold numeral in H. apply andb_true_iff in H. destruct H as [_ Hd].
  pose proof (decimal_range s Hd) as Hr.
  unfold spec_next. apply digits_numid; [| reflexivity].
  rewrite Nat2Z.inj_succ, Z.pow_succ_r by lia. lia.
Qed.

Lemma numid_numeral (s : string) : numid s = true -> numeral s = true.
Proof.
  intros H. unfold numeral. rewrite (numid_digits s H), andb_true_r.
  destruct s; [discriminate | reflexivity].
Qed.

(** ** Canonical sequences under the expansions *)

Section Sequences.

Variables (w : string) (ws : list string).
Hypothesis Hw : canonical_token w.
Hypothesis Hws : Forall canonical_token ws.

Lemma sequence_word : word w /\ Forall word ws.
Proof. split; [apply canonical_token_word, Hw | apply Forall_word, Hws]. Qed.

Lemma sequence_all : Forall canonical_token (w :: ws).
Proof. constructor; assumption. Qed.

Lemma sequence_TrimSpace :
  strings.TrimSpace (strings.Join (w :: ws) " ") = strings.Join (w :: ws) " ".
Proof.
  destruct sequence_word as [Ww Wws].
  destruct (Join_head w ws Ww Wws) as [c [t [E Hc]]].
  destruct (Join_last ws w Hw Hws) as [a [d [E' Hd]]].
  rewrite E in *. apply (TrimSpace_plain c d t a Hc Hd E').
Qed.

Lemma sequence_lacks (x : ascii) :
  plain x = false -> Ascii.eqb x " " = false ->
  contains_byte x (strings.Join (w :: ws) " ") = false.
Proof.
  destruct sequence_word as [Ww Wws]. intros Hx Hs.
  apply lacks; [exact Hx | exact Hs | apply Join_plain_or_blank; assumption].
Qed.

Lemma sequence_map (f : string -> string) :
  (forall tok, canonical_token tok -> f tok = tok) -> map f (w :: ws) = w :: ws.
Proof.
  intros Hf. rewrite <- (map_id (w :: ws)) at 2. apply map_ext_in.
  intros tok Hin. apply Hf.
  pose proof sequence_all as Hall. rewrite Forall_forall in Hall. apply Hall, Hin.
Qed.

Lemma sequence_replaceTildes :
  replaceTildes getRegex (strings.Join (w :: ws) " ") = strings.Join (w :: ws) " ".
Proof.
  destruct sequence_word as [Ww Wws].
  unfold replaceTildes. rewrite sequence_TrimSpace, (Split_reSpaces w ws Ww Wws).
  rewrite sequence_map; [reflexivity |].
  intros tok Htok. unfold replaceTilde.
  rewrite (MatchString_needs _ "~"); [reflexivity | reflexivity |].
  apply token_lacks; [exact Htok | reflexivity | reflexivity].
Qed.

Lemma sequence_replaceXRanges :
  replaceXRanges getRegex (strings.Join (w :: ws) " ") = strings.Join (w :: ws) " ".
Proof.
  destruct sequence_word as [Ww Wws].
  unfold replaceXRanges. rewrite sequence_TrimSpace, (Split_reSpaces w ws Ww Wws).
  rewrite sequence_map; [reflexivity |].
  intros tok Htok. apply token_replaceXRange, Htok.
Qed.

Lemma sequence_replaceStars :
  replaceStars getRegex (strings.Join (w :: ws) " ") = strings.Join (w :: ws) " ".
Proof.
  unfold replaceStars. rewrite sequence_TrimSpace.
  apply (ReplaceAllString_needs _ "*"); [reflexivity |].
  apply sequence_lacks; reflexivity.
Qed.

(** What is left of the normaliser after [hyphenReplace], on a canonical
    sequence. *)
Lemma parseRange_after_hyphen (s : string) :
  hyphenReplace getRegex (strings.TrimSpace s) = strings.Join (w :: ws) " " ->
  parseRange s = w :: ws.
Proof.
  intros HH. destruct sequence_word as [Ww Wws].
  unfold parseRange. rewrite HH, (ReplaceAllString_comparatortrim w ws Hw Hws).
  rewrite (ReplaceAllString_needs (getRegex "TILDETRIM") "~");
    [| reflexivity | apply sequence_lacks; reflexivity].
  rewrite (ReplaceAllString_needs (getRegex "CARETTRIM") "^");
    [| reflexivity | apply sequence_lacks; reflexivity].
  rewrite (Split_reSpaces w ws Ww Wws), (splitByte_words ws w Ww Wws).
  rewrite (sequence_map (parseComparatorString getRegex) token_parseComparatorString).
  apply (Split_reSpaces w ws Ww Wws).
Qed.

End Sequences.

(** ** A caret or a tilde before a version *)

Lemma one_piece (f : string -> string) (s : string) :
  strings.TrimSpace s = s -> s <> "" -> spaceFree s = true ->
  strings.Join (map f (Split reSpaces (strings.TrimSpace s))) " " = f s.
Proof.
  intros HT Hne Hf. rewrite HT, (Split_reSpaces_one s Hne Hf). reflexivity.
Qed.

Lemma replaceCaret_version (M mi p : string) :
  numid M = true -> numid mi = true -> numid p = true ->
  incrementable (if String.eqb M "0" then if String.eqb mi "0" then p else mi else M) ->
  replaceCaret getRegex ("^" ++ M ++ "." ++ mi ++ "." ++ p)
  = strings.Join
      [">=" ++ M ++ "." ++ mi ++ "." ++ p;
       "<" ++ (if String.eqb M "0"
               then if String.eqb mi "0" then M ++ "." ++ mi ++ "." ++ spec_next p
                    else M ++ "." ++ spec_next mi ++ ".0"
               else spec_next M ++ ".0.0")] " ".
Proof.
  intros HM Hm Hp Hinc.
  pose proof (caret_canonical M mi p HM Hm Hp) as Hx.
  unfold replaceCaret. rewrite (MatchString_submatch _ _ _ Hx), Hx.
  cbn [negb sub nth].
  rewrite (numid_not_wildcard M HM), (numid_not_wildcard mi Hm), (numid_not_wildcard p Hp).
  cbn [length Nat.ltb Nat.leb strings.Join].
  destruct (String.eqb M "0"); [destruct (String.eqb mi "0") |];
    destruct Hinc as [Hn Hle]; rewrite (incr_in_range _ Hn Hle);
    rewrite !app_assoc_s; cbn [append]; rewrite ?app_assoc_s; reflexivity.
Qed.

Lemma replaceTilde_version (M mi p : string) :
  numid M = true -> numid mi = true -> numid p = true -> incrementable mi ->
  replaceTilde getRegex ("~" ++ M ++ "." ++ mi ++ "." ++ p)
  = strings.Join
      [">=" ++ M ++ "." ++ mi ++ "." ++ p; "<" ++ M ++ "." ++ spec_next mi ++ ".0"] " ".
Proof.
  intros HM Hm Hp [Hn Hle].
  pose proof (tilde_canonical M mi p HM Hm Hp) as Hx.
  unfold replaceTilde. rewrite (MatchString_submatch _ _ _ Hx), Hx.
  cbn [negb sub nth].
  rewrite (numid_not_wildcard M HM), (numid_not_wildcard mi Hm), (numid_not_wildcard p Hp).
  cbn [length Nat.ltb Nat.leb strings.Join].
  rewrite (incr_in_range _ Hn Hle).
  rewrite !app_assoc_s; cbn [append]; rewrite ?app_assoc_s; reflexivity.
Qed.

(** The expansions of [parseComparatorString] that follow the one that
    applies leave its two tokens as they are. *)
Lemma parseRange_two (t1 t2 : string) :
  canonical_token t1 -> canonical_token t2 ->
  Split reSpaces
    (replaceStars getRegex
       (replaceXRanges getRegex (strings.Join [t1; t2] " ")))
  = [t1; t2].
Proof.
  intros H1 H2.
  assert (HF : Forall canonical_token [t2]) by (constructor; [exact H2 | constructor]).
  rewrite (sequence_replaceXRanges t1 [t2] H1 HF), (sequence_replaceStars t1 [t2] H1 HF).
  apply Split_reSpaces; [apply canonical_token_word, H1 | apply Forall_word, HF].
Qed.

(** X27.  The caret before a version, through the whole normaliser: for
    numeric identifiers [M], [mi] and [p], the one the rule increments being at
    most 2^63-2, [parseRange] turns ^M.mi.p into the lower bound >=M.mi.p and
    the upper bound below the next major; below the next minor when the major
    is 0; below the next patch when the minor is 0 too. *)
Theorem parseRange_caret_version :
  forall M mi p : string,
    numid M = true -> numid mi = true -> numid p = true ->
    incrementable (if String.eqb M "0" then if String.eqb mi "0" then p else mi else M) ->
    parseRange ("^" ++ M ++ "." ++ mi ++ "." ++ p)
    = [">=" ++ M ++ "." ++ mi ++ "." ++ p;
       "<" ++ (if String.eqb M "0"
               then if String.eqb mi "0" then M ++ "." ++ mi ++ "." ++ spec_next p
                    else M ++ "." ++ spec_next mi ++ ".0"
               else spec_next M ++ ".0.0")].
Proof.
  intros M mi p HM Hm Hp Hinc.
  change ("^" ++ M ++ "." ++ mi ++ "." ++ p) with (String "^" (M ++ "." ++ mi ++ "." ++ p)).
  rewrite (marked_parseRange "^" M mi p (or_introl eq_refl) HM Hm Hp).
  unfold parseComparatorString, replaceCarets.
  rewrite (one_piece (replaceCaret getRegex));
    [| apply (marked_TrimSpace "^" M mi p (or_introl eq_refl) HM Hm Hp)
     | discriminate
     | apply (marked_spaceFree "^" M mi p (or_introl eq_refl) HM Hm Hp)].
  change (String "^" (M ++ "." ++ mi ++ "." ++ p)) with ("^" ++ M ++ "." ++ mi ++ "." ++ p).
  rewrite (replaceCaret_version M mi p HM Hm Hp Hinc).
  assert (H1 : canonical_token (">=" ++ M ++ "." ++ mi ++ "." ++ p))
    by (apply version_token; (assumption || reflexivity)).
  assert (H2 : canonical_token
                 ("<" ++ (if String.eqb M "0"
                          then if String.eqb mi "0" then M ++ "." ++ mi ++ "." ++ spec_next p
                               else M ++ "." ++ spec_next mi ++ ".0"
                          else spec_next M ++ ".0.0"))).
  { destruct (String.eqb M "0"); [destruct (String.eqb mi "0") |];
      destruct Hinc as [Hn _].
    - exact (version_token "<" M mi (spec_next p) eq_refl HM Hm (numid_spec_next p Hn)).
    - exact (version_token "<" M (spec_next mi) "0" eq_refl HM (numid_spec_next mi Hn) eq_refl).
    - exact (version_token "<" (spec_next M) "0" "0" eq_refl (numid_spec_next M Hn)
               eq_refl eq_refl). }
  assert (HF : Forall canonical_token
                 ["<" ++ (if String.eqb M "0"
                          then if String.eqb mi "0" then M ++ "." ++ mi ++ "." ++ spec_next p
                               else M ++ "." ++ spec_next mi ++ ".0"
                          else spec_next M ++ ".0.0")])
    by (constructor; [exact H2 | constructor]).
  rewrite (sequence_replaceTildes _ _ H1 HF).
  apply parseRange_two; assumption.
Qed.

Lemma parseRange_caret_version_witness :
  parseRange "^1.2.3" = [">=1.2.3"; "<2.0.0"]
  /\ parseRange "^0.2.3" = [">=0.2.3"; "<0.3.0"]
  /\ parseRange "^0.0.3" = [">=0.0.3"; "<0.0.4"].
Proof.
  assert (H : forall s, numeral s = true -> (strconv.decimal s 0 <= 2 ^ 63 - 2)%Z ->
                        incrementable s) by (intros s H1 H2; split; assumption).
  split; [| split].
  - apply (parseRange_caret_version "1" "2" "3" eq_refl eq_refl eq_refl).
    apply H; [reflexivity | vm_compute; discriminate].
  - apply (parseRange_caret_version "0" "2" "3" eq_refl eq_refl eq_refl).
    apply H; [reflexivity | vm_compute; discriminate].
  - apply (parseRange_caret_version "0" "0" "3" eq_refl eq_refl eq_refl).
    apply H; [reflexivity | vm_compute; discriminate].
Defined.

(** X28.  The tilde before a version, through the whole normaliser: for
    numeric identifiers [M], [mi] and [p], the minor being at most 2^63-2,
    [parseRange] turns ~M.mi.p into the lower bound >=M.mi.p and the upper
    bound below the next minor. *)
Theorem parseRange_tilde_version :
  forall M mi p : string,
    numid M = true -> numid mi = true -> numid p = true -> incrementable mi ->
    parseRange ("~" ++ M ++ "." ++ mi ++ "." ++ p)
    = [">=" ++ M ++ "." ++ mi ++ "." ++ p; "<" ++ M ++ "." ++ spec_next mi ++ ".0"].
Proof.
  intros M mi p HM Hm Hp Hinc.
  change ("~" ++ M ++ "." ++ mi ++ "." ++ p) with (String "~" (M ++ "." ++ mi ++ "." ++ p)).
  rewrite (marked_parseRange "~" M mi p (or_intror eq_refl) HM Hm Hp).
  unfold parseComparatorString, replaceCarets, replaceTildes.
  rewrite (one_piece (replaceCaret getRegex));
    [| apply (marked_TrimSpace "~" M mi p (or_intror eq_refl) HM Hm Hp)
     | discriminate
     | apply (marked_spaceFree "~" M mi p (or_intror eq_refl) HM Hm Hp)].
  assert (HC : replaceCaret getRegex (String "~" (M ++ "." ++ mi ++ "." ++ p))
               = String "~" (M ++ "." ++ mi ++ "." ++ p)).
  { unfold replaceCaret. rewrite (MatchString_needs _ "^"); [reflexivity | reflexivity |].
    apply (marked_lacks "~" M mi p HM Hm Hp); reflexivity. }
  rewrite HC.
  rewrite (one_piece (replaceTilde getRegex));
    [| apply (marked_TrimSpace "~" M mi p (or_intror eq_refl) HM Hm Hp)
     | discriminate
     | apply (marked_spaceFree "~" M mi p (or_intror eq_refl) HM Hm Hp)].
  change (String "~" (M ++ "." ++ mi ++ "." ++ p)) with ("~" ++ M ++ "." ++ mi ++ "." ++ p).
  rewrite (replaceTilde_version M mi p HM Hm Hp Hinc).
  apply parseRange_two.
  - exact (version_token ">=" M mi p eq_refl HM Hm Hp).
  - exact (version_token "<" M (spec_next mi) "0" eq_refl HM
             (numid_spec_next mi (proj1 Hinc)) eq_refl).
Qed.

Lemma parseRange_tilde_version_witness :
  parseRange "~1.2.3" = [">=1.2.3"; "<1.3.0"].
Proof.
  apply (parseRange_tilde_version "1" "2" "3" eq_refl eq_refl eq_refl).
  split; [reflexivity | vm_compute; discriminate].
Defined.

(** ** A hyphen between two versions *)

Lemma hyphenrange_prog :
  prog (getRegex "HYPHENRANGE")
  = Cap 0
      (Seq Bol
         (Seq (Star Grammar.space)
            (Seq (Cap 1 (fst (number Grammar.XRANGEPLAIN 2)))
               (Seq (Plus Grammar.space)
                  (Seq (Chr "-")
                     (Seq (Plus Grammar.space)
                        (Seq (Cap 7 (fst (number Grammar.XRANGEPLAIN 8)))
                           (Seq (Star Grammar.space) Eol)))))))).
Proof. vm_compute. reflexivity. Qed.

Lemma fm_blank (n0 : nat) (x : ascii) (t : string) :
  plain x = true \/ x = "-"%char ->
  first_match n0 (Plus Grammar.space) " " (String x t) (fun c => c).
Proof.
  intros Hx. unfold Plus, Grammar.space.
  apply (fm_seq_r0 _ _ _ " " (String x t) (fun c => c) (fun c => c)).
  - apply fm_cls. reflexivity.
  - apply fm_star_none. cbn [stops]. destruct Hx as [Hx | ->]; [| reflexivity].
    rewrite (plain_not_space x Hx). reflexivity.
Qed.

(** HYPHENRANGE matches two versions with a hyphen between blanks: the
    submatches are the two versions and their numbers. *)
Lemma hyphenrange_canonical (M1 m1 p1 M2 m2 p2 : string) :
  numid M1 = true -> numid m1 = true -> numid p1 = true ->
  numid M2 = true -> numid m2 = true -> numid p2 = true ->
  FindStringSubmatch (getRegex "HYPHENRANGE")
    ((M1 ++ "." ++ m1 ++ "." ++ p1) ++ " - " ++ M2 ++ "." ++ m2 ++ "." ++ p2)
  = Some [(M1 ++ "." ++ m1 ++ "." ++ p1) ++ " - " ++ M2 ++ "." ++ m2 ++ "." ++ p2;
          M1 ++ "." ++ m1 ++ "." ++ p1; M1; m1; p1; ""; "";
          M2 ++ "." ++ m2 ++ "." ++ p2; M2; m2; p2; ""; ""].
Proof.
  intros HM1 Hm1 Hp1 HM2 Hm2 Hp2.
  destruct (numid_cons M1 HM1) as [d1 [t1 [E1 [Hd1 _]]]].
  destruct (numid_cons M2 HM2) as [d2 [t2 [E2 [Hd2 _]]]].
  set (A := M1 ++ "." ++ m1 ++ "." ++ p1).
  set (B := M2 ++ "." ++ m2 ++ "." ++ p2).
  set (tok := A ++ " - " ++ B).
  assert (EA : exists tA, A = String d1 tA) by (unfold A; rewrite E1; eexists; reflexivity).
  assert (EB : exists tB, B = String d2 tB) by (unfold B; rewrite E2; eexists; reflexivity).
  destruct EA as [tA EA]. destruct EB as [tB EB].
  pose (fA := fun c : caps =>
                upd 1 (Some A) (upd 4 (Some p1) (upd 3 (Some m1) (upd 2 (Some M1) c)))).
  pose (fB := fun c : caps =>
                upd 7 (Some B) (upd 10 (Some p2) (upd 9 (Some m2) (upd 8 (Some M2) c)))).
  assert (Hfm : first_match (length tok)
                  (Cap 0
                     (Seq Bol
                        (Seq (Star Grammar.space)
                           (Seq (Cap 1 (fst (number Grammar.XRANGEPLAIN 2)))
                              (Seq (Plus Grammar.space)
                                 (Seq (Chr "-")
                                    (Seq (Plus Grammar.space)
                                       (Seq (Cap 7 (fst (number Grammar.XRANGEPLAIN 8)))
                                          (Seq (Star Grammar.space) Eol)))))))))
                  tok "" (fun c => upd 0 (Some tok) (fB (fA c)))).
  { apply (fm_cap _ 0 _ tok "" (fun c => fB (fA c))).
    apply (fm_seq _ Bol _ "" tok "" (fun c => c) (fun c => fB (fA c))).
    { apply fm_bol. cbn [append]. rewrite app_nil_r_s. reflexivity. }
    apply (fm_seq _ _ _ "" tok "" (fun c => c) (fun c => fB (fA c))).
    { unfold Grammar.space. apply fm_star_none. unfold tok. rewrite EA. cbn [append stops].
      rewrite in_class_digit_apart; [reflexivity | reflexivity | exact Hd1]. }
    apply (fm_seq _ _ _ A (" - " ++ B) "" fA fB).
    { apply (fm_cap _ 1 _ A _
               (fun c => upd 4 (Some p1) (upd 3 (Some m1) (upd 2 (Some M1) c)))).
      apply fm_xrangeplain; (assumption || reflexivity). }
    apply (fm_seq _ _ _ " " ("- " ++ B) "" (fun c => c) fB).
    { apply fm_blank. right. reflexivity. }
    apply (fm_seq _ _ _ "-" (" " ++ B) "" (fun c => c) fB).
    { apply fm_chr. }
    apply (fm_seq _ _ _ " " B "" (fun c => c) fB).
    { rewrite app_nil_r_s, EB. apply fm_blank. left.
      unfold plain. rewrite Hd2. reflexivity. }
    apply (fm_seq_r0 _ _ _ B "" fB (fun c => c)).
    { apply (fm_cap _ 7 _ B _
               (fun c => upd 10 (Some p2) (upd 9 (Some m2) (upd 8 (Some M2) c)))).
      apply fm_xrangeplain; (assumption || reflexivity). }
    apply (fm_seq _ _ _ "" "" "" (fun c => c) (fun c => c)).
    - unfold Grammar.space. apply fm_star_none. reflexivity.
    - apply fm_eol. }
  unfold FindStringSubmatch.
  assert (Hs : search (getRegex "HYPHENRANGE") (length tok) tok
               = Some ("", "",
                       [Some tok; Some A; Some M1; Some m1; Some p1; None; None;
                        Some B; Some M2; Some m2; Some p2; None; None])).
  { apply search_here. unfold matchHere. rewrite hyphenrange_prog.
    pose proof (Hfm accept (repeat None (S (numSubexp (getRegex "HYPHENRANGE"))))) as H.
    rewrite app_nil_r_s in H. erewrite H; reflexivity. }
  rewrite Hs. reflexivity.
Qed.

(** X29.  The hyphen between two versions, through the whole normaliser:
    for numeric identifiers, [parseRange] turns M1.m1.p1 - M2.m2.p2 into the
    range from the first version to the second, both included. *)
Theorem parseRange_hyphen_versions :
  forall M1 m1 p1 M2 m2 p2 : string,
    numid M1 = true -> numid m1 = true -> numid p1 = true ->
    numid M2 = true -> numid m2 = true -> numid p2 = true ->
    parseRange ((M1 ++ "." ++ m1 ++ "." ++ p1) ++ " - " ++ M2 ++ "." ++ m2 ++ "." ++ p2)
    = [">=" ++ M1 ++ "." ++ m1 ++ "." ++ p1; "<=" ++ M2 ++ "." ++ m2 ++ "." ++ p2].
Proof.
  intros M1 m1 p1 M2 m2 p2 HM1 Hm1 Hp1 HM2 Hm2 Hp2.
  pose proof (hyphenrange_canonical M1 m1 p1 M2 m2 p2 HM1 Hm1 Hp1 HM2 Hm2 Hp2) as Hx.
  assert (H1 : canonical_token (">=" ++ M1 ++ "." ++ m1 ++ "." ++ p1))
    by (apply version_token; (assumption || reflexivity)).
  assert (H2 : canonical_token ("<=" ++ M2 ++ "." ++ m2 ++ "." ++ p2))
    by (apply version_token; (assumption || reflexivity)).
  assert (HF : Forall canonical_token ["<=" ++ M2 ++ "." ++ m2 ++ "." ++ p2])
    by (constructor; [exact H2 | constructor]).
  apply (parseRange_after_hyphen _ _ H1 HF).
  assert (HT : strings.TrimSpace
                 ((M1 ++ "." ++ m1 ++ "." ++ p1) ++ " - " ++ M2 ++ "." ++ m2 ++ "." ++ p2)
               = (M1 ++ "." ++ m1 ++ "." ++ p1) ++ " - " ++ M2 ++ "." ++ m2 ++ "." ++ p2).
  { destruct (numid_cons M1 HM1) as [d1 [t1 [E1 [Hd1 _]]]].
    destruct (digits_last p2 (numid_digits p2 Hp2)) as (a & d & E2 & Hd2);
      [destruct p2; discriminate |].
    assert (Hhead : exists t,
               (M1 ++ "." ++ m1 ++ "." ++ p1) ++ " - " ++ M2 ++ "." ++ m2 ++ "." ++ p2
               = String d1 t)
      by (rewrite E1; cbn [append]; eexists; reflexivity).
    assert (Hlast : (M1 ++ "." ++ m1 ++ "." ++ p1) ++ " - " ++ M2 ++ "." ++ m2 ++ "." ++ p2
                    = ((M1 ++ "." ++ m1 ++ "." ++ p1) ++ " - " ++ M2 ++ "." ++ m2 ++ "." ++ a)
                      ++ String d "").
    { rewrite E2. repeat first [rewrite app_assoc_s | progress cbn [append]]. reflexivity. }
    destruct Hhead as [t Hhead]. rewrite Hhead in Hlast |- *.
    refine (TrimSpace_plain d1 d t _ _ _ Hlast).
    - unfold plain. rewrite Hd1. reflexivity.
    - unfold plain. rewrite Hd2. reflexivity. }
  rewrite HT. unfold hyphenReplace. rewrite (MatchString_submatch _ _ _ Hx), Hx.
  cbn [negb sub nth].
  rewrite (numid_not_wildcard M1 HM1), (numid_not_wildcard m1 Hm1), (numid_not_wildcard p1 Hp1),
    (numid_not_wildcard M2 HM2), (numid_not_wildcard m2 Hm2), (numid_not_wildcard p2 Hp2).
  cbn [length Nat.ltb Nat.leb].
  exact (sequence_TrimSpace _ _ H1 HF).
Qed.

Lemma parseRange_hyphen_versions_witness :
  parseRange "1.2.3 - 2.3.4" = [">=1.2.3"; "<=2.3.4"].
Proof.
  exact (parseRange_hyphen_versions "1" "2" "3" "2" "3" "4"
           eq_refl eq_refl eq_refl eq_refl eq_refl eq_refl).
Defined.

(** ** Versions with parts left out *)

Lemma fails_chr_nil (n0 : nat) (a : ascii) : fails n0 (Chr a) "".
Proof. intros k c. reflexivity. Qed.

Lemma fails_dot_seq (n0 : nat) (R : re) (rest : string) :
  fails n0 R rest -> fails n0 (Seq Grammar.dot R) ("." ++ rest).
Proof. intros H k c. exact (H k c). Qed.

Lemma fails_dot_digit (n0 : nat) (R : re) (d : ascii) (t : string) :
  strconv.isDigit d = true -> fails n0 (Seq Grammar.dot R) (String d t).
Proof.
  intros Hd. apply fails_seq, fails_chr, eqb_digit; [reflexivity | exact Hd].
Qed.

Lemma digits_drop (t : string) :
  sall strconv.isDigit t = true ->
  forall i, drop i t = ""
            \/ exists d t', drop i t = String d t' /\ strconv.isDigit d = true.
Proof.
  induction t as [| a t IH]; intros Ht i.
  - left. destruct i; reflexivity.
  - cbn [sall] in Ht. apply andb_true_iff in Ht. destruct Ht as [Ha Ht].
    destruct i as [| i]; cbn [drop].
    + right. exists a, t. split; [reflexivity | exact Ha].
    + apply IH, Ht.
Qed.

(** The loose number before a dot: when what follows the digits is not a
    dot and what the pattern goes on with, no shorter run of digits is. *)
Lemma fails_numloose_seq (n0 i : nat) (R : re) (X rest : string) :
  sall strconv.isDigit X = true -> stops [("0", "9")]%char rest = true ->
  fails n0 (Seq Grammar.dot R) rest ->
  fails n0 (Seq (Cap i Grammar.NUMERICIDENTIFIERLOOSE) (Seq Grammar.dot R)) (X ++ rest).
Proof.
  intros HX Hst HR k c.
  change (m n0 (Seq (Cap i Grammar.NUMERICIDENTIFIERLOOSE) (Seq Grammar.dot R)) k (X ++ rest) c)
    with (m n0 (Cls [("0", "9")]%char)
            (fun s1 c1 =>
               star_loop (m n0 (Cls [("0", "9")]%char))
                 (fun s' c' =>
                    m n0 (Seq Grammar.dot R) k s'
                      (upd i (Some (take (length (X ++ rest) - length s') (X ++ rest))) c'))
                 (S (length s1)) s1 c1)
            (X ++ rest) c).
  destruct X as [| d t]; cbn [append].
  - destruct rest as [| x r]; [reflexivity |]. cbn [stops] in Hst.
    apply negb_true_iff in Hst. cbn [m]. rewrite Hst. reflexivity.
  - cbn [sall] in HX. apply andb_true_iff in HX. destruct HX as [Hd Ht].
    cbn [m]. rewrite (in_class_digit d Hd).
    apply (star_loop_fails n0); [exact Hst | apply sall_in_class_digit, Ht |].
    intros j c'. cbv beta.
    destruct (digits_drop t Ht j) as [-> | (d' & t' & -> & Hd')]; cbn [append].
    + apply HR.
    + apply fails_dot_digit, Hd'.
Qed.

Lemma fails_numloose (n0 i : nat) (s : string) :
  stops [("0", "9")]%char s = true -> fails n0 (Cap i Grammar.NUMERICIDENTIFIERLOOSE) s.
Proof.
  intros Hst. apply fails_cap. unfold Grammar.NUMERICIDENTIFIERLOOSE, Plus.
  apply fails_seq. intros k c. destruct s as [| x r]; [reflexivity |].
  cbn [stops] in Hst. apply negb_true_iff in Hst. cbn [m]. rewrite Hst. reflexivity.
Qed.

Lemma fails_veq_seq (n0 : nat) (R : re) (d : ascii) (t : string) :
  strconv.isDigit d = true -> fails n0 R (String d t) ->
  fails n0 (Seq Grammar.vEqSpace R) (String d t).
Proof.
  intros Hd HR k c. unfold Grammar.vEqSpace. cbn [m].
  apply (star_loop_fails n0 _ _ (String d t)) with (w := "").
  - cbn [stops]. rewrite in_class_digit_apart; [reflexivity | reflexivity | exact Hd].
  - reflexivity.
  - intros i c'. destruct i; cbn [drop append]; apply HR.
Qed.

(** LOOSEPLAIN, which wants three numbers, matches no version with a part
    left out or with x for a part. *)
Lemma fails_looseplain_partial (n0 : nat) (M r : string) :
  numid M = true ->
  (r = ""
   \/ exists X2 r2, r = "." ++ X2 ++ r2 /\ (numid X2 = true \/ X2 = "x")
                    /\ (r2 = "" \/ r2 = ".x")) ->
  fails n0 (fst (number Grammar.LOOSEPLAIN 4)) (M ++ r).
Proof.
  intros HM Hr.
  destruct (numid_cons M HM) as [d [t [EM [Hd Ht]]]].
  change (fst (number Grammar.LOOSEPLAIN 4))
    with (Seq Grammar.vEqSpace
            (Seq (Seq (Cap 4 Grammar.NUMERICIDENTIFIERLOOSE)
                    (Seq Grammar.dot
                       (Seq (Cap 5 Grammar.NUMERICIDENTIFIERLOOSE)
                          (Seq Grammar.dot (Cap 6 Grammar.NUMERICIDENTIFIERLOOSE)))))
               (Seq (Opt (fst (number Grammar.PRERELEASELOOSE 7)))
                  (Opt (fst (number Grammar.BUILD 8)))))).
  assert (H : fails n0
                (Seq (Cap 4 Grammar.NUMERICIDENTIFIERLOOSE)
                   (Seq Grammar.dot
                      (Seq (Cap 5 Grammar.NUMERICIDENTIFIERLOOSE)
                         (Seq Grammar.dot (Cap 6 Grammar.NUMERICIDENTIFIERLOOSE)))))
                (M ++ r)).
  { apply fails_numloose_seq; [apply numid_digits, HM | |].
    - destruct Hr as [-> | (X2 & r2 & -> & _)]; reflexivity.
    - destruct Hr as [-> | (X2 & r2 & -> & HX & Hr2)].
      + apply fails_seq, fails_chr_nil.
      + apply fails_dot_seq. destruct HX as [HX | ->].
        * apply fails_numloose_seq; [apply numid_digits, HX | |];
            destruct Hr2 as [-> | ->]; try reflexivity.
          -- apply fails_seq, fails_chr_nil.
          -- apply fails_dot_seq, fails_numloose. reflexivity.
        * apply (fails_numloose_seq n0 5 _ "" ("x" ++ r2)); [reflexivity | reflexivity |].
          apply fails_seq, fails_chr. reflexivity. }
  rewrite EM in *. cbn [append] in *.
  apply fails_veq_seq; [exact Hd |]. apply fails_seq, H.
Qed.

(** ** XRANGEPLAIN on a version with a part left out, or with x for a part *)

Lemma fm_xid_any (n0 : nat) (X rest : string) :
  numid X = true \/ X = "x" -> after_number rest = true ->
  first_match n0 Grammar.XRANGEIDENTIFIER X rest (fun c => c).
Proof.
  intros [HX | ->] Hr; [apply fm_xid; assumption |].
  unfold Grammar.XRANGEIDENTIFIER. apply fm_alt_r.
  - unfold Grammar.NUMERICIDENTIFIER. apply fails_alt.
    + apply fails_chr. reflexivity.
    + apply fails_seq, fails_cls; [reflexivity | discriminate].
  - apply fm_alt_l, fm_chr.
Qed.

Lemma fm_tail_none (n0 : nat) (R : re) :
  first_match n0 (Opt (Seq Grammar.dot R)) "" "" (fun c => c).
Proof. apply fm_opt_skip, fails_seq, fails_chr_nil. Qed.

Section Shapes.

Variables (n0 i : nat) (M X2 : string).
Hypothesis HM : numid M = true.
Hypothesis HX : numid X2 = true \/ X2 = "x".

Lemma veq_none (r : string) :
  first_match n0 Grammar.vEqSpace "" (M ++ r) (fun c => c).
Proof.
  destruct (numid_cons M HM) as [d [t [EM [Hd Ht]]]].
  unfold Grammar.vEqSpace. apply fm_star_none. rewrite EM. cbn [append stops].
  rewrite in_class_digit_apart; [reflexivity | reflexivity | exact Hd].
Qed.

Lemma fm_xrangeplain_1 :
  first_match n0 (fst (number Grammar.XRANGEPLAIN i)) M "" (fun c => upd i (Some M) c).
Proof.
  rewrite xrangeplain_number.
  apply (fm_seq _ _ _ "" M "" (fun c => c) (fun c => upd i (Some M) c)).
  { pose proof (veq_none "") as H. rewrite app_nil_r_s in H. rewrite app_nil_r_s. exact H. }
  apply (fm_seq_r0 _ _ _ M "" (fun c => upd i (Some M) c) (fun c => c)).
  { apply (fm_cap _ i _ M _ (fun c => c)). apply fm_xid; [exact HM | reflexivity]. }
  apply fm_tail_none.
Qed.

Lemma fm_xrangeplain_2 :
  first_match n0 (fst (number Grammar.XRANGEPLAIN i)) (M ++ "." ++ X2) ""
    (fun c => upd (S i) (Some X2) (upd i (Some M) c)).
Proof.
  rewrite xrangeplain_number.
  apply (fm_seq _ _ _ "" (M ++ "." ++ X2) "" (fun c => c)
           (fun c => upd (S i) (Some X2) (upd i (Some M) c))).
  { rewrite app_nil_r_s. apply veq_none. }
  apply (fm_seq _ _ _ M ("." ++ X2) "" (fun c => upd i (Some M) c)
           (fun c => upd (S i) (Some X2) c)).
  { apply (fm_cap _ i _ M _ (fun c => c)). apply fm_xid; [exact HM | reflexivity]. }
  apply fm_alt_l.
  apply (fm_seq _ _ _ "." X2 "" (fun c => c) (fun c => upd (S i) (Some X2) c)).
  { apply fm_chr. }
  apply (fm_seq_r0 _ _ _ X2 "" (fun c => upd (S i) (Some X2) c) (fun c => c)).
  { apply (fm_cap _ (S i) _ X2 _ (fun c => c)). apply fm_xid_any; [exact HX | reflexivity]. }
  apply fm_tail_none.
Qed.

Lemma fm_xrangeplain_3 :
  first_match n0 (fst (number Grammar.XRANGEPLAIN i)) (M ++ "." ++ X2 ++ ".x") ""
    (fun c => upd (S (S i)) (Some "x") (upd (S i) (Some X2) (upd i (Some M) c))).
Proof.
  rewrite xrangeplain_number.
  apply (fm_seq _ _ _ "" (M ++ "." ++ X2 ++ ".x") "" (fun c => c)
           (fun c => upd (S (S i)) (Some "x") (upd (S i) (Some X2) (upd i (Some M) c)))).
  { rewrite app_nil_r_s. apply veq_none. }
  apply (fm_seq _ _ _ M ("." ++ X2 ++ ".x") "" (fun c => upd i (Some M) c)
           (fun c => upd (S (S i)) (Some "x") (upd (S i) (Some X2) c))).
  { apply (fm_cap _ i _ M _ (fun c => c)). apply fm_xid; [exact HM | reflexivity]. }
  apply fm_alt_l.
  apply (fm_seq _ _ _ "." (X2 ++ ".x") "" (fun c => c)
           (fun c => upd (S (S i)) (Some "x") (upd (S i) (Some X2) c))).
  { apply fm_chr. }
  apply (fm_seq _ _ _ X2 ".x" "" (fun c => upd (S i) (Some X2) c)
           (fun c => upd (S (S i)) (Some "x") c)).
  { apply (fm_cap _ (S i) _ X2 _ (fun c => c)). apply fm_xid_any; [exact HX | reflexivity]. }
  apply fm_alt_l.
  apply (fm_seq _ _ _ "." "x" "" (fun c => c) (fun c => upd (S (S i)) (Some "x") c)).
  { apply fm_chr. }
  apply (fm_seq_r0 _ _ _ "x" "" (fun c => upd (S (S i)) (Some "x") c) (fun c => c)).
  { apply (fm_cap _ (S (S i)) _ "x" _ (fun c => c)).
    apply fm_xid_any; [right; reflexivity | reflexivity]. }
  apply (fm_seq _ _ _ "" "" "" (fun c => c) (fun c => c));
    apply fm_opt_skip; intros k c; reflexivity.
Qed.

End Shapes.

(** ** The normaliser on one token of digits, dots and x *)

Lemma last_byte (s : string) : s <> "" -> exists a e, s = a ++ String e "".
Proof.
  induction s as [| c s IH]; intros Hne; [contradiction |].
  destruct s as [| c' s'].
  - exists "", c. reflexivity.
  - destruct IH as (a & e & E); [discriminate |].
    exists (String c a), e. rewrite E. reflexivity.
Qed.

Lemma ReplaceAllString_whole (re : Regexp) (s repl : string) (c : caps) :
  s <> "" ->
  matchHere re (length s) s = Some ("", c) -> matchHere re (length s) "" = None ->
  ReplaceAllString re s repl = expand repl c None.
Proof.
  intros Hne Hm He. unfold ReplaceAllString, allMatches.
  rewrite matches_S, Hm.
  destruct s as [| a t]; [contradiction |].
  cbn [length Nat.ltb Nat.leb] in *. rewrite matches_S, He.
  cbn [concat_pieces append]. apply app_nil_r_s.
Qed.

Section Partial.

(** [T] is the token: it starts with a digit, and XRANGEPLAIN matches it
    whole, setting its groups by [fX]. *)
Variables (T : string) (d : ascii) (t : string) (fX : nat -> caps -> caps).
Hypothesis HT : T = String d t.
Hypothesis Hd : strconv.isDigit d = true.
Hypothesis Hbytes : sall (fun c => plain c || Ascii.eqb c "x") T = true.
Hypothesis Hloose : forall n0, fails n0 (fst (number Grammar.LOOSEPLAIN 4)) T.
Hypothesis Hplain :
  forall n0 i, first_match n0 (fst (number Grammar.XRANGEPLAIN i)) T "" (fX i).

Lemma partial_comparatortrim_match (n0 : nat) :
  matchHere (getRegex "COMPARATORTRIM") n0 T
  = Some ("", upd 0 (Some T)
                (upd 3 (Some T)
                   (fX 9 (upd 2 (Some "") (upd 1 (Some "") (repeat None 14)))))).
Proof.
  unfold matchHere. rewrite comparatortrim_prog_eq, comparatortrim_numSubexp.
  assert (H : first_match n0 comparatortrim_prog T ""
                (fun c => upd 0 (Some T)
                            (upd 3 (Some T) (fX 9 (upd 2 (Some "") (upd 1 (Some "") c)))))).
  { unfold comparatortrim_prog.
    apply (fm_cap _ 0 _ T ""
             (fun c => upd 3 (Some T) (fX 9 (upd 2 (Some "") (upd 1 (Some "") c))))).
    apply (fm_seq _ _ _ "" T "" (fun c => upd 1 (Some "") c)
             (fun c => upd 3 (Some T) (fX 9 (upd 2 (Some "") c)))).
    { apply (fm_cap _ 1 _ "" _ (fun c => c)). unfold Grammar.space.
      apply fm_star_none. rewrite app_nil_r_s, HT. cbn [stops].
      rewrite in_class_digit_apart; [reflexivity | reflexivity | exact Hd]. }
    apply (fm_seq _ _ _ "" T "" (fun c => upd 2 (Some "") c)
             (fun c => upd 3 (Some T) (fX 9 c))).
    { rewrite app_nil_r_s, HT. apply fm_gtlt; [reflexivity | exact Hd]. }
    apply (fm_seq _ _ _ "" T "" (fun c => c) (fun c => upd 3 (Some T) (fX 9 c))).
    { unfold Grammar.space. apply fm_star_none. rewrite app_nil_r_s, HT. cbn [stops].
      rewrite in_class_digit_apart; [reflexivity | reflexivity | exact Hd]. }
    apply (fm_cap _ 3 _ T "" (fX 9)).
    apply fm_alt_r; [rewrite app_nil_r_s; apply Hloose | apply Hplain]. }
  pose proof (H accept (repeat None 14)) as H'. rewrite app_nil_r_s in H'.
  apply H'. reflexivity.
Qed.

Lemma partial_xrange_search :
  search (getRegex "XRANGE") (length T) T
  = Some ("", "", upd 0 (Some T) (fX 2 (upd 1 (Some "") (repeat None 7)))).
Proof.
  apply search_here. unfold matchHere. rewrite xrange_prog_eq.
  assert (H : first_match (length T) xrange_prog T ""
                (fun c => upd 0 (Some T) (fX 2 (upd 1 (Some "") c)))).
  { unfold xrange_prog.
    apply (fm_cap _ 0 _ T "" (fun c => fX 2 (upd 1 (Some "") c))).
    apply (fm_seq _ Bol _ "" T "" (fun c => c) (fun c => fX 2 (upd 1 (Some "") c))).
    { apply fm_bol. cbn [append]. rewrite app_nil_r_s. reflexivity. }
    apply (fm_seq _ _ _ "" T "" (fun c => upd 1 (Some "") c) (fX 2)).
    { rewrite app_nil_r_s, HT. apply fm_gtlt; [reflexivity | exact Hd]. }
    apply (fm_seq _ _ _ "" T "" (fun c => c) (fX 2)).
    { unfold Grammar.space. apply fm_star_none. rewrite app_nil_r_s, HT. cbn [stops].
      rewrite in_class_digit_apart; [reflexivity | reflexivity | exact Hd]. }
    apply (fm_seq_r0 _ _ _ T "" (fX 2) (fun c => c)); [| apply fm_eol].
    apply Hplain. }
  pose proof (H accept (repeat None (S (numSubexp (getRegex "XRANGE"))))) as H'.
  rewrite app_nil_r_s in H'. apply H'. reflexivity.
Qed.

Lemma partial_lacks (x : ascii) :
  plain x = false -> Ascii.eqb x "x" = false -> contains_byte x T = false.
Proof.
  intros Hx Hne. clear HT Hloose Hplain. induction T as [| a s IH]; [reflexivity |].
  cbn [sall contains_byte] in *. apply andb_true_iff in Hbytes. destruct Hbytes as [Ha Hs].
  rewrite (IH Hs), orb_false_r.
  destruct (Ascii.eqb_spec a x) as [-> | _]; [| reflexivity].
  rewrite Hx, Hne in Ha. discriminate Ha.
Qed.

Lemma partial_spaceFree : spaceFree T = true.
Proof.
  clear HT Hloose Hplain. unfold spaceFree. induction T as [| a s IH]; [reflexivity |].
  cbn [sall] in *. apply andb_true_iff in Hbytes. destruct Hbytes as [Ha Hs].
  rewrite (IH Hs), andb_true_r. apply orb_true_iff in Ha. destruct Ha as [Ha | Ha].
  - unfold spaceByte. rewrite (plain_not_space a Ha). reflexivity.
  - apply Ascii.eqb_eq in Ha. subst a. reflexivity.
Qed.

Lemma partial_TrimSpace : strings.TrimSpace T = T.
Proof.
  assert (Hne : T <> "") by (rewrite HT; discriminate).
  destruct (last_byte T Hne) as (a & e & E).
  assert (He : (plain e || Ascii.eqb e "x") = true).
  { rewrite E, sall_app in Hbytes. apply andb_true_iff in Hbytes.
    destruct Hbytes as [_ H]. cbn [sall] in H. rewrite andb_true_r in H. exact H. }
  assert (Hd' : plain d = true) by (unfold plain; rewrite Hd; reflexivity).
  destruct (plain_ascii d Hd') as [Hd1 Hd2].
  rewrite HT in E |- *.
  apply (TrimSpace_ends d e t a Hd1 Hd2); [| | exact E].
  - apply orb_true_iff in He. destruct He as [He | He].
    + apply (plain_ascii e He).
    + apply Ascii.eqb_eq in He. subst e. reflexivity.
  - apply orb_true_iff in He. destruct He as [He | He].
    + apply (plain_ascii e He).
    + apply Ascii.eqb_eq in He. subst e. reflexivity.
Qed.

Hypothesis Htrim :
  expand "$1$2$3"
    (upd 0 (Some T)
       (upd 3 (Some T) (fX 9 (upd 2 (Some "") (upd 1 (Some "") (repeat None 14))))))
    None
  = T.

(** The normaliser on the token: the x-range expansion is all that is
    left. *)
Lemma partial_parseRange :
  parseRange T = Split reSpaces (replaceStars getRegex (replaceXRange getRegex T)).
Proof.
  assert (Hne : T <> "") by (rewrite HT; discriminate).
  unfold parseRange. rewrite partial_TrimSpace.
  assert (HH : hyphenReplace getRegex T = T).
  { unfold hyphenReplace. rewrite (MatchString_needs _ "-"); [reflexivity | reflexivity |].
    apply partial_lacks; reflexivity. }
  rewrite HH.
  rewrite (ReplaceAllString_whole _ T "$1$2$3" _ Hne
             (partial_comparatortrim_match (length T)) (comparatortrim_empty _)).
  rewrite Htrim.
  rewrite (ReplaceAllString_needs (getRegex "TILDETRIM") "~");
    [| reflexivity | apply partial_lacks; reflexivity].
  rewrite (ReplaceAllString_needs (getRegex "CARETTRIM") "^");
    [| reflexivity | apply partial_lacks; reflexivity].
  rewrite (Split_reSpaces_one T Hne partial_spaceFree). cbn [strings.Join].
  assert (HS : strings.splitByte " " T "" = [T]).
  { apply (splitByte_Join " " [] T). constructor; [| constructor].
    apply spaceFree_blank, partial_spaceFree. }
  rewrite HS. cbn [map strings.Join].
  unfold parseComparatorString, replaceCarets, replaceTildes, replaceXRanges.
  rewrite (one_piece (replaceCaret getRegex) T partial_TrimSpace Hne partial_spaceFree).
  assert (HC : replaceCaret getRegex T = T).
  { unfold replaceCaret. rewrite (MatchString_needs _ "^"); [reflexivity | reflexivity |].
    apply partial_lacks; reflexivity. }
  rewrite HC.
  rewrite (one_piece (replaceTilde getRegex) T partial_TrimSpace Hne partial_spaceFree).
  assert (HTi : replaceTilde getRegex T = T).
  { unfold replaceTilde. rewrite (MatchString_needs _ "~"); [reflexivity | reflexivity |].
    apply partial_lacks; reflexivity. }
  rewrite HTi.
  rewrite (one_piece (replaceXRange getRegex) T partial_TrimSpace Hne partial_spaceFree).
  reflexivity.
Qed.

(** When the x-range expansion gives two canonical tokens, these are the
    result. *)
Lemma partial_tokens (t1 t2 : string) :
  canonical_token t1 -> canonical_token t2 ->
  replaceXRange getRegex T = strings.Join [t1; t2] " " ->
  parseRange T = [t1; t2].
Proof.
  intros H1 H2 HX. rewrite partial_parseRange, HX.
  assert (HF : Forall canonical_token [t2]) by (constructor; [exact H2 | constructor]).
  rewrite (sequence_replaceStars t1 [t2] H1 HF).
  apply Split_reSpaces; [apply canonical_token_word, H1 | apply Forall_word, HF].
Qed.

End Partial.

Lemma replaceXRange_plain (T M mi p : string) :
  FindStringSubmatch (getRegex "XRANGE") T = Some [T; ""; M; mi; p; ""; ""] ->
  isX M = false ->
  replaceXRange getRegex T
  = if isX mi then ">=" ++ M ++ ".0.0 <" ++ incr (strconv.Atoi M) ++ ".0.0"
    else if isX p
         then ">=" ++ M ++ "." ++ mi ++ ".0 <" ++ M ++ "." ++ incr (strconv.Atoi mi) ++ ".0"
         else T.
Proof.
  intros Hx HM. unfold replaceXRange. rewrite (MatchString_submatch _ _ _ Hx), Hx.
  cbn [negb sub nth]. rewrite HM.
  change (String.eqb "" "=") with false. cbn [andb orb length Nat.ltb Nat.leb].
  destruct (isX mi); [reflexivity |]. destruct (isX p); reflexivity.
Qed.

Lemma xbytes_version (M : string) :
  numid M = true -> sall (fun c => plain c || Ascii.eqb c "x") M = true.
Proof.
  intros HM. pose proof (digits_plain M (numid_digits M HM)) as H.
  induction M as [| a s IH]; [reflexivity |]. cbn [sall] in *.
  apply andb_true_iff in H. destruct H as [Ha Hs]. rewrite Ha. cbn [orb].
  clear IH HM. induction s as [| b s IH]; [reflexivity |]. cbn [sall] in *.
  apply andb_true_iff in Hs. destruct Hs as [Hb Hs]. rewrite Hb. cbn [orb]. apply IH, Hs.
Qed.

Lemma xbytes_part (X : string) :
  numid X = true \/ X = "x" -> sall (fun c => plain c || Ascii.eqb c "x") X = true.
Proof. intros [H | ->]; [apply xbytes_version, H | reflexivity]. Qed.

Lemma two_tokens (a b : string) : strings.Join [a; b] " " = a ++ " " ++ b.
Proof. reflexivity. Qed.

Section Forms.

Variables (M X2 : string).
Hypothesis HM : numid M = true.
Hypothesis HX : numid X2 = true \/ X2 = "x".

Lemma minor_tokens :
  incrementable M ->
  canonical_token (">=" ++ M ++ ".0.0") /\ canonical_token ("<" ++ spec_next M ++ ".0.0")
  /\ ">=" ++ M ++ ".0.0 <" ++ incr (strconv.Atoi M) ++ ".0.0"
     = strings.Join [">=" ++ M ++ ".0.0"; "<" ++ spec_next M ++ ".0.0"] " ".
Proof.
  intros [Hn Hle]. split; [| split].
  - exact (version_token ">=" M "0" "0" eq_refl HM eq_refl eq_refl).
  - exact (version_token "<" (spec_next M) "0" "0" eq_refl (numid_spec_next M Hn)
             eq_refl eq_refl).
  - rewrite (incr_in_range M Hn Hle), two_tokens.
    repeat first [rewrite app_assoc_s | progress cbn [append]]. reflexivity.
Qed.

Lemma patch_tokens :
  numid X2 = true -> incrementable X2 ->
  canonical_token (">=" ++ M ++ "." ++ X2 ++ ".0")
  /\ canonical_token ("<" ++ M ++ "." ++ spec_next X2 ++ ".0")
  /\ ">=" ++ M ++ "." ++ X2 ++ ".0 <" ++ M ++ "." ++ incr (strconv.Atoi X2) ++ ".0"
     = strings.Join [">=" ++ M ++ "." ++ X2 ++ ".0"; "<" ++ M ++ "." ++ spec_next X2 ++ ".0"] " ".
Proof.
  intros H2 [Hn Hle]. split; [| split].
  - exact (version_token ">=" M X2 "0" eq_refl HM H2 eq_refl).
  - exact (version_token "<" M (spec_next X2) "0" eq_refl HM (numid_spec_next X2 Hn) eq_refl).
  - rewrite (incr_in_range X2 Hn Hle), two_tokens.
    repeat first [rewrite app_assoc_s | progress cbn [append]]. reflexivity.
Qed.

Lemma head_digit (r : string) :
  exists d t, M ++ r = String d t /\ strconv.isDigit d = true.
Proof.
  destruct (numid_cons M HM) as [d [t [EM [Hd _]]]].
  exists d, (t ++ r). rewrite EM. split; [reflexivity | exact Hd].
Qed.

(** The major alone. *)
Lemma parseRange_major :
  incrementable M ->
  parseRange M = [">=" ++ M ++ ".0.0"; "<" ++ spec_next M ++ ".0.0"].
Proof.
  intros Hinc. destruct (minor_tokens Hinc) as (H1 & H2 & E).
  destruct (head_digit "") as (d & t & HT & Hd). rewrite app_nil_r_s in HT.
  pose (fX := fun (i : nat) (c : caps) => upd i (Some M) c).
  assert (Hloose : forall n0, fails n0 (fst (number Grammar.LOOSEPLAIN 4)) M).
  { intros n0. pose proof (fails_looseplain_partial n0 M "" HM (or_introl eq_refl)) as H.
    rewrite app_nil_r_s in H. exact H. }
  assert (Hplain : forall n0 i,
             first_match n0 (fst (number Grammar.XRANGEPLAIN i)) M "" (fX i))
    by (intros n0 i; apply fm_xrangeplain_1, HM).
  apply (partial_tokens M d t fX HT Hd (xbytes_version M HM) Hloose Hplain eq_refl _ _ H1 H2).
  rewrite <- E.
  assert (Hx : FindStringSubmatch (getRegex "XRANGE") M = Some [M; ""; M; ""; ""; ""; ""]).
  { unfold FindStringSubmatch. rewrite (partial_xrange_search M d t fX HT Hd Hplain).
    reflexivity. }
  rewrite (replaceXRange_plain M M "" "" Hx (numid_not_wildcard M HM)). reflexivity.
Qed.

(** The major and a second part. *)
Lemma parseRange_two_parts :
  incrementable (if isX X2 then M else X2) ->
  parseRange (M ++ "." ++ X2)
  = if isX X2 then [">=" ++ M ++ ".0.0"; "<" ++ spec_next M ++ ".0.0"]
    else [">=" ++ M ++ "." ++ X2 ++ ".0"; "<" ++ M ++ "." ++ spec_next X2 ++ ".0"].
Proof.
  intros Hinc.
  destruct (head_digit ("." ++ X2)) as (d & t & HT & Hd).
  pose (fX := fun (i : nat) (c : caps) => upd (S i) (Some X2) (upd i (Some M) c)).
  assert (Hbytes : sall (fun c => plain c || Ascii.eqb c "x") (M ++ "." ++ X2) = true).
  { rewrite sall_app, (xbytes_version M HM). cbn [andb append sall plain].
    change (strconv.isDigit "." || Ascii.eqb "." "." || Ascii.eqb "." "<"
            || Ascii.eqb "." ">" || Ascii.eqb "." "=" || Ascii.eqb "." "x")%bool with true.
    apply (xbytes_part X2 HX). }
  assert (Hloose : forall n0, fails n0 (fst (number Grammar.LOOSEPLAIN 4)) (M ++ "." ++ X2)).
  { intros n0. apply (fails_looseplain_partial n0 M ("." ++ X2) HM). right.
    exists X2, "". rewrite app_nil_r_s. repeat split; [exact HX | left; reflexivity]. }
  assert (Hplain : forall n0 i,
             first_match n0 (fst (number Grammar.XRANGEPLAIN i)) (M ++ "." ++ X2) "" (fX i))
    by (intros n0 i; apply fm_xrangeplain_2; assumption).
  assert (Hx : FindStringSubmatch (getRegex "XRANGE") (M ++ "." ++ X2)
               = Some [M ++ "." ++ X2; ""; M; X2; ""; ""; ""]).
  { unfold FindStringSubmatch.
    rewrite (partial_xrange_search (M ++ "." ++ X2) d t fX HT Hd Hplain). reflexivity. }
  pose proof (replaceXRange_plain _ M X2 "" Hx (numid_not_wildcard M HM)) as HR.
  destruct HX as [H2 | ->].
  - rewrite (numid_not_wildcard X2 H2) in *. change (isX "") with true in HR. cbv iota in HR.
    destruct (patch_tokens H2 Hinc) as (H1 & H2' & E).
    apply (partial_tokens _ d t fX HT Hd Hbytes Hloose Hplain eq_refl _ _ H1 H2').
    rewrite <- E. exact HR.
  - change (isX "x") with true in *. cbv iota in HR, Hinc |- *.
    destruct (minor_tokens Hinc) as (H1 & H2' & E).
    apply (partial_tokens _ d t fX HT Hd Hbytes Hloose Hplain eq_refl _ _ H1 H2').
    rewrite <- E. exact HR.
Qed.

(** The major, a second part, and x for the third. *)
Lemma parseRange_three_parts :
  incrementable (if isX X2 then M else X2) ->
  parseRange (M ++ "." ++ X2 ++ ".x")
  = if isX X2 then [">=" ++ M ++ ".0.0"; "<" ++ spec_next M ++ ".0.0"]
    else [">=" ++ M ++ "." ++ X2 ++ ".0"; "<" ++ M ++ "." ++ spec_next X2 ++ ".0"].
Proof.
  intros Hinc.
  destruct (head_digit ("." ++ X2 ++ ".x")) as (d & t & HT & Hd).
  pose (fX := fun (i : nat) (c : caps) =>
                upd (S (S i)) (Some "x") (upd (S i) (Some X2) (upd i (Some M) c))).
  assert (Hbytes : sall (fun c => plain c || Ascii.eqb c "x") (M ++ "." ++ X2 ++ ".x") = true).
  { rewrite sall_app, (xbytes_version M HM). cbn [andb append sall plain].
    change (strconv.isDigit "." || Ascii.eqb "." "." || Ascii.eqb "." "<"
            || Ascii.eqb "." ">" || Ascii.eqb "." "=" || Ascii.eqb "." "x")%bool with true.
    cbn [andb]. rewrite sall_app, (xbytes_part X2 HX). reflexivity. }
  assert (Hloose : forall n0,
             fails n0 (fst (number Grammar.LOOSEPLAIN 4)) (M ++ "." ++ X2 ++ ".x")).
  { intros n0. apply (fails_looseplain_partial n0 M ("." ++ X2 ++ ".x") HM). right.
    exists X2, ".x". repeat split; [exact HX | right; reflexivity]. }
  assert (Hplain : forall n0 i,
             first_match n0 (fst (number Grammar.XRANGEPLAIN i)) (M ++ "." ++ X2 ++ ".x") ""
               (fX i))
    by (intros n0 i; apply fm_xrangeplain_3; assumption).
  assert (Hx : FindStringSubmatch (getRegex "XRANGE") (M ++ "." ++ X2 ++ ".x")
               = Some [M ++ "." ++ X2 ++ ".x"; ""; M; X2; "x"; ""; ""]).
  { unfold FindStringSubmatch.
    rewrite (partial_xrange_search (M ++ "." ++ X2 ++ ".x") d t fX HT Hd Hplain).
    reflexivity. }
  pose proof (replaceXRange_plain _ M X2 "x" Hx (numid_not_wildcard M HM)) as HR.
  destruct HX as [H2 | ->].
  - rewrite (numid_not_wildcard X2 H2) in *. change (isX "x") with true in HR. cbv iota in HR.
    destruct (patch_tokens H2 Hinc) as (H1 & H2' & E).
    apply (partial_tokens _ d t fX HT Hd Hbytes Hloose Hplain eq_refl _ _ H1 H2').
    rewrite <- E. exact HR.
  - change (isX "x") with true in *. cbv iota in HR, Hinc |- *.
    destruct (minor_tokens Hinc) as (H1 & H2' & E).
    apply (partial_tokens _ d t fX HT Hd Hbytes Hloose Hplain eq_refl _ _ H1 H2').
    rewrite <- E. exact HR.
Qed.

End Forms.

(** X30.  A version with parts left out, or with x for its last parts,
    through the whole normaliser: for numeric identifiers [M] and [mi], the
    one that is incremented being at most 2^63-2, [parseRange] turns M, M.x and
    M.x.x into the range from M.0.0 up to the next major, and M.mi and M.mi.x
    into the range from M.mi.0 up to the next minor. *)
Theorem parseRange_partial_version :
  forall M mi : string,
    numid M = true -> numid mi = true ->
    (incrementable M ->
     parseRange M = [">=" ++ M ++ ".0.0"; "<" ++ spec_next M ++ ".0.0"]
     /\ parseRange (M ++ ".x") = [">=" ++ M ++ ".0.0"; "<" ++ spec_next M ++ ".0.0"]
     /\ parseRange (M ++ ".x.x") = [">=" ++ M ++ ".0.0"; "<" ++ spec_next M ++ ".0.0"])
    /\ (incrementable mi ->
        parseRange (M ++ "." ++ mi)
        = [">=" ++ M ++ "." ++ mi ++ ".0"; "<" ++ M ++ "." ++ spec_next mi ++ ".0"]
        /\ parseRange (M ++ "." ++ mi ++ ".x")
           = [">=" ++ M ++ "." ++ mi ++ ".0"; "<" ++ M ++ "." ++ spec_next mi ++ ".0"]).
Proof.
  intros M mi HM Hmi. split.
  - intros Hinc. split; [| split].
    + apply parseRange_major; assumption.
    + exact (parseRange_two_parts M "x" HM (or_intror eq_refl) Hinc).
    + exact (parseRange_three_parts M "x" HM (or_intror eq_refl) Hinc).
  - intros Hinc.
    pose proof (parseRange_two_parts M mi HM (or_introl Hmi)) as H2.
    pose proof (parseRange_three_parts M mi HM (or_introl Hmi)) as H3.
    rewrite (numid_not_wildcard mi Hmi) in H2, H3.
    split; [apply H2, Hinc | apply H3, Hinc].
Qed.

Lemma parseRange_partial_version_witness :
  (parseRange "1" = [">=1.0.0"; "<2.0.0"]
   /\ parseRange "1.x" = [">=1.0.0"; "<2.0.0"]
   /\ parseRange "1.x.x" = [">=1.0.0"; "<2.0.0"])
  /\ (parseRange "1.2" = [">=1.2.0"; "<1.3.0"]
      /\ parseRange "1.2.x" = [">=1.2.0"; "<1.3.0"]).
Proof.
  assert (H1 : incrementable "1") by (split; [reflexivity | vm_compute; discriminate]).
  assert (H2 : incrementable "2") by (split; [reflexivity | vm_compute; discriminate]).
  destruct (parseRange_partial_version "1" "2" eq_refl eq_refl) as [Ha Hb].
  split; [exact (Ha H1) | exact (Hb H2)].
Defined.
